(** * gsc (Go Simple Crypto): a shallow embedding and its checked properties

    The development follows the layout of the repository: byte and word
    utilities, the SM3 hash ([sm3/sm3.go]), the padding package, the block
    ciphers, the modes of operation (CBC, CFB, OFB, CTR, GCM) and SM2.

    Conventions.  A Go [byte] is a [Z] in [0, 256), a [uint32] a [Z] in
    [0, 2^32), with the wrap-around of every arithmetic operation written
    out.  A [[]byte] that is only read is a [list Z].  A Go function that
    returns [(value, error)] returns [option]; a run-time panic (slice bounds
    out of range, explicit [panic]) is [None] as well unless the two have
    to be told apart, in which case a dedicated result type is used. *)

From Stdlib Require Import ZArith List Lia Bool Btauto Permutation.
From coqutil Require Import Z.bitblast.
Import ListNotations.
Local Open Scope Z_scope.

(** ** Words and bytes *)

Module Word.

Definition wrap8 (x : Z) : Z := x mod 256.
Definition wrap32 (x : Z) : Z := x mod 4294967296.
Definition wrap64 (x : Z) : Z := x mod 18446744073709551616.

(** Conversion [int(x)] of a [uint64] on a 64-bit platform. *)
Definition int_of_uint64 (x : Z) : Z :=
  if x <? 9223372036854775808 then x else x - 18446744073709551616.

(** Signed 64-bit wrap-around of [int] arithmetic. *)
Definition wrap_int (x : Z) : Z :=
  int_of_uint64 (wrap64 x).

(** [bits.RotateLeft32(x, k)]: [s := uint(k) & 31; x<<s | x>>(32-s)]. *)
Definition RotateLeft32 (x : Z) (k : Z) : Z :=
  let s := Z.land k 31 in
  Z.lor (wrap32 (Z.shiftl x s)) (Z.shiftr x (32 - s)).

(** [^x] on a [uint32]. *)
Definition not32 (x : Z) : Z := Z.lxor x 4294967295.

(** [^x] on a [byte]. *)
Definition not8 (x : Z) : Z := Z.lxor x 255.

(** [binary.BigEndian.Uint32(p)] on the first four bytes of [p]. *)
Definition be_uint32 (p : list Z) : Z :=
  Z.lor (Z.lor (Z.lor (Z.shiftl (nth 0 p 0) 24) (Z.shiftl (nth 1 p 0) 16))
               (Z.shiftl (nth 2 p 0) 8)) (nth 3 p 0).

(** [binary.BigEndian.PutUint32]: the four bytes written. *)
Definition be_put_uint32 (v : Z) : list Z :=
  [wrap8 (Z.shiftr v 24); wrap8 (Z.shiftr v 16); wrap8 (Z.shiftr v 8); wrap8 v].

(** [binary.BigEndian.PutUint64]: the eight bytes written. *)
Definition be_put_uint64 (v : Z) : list Z :=
  [wrap8 (Z.shiftr v 56); wrap8 (Z.shiftr v 48); wrap8 (Z.shiftr v 40);
   wrap8 (Z.shiftr v 32); wrap8 (Z.shiftr v 24); wrap8 (Z.shiftr v 16);
   wrap8 (Z.shiftr v 8); wrap8 v].

(** [binary.LittleEndian.Uint32(p)] and [binary.LittleEndian.PutUint32]. *)
Definition le_uint32 (p : list Z) : Z :=
  Z.lor (Z.lor (Z.lor (nth 0 p 0) (Z.shiftl (nth 1 p 0) 8))
               (Z.shiftl (nth 2 p 0) 16)) (Z.shiftl (nth 3 p 0) 24).

Definition le_put_uint32 (v : Z) : list Z :=
  [wrap8 v; wrap8 (Z.shiftr v 8); wrap8 (Z.shiftr v 16); wrap8 (Z.shiftr v 24)].

(** [binary.BigEndian.Uint64(p)] on the first eight bytes of [p]. *)
Definition be_uint64 (p : list Z) : Z :=
  Z.lor (Z.lor (Z.lor (Z.lor (Z.lor (Z.lor (Z.lor
    (Z.shiftl (nth 0 p 0) 56) (Z.shiftl (nth 1 p 0) 48))
    (Z.shiftl (nth 2 p 0) 40)) (Z.shiftl (nth 3 p 0) 32))
    (Z.shiftl (nth 4 p 0) 24)) (Z.shiftl (nth 5 p 0) 16))
    (Z.shiftl (nth 6 p 0) 8)) (nth 7 p 0).

End Word.

(** ** Go slices of an immutable argument *)

Module Slice.

(** [copy(dst, src)] on the contents: the first [min (len dst) (len src)]
    elements of [dst] are overwritten. *)
Definition copy (dst src : list Z) : list Z :=
  firstn (length dst) src ++ skipn (length src) dst.

(** Number of elements that [copy(dst, src)] copies. *)
Definition copy_n (dst src : list Z) : nat :=
  Nat.min (length dst) (length src).

(** [copy(dst[off:], src)] seen from [dst]. *)
Definition copy_at (dst : list Z) (off : nat) (src : list Z) : list Z :=
  firstn off dst ++ copy (skipn off dst) src.

Definition zeros (n : nat) : list Z := repeat 0 n.

End Slice.

(** ** SM3 ([sm3/sm3.go], constants of [sm3/internal]) *)

Module SM3.
Import Word.

Definition BlockSize : Z := 64.
Definition Size : Z := 32.

Definition IV : list Z :=
  [0x7380166F; 0x4914B2B9; 0x172442D7; 0xDA8A0600;
   0xA96F30BC; 0x163138AA; 0xE38DEE4D; 0xB0FB0E4E].

(** The table [internal.T] as filled by [init]. *)
Definition T (j : Z) : Z :=
  if j <? 16 then 0x79CC4519 else 0x7A879D8A.

Definition ff (x y z j : Z) : Z :=
  if j <=? 15 then Z.lxor (Z.lxor x y) z
  else Z.lor (Z.lor (Z.land x y) (Z.land x z)) (Z.land y z).

Definition gg (x y z j : Z) : Z :=
  if j <=? 15 then Z.lxor (Z.lxor x y) z
  else Z.lor (Z.land x y) (Z.land (not32 x) z).

Definition p0 (x : Z) : Z :=
  Z.lxor (Z.lxor x (RotateLeft32 x 9)) (RotateLeft32 x 17).

Definition p1 (x : Z) : Z :=
  Z.lxor (Z.lxor x (RotateLeft32 x 15)) (RotateLeft32 x 23).

(** The digest structure. *)
Record digest : Type := mkDigest {
  h : list Z;      (* [8]uint32 *)
  x : list Z;      (* [BlockSize]byte *)
  nx : nat;        (* int, always in [0, 64) between calls *)
  len : Z          (* uint64 *)
}.

(** [w[i] = BigEndian.Uint32(p[4i:])] for [i < 16]. *)
Definition load_words (p : list Z) : list Z :=
  map (fun i => be_uint32 (skipn (4 * i) p)) (seq 0 16).

(** The loop [for i := 16; i < 68; i++] that extends [w]; [w] holds the
    entries already written, [n] counts the iterations left. *)
Fixpoint expand (n : nat) (w : list Z) : list Z :=
  match n with
  | O => w
  | S n' =>
      let i := length w in
      let at_ k := nth (i - k) w 0 in
      let wi := Z.lxor (Z.lxor
                  (p1 (Z.lxor (Z.lxor (at_ 16%nat) (at_ 9%nat))
                              (RotateLeft32 (at_ 3%nat) 15)))
                  (RotateLeft32 (at_ 13%nat) 7)) (at_ 6%nat) in
      expand n' (w ++ [wi])
  end.

(** [w1[i] = w[i] ^ w[i+4]] for [i < 64]. *)
Definition w_prime (w : list Z) : list Z :=
  map (fun i => Z.lxor (nth i w 0) (nth (i + 4) w 0)) (seq 0 64).

Definition regs : Type := (Z * Z * Z * Z * Z * Z * Z * Z)%type.

(** One iteration of the compression loop, at index [j]. *)
Definition round (w w1 : list Z) (j : nat) (r : regs) : regs :=
  let '(a, b, c, d, e, f, g, hh) := r in
  let jz := Z.of_nat j in
  let ss1 := RotateLeft32
               (wrap32 (wrap32 (RotateLeft32 a 12 + e) + RotateLeft32 (T jz) jz)) 7 in
  let ss2 := Z.lxor ss1 (RotateLeft32 a 12) in
  let tt1 := wrap32 (wrap32 (wrap32 (ff a b c jz + d) + ss2) + nth j w1 0) in
  let tt2 := wrap32 (wrap32 (wrap32 (gg e f g jz + hh) + ss1) + nth j w 0) in
  (tt1, a, RotateLeft32 b 9, c, p0 tt2, e, RotateLeft32 f 19, g).

Definition rounds (w w1 : list Z) (r : regs) : regs :=
  fold_left (fun acc j => round w w1 j acc) (seq 0 64) r.

(** The body of [for len(p) >= BlockSize] for one 64-byte chunk. *)
Definition compress (hs : regs) (p : list Z) : regs :=
  let w := expand 52 (load_words p) in
  let w1 := w_prime w in
  let '(h0, h1, h2, h3, h4, h5, h6, h7) := hs in
  let '(a, b, c, d, e, f, g, hh) := rounds w w1 hs in
  (Z.lxor h0 a, Z.lxor h1 b, Z.lxor h2 c, Z.lxor h3 d,
   Z.lxor h4 e, Z.lxor h5 f, Z.lxor h6 g, Z.lxor h7 hh).

(** [for len(p) >= BlockSize { ...; p = p[BlockSize:] }]; [n] bounds the
    number of iterations and [length p / 64] is always enough. *)
Fixpoint block_loop (n : nat) (hs : regs) (p : list Z) : regs :=
  match n with
  | O => hs
  | S n' =>
      if (64 <=? length p)%nat
      then block_loop n' (compress hs p) (skipn 64 p)
      else hs
  end.

Definition regs_of_list (l : list Z) : regs :=
  (nth 0 l 0, nth 1 l 0, nth 2 l 0, nth 3 l 0,
   nth 4 l 0, nth 5 l 0, nth 6 l 0, nth 7 l 0).

Definition list_of_regs (r : regs) : list Z :=
  let '(a, b, c, d, e, f, g, hh) := r in [a; b; c; d; e; f; g; hh].

(** [func (d *digest) block(p []byte)]: the new value of [d.h]. *)
Definition block (hs : list Z) (p : list Z) : list Z :=
  list_of_regs (block_loop (length p / 64) (regs_of_list hs) p).

(** [func (d *digest) Reset()].  The buffer of a fresh digest is zero. *)
Definition Reset (d : digest) : digest :=
  mkDigest IV (x d) 0 0.

Definition zero_digest : digest :=
  mkDigest (repeat 0 8) (repeat 0 64) 0 0.

(** [func (d *digest) Write(p []byte)]. *)
Definition Write (d : digest) (p : list Z) : digest :=
  let len1 := wrap64 (len d + Z.of_nat (length p)) in
  (* if d.nx > 0 *)
  let '(h1, x1, nx1, p1) :=
    if (0 <? nx d)%nat then
      let n := Slice.copy_n (skipn (nx d) (x d)) p in
      let xb := Slice.copy_at (x d) (nx d) p in
      let nxb := (nx d + n)%nat in
      if (nxb =? 64)%nat
      then (block (h d) xb, xb, 0%nat, skipn n p)
      else (h d, xb, nxb, skipn n p)
    else (h d, x d, nx d, p) in
  (* if len(p) >= BlockSize *)
  let '(h2, p2) :=
    if (64 <=? length p1)%nat then
      let n := (length p1 / 64 * 64)%nat in   (* len(p) &^ (BlockSize - 1) *)
      (block h1 (firstn n p1), skipn n p1)
    else (h1, p1) in
  (* if len(p) > 0 *)
  let '(x3, nx3) :=
    if (0 <? length p2)%nat
    then (Slice.copy x1 p2, Slice.copy_n x1 p2)
    else (x1, nx1) in
  mkDigest h2 x3 nx3 len1.

(** The number of zero bytes computed by [checkSum]:
    [padLen := BlockSize - ((int(len) + 1 + 8) % BlockSize)] followed by
    [if padLen <= 0 { padLen += BlockSize }].  Go's [%] truncates. *)
Definition padLen (len : Z) : Z :=
  let pl := 64 - Z.rem (wrap_int (wrap_int (int_of_uint64 len + 1) + 8)) 64 in
  if pl <=? 0 then pl + 64 else pl.

(** [func (d *digest) checkSum() [Size]byte].  [None] is a run-time panic:
    either the slice expression [tmp[:1+padLen]] on the 64-byte array
    [tmp] is out of range, or the explicit [panic("d.nx != 0")]. *)
Definition checkSum (d : digest) : option (list Z) :=
  let len0 := len d in
  let tmp := 0x80 :: repeat 0 63 in
  let pl := padLen len0 in
  if (1 + pl <? 0) || (64 <? 1 + pl) then None
  else
    let d1 := Write d (firstn (Z.to_nat (1 + pl)) tmp) in
    let bits := wrap64 (Z.shiftl len0 3) in
    let tmp' := Slice.copy tmp (be_put_uint64 bits) in
    let d2 := Write d1 (firstn 8 tmp') in
    if negb (nx d2 =? 0)%nat then None
    else Some (flat_map be_put_uint32 (h d2)).

(** Method [Sum(in)] of the streaming interface: works on a copy of [d]. *)
Definition digest_Sum (d : digest) (inp : list Z) : option (list Z) :=
  match checkSum d with
  | Some hash => Some (inp ++ hash)
  | None => None
  end.

(** Package function [func Sum(data []byte) [Size]byte]. *)
Definition Sum (data : list Z) : option (list Z) :=
  checkSum (Write (Reset zero_digest) data).

End SM3.


(** ** Results of fallible Go functions *)

(** The error values the packages declare or build with [errors.New]. *)
Inductive error : Type :=
  | ErrInvalidPadding        (* padding.ErrInvalidPadding, modes.ErrInvalidPadding *)
  | ErrEmptyData             (* "empty data" *)
  | ErrInvalidPaddingSize    (* "invalid padding size" *)
  | ErrInvalidISO7816        (* "invalid ISO7816 padding" *)
  | ErrNo0x80                (* "padding byte 0x80 not found" *)
  | ErrInvalidANSIX923       (* "invalid ANSI X.923 padding" *)
  | ErrAllZero               (* "all zero data" *)
  | ErrInvalidM1             (* "invalid M1 padding" *)
  | ErrInvalidTBC            (* "invalid TBC padding" *)
  | ErrInvalidKeySize
  | ErrInvalidBlockSize
  | ErrInvalidDataSize
  | ErrInvalidIV
  | ErrInvalidNonce
  | ErrTagMismatch
  | ErrInvalidRounds
  | ErrInvalidWordSize
  | ErrInvalidPrivateKey
  | ErrInvalidPublicKey
  | ErrInvalidCiphertext
  | ErrDecryptionFailed
  | ErrUnsupportedPointFormat  (* "sm2: unsupported point compression format" *)
  | ErrC1NotOnCurve            (* "sm2: C1 is not on the curve" *)
  | ErrRandom                  (* an error of the random source *)
  | ErrGCMUse                  (* "gcm: use Seal/Open" *)
  | Diverges.                  (* not a Go error: the loop never ends *)

(** [Ok v] is [(v, nil)], [Err e] is [(nil, e)], [Panic] a run-time panic. *)
Inductive result (A : Type) : Type :=
  | Ok (a : A)
  | Err (e : error)
  | Panic.
Arguments Ok {A} a.
Arguments Err {A} e.
Arguments Panic {A}.

Definition bind {A B : Type} (r : result A) (k : A -> result B) : result B :=
  match r with
  | Ok a => k a
  | Err e => Err e
  | Panic => Panic
  end.

(** ** Package padding: [padding/pkcs7.go] and [padding/zero.go] *)

Module PaddingFiles.
Import Word.

(** [padding := blockSize - (len(data) % blockSize)]; a zero block size is a
    division by zero, a negative one makes [bytes.Repeat] panic. *)
Definition pad_count (data : list Z) (blockSize : Z) : result Z :=
  if blockSize <=? 0 then Panic
  else Ok (blockSize - Z.rem (Z.of_nat (length data)) blockSize).

(** [func PKCS7Padding(data []byte, blockSize int) []byte] of pkcs7.go. *)
Definition PKCS7Padding (data : list Z) (blockSize : Z) : result (list Z) :=
  match pad_count data blockSize with
  | Ok padding0 =>
      let padding := if padding0 =? 0 then blockSize else padding0 in
      Ok (data ++ repeat (wrap8 padding) (Z.to_nat padding))
  | Err e => Err e
  | Panic => Panic
  end.

(** [func PKCS7Unpadding(data []byte) ([]byte, error)] of pkcs7.go. *)
Definition PKCS7Unpadding (data : list Z) : result (list Z) :=
  let length_ := length data in
  if (length_ =? 0)%nat then Err ErrInvalidPadding
  else
    let padding := Z.to_nat (nth (length_ - 1) data 0) in
    if (length_ <? padding)%nat then Err ErrInvalidPadding
    else if existsb (fun i => negb (nth i data 0 =? wrap8 (Z.of_nat padding)))
                    (seq (length_ - padding) padding)
    then Err ErrInvalidPadding
    else Ok (firstn (length_ - padding) data).

(** [func ZeroPadding(data []byte, blockSize int) []byte] of zero.go. *)
Definition ZeroPadding (data : list Z) (blockSize : Z) : result (list Z) :=
  match pad_count data blockSize with
  | Ok padding0 =>
      let padding := if padding0 =? 0 then blockSize else padding0 in
      Ok (data ++ repeat 0 (Z.to_nat padding))
  | Err e => Err e
  | Panic => Panic
  end.

(** The loop [for i := len(data) - 1; i >= 0; i--] of [ZeroUnpadding];
    [n] is [i + 1]. *)
Fixpoint zero_scan (data : list Z) (n : nat) : list Z :=
  match n with
  | O => []
  | S i => if negb (nth i data 0 =? 0) then firstn (i + 1) data
           else zero_scan data i
  end.

(** [func ZeroUnpadding(data []byte) []byte] of zero.go. *)
Definition ZeroUnpadding (data : list Z) : list Z :=
  zero_scan data (length data).

End PaddingFiles.

(** ** Package padding: the file with all the schemes *)

Module Padding.
Import Word.

(** [padding := blockSize - len(data)%blockSize], as above. *)
Definition pad_count (data : list Z) (blockSize : Z) : result Z :=
  if blockSize <=? 0 then Panic
  else Ok (blockSize - Z.rem (Z.of_nat (length data)) blockSize).

Definition with_padding (data : list Z) (blockSize : Z)
    (padtext : Z -> list Z) : result (list Z) :=
  match pad_count data blockSize with
  | Ok padding => Ok (data ++ padtext padding)
  | Err e => Err e
  | Panic => Panic
  end.

Definition PKCS7Padding (data : list Z) (blockSize : Z) : result (list Z) :=
  with_padding data blockSize
    (fun padding => repeat (wrap8 padding) (Z.to_nat padding)).

Definition M1Padding (data : list Z) (blockSize : Z) : result (list Z) :=
  with_padding data blockSize
    (fun padding => [0x80] ++ repeat 0x00 (Z.to_nat (padding - 1))).

Definition M2Padding (data : list Z) (blockSize : Z) : result (list Z) :=
  with_padding data blockSize
    (fun padding =>
       let padding := if padding =? blockSize then 0 else padding in
       repeat 0x00 (Z.to_nat padding)).

(** [padtext := make([]byte, padding); padtext[0] = 0x80]. *)
Definition ISO7816Padding (data : list Z) (blockSize : Z) : result (list Z) :=
  with_padding data blockSize
    (fun padding => Slice.copy (repeat 0 (Z.to_nat padding)) [0x80]).

(** [padtext := make([]byte, padding); padtext[padding-1] = byte(padding)]. *)
Definition ANSIX923Padding (data : list Z) (blockSize : Z) : result (list Z) :=
  with_padding data blockSize
    (fun padding =>
       Slice.copy_at (repeat 0 (Z.to_nat padding)) (Z.to_nat (padding - 1))
                     [wrap8 padding]).

Definition NoPadding (data : list Z) (blockSize : Z) : result (list Z) :=
  Ok data.

Definition ZeroPadding (data : list Z) (blockSize : Z) : result (list Z) :=
  with_padding data blockSize
    (fun padding => repeat 0x00 (Z.to_nat padding)).

Definition PKCS5Padding (data : list Z) : result (list Z) :=
  PKCS7Padding data 8.

Definition TBCPadding (data : list Z) (blockSize : Z) : result (list Z) :=
  with_padding data blockSize
    (fun padding =>
       let lastByte :=
         if (0 <? length data)%nat then nth (length data - 1) data 0 else 0x00 in
       let complement := not8 lastByte in
       repeat complement (Z.to_nat padding)).

Definition PKCS7UnPadding (data : list Z) : result (list Z) :=
  let length_ := length data in
  if (length_ =? 0)%nat then Err ErrEmptyData
  else
    let unpadding := Z.to_nat (nth (length_ - 1) data 0) in
    if (length_ <? unpadding)%nat then Err ErrInvalidPaddingSize
    else Ok (firstn (length_ - unpadding) data).

Definition PKCS5UnPadding (data : list Z) : result (list Z) :=
  PKCS7UnPadding data.

(** The loop [for i := length - 1; i >= 0; i--] that looks for 0x80;
    [n] is [i + 1], [bad] the error of a byte that is neither 0x80 nor 0. *)
Fixpoint marker_scan (bad : error) (data : list Z) (n : nat) : result (list Z) :=
  match n with
  | O => Err ErrNo0x80
  | S i =>
      if nth i data 0 =? 0x80 then Ok (firstn i data)
      else if negb (nth i data 0 =? 0x00) then Err bad
      else marker_scan bad data i
  end.

Definition ISO7816UnPadding (data : list Z) : result (list Z) :=
  if (length data =? 0)%nat then Err ErrEmptyData
  else marker_scan ErrInvalidISO7816 data (length data).

Definition ANSIX923UnPadding (data : list Z) : result (list Z) :=
  let length_ := length data in
  if (length_ =? 0)%nat then Err ErrEmptyData
  else
    let unpadding := Z.to_nat (nth (length_ - 1) data 0) in
    if (length_ <? unpadding)%nat then Err ErrInvalidPaddingSize
    else if existsb (fun i => negb (nth i data 0 =? 0x00))
                    (seq (length_ - unpadding) (unpadding - 1))
    then Err ErrInvalidANSIX923
    else Ok (firstn (length_ - unpadding) data).

(** The loop of [ZeroUnPadding]; [n] is [i + 1]. *)
Fixpoint zero_scan (data : list Z) (n : nat) : result (list Z) :=
  match n with
  | O => Err ErrAllZero
  | S i => if negb (nth i data 0 =? 0x00) then Ok (firstn (i + 1) data)
           else zero_scan data i
  end.

Definition ZeroUnPadding (data : list Z) : result (list Z) :=
  if (length data =? 0)%nat then Err ErrEmptyData
  else zero_scan data (length data).

Definition M1UnPadding (data : list Z) : result (list Z) :=
  if (length data =? 0)%nat then Err ErrEmptyData
  else marker_scan ErrInvalidM1 data (length data).

Definition M2UnPadding (data : list Z) : result (list Z) :=
  ZeroUnPadding data.

(** The loop of [TBCUnPadding]; [n] is [i + 1]. *)
Fixpoint tbc_scan (complement : Z) (data : list Z) (n : nat) : result (list Z) :=
  match n with
  | O => Err ErrInvalidTBC
  | S i => if negb (nth i data 0 =? complement) then Ok (firstn (i + 1) data)
           else tbc_scan complement data i
  end.

Definition TBCUnPadding (data : list Z) : result (list Z) :=
  let length_ := length data in
  if (length_ =? 0)%nat then Err ErrEmptyData
  else
    let lastByte := nth (length_ - 1) data 0 in
    let complement := not8 lastByte in
    tbc_scan complement data length_.

End Padding.

(** ** Package padding: the two remaining padding functions *)

Module PaddingRest.
Import Word.

(** [func M1PlusZeroPadding(data []byte, blockSize int) ([]byte, error)]:
    0x80 is appended first, then the zeros that fill the block, none if
    the data and the 0x80 end on a block boundary.  A zero block size is a
    division by zero, a negative count makes [bytes.Repeat] panic. *)
Definition M1PlusZeroPadding (data : list Z) (blockSize : Z) : result (list Z) :=
  let paddedData := data ++ [0x80] in
  if blockSize =? 0 then Panic
  else
    let padding := blockSize - Z.rem (Z.of_nat (length paddedData)) blockSize in
    if padding =? blockSize then Ok paddedData
    else if padding <? 0 then Panic
    else Ok (paddedData ++ repeat 0x00 (Z.to_nat padding)).

(** [func ISO10126Padding(data []byte, blockSize int) ([]byte, error)].
    [rand n] is [rand.Read] on a slice of [n] bytes: the bytes it has
    written, or its error. *)
Definition ISO10126Padding (rand : nat -> result (list Z))
    (data : list Z) (blockSize : Z) : result (list Z) :=
  match Padding.pad_count data blockSize with
  | Ok padding =>
      match rand (Z.to_nat (padding - 1)) with
      | Ok random =>
          (* padtext[:padding-1] holds the random bytes *)
          let padtext := Slice.copy (repeat 0 (Z.to_nat padding)) random in
          let padtext := Slice.copy_at padtext (Z.to_nat (padding - 1))
                           [wrap8 padding] in
          Ok (data ++ padtext)
      | Err e => Err e
      | Panic => Panic
      end
  | Err e => Err e
  | Panic => Panic
  end.

End PaddingRest.

(** ** Constant tables of the [internal] packages

    The tables ([internal.SBOX], [internal.FK], ...) are not part of the
    sources at hand; the ciphers take them as parameters, functions
    from the index to the entry.  An entry of a [[n]byte] table is a byte and
    an entry of a [[n]uint32] table a 32-bit word, whatever the table. *)

Definition byte_at (T : Z -> Z) (i : Z) : Z := Word.wrap8 (T i).
Definition word_at (T : Z -> Z) (i : Z) : Z := Word.wrap32 (T i).

(** ** SM4 *)

Module SM4.
Import Word.

Definition BlockSize : nat := 16.
Definition KeySize : nat := 16.

Section Tables.

(** [internal.SBOX], [internal.FK] and [internal.CK]. *)
Variables SBOX FK CK : Z -> Z.

(** [func rotateLeft(x uint32, n uint) uint32]. *)
Definition rotateLeft (x n : Z) : Z :=
  Z.lor (wrap32 (Z.shiftl x n)) (Z.shiftr x (32 - n)).

(** The S-box substitution shared by [keyTransform] and
    [feistelFunction]: the word [ret] both compute first. *)
Definition tau (input : Z) : Z :=
  let a := byte_at SBOX (wrap8 (Z.shiftr input 24)) in
  let b := byte_at SBOX (wrap8 (Z.shiftr input 16)) in
  let c := byte_at SBOX (wrap8 (Z.shiftr input 8)) in
  let d := byte_at SBOX (wrap8 input) in
  Z.lor (Z.lor (Z.lor (Z.shiftl a 24) (Z.shiftl b 16)) (Z.shiftl c 8)) d.

Definition keyTransform (input : Z) : Z :=
  let ret := tau input in
  Z.lxor (Z.lxor ret (rotateLeft ret 13)) (rotateLeft ret 23).

Definition feistelFunction (input : Z) : Z :=
  let ret := tau input in
  Z.lxor (Z.lxor (Z.lxor (Z.lxor ret (rotateLeft ret 2)) (rotateLeft ret 10))
                 (rotateLeft ret 18)) (rotateLeft ret 24).

Record SM4 : Type := mkSM4 { roundKeys : list Z (* [32]uint32 *) }.

(** The four words [X[0..3]] of a block. *)
Definition words : Type := (Z * Z * Z * Z)%type.

Definition load (b : list Z) : words :=
  (be_uint32 (firstn 4 b), be_uint32 (firstn 4 (skipn 4 b)),
   be_uint32 (firstn 4 (skipn 8 b)), be_uint32 (firstn 4 (skipn 12 b))).

(** The loop of [expandKey]: [n] iterations from index [i], with
    [K[i], ..., K[i+3]] in [k]; the round keys produced, in order. *)
Fixpoint expand_loop (n : nat) (i : Z) (k : words) : list Z :=
  match n with
  | O => []
  | S n' =>
      let '(k0, k1, k2, k3) := k in
      let k4 := Z.lxor k0
                  (keyTransform
                     (Z.lxor (Z.lxor (Z.lxor k1 k2) k3) (word_at CK i))) in
      k4 :: expand_loop n' (i + 1) (k1, k2, k3, k4)
  end.

Definition expandKey (key : list Z) : list Z :=
  let '(mk0, mk1, mk2, mk3) := load key in
  expand_loop 32 0
    (Z.lxor mk0 (word_at FK 0), Z.lxor mk1 (word_at FK 1),
     Z.lxor mk2 (word_at FK 2), Z.lxor mk3 (word_at FK 3)).

Definition New (key : list Z) : result SM4 :=
  if negb (length key =? KeySize)%nat then Err ErrInvalidKeySize
  else Ok (mkSM4 (expandKey key)).

(** One iteration [X[0], X[1], X[2], X[3] = X[1], X[2], X[3], X[0]^...]. *)
Definition round (rk : Z) (X : words) : words :=
  let '(x0, x1, x2, x3) := X in
  (x1, x2, x3,
   Z.lxor x0 (feistelFunction (Z.lxor (Z.lxor (Z.lxor x1 x2) x3) rk))).

(** The result block: the four words in reverse order. *)
Definition store (X : words) : list Z :=
  let '(x0, x1, x2, x3) := X in
  be_put_uint32 x3 ++ be_put_uint32 x2 ++ be_put_uint32 x1 ++ be_put_uint32 x0.

Definition crypt (s : SM4) (order : list nat) (block : list Z) : list Z :=
  store (fold_left (fun X i => round (nth i (roundKeys s) 0) X) order (load block)).

Definition Encrypt (s : SM4) (plaintext : list Z) : result (list Z) :=
  if negb (length plaintext =? BlockSize)%nat then Err ErrInvalidBlockSize
  else Ok (crypt s (seq 0 32) plaintext).

Definition Decrypt (s : SM4) (ciphertext : list Z) : result (list Z) :=
  if negb (length ciphertext =? BlockSize)%nat then Err ErrInvalidBlockSize
  else Ok (crypt s (rev (seq 0 32)) ciphertext).

End Tables.
End SM4.

(** ** Twofish (the simplified cipher of package twofish) *)

Module Twofish.
Import Word.

Definition BlockSize : nat := 16.
Definition KeySize128 : nat := 16.
Definition KeySize192 : nat := 24.
Definition KeySize256 : nat := 32.

Record Twofish : Type := mkTwofish {
  k : list Z;          (* [40]uint32 *)
  s : list (list Z);   (* four S-boxes of 256 bytes *)
  keySize : nat
}.

(** [t.s[i][b]] and [t.k[i]]. *)
Definition sbox (t : Twofish) (i : nat) (b : Z) : Z :=
  nth (Z.to_nat b) (nth i (s t) []) 0.

Definition key_at (t : Twofish) (i : nat) : Z := nth i (k t) 0.

(** The S-box loop of [expandKey]:
    [t.s[i][j] = byte((j*i + int(key[j%len(key)])) % 256)]. *)
Definition expand_s (key : list Z) : list (list Z) :=
  map (fun i =>
         map (fun j =>
                wrap8 (Z.rem (Z.of_nat j * Z.of_nat i
                              + nth (j mod length key) key 0) 256))
             (seq 0 256))
      (seq 0 4).

(** The round-key loop of [expandKey]:
    [t.k[i] = uint32(i) * 0x01010101], then one XOR per key byte. *)
Definition expand_k (key : list Z) : list Z :=
  map (fun i =>
         fold_left
           (fun acc j =>
              Z.lxor acc
                (wrap32 (Z.shiftl (nth j key 0) (Z.of_nat (j mod 4) * 8))))
           (seq 0 (length key))
           (wrap32 (Z.of_nat i * 0x01010101)))
      (seq 0 40).

Definition New (key : list Z) : result Twofish :=
  let keyLen := length key in
  if negb (keyLen =? KeySize128)%nat && negb (keyLen =? KeySize192)%nat
     && negb (keyLen =? KeySize256)%nat
  then Err ErrInvalidKeySize
  else Ok (mkTwofish (expand_k key) (expand_s key) keyLen).

Definition g0 (t : Twofish) (x : Z) : Z :=
  let b0 := wrap8 x in
  let b1 := wrap8 (Z.shiftr x 8) in
  let b2 := wrap8 (Z.shiftr x 16) in
  let b3 := wrap8 (Z.shiftr x 24) in
  Z.lxor (Z.lxor (Z.lxor (sbox t 0 b0) (sbox t 1 b1)) (sbox t 2 b2)) (sbox t 3 b3).

Definition g1 (t : Twofish) (x : Z) : Z :=
  let b0 := wrap8 (Z.shiftr x 8) in
  let b1 := wrap8 (Z.shiftr x 16) in
  let b2 := wrap8 (Z.shiftr x 24) in
  let b3 := wrap8 x in
  Z.lxor (Z.lxor (Z.lxor (sbox t 0 b0) (sbox t 1 b1)) (sbox t 2 b2)) (sbox t 3 b3).

(** [(w >> 1) | (w << 31)] and [(w << 1) | (w >> 31)] on a [uint32]. *)
Definition ror1 (w : Z) : Z := Z.lor (Z.shiftr w 1) (wrap32 (Z.shiftl w 31)).
Definition rol1 (w : Z) : Z := Z.lor (wrap32 (Z.shiftl w 1)) (Z.shiftr w 31).

(** [t0 + t1 + t.k[i]] and [t0 + 2*t1 + t.k[i]] in [uint32] arithmetic. *)
Definition f_sum (t : Twofish) (t0 t1 : Z) (i : nat) : Z :=
  wrap32 (wrap32 (t0 + t1) + key_at t i).

Definition f_sum2 (t : Twofish) (t0 t1 : Z) (i : nat) : Z :=
  wrap32 (wrap32 (t0 + wrap32 (2 * t1)) + key_at t i).

Definition words : Type := (Z * Z * Z * Z)%type.

(** One iteration of the encryption loop (two rounds), with [k = kk]. *)
Definition enc_step (t : Twofish) (kk : nat) (W : words) : words :=
  let '(w0, w1, w2, w3) := W in
  let t0 := g0 t w0 in
  let t1 := g1 t w1 in
  let w2 := Z.lxor w2 (f_sum t t0 t1 kk) in
  let w2 := ror1 w2 in
  let w3 := Z.lxor (rol1 w3) (f_sum2 t t0 t1 (kk + 1)) in
  let t0 := g0 t w2 in
  let t1 := g1 t w3 in
  let w0 := Z.lxor w0 (f_sum t t0 t1 (kk + 2)) in
  let w0 := ror1 w0 in
  let w1 := Z.lxor (rol1 w1) (f_sum2 t t0 t1 (kk + 3)) in
  (w0, w1, w2, w3).

(** One iteration of the decryption loop, with [k = kk]. *)
Definition dec_step (t : Twofish) (kk : nat) (W : words) : words :=
  let '(w0, w1, w2, w3) := W in
  let t0 := g0 t w2 in
  let t1 := g1 t w3 in
  let w1 := Z.lxor w1 (f_sum2 t t0 t1 (kk + 3)) in
  let w1 := ror1 w1 in
  let w0 := Z.lxor (rol1 w0) (f_sum t t0 t1 (kk + 2)) in
  let t0 := g0 t w0 in
  let t1 := g1 t w1 in
  let w3 := Z.lxor w3 (f_sum2 t t0 t1 (kk + 1)) in
  let w3 := ror1 w3 in
  let w2 := Z.lxor (rol1 w2) (f_sum t t0 t1 kk) in
  (w0, w1, w2, w3).

(** [bytesToUint32] on the four words of a block. *)
Definition load (b : list Z) : words :=
  (be_uint32 (firstn 4 b), be_uint32 (firstn 4 (skipn 4 b)),
   be_uint32 (firstn 4 (skipn 8 b)), be_uint32 (firstn 4 (skipn 12 b))).

(** [uint32ToBytes] of four words into the result. *)
Definition store (a b c d : Z) : list Z :=
  be_put_uint32 a ++ be_put_uint32 b ++ be_put_uint32 c ++ be_put_uint32 d.

Definition Encrypt (t : Twofish) (block : list Z) : result (list Z) :=
  if negb (length block =? BlockSize)%nat then Err ErrInvalidBlockSize
  else
    let '(w0, w1, w2, w3) := load block in
    (* input whitening *)
    let W := (Z.lxor w0 (key_at t 0), Z.lxor w1 (key_at t 1),
              Z.lxor w2 (key_at t 2), Z.lxor w3 (key_at t 3)) in
    (* for r := 0; r < 16; r += 2, with k = 8, 12, ..., 36 *)
    let '(w0, w1, w2, w3) :=
      fold_left (fun W i => enc_step t (8 + 4 * i) W) (seq 0 8) W in
    (* output whitening *)
    let w2 := Z.lxor w2 (key_at t 4) in
    let w3 := Z.lxor w3 (key_at t 5) in
    let w0 := Z.lxor w0 (key_at t 6) in
    let w1 := Z.lxor w1 (key_at t 7) in
    Ok (store w2 w3 w0 w1).

Definition Decrypt (t : Twofish) (block : list Z) : result (list Z) :=
  if negb (length block =? BlockSize)%nat then Err ErrInvalidBlockSize
  else
    let '(w2, w3, w0, w1) := load block in
    let w2 := Z.lxor w2 (key_at t 4) in
    let w3 := Z.lxor w3 (key_at t 5) in
    let w0 := Z.lxor w0 (key_at t 6) in
    let w1 := Z.lxor w1 (key_at t 7) in
    (* for r := 0; r < 16; r += 2, with k = 36, 32, ..., 8 *)
    let '(w0, w1, w2, w3) :=
      fold_left (fun W i => dec_step t (36 - 4 * i) W) (seq 0 8)
                (w0, w1, w2, w3) in
    let w0 := Z.lxor w0 (key_at t 0) in
    let w1 := Z.lxor w1 (key_at t 1) in
    let w2 := Z.lxor w2 (key_at t 2) in
    let w3 := Z.lxor w3 (key_at t 3) in
    Ok (store w0 w1 w2 w3).

End Twofish.

(** ** Arrays updated in place *)

(** [a[i] = v] on the contents of an array; the index is in range at every
    use below. *)
Definition array_set {A : Type} (a : list A) (i : nat) (v : A) : list A :=
  firstn i a ++ v :: skipn (S i) a.

(** ** Blowfish ([blowfish/blowfish.go]) *)

Module Blowfish.
Import Word.

Definition BlockSize : nat := 8.
Definition MinKeySize : nat := 4.
Definition MaxKeySize : nat := 56.

Record Blowfish : Type := mkBlowfish {
  p : list Z;          (* [18]uint32 *)
  s : list (list Z)    (* [4][256]uint32 *)
}.

Definition p_at (b : Blowfish) (i : nat) : Z := nth i (p b) 0.
Definition s_at (b : Blowfish) (i : nat) (j : Z) : Z :=
  nth (Z.to_nat j) (nth i (s b) []) 0.

(** [func (b *Blowfish) feistel(x uint32) uint32]. *)
Definition feistel (b : Blowfish) (x : Z) : Z :=
  let a := Z.land (Z.shiftr x 24) 0xFF in
  let b1 := Z.land (Z.shiftr x 16) 0xFF in
  let c := Z.land (Z.shiftr x 8) 0xFF in
  let d := Z.land x 0xFF in
  wrap32 (Z.lxor (wrap32 (s_at b 0 a + s_at b 1 b1)) (s_at b 2 c) + s_at b 3 d).

(** The body of both loops: [left ^= b.p[i]; right ^= b.feistel(left);
    left, right = right, left]. *)
Definition step (b : Blowfish) (i : nat) (lr : Z * Z) : Z * Z :=
  let '(left_, right_) := lr in
  let left_ := Z.lxor left_ (p_at b i) in
  let right_ := Z.lxor right_ (feistel b left_) in
  (right_, left_).

(** What follows the loop: the last swap and the two remaining XORs with
    [b.p[ir]] (into [right]) and [b.p[il]] (into [left]). *)
Definition finish (b : Blowfish) (ir il : nat) (lr : Z * Z) : Z * Z :=
  let '(left_, right_) := lr in
  let '(left_, right_) := (right_, left_) in
  let right_ := Z.lxor right_ (p_at b ir) in
  let left_ := Z.lxor left_ (p_at b il) in
  (left_, right_).

Definition encryptBlock (b : Blowfish) (lr : Z * Z) : Z * Z :=
  finish b 16 17 (fold_left (fun lr i => step b i lr) (seq 0 16) lr).

Definition decryptBlock (b : Blowfish) (lr : Z * Z) : Z * Z :=
  finish b 1 0 (fold_left (fun lr i => step b i lr) (rev (seq 2 16)) lr).

Section Tables.

(** [internal.PBox] and [internal.SBox0] ... [internal.SBox3]. *)
Variables PBox SBox0 SBox1 SBox2 SBox3 : Z -> Z.

Definition initBoxes : Blowfish :=
  mkBlowfish
    (map (fun i => word_at PBox (Z.of_nat i)) (seq 0 18))
    [map (fun i => word_at SBox0 (Z.of_nat i)) (seq 0 256);
     map (fun i => word_at SBox1 (Z.of_nat i)) (seq 0 256);
     map (fun i => word_at SBox2 (Z.of_nat i)) (seq 0 256);
     map (fun i => word_at SBox3 (Z.of_nat i)) (seq 0 256)].

(** The word XORed into [b.p[i]]: four key bytes from index [j = 4 i],
    cyclically. *)
Definition key_word (key : list Z) (i : nat) : Z :=
  fold_left
    (fun data k =>
       Z.lor (wrap32 (Z.shiftl data 8)) (nth ((4 * i + k) mod length key) key 0))
    (seq 0 4) 0.

Definition xor_key (key : list Z) (b : Blowfish) : Blowfish :=
  mkBlowfish (map (fun i => Z.lxor (p_at b i) (key_word key i)) (seq 0 18)) (s b).

(** The state of the two mixing loops: the boxes and [l], [r]. *)
Definition mix : Type := (Blowfish * (Z * Z))%type.

(** [l, r = b.encryptBlock(l, r); b.p[i] = l; b.p[i+1] = r]. *)
Definition mix_p (m : mix) (i : nat) : mix :=
  let '(b, lr) := m in
  let '(l, r) := encryptBlock b lr in
  (mkBlowfish (array_set (array_set (p b) i l) (i + 1) r) (s b), (l, r)).

(** [l, r = b.encryptBlock(l, r); b.s[i][j] = l; b.s[i][j+1] = r]. *)
Definition mix_s (i : nat) (m : mix) (j : nat) : mix :=
  let '(b, lr) := m in
  let '(l, r) := encryptBlock b lr in
  let row := array_set (array_set (nth i (s b) []) j l) (j + 1) r in
  (mkBlowfish (p b) (array_set (s b) i row), (l, r)).

(** The even indices [0, 2, ..., 2 (n - 1)]. *)
Definition evens (n : nat) : list nat := map (fun i => 2 * i)%nat (seq 0 n).

Definition expandKey (key : list Z) (b : Blowfish) : Blowfish :=
  let b := xor_key key b in
  let m := fold_left mix_p (evens 9) (b, (0, 0)) in
  let m := fold_left (fun m i => fold_left (mix_s i) (evens 128) m) (seq 0 4) m in
  fst m.

Definition New (key : list Z) : result Blowfish :=
  if (length key <? MinKeySize)%nat || (MaxKeySize <? length key)%nat
  then Err ErrInvalidKeySize
  else Ok (expandKey key initBoxes).

End Tables.

Definition load (block : list Z) : Z * Z :=
  (be_uint32 (firstn 4 block), be_uint32 (firstn 4 (skipn 4 block))).

Definition store (lr : Z * Z) : list Z :=
  be_put_uint32 (fst lr) ++ be_put_uint32 (snd lr).

Definition Encrypt (b : Blowfish) (block : list Z) : result (list Z) :=
  if negb (length block =? BlockSize)%nat then Err ErrInvalidBlockSize
  else Ok (store (encryptBlock b (load block))).

Definition Decrypt (b : Blowfish) (block : list Z) : result (list Z) :=
  if negb (length block =? BlockSize)%nat then Err ErrInvalidBlockSize
  else Ok (store (decryptBlock b (load block))).

End Blowfish.

(** ** RC5 ([rc5/rc5.go]) *)

Module RC5.
Import Word.

Definition BlockSize : nat := 8.
Definition DefaultRounds : Z := 12.
Definition DefaultWordSize : Z := 32.
Definition MinKeySize : nat := 1.
Definition MaxKeySize : nat := 255.

Record RC5 : Type := mkRC5 {
  rounds : Z;
  wordSize : Z;
  blockSize : nat;
  keySize : nat;
  subKeys : list Z     (* []uint32 of length 2 * (rounds + 1) *)
}.

Definition key_at (r : RC5) (i : nat) : Z := nth i (subKeys r) 0.

(** [r.subKeys[0] = P; r.subKeys[i] = r.subKeys[i-1] + Q]. *)
Fixpoint init_subKeys (n : nat) (prev : Z) : list Z :=
  match n with
  | O => []
  | S n' => prev :: init_subKeys n' (wrap32 (prev + 0x9E3779B9))
  end.

(** [c[idx] = c[idx] | (uint32(key[i]) << shift)] for every key byte. *)
Definition key_words (key : list Z) (u : nat) : list Z :=
  fold_left
    (fun c i =>
       let idx := (i / 4)%nat in
       let shift := Z.of_nat (i mod 4) * 8 in
       array_set c idx
         (Z.lor (nth idx c 0) (wrap32 (Z.shiftl (nth i key 0) shift))))
    (seq 0 (length key)) (repeat 0 u).

(** The state of the mixing loop: [subKeys], [c], [a], [b], [i], [j]. *)
Record mixing : Type := mkMixing {
  mS : list Z; mc : list Z; ma : Z; mb : Z; mi : nat; mj : nat
}.

Definition mix_step (m : mixing) : mixing :=
  let a := wrap32 (wrap32 (nth (mi m) (mS m) 0 + ma m) + mb m) in
  let S' := array_set (mS m) (mi m) (RotateLeft32 a 3) in
  let i' := ((mi m + 1) mod length (mS m))%nat in
  let b := wrap32 (wrap32 (nth (mj m) (mc m) 0 + a) + mb m) in
  let c' := array_set (mc m) (mj m) (RotateLeft32 b (Z.rem (wrap32 (a + b)) 32)) in
  let j' := ((mj m + 1) mod length (mc m))%nat in
  mkMixing S' c' a b i' j'.

Definition expandKey (key : list Z) (nrounds : Z) : list Z :=
  let S := init_subKeys (Z.to_nat (2 * (nrounds + 1))) 0xB7E15163 in
  (* u = ceil(keySize / wordBytes) *)
  let u := ((length key + 3) / 4)%nat in
  let c := key_words key u in
  let n := (3 * Nat.max (length S) (length c))%nat in
  mS (Nat.iter n mix_step (mkMixing S c 0 0 0 0)).

Definition NewWithParams (key : list Z) (nrounds wordSize_ : Z) : result RC5 :=
  if (length key <? MinKeySize)%nat || (MaxKeySize <? length key)%nat
  then Err ErrInvalidKeySize
  else if (nrounds <? 1) || (255 <? nrounds) then Err ErrInvalidRounds
  else if negb (wordSize_ =? 32) then Err ErrInvalidWordSize
  else
    let wordBytes := wordSize_ / 8 in
    let blockSize_ := Z.to_nat (wordBytes * 2) in
    Ok (mkRC5 nrounds wordSize_ blockSize_ (length key) (expandKey key nrounds)).

Definition New (key : list Z) : result RC5 :=
  NewWithParams key DefaultRounds DefaultWordSize.

(** One iteration of the encryption loop, at index [i]. *)
Definition enc_round (r : RC5) (i : nat) (AB : Z * Z) : Z * Z :=
  let '(A, B) := AB in
  let A := wrap32 (RotateLeft32 (Z.lxor A B) (Z.rem B 32) + key_at r (2 * i)) in
  let B := wrap32 (RotateLeft32 (Z.lxor B A) (Z.rem A 32) + key_at r (2 * i + 1)) in
  (A, B).

(** One iteration of the decryption loop, at index [i]. *)
Definition dec_round (r : RC5) (i : nat) (AB : Z * Z) : Z * Z :=
  let '(A, B) := AB in
  let B := Z.lxor (RotateLeft32 (wrap32 (B - key_at r (2 * i + 1))) (- Z.rem A 32)) A in
  let A := Z.lxor (RotateLeft32 (wrap32 (A - key_at r (2 * i))) (- Z.rem B 32)) B in
  (A, B).

Definition load (block : list Z) : Z * Z :=
  (le_uint32 (firstn 4 block), le_uint32 (firstn 4 (skipn 4 block))).

Definition store (AB : Z * Z) : list Z :=
  le_put_uint32 (fst AB) ++ le_put_uint32 (snd AB).

Definition Encrypt (r : RC5) (block : list Z) : result (list Z) :=
  if negb (length block =? blockSize r)%nat then Err ErrInvalidBlockSize
  else if negb (wordSize r =? 32) then Err ErrInvalidWordSize
  else
    let '(A, B) := load block in
    let A := wrap32 (A + key_at r 0) in
    let B := wrap32 (B + key_at r 1) in
    Ok (store (fold_left (fun AB i => enc_round r i AB)
                         (seq 1 (Z.to_nat (rounds r))) (A, B))).

Definition Decrypt (r : RC5) (block : list Z) : result (list Z) :=
  if negb (length block =? blockSize r)%nat then Err ErrInvalidBlockSize
  else if negb (wordSize r =? 32) then Err ErrInvalidWordSize
  else
    let '(A, B) :=
      fold_left (fun AB i => dec_round r i AB)
                (rev (seq 1 (Z.to_nat (rounds r)))) (load block) in
    let B := wrap32 (B - key_at r 1) in
    let A := wrap32 (A - key_at r 0) in
    Ok (store (A, B)).

End RC5.

(** ** DES (package des) *)

Module DES.
Import Word.

Definition BlockSize : nat := 8.
Definition KeySize : nat := 8.

(** [func getBit(n uint64, pos int) uint64]: [(n >> (63 - pos)) & 1]. *)
Definition getBit (n pos : Z) : Z := Z.land (Z.shiftr n (63 - pos)) 1.

(** [func getBit64(n uint64, pos int) uint64]: [(n >> (31 - pos)) & 1]. *)
Definition getBit64 (n pos : Z) : Z := Z.land (Z.shiftr n (31 - pos)) 1.

(** The loop shared by the six table-driven permutations:
    [for i := 0; i < n; i++ { if get(input, int(T[i]-1)) == 1
    { output |= 1 << (n - 1 - i) } }]. *)
Definition permute (get : Z -> Z -> Z) (T : Z -> Z) (n : nat) (input : Z) : Z :=
  fold_left
    (fun output i =>
       if get input (T (Z.of_nat i) - 1) =? 1
       then Z.lor output (Z.shiftl 1 (Z.of_nat n - 1 - Z.of_nat i))
       else output)
    (seq 0 n) 0.

Section Tables.

(** The tables of [des/internal]: 1-based bit positions, and the eight
    S-boxes addressed by [row*16 + col]. *)
Variables IP FP E P PC1 PC2 : Z -> Z.
Variable SBOXES : Z -> Z -> Z.

Definition initialPermutation (input : Z) : Z := permute getBit IP 64 input.
Definition finalPermutation (input : Z) : Z := permute getBit FP 64 input.
Definition expansionPermutation (r : Z) : Z := permute getBit64 E 48 r.
Definition pboxPermutation (input : Z) : Z := permute getBit64 P 32 input.
Definition permutedChoice2 (input : Z) : Z := permute getBit PC2 48 input.

(** One iteration of the S-box loop of [feistelFunction]. *)
Definition sbox_step (s : Z) (output : Z) (i : nat) : Z :=
  let b := wrap8 (Z.land (Z.shiftr s (42 - Z.of_nat i * 6)) 0x3F) in
  let row := Z.lor (Z.shiftr (Z.land b 0x20) 4) (Z.land b 0x01) in
  let col := Z.land (Z.shiftr b 1) 0x0F in
  Z.lor (wrap32 (Z.shiftl output 4))
        (wrap32 (SBOXES (Z.of_nat i) (row * 16 + col))).

Definition feistelFunction (r key : Z) : Z :=
  let expanded := expansionPermutation r in
  let s := Z.lxor expanded key in
  let output := fold_left (sbox_step s) (seq 0 8) 0 in
  pboxPermutation output.

Record DES : Type := mkDES { roundKeys : list Z (* [16]uint64 *) }.

(** The rotation of a 28-bit half by [shifts] in [generateRoundKeys]. *)
Definition rotate28 (half shifts : Z) : Z :=
  Z.land (Z.lor (wrap32 (Z.shiftl half shifts)) (Z.shiftr half (28 - shifts)))
         0x0FFFFFFF.

(** The round loop of [generateRoundKeys], from round [round]. *)
Fixpoint key_rounds (n : nat) (round : Z) (left_ right_ : Z) : list Z :=
  match n with
  | O => []
  | S n' =>
      let shifts :=
        if (round =? 0) || (round =? 1) || (round =? 8) || (round =? 15)
        then 1 else 2 in
      let left_ := rotate28 left_ shifts in
      let right_ := rotate28 right_ shifts in
      let combined := Z.lor (wrap64 (Z.shiftl left_ 28)) right_ in
      permutedChoice2 combined :: key_rounds n' (round + 1) left_ right_
  end.

Definition generateRoundKeys (key : list Z) : list Z :=
  let k := be_uint64 key in
  let k56 := permute getBit PC1 56 k in
  let left_ := wrap32 (Z.land (Z.shiftr k56 28) 0x0FFFFFFF) in
  let right_ := wrap32 (Z.land k56 0x0FFFFFFF) in
  key_rounds 16 0 left_ right_.

Definition New (key : list Z) : result DES :=
  if negb (length key =? KeySize)%nat then Err ErrInvalidKeySize
  else Ok (mkDES (generateRoundKeys key)).

(** [newRight := left ^ feistelFunction(right, d.roundKeys[i]);
    left, right = right, newRight]. *)
Definition round (d : DES) (i : nat) (lr : Z * Z) : Z * Z :=
  let '(left_, right_) := lr in
  let newRight := Z.lxor left_ (feistelFunction right_ (nth i (roundKeys d) 0)) in
  (right_, newRight).

(** What [Encrypt] and [Decrypt] share: the rounds in the order [order]. *)
Definition crypt (d : DES) (order : list nat) (block : list Z) : list Z :=
  let input := be_uint64 block in
  let state := initialPermutation input in
  let lr := (wrap32 (Z.shiftr state 32), wrap32 state) in
  let '(left_, right_) := fold_left (fun lr i => round d i lr) order lr in
  let state := Z.lor (wrap64 (Z.shiftl right_ 32)) left_ in
  let output := finalPermutation state in
  be_put_uint64 output.

Definition Encrypt (d : DES) (block : list Z) : result (list Z) :=
  if negb (length block =? BlockSize)%nat then Err ErrInvalidBlockSize
  else Ok (crypt d (seq 0 16) block).

Definition Decrypt (d : DES) (block : list Z) : result (list Z) :=
  if negb (length block =? BlockSize)%nat then Err ErrInvalidBlockSize
  else Ok (crypt d (rev (seq 0 16)) block).

End Tables.
End DES.

(** ** AES ([aes/aes.go]) *)

Module AES.
Import Word.

Definition KeySize128 : nat := 16.
Definition KeySize192 : nat := 24.
Definition KeySize256 : nat := 32.

Record AES : Type := mkAES {
  roundKeys : list Z;   (* []uint32 of length (rounds + 1) * 4 *)
  rounds : nat
}.

(** [func rotWord(w uint32) uint32]. *)
Definition rotWord (w : Z) : Z := Z.lor (wrap32 (Z.shiftl w 8)) (Z.shiftr w 24).

Section Tables.

(** The tables of [aes/internal]. *)
Variables SBOX InvSBOX : Z -> Z.
Variables MUL_2 MUL_3 MUL_9 MUL_11 MUL_13 MUL_14 : Z -> Z.
Variable RCON : Z -> Z.

(** [func subWord(w uint32) uint32]. *)
Definition subWord (w : Z) : Z :=
  Z.lor (Z.lor (Z.lor
    (Z.shiftl (byte_at SBOX (wrap8 (Z.shiftr w 24))) 24)
    (Z.shiftl (byte_at SBOX (wrap8 (Z.shiftr w 16))) 16))
    (Z.shiftl (byte_at SBOX (wrap8 (Z.shiftr w 8))) 8))
    (byte_at SBOX (wrap8 w)).

(** The second loop of [expandKey]: [n] more words after those in [rk]. *)
Fixpoint expand_loop (nk : nat) (n : nat) (rk : list Z) : list Z :=
  match n with
  | O => rk
  | S n' =>
      let i := length rk in
      let temp := nth (i - 1) rk 0 in
      let temp :=
        if (i mod nk =? 0)%nat
        then Z.lxor (subWord (rotWord temp)) (word_at RCON (Z.of_nat (i / nk - 1)))
        else if (6 <? nk)%nat && (i mod nk =? 4)%nat then subWord temp
        else temp in
      expand_loop nk n' (rk ++ [Z.lxor (nth (i - nk) rk 0) temp])
  end.

Definition expandKey (key : list Z) (nrounds : nat) : list Z :=
  let nk := (length key / 4)%nat in
  let first := map (fun i => be_uint32 (skipn (4 * i) key)) (seq 0 nk) in
  expand_loop nk ((nrounds + 1) * 4 - nk) first.

Definition New (key : list Z) : result AES :=
  let keyLength := length key in
  if (keyLength =? KeySize128)%nat then Ok (mkAES (expandKey key 10) 10)
  else if (keyLength =? KeySize192)%nat then Ok (mkAES (expandKey key 12) 12)
  else if (keyLength =? KeySize256)%nat then Ok (mkAES (expandKey key 14) 14)
  else Err ErrInvalidKeySize.

Definition subBytes (state : list Z) : list Z := map (byte_at SBOX) state.
Definition invSubBytes (state : list Z) : list Z := map (byte_at InvSBOX) state.

(** The state with its entries taken from the positions [from]. *)
Definition gather (from : list nat) (state : list Z) : list Z :=
  map (fun i => nth i state 0) from.

(** The three parallel assignments of [shiftRows] and of [invShiftRows]. *)
Definition shiftRows (state : list Z) : list Z :=
  gather [0; 5; 10; 15; 4; 9; 14; 3; 8; 13; 2; 7; 12; 1; 6; 11]%nat state.

Definition invShiftRows (state : list Z) : list Z :=
  gather [0; 13; 10; 7; 4; 1; 14; 11; 8; 5; 2; 15; 12; 9; 6; 3]%nat state.

Definition mixColumn (a0 a1 a2 a3 : Z) : list Z :=
  [Z.lxor (Z.lxor (Z.lxor (byte_at MUL_2 a0) (byte_at MUL_3 a1)) a2) a3;
   Z.lxor (Z.lxor (Z.lxor a0 (byte_at MUL_2 a1)) (byte_at MUL_3 a2)) a3;
   Z.lxor (Z.lxor (Z.lxor a0 a1) (byte_at MUL_2 a2)) (byte_at MUL_3 a3);
   Z.lxor (Z.lxor (Z.lxor (byte_at MUL_3 a0) a1) a2) (byte_at MUL_2 a3)].

Definition invMixColumn (a0 a1 a2 a3 : Z) : list Z :=
  [Z.lxor (Z.lxor (Z.lxor (byte_at MUL_14 a0) (byte_at MUL_11 a1))
                  (byte_at MUL_13 a2)) (byte_at MUL_9 a3);
   Z.lxor (Z.lxor (Z.lxor (byte_at MUL_9 a0) (byte_at MUL_14 a1))
                  (byte_at MUL_11 a2)) (byte_at MUL_13 a3);
   Z.lxor (Z.lxor (Z.lxor (byte_at MUL_13 a0) (byte_at MUL_9 a1))
                  (byte_at MUL_14 a2)) (byte_at MUL_11 a3);
   Z.lxor (Z.lxor (Z.lxor (byte_at MUL_11 a0) (byte_at MUL_13 a1))
                  (byte_at MUL_9 a2)) (byte_at MUL_14 a3)].

(** [for i := 0; i < 4; i++] over the columns [state[4i .. 4i+3]]. *)
Definition columns (f : Z -> Z -> Z -> Z -> list Z) (state : list Z) : list Z :=
  flat_map
    (fun i => f (nth (4 * i) state 0) (nth (4 * i + 1) state 0)
                (nth (4 * i + 2) state 0) (nth (4 * i + 3) state 0))
    (seq 0 4).

Definition mixColumns (state : list Z) : list Z := columns mixColumn state.
Definition invMixColumns (state : list Z) : list Z := columns invMixColumn state.

Definition addRoundKey (a : AES) (state : list Z) (round : nat) : list Z :=
  flat_map
    (fun i =>
       let k := nth (round * 4 + i) (roundKeys a) 0 in
       [Z.lxor (nth (4 * i) state 0) (wrap8 (Z.shiftr k 24));
        Z.lxor (nth (4 * i + 1) state 0) (wrap8 (Z.shiftr k 16));
        Z.lxor (nth (4 * i + 2) state 0) (wrap8 (Z.shiftr k 8));
        Z.lxor (nth (4 * i + 3) state 0) (wrap8 k)])
    (seq 0 4).

(** One iteration of the main loop of [Encrypt] and of [Decrypt]. *)
Definition enc_round (a : AES) (round : nat) (state : list Z) : list Z :=
  addRoundKey a (mixColumns (shiftRows (subBytes state))) round.

Definition dec_round (a : AES) (round : nat) (state : list Z) : list Z :=
  invMixColumns (addRoundKey a (invSubBytes (invShiftRows state)) round).

Definition Encrypt (a : AES) (plaintext : list Z) : result (list Z) :=
  if negb (length plaintext =? 16)%nat then Err ErrInvalidBlockSize
  else
    let state := addRoundKey a plaintext 0 in
    let state :=
      fold_left (fun st round => enc_round a round st)
                (seq 1 (rounds a - 1)) state in
    Ok (addRoundKey a (shiftRows (subBytes state)) (rounds a)).

Definition Decrypt (a : AES) (ciphertext : list Z) : result (list Z) :=
  if negb (length ciphertext =? 16)%nat then Err ErrInvalidBlockSize
  else
    let state := addRoundKey a ciphertext (rounds a) in
    let state :=
      fold_left (fun st round => dec_round a round st)
                (rev (seq 1 (rounds a - 1))) state in
    Ok (addRoundKey a (invSubBytes (invShiftRows state)) 0).

End Tables.

(** *** The tables, from the specification

    Modelled from the spec: the tables [internal.SBOX], [internal.InvSBOX],
    [internal.MUL_2] ... [internal.MUL_14] and [internal.RCON] are missing
    from the sources.  The specification names them: the S-box and [Rcon]
    of FIPS-197, and the "precomputed x2, x3, x9, x11, x13, x14 tables" of
    the multiplication in GF(2^8). *)

(** Multiplication by [x] modulo [x^8 + x^4 + x^3 + x + 1]. *)
Definition xtime (b : Z) : Z :=
  if Z.testbit b 7 then Z.lxor (wrap8 (Z.shiftl b 1)) 0x1b else Z.shiftl b 1.

(** Multiplication in GF(2^8): [n] more bits of [a] to go. *)
Fixpoint gmul_loop (n : nat) (a b acc : Z) : Z :=
  match n with
  | O => acc
  | S n' =>
      gmul_loop n' (Z.shiftr a 1) (xtime b)
                (if Z.testbit a 0 then Z.lxor acc b else acc)
  end.

Definition gmul (a b : Z) : Z := gmul_loop 8 a b 0.

(** The multiplicative inverse, [b^254], with [0] for [0]. *)
Definition ginv (b : Z) : Z :=
  let b2 := gmul b b in
  let b4 := gmul b2 b2 in
  let b8 := gmul b4 b4 in
  let b16 := gmul b8 b8 in
  let b32 := gmul b16 b16 in
  let b64 := gmul b32 b32 in
  let b128 := gmul b64 b64 in
  gmul b128 (gmul b64 (gmul b32 (gmul b16 (gmul b8 (gmul b4 b2))))).

Definition rotl8 (b n : Z) : Z :=
  Z.lor (wrap8 (Z.shiftl b n)) (Z.shiftr b (8 - n)).

(** The S-box of FIPS-197: the affine map of the inverse. *)
Definition fips_sbox (b : Z) : Z :=
  let x := ginv b in
  Z.lxor (Z.lxor (Z.lxor (Z.lxor (Z.lxor x (rotl8 x 1)) (rotl8 x 2))
                         (rotl8 x 3)) (rotl8 x 4)) 0x63.

(** [Rcon[i] = x^i] in the most significant byte. *)
Definition fips_rcon (i : Z) : Z :=
  Z.shiftl (Nat.iter (Z.to_nat i) xtime 1) 24.

End AES.

(** ** Standard tables

    Modelled from the spec: the tables of the [internal] packages are
    missing from the sources; these are the published ones the
    specification refers to (FIPS-197 for AES, FIPS 46-3 for the initial and
    final permutations of DES), used to instantiate the parameters. *)

Module Tables.

Definition lookup (table : list Z) (i : Z) : Z := nth (Z.to_nat i) table 0.

Definition SBOX_list : list Z :=
  Eval vm_compute in map AES.fips_sbox (map Z.of_nat (seq 0 256)).

(** The inverse S-box: the index at which the S-box holds [b]. *)
Definition InvSBOX_list : list Z :=
  Eval vm_compute in
    map (fun b =>
           match find (fun x => lookup SBOX_list x =? b)
                      (map Z.of_nat (seq 0 256)) with
           | Some x => x
           | None => 0
           end)
        (map Z.of_nat (seq 0 256)).

Definition AES_SBOX : Z -> Z := lookup SBOX_list.
Definition AES_InvSBOX : Z -> Z := lookup InvSBOX_list.
Definition AES_RCON : Z -> Z := AES.fips_rcon.
Definition AES_MUL (c : Z) : Z -> Z := AES.gmul c.

(** [IP]: the rows of even bit positions 2, 4, 6, 8, then of the odd ones,
    each read from the last byte of the block to the first. *)
Definition DES_IP_list : list Z :=
  [58; 50; 42; 34; 26; 18; 10; 2;  60; 52; 44; 36; 28; 20; 12; 4;
   62; 54; 46; 38; 30; 22; 14; 6;  64; 56; 48; 40; 32; 24; 16; 8;
   57; 49; 41; 33; 25; 17; 9; 1;   59; 51; 43; 35; 27; 19; 11; 3;
   61; 53; 45; 37; 29; 21; 13; 5;  63; 55; 47; 39; 31; 23; 15; 7].

Definition DES_FP_list : list Z :=
  [40; 8; 48; 16; 56; 24; 64; 32;  39; 7; 47; 15; 55; 23; 63; 31;
   38; 6; 46; 14; 54; 22; 62; 30;  37; 5; 45; 13; 53; 21; 61; 29;
   36; 4; 44; 12; 52; 20; 60; 28;  35; 3; 43; 11; 51; 19; 59; 27;
   34; 2; 42; 10; 50; 18; 58; 26;  33; 1; 41; 9; 49; 17; 57; 25].

Definition DES_IP : Z -> Z := lookup DES_IP_list.
Definition DES_FP : Z -> Z := lookup DES_FP_list.

(** Stand-ins for the tables no property depends on: every position in
    range, every S-box entry zero. *)
Definition first_positions (w : Z) (i : Z) : Z := i mod w + 1.
Definition zero_table (i : Z) : Z := 0.
Definition zero_boxes (i j : Z) : Z := 0.

End Tables.

(** ** Byte slices that share backing arrays

    The mode adapters keep a [[]byte] in a field and work on local slices;
    whether a call can change the stored bytes is a question of aliasing.
    A store maps addresses to backing arrays, [make] takes the next free
    address, and a slice is a window on one array. *)

Module Mem.

Record store : Type := mkStore {
  next : nat;                 (* the next free address *)
  mem : nat -> list Z         (* the backing array at each address *)
}.

Record slice : Type := mkSlice {
  base : nat;                 (* address of the backing array *)
  off : nat;                  (* first element of the window *)
  len : nat                   (* len(s) *)
}.

(** The elements [o, o + n) of an array, and the array with [data] copied
    over them ([copy] stops at the shorter of the two). *)
Definition view (buf : list Z) (o n : nat) : list Z := firstn n (skipn o buf).

Definition patch (buf : list Z) (o n : nat) (data : list Z) : list Z :=
  let k := Nat.min n (length data) in
  firstn o buf ++ firstn k data ++ skipn (o + k) buf.

Definition upd (m : nat -> list Z) (a : nat) (buf : list Z) : nat -> list Z :=
  fun b => if (b =? a)%nat then buf else m b.

(** The bytes a slice shows. *)
Definition contents (st : store) (s : slice) : list Z :=
  view (mem st (base s)) (off s) (len s).

(** Computations on the store; the store survives errors and panics. *)
Definition M (A : Type) : Type := store -> result A * store.

Definition ret {A : Type} (a : A) : M A := fun st => (Ok a, st).
Definition fail {A : Type} (e : error) : M A := fun st => (Err e, st).
Definition panic {A : Type} : M A := fun st => (Panic, st).

Definition mbind {A B : Type} (m : M A) (k : A -> M B) : M B :=
  fun st =>
    match m st with
    | (Ok a, st') => k a st'
    | (Err e, st') => (Err e, st')
    | (Panic, st') => (Panic, st')
    end.

Definition lift {A : Type} (r : result A) : M A := fun st => (r, st).

(** [make([]byte, n)]. *)
Definition make (n : nat) : M slice :=
  fun st =>
    (Ok (mkSlice (next st) 0 n),
     mkStore (S (next st)) (upd (mem st) (next st) (repeat 0 n))).

(** A fresh slice holding [data]: what a function that builds its result
    with [make] returns. *)
Definition alloc (data : list Z) : M slice :=
  fun st =>
    (Ok (mkSlice (next st) 0 (length data)),
     mkStore (S (next st)) (upd (mem st) (next st) data)).

Definition read (s : slice) : M (list Z) := fun st => (Ok (contents st s), st).

(** Writing through a slice changes its backing array. *)
Definition write (s : slice) (data : list Z) : M unit :=
  fun st =>
    (Ok tt,
     mkStore (next st)
       (upd (mem st) (base s) (patch (mem st (base s)) (off s) (len s) data))).

(** [copy(dst, src)]. *)
Definition copy (dst src : slice) : M unit :=
  mbind (read src) (fun data => write dst data).

(** [s[i:j]]; out of range, the slice expression panics. *)
Definition sub (s : slice) (i j : nat) : result slice :=
  if (i <=? j)%nat && (j <=? len s)%nat
  then Ok (mkSlice (base s) (off s + i) (j - i))
  else Panic.

Definition xor_lists (a b : list Z) : list Z :=
  map (fun p => Z.lxor (fst p) (snd p)) (combine a b).

(** [internal.XORBytes(dst, a, b)]: [dst[i] = a[i] ^ b[i]] for
    [i < min(len(a), len(b))], in order; the index that goes beyond
    [len(dst)] panics, after the bytes before it have been written.  At
    every call [dst] is an array of its own. *)
Definition XORBytes (dst a b : slice) : M unit :=
  mbind (read a) (fun da =>
  mbind (read b) (fun db =>
  mbind (write dst (xor_lists da db)) (fun _ =>
    if (len dst <? Nat.min (len a) (len b))%nat then panic else ret tt))).

(** The loop of [internal.Increment] on the bytes of the counter, last
    byte first: [counter[i]++] and stop unless it wrapped to zero. *)
Fixpoint increment_rev (r : list Z) : list Z :=
  match r with
  | [] => []
  | b :: r' =>
      let b' := Word.wrap8 (b + 1) in
      if b' =? 0 then b' :: increment_rev r' else b' :: r'
  end.

Definition increment (counter : list Z) : list Z :=
  rev (increment_rev (rev counter)).

(** [internal.Increment(counter)]: in place. *)
Definition Increment (counter : slice) : M unit :=
  mbind (read counter) (fun c => write counter (increment c)).

(** [internal.DuplicateSlice(src)]. *)
Definition DuplicateSlice (src : slice) : M slice :=
  mbind (make (len src)) (fun dst =>
  mbind (copy dst src) (fun _ => ret dst)).

(** A call of a function that reads its argument and returns a slice of
    its own, as the [Encrypt] and [Decrypt] of every cipher do. *)
Definition call (f : list Z -> result (list Z)) (arg : slice) : M slice :=
  mbind (read arg) (fun data =>
    match f data with
    | Ok out => alloc out
    | Err e => fail e
    | Panic => panic
    end).

End Mem.

Declare Scope mem_scope.
Delimit Scope mem_scope with mem.
Notation "x <- m ;; k" := (Mem.mbind m (fun x => k))
  (at level 61, m at next level, right associativity) : mem_scope.
Notation "m ;;; k" := (Mem.mbind m (fun _ => k))
  (at level 61, right associativity) : mem_scope.

(** ** Modes of operation (package modes) *)

(** The interface [BlockCipher]. *)
Record BlockCipher : Type := mkBlockCipher {
  cipher_Encrypt : list Z -> result (list Z);
  cipher_Decrypt : list Z -> result (list Z);
  cipher_BlockSize : nat
}.

(** ** RC4 ([rc4/rc4.go]) *)

Module RC4.
Import Word.

Definition MinKeySize : nat := 1.
Definition MaxKeySize : nat := 256.
Definition StateSize : nat := 256.

Record RC4 : Type := mkRC4 {
  s : list Z;     (* [256]byte *)
  i : Z;          (* byte *)
  j : Z           (* byte *)
}.

Definition s_at (st : list Z) (a : Z) : Z := nth (Z.to_nat a) st 0.

(** [s[a], s[b] = s[b], s[a]]: both values are read, then [s[a]] and
    [s[b]] are assigned in this order. *)
Definition swap (st : list Z) (a b : Z) : list Z :=
  let va := s_at st a in
  let vb := s_at st b in
  array_set (array_set st (Z.to_nat a) vb) (Z.to_nat b) va.

(** One turn of the second loop of [initState]; the key is not empty at
    every call ([New] and [Reset] check it). *)
Definition init_step (key : list Z) (acc : list Z * Z) (k : nat) : list Z * Z :=
  let '(st, j0) := acc in
  let j1 := wrap8 (j0 + s_at st (Z.of_nat k) + nth (k mod length key) key 0) in
  (swap st (Z.of_nat k) j1, j1).

(** [func (r RC4) initState(key []byte)]. *)
Definition initState (key : list Z) : RC4 :=
  let identity := map Z.of_nat (seq 0 StateSize) in
  let '(st, _) := fold_left (init_step key) (seq 0 StateSize) (identity, 0) in
  mkRC4 st 0 0.

(** [func New(key []byte)]: the instance or [ErrInvalidKeySize]. *)
Definition New (key : list Z) : result RC4 :=
  if ((length key <? MinKeySize) || (MaxKeySize <? length key))%nat
  then Err ErrInvalidKeySize
  else Ok (initState key).

(** One turn of the loop of [crypt]: the state after it and the byte of
    the key stream that is XORed into [output[k]]. *)
Definition next_byte (r : RC4) : RC4 * Z :=
  let i1 := wrap8 (i r + 1) in
  let j1 := wrap8 (j r + s_at (s r) i1) in
  let st := swap (s r) i1 j1 in
  let t := wrap8 (s_at st i1 + s_at st j1) in
  (mkRC4 st i1 j1, s_at st t).

(** [func (r RC4) crypt(data []byte) []byte]: the output and the state
    the receiver is left in. *)
Fixpoint crypt (r : RC4) (data : list Z) : list Z * RC4 :=
  match data with
  | [] => ([], r)
  | b :: rest =>
      let '(r1, k) := next_byte r in
      let '(out, r2) := crypt r1 rest in
      (Z.lxor b k :: out, r2)
  end.

Definition Encrypt (r : RC4) (data : list Z) : result (list Z) * RC4 :=
  let '(out, r1) := crypt r data in (Ok out, r1).

Definition Decrypt (r : RC4) (data : list Z) : result (list Z) * RC4 :=
  let '(out, r1) := crypt r data in (Ok out, r1).

(** [func (r RC4) Reset(key []byte) error]: the error, if any, and the
    state the receiver is left in. *)
Definition Reset (r : RC4) (key : list Z) : result unit * RC4 :=
  if ((length key <? MinKeySize) || (MaxKeySize <? length key))%nat
  then (Err ErrInvalidKeySize, r)
  else (Ok tt, initState key).

End RC4.

(** The counted loops of the adapters,
    [for i := start; cond(i); i = next(i) { body(i) }], cut off after
    [fuel] turns; the result is the index at which the loop stopped, and
    [Diverges] stands for a loop that was cut off. *)
Fixpoint for_loop (fuel : nat) (cond : nat -> bool) (next : nat -> nat)
    (body : nat -> Mem.M unit) (i : nat) : Mem.M nat :=
  match fuel with
  | O => Mem.fail Diverges
  | S fuel' =>
      if cond i
      then Mem.mbind (body i) (fun _ => for_loop fuel' cond next body (next i))
      else Mem.ret i
  end.

(** The adapters below take the block size as a length; no cipher of the
    repository returns a negative [BlockSize()]. *)

(** *** ECB ([modes/modes.go]) *)

Module ECB.
Import Mem.
Local Open Scope mem_scope.

Record ECB : Type := mkECB { cipher : BlockCipher }.


(** The loop shared by [Encrypt] and [Decrypt]:
    [block, err := f(input[i : i+blockSize]); copy(output[i:i+blockSize], block)]. *)
Definition loop_body (f : list Z -> result (list Z)) (blockSize : nat)
    (input output : slice) (i : nat) : M unit :=
  src <- lift (sub input i (i + blockSize)) ;;
  block <- call f src ;;
  dst <- lift (sub output i (i + blockSize)) ;;
  copy dst block.

Definition crypt (f : list Z -> result (list Z)) (blockSize : nat)
    (input : slice) : M slice :=
  if (blockSize =? 0)%nat then panic               (* len(input) % 0 *)
  else if negb (len input mod blockSize =? 0)%nat then fail ErrInvalidDataSize
  else
    output <- make (len input) ;;
    for_loop (S (len input)) (fun i => (i <? len input)%nat)
      (fun i => (i + blockSize)%nat) (loop_body f blockSize input output) 0 ;;;
    ret output.

Definition Encrypt (e : ECB) (plaintext : slice) : M slice :=
  crypt (cipher_Encrypt (cipher e)) (cipher_BlockSize (cipher e)) plaintext.

Definition Decrypt (e : ECB) (ciphertext : slice) : M slice :=
  crypt (cipher_Decrypt (cipher e)) (cipher_BlockSize (cipher e)) ciphertext.

End ECB.

(** *** CBC ([modes/modes.go]) *)

Module CBC.
Import Mem.
Local Open Scope mem_scope.

Record CBC : Type := mkCBC { cipher : BlockCipher; iv : slice }.

Definition NewCBC (c : BlockCipher) (iv0 : slice) : M CBC :=
  if negb (len iv0 =? cipher_BlockSize c)%nat then fail ErrInvalidIV
  else
    ivCopy <- make (len iv0) ;;
    copy ivCopy iv0 ;;;
    ret (mkCBC c ivCopy).

Definition encrypt_body (c : CBC) (blockSize : nat)
    (plaintext prev ciphertext : slice) (i : nat) : M unit :=
  block <- make blockSize ;;
  src <- lift (sub plaintext i (i + blockSize)) ;;
  XORBytes block src prev ;;;
  encryptedBlock <- call (cipher_Encrypt (cipher c)) block ;;
  dst <- lift (sub ciphertext i (i + blockSize)) ;;
  copy dst encryptedBlock ;;;
  copy prev encryptedBlock.

(** [Encrypt] and [Decrypt] have the same frame around their loop bodies:
    the size check, [prev] initialised with a copy of [c.iv], the output
    slice, the loop over the blocks. *)
Definition blocks_loop (c : CBC)
    (body : nat -> slice -> slice -> slice -> nat -> M unit)
    (input : slice) : M slice :=
  let blockSize := cipher_BlockSize (cipher c) in
  if (blockSize =? 0)%nat then panic               (* len(input) % 0 *)
  else if negb (len input mod blockSize =? 0)%nat then fail ErrInvalidDataSize
  else
    prev <- make blockSize ;;
    copy prev (iv c) ;;;
    output <- make (len input) ;;
    for_loop (S (len input)) (fun i => (i <? len input)%nat)
      (fun i => (i + blockSize)%nat)
      (body blockSize input prev output) 0 ;;;
    ret output.

Definition Encrypt (c : CBC) (plaintext : slice) : M slice :=
  blocks_loop c (encrypt_body c) plaintext.

Definition decrypt_body (c : CBC) (blockSize : nat)
    (ciphertext prev plaintext : slice) (i : nat) : M unit :=
  src <- lift (sub ciphertext i (i + blockSize)) ;;
  decryptedBlock <- call (cipher_Decrypt (cipher c)) src ;;
  dst <- lift (sub plaintext i (i + blockSize)) ;;
  XORBytes dst decryptedBlock prev ;;;
  src' <- lift (sub ciphertext i (i + blockSize)) ;;
  copy prev src'.

Definition Decrypt (c : CBC) (ciphertext : slice) : M slice :=
  blocks_loop c (decrypt_body c) ciphertext.

End CBC.

(** *** CTR *)

Module CTR.
Import Mem.
Local Open Scope mem_scope.

Record CTR : Type := mkCTR { cipher : BlockCipher; counter : slice }.

Definition NewCTR (c : BlockCipher) (initialCounter : slice) : M CTR :=
  if negb (len initialCounter =? cipher_BlockSize c)%nat then fail ErrInvalidIV
  else
    counterCopy <- make (len initialCounter) ;;
    copy counterCopy initialCounter ;;;
    ret (mkCTR c counterCopy).

(** [n := blockSize; if i+n > len(plaintext) { n = len(plaintext) - i }]. *)
Definition chunk (blockSize total i : nat) : nat :=
  if (total <? i + blockSize)%nat then (total - i)%nat else blockSize.

(** The inner loop
    [for j := 0; j < n; j++ { ciphertext[i+j] = plaintext[i+j] ^ encryptedCounter[j] }]
    as one write of the [n] bytes; the index [j] that goes beyond
    [len(encryptedCounter)] panics after the bytes before it have been
    written.  [ciphertext] is an array of its own. *)
Definition xor_at (ciphertext plaintext encryptedCounter : slice) (i n : nat)
    : M unit :=
  dst <- lift (sub ciphertext i (i + n)) ;;
  src <- lift (sub plaintext i (i + n)) ;;
  da <- read src ;;
  ks <- read encryptedCounter ;;
  write dst (xor_lists da ks) ;;;
  if (len encryptedCounter <? n)%nat then panic else ret tt.

Definition encrypt_body (c : CTR) (blockSize : nat)
    (plaintext counter ciphertext : slice) (i : nat) : M unit :=
  encryptedCounter <- call (cipher_Encrypt (cipher c)) counter ;;
  xor_at ciphertext plaintext encryptedCounter i
    (chunk blockSize (len plaintext) i) ;;;
  Increment counter.

Definition Encrypt (c : CTR) (plaintext : slice) : M slice :=
  let blockSize := cipher_BlockSize (cipher c) in
  ciphertext <- make (len plaintext) ;;
  counter <- make blockSize ;;
  copy counter (CTR.counter c) ;;;
  for_loop (S (len plaintext)) (fun i => (i <? len plaintext)%nat)
    (fun i => (i + chunk blockSize (len plaintext) i)%nat)
    (encrypt_body c blockSize plaintext counter ciphertext) 0 ;;;
  ret ciphertext.

Definition Decrypt (c : CTR) (ciphertext : slice) : M slice :=
  Encrypt c ciphertext.

End CTR.

(** *** OFB *)

Module OFB.
Import Mem.
Local Open Scope mem_scope.

Record OFB : Type := mkOFB { cipher : BlockCipher; iv : slice }.

Definition NewOFB (c : BlockCipher) (iv0 : slice) : M OFB :=
  if negb (len iv0 =? cipher_BlockSize c)%nat then fail ErrInvalidIV
  else
    ivCopy <- make (len iv0) ;;
    copy ivCopy iv0 ;;;
    ret (mkOFB c ivCopy).

Definition encrypt_body (o : OFB) (blockSize : nat)
    (plaintext register ciphertext : slice) (i : nat) : M unit :=
  encryptedRegister <- call (cipher_Encrypt (cipher o)) register ;;
  dst <- lift (sub ciphertext i (i + blockSize)) ;;
  src <- lift (sub plaintext i (i + blockSize)) ;;
  XORBytes dst src encryptedRegister ;;;
  copy register encryptedRegister.

(** The last, partial block: [if i < len(plaintext) { ... }]. *)
Definition encrypt_tail (o : OFB) (plaintext register ciphertext : slice)
    (i : nat) : M unit :=
  if (i <? len plaintext)%nat then
    encryptedRegister <- call (cipher_Encrypt (cipher o)) register ;;
    dst <- lift (sub ciphertext i (len ciphertext)) ;;
    src <- lift (sub plaintext i (len plaintext)) ;;
    XORBytes dst src encryptedRegister
  else ret tt.

Definition Encrypt (o : OFB) (plaintext : slice) : M slice :=
  let blockSize := cipher_BlockSize (cipher o) in
  ciphertext <- make (len plaintext) ;;
  register <- make blockSize ;;
  copy register (iv o) ;;;
  i <- for_loop (S (len plaintext))
         (fun i => (i + blockSize <=? len plaintext)%nat)
         (fun i => (i + blockSize)%nat)
         (encrypt_body o blockSize plaintext register ciphertext) 0 ;;
  encrypt_tail o plaintext register ciphertext i ;;;
  ret ciphertext.

Definition Decrypt (o : OFB) (ciphertext : slice) : M slice :=
  Encrypt o ciphertext.

End OFB.

(** *** CFB ([modes/cfb.go]) *)

Module CFB.
Import Mem.
Local Open Scope mem_scope.

Record CFB : Type := mkCFB {
  cipher : BlockCipher;
  iv : slice;
  segmentSize : nat
}.

Definition NewCFB (c : BlockCipher) (iv0 : slice) : M CFB :=
  if negb (len iv0 =? cipher_BlockSize c)%nat then fail ErrInvalidIV
  else
    ivCopy <- make (len iv0) ;;
    copy ivCopy iv0 ;;;
    ret (mkCFB c ivCopy (cipher_BlockSize c)).

(** [WithSegmentSize] sets the field of the receiver and returns it. *)
Definition WithSegmentSize (c : CFB) (segmentSize_ : Z) : result CFB :=
  if (segmentSize_ <=? 0) || (Z.of_nat (cipher_BlockSize (cipher c)) <? segmentSize_)
  then Err ErrInvalidBlockSize
  else Ok (mkCFB (cipher c) (iv c) (Z.to_nat segmentSize_)).

(** The feedback: the register moves left by one segment and takes the
    segment of ciphertext at its end. *)
Definition feedback (c : CFB) (blockSize : nat) (register segment : slice)
    : M unit :=
  if (segmentSize c <? blockSize)%nat then
    tail <- lift (sub register (segmentSize c) (len register)) ;;
    copy register tail ;;;
    last <- lift (sub register (blockSize - segmentSize c) (len register)) ;;
    copy last segment
  else copy register segment.

(** One turn of the loops; [Encrypt] feeds back the segment it has
    written to [output], [Decrypt] the segment it has read from [input]. *)
Definition body (c : CFB) (decrypt : bool) (blockSize : nat)
    (input register output : slice) (i : nat) : M unit :=
  encrypted <- call (cipher_Encrypt (cipher c)) register ;;
  let n := CTR.chunk (segmentSize c) (len input) i in
  dst <- lift (sub output i (i + n)) ;;
  src <- lift (sub input i (i + n)) ;;
  ks <- lift (sub encrypted 0 n) ;;
  XORBytes dst src ks ;;;
  segment <- lift (sub (if decrypt then input else output) i (i + n)) ;;
  feedback c blockSize register segment.

Definition crypt (c : CFB) (decrypt : bool) (input : slice) : M slice :=
  let blockSize := cipher_BlockSize (cipher c) in
  output <- make (len input) ;;
  register <- make blockSize ;;
  copy register (iv c) ;;;
  for_loop (S (len input)) (fun i => (i <? len input)%nat)
    (fun i => (i + segmentSize c)%nat)
    (body c decrypt blockSize input register output) 0 ;;;
  ret output.

Definition Encrypt (c : CFB) (plaintext : slice) : M slice := crypt c false plaintext.
Definition Decrypt (c : CFB) (ciphertext : slice) : M slice := crypt c true ciphertext.

End CFB.

(** ** Vocabulary of the statements *)

(** A list of Go bytes. *)
Definition bytes (l : list Z) : Prop := Forall (fun b => 0 <= b < 256) l.

(** A Go [byte] and a Go [uint32]. *)
Definition u8 (x : Z) : Prop := 0 <= x < 2 ^ 8.
Definition u32 (x : Z) : Prop := 0 <= x < 2 ^ 32.
Definition u64 (x : Z) : Prop := 0 <= x < 2 ^ 64.

(** The ASCII string "abc". *)
Definition abc : list Z := [0x61; 0x62; 0x63].

(** [unpad(pad(x, B))] returns [x]. *)
Definition roundtrip (pad : list Z -> Z -> result (list Z))
    (unpad : list Z -> result (list Z)) (x : list Z) (B : Z) : Prop :=
  bind (pad x B) unpad = Ok x.

(** [padded] is [data] followed by [k] zero bytes. *)
Definition appends_zeros (data padded : list Z) (k : Z) : Prop :=
  padded = data ++ repeat 0 (Z.to_nat k).

(** [Decrypt(Encrypt(block))] returns [block]. *)
Definition block_roundtrip {C : Type} (enc dec : C -> list Z -> result (list Z))
    (c : C) (block : list Z) : Prop :=
  bind (enc c block) (dec c) = Ok block.

(** Four 32-bit words, and the same words in reverse order. *)
Definition words_u32 (X : SM4.words) : Prop :=
  let '(x0, x1, x2, x3) := X in u32 x0 /\ u32 x1 /\ u32 x2 /\ u32 x3.

Definition rev4 (X : SM4.words) : SM4.words :=
  let '(x0, x1, x2, x3) := X in (x3, x2, x1, x0).

(** Two 32-bit words. *)
Definition pair_u32 (lr : Z * Z) : Prop := u32 (fst lr) /\ u32 (snd lr).

(** The invariant of the mixing loops of Blowfish's [expandKey]. *)
Definition mix_ok (m : Blowfish.mix) : Prop :=
  Forall u32 (Blowfish.p (fst m)) /\ pair_u32 (snd m).

(** A table of [n] 1-based bit positions in a word of [w] bits. *)
Definition positions (T : Z -> Z) (n w : Z) : Prop :=
  forall i, 0 <= i < n -> 1 <= T i <= w.

(** Table [B] undoes table [A]: position [B[i]] of [A] holds [i + 1]. *)
Definition undoes (A B : Z -> Z) (n : Z) : Prop :=
  forall i, 0 <= i < n -> A (B i - 1) = i + 1.

(** Swap of the two halves of a Feistel state. *)
Definition swap_halves (lr : Z * Z) : Z * Z := (snd lr, fst lr).

(** Table [T] holds the products by [c] in GF(2^8). *)
Definition gf_table (T : Z -> Z) (c : Z) : Prop :=
  forall b, u8 b -> byte_at T b = AES.gmul c b.

(** Table [Si] undoes table [S] on bytes. *)
Definition inverse_tables (S Si : Z -> Z) : Prop :=
  forall b, u8 b -> byte_at Si (byte_at S b) = b.

(** An AES state: sixteen bytes. *)
Definition aes_state (s : list Z) : Prop := bytes s /\ length s = 16%nat.

(** The sixteen entries of the product of the inverse MDS matrix with the
    MDS matrix, applied to one byte: the diagonal returns the byte, the
    rest is zero. *)
Definition mds_products (a : Z) : list Z :=
  let g := AES.gmul in
  let x4 (p q r s : Z) := Z.lxor (Z.lxor (Z.lxor p q) r) s in
  [ x4 (g 14 (g 2 a)) (g 11 a) (g 13 a) (g 9 (g 3 a));
    x4 (g 14 (g 3 a)) (g 11 (g 2 a)) (g 13 a) (g 9 a);
    x4 (g 14 a) (g 11 (g 3 a)) (g 13 (g 2 a)) (g 9 a);
    x4 (g 14 a) (g 11 a) (g 13 (g 3 a)) (g 9 (g 2 a));
    x4 (g 9 (g 2 a)) (g 14 a) (g 11 a) (g 13 (g 3 a));
    x4 (g 9 (g 3 a)) (g 14 (g 2 a)) (g 11 a) (g 13 a);
    x4 (g 9 a) (g 14 (g 3 a)) (g 11 (g 2 a)) (g 13 a);
    x4 (g 9 a) (g 14 a) (g 11 (g 3 a)) (g 13 (g 2 a));
    x4 (g 13 (g 2 a)) (g 9 a) (g 14 a) (g 11 (g 3 a));
    x4 (g 13 (g 3 a)) (g 9 (g 2 a)) (g 14 a) (g 11 a);
    x4 (g 13 a) (g 9 (g 3 a)) (g 14 (g 2 a)) (g 11 a);
    x4 (g 13 a) (g 9 a) (g 14 (g 3 a)) (g 11 (g 2 a));
    x4 (g 11 (g 2 a)) (g 13 a) (g 9 a) (g 14 (g 3 a));
    x4 (g 11 (g 3 a)) (g 13 (g 2 a)) (g 9 a) (g 14 a);
    x4 (g 11 a) (g 13 (g 3 a)) (g 9 (g 2 a)) (g 14 a);
    x4 (g 11 a) (g 13 a) (g 9 (g 3 a)) (g 14 (g 2 a)) ].

Definition mds_identity (a : Z) : list Z :=
  [a; 0; 0; 0;  0; a; 0; 0;  0; 0; a; 0;  0; 0; 0; a].

Definition list_eqb (l1 l2 : list Z) : bool :=
  (length l1 =? length l2)%nat && forallb (fun p => fst p =? snd p) (combine l1 l2).

(** Every byte, in order. *)
Definition all_bytes : list Z := map Z.of_nat (seq 0 256).

(** Checks over an index range [0, n). *)
Definition all_below (n : nat) (f : Z -> bool) : bool :=
  forallb f (map Z.of_nat (seq 0 n)).

(** Concrete inputs of the examples. *)
Definition key_0_to (n : nat) : list Z := map Z.of_nat (seq 0 n).
Definition block_00_to_ff : list Z := map (fun i => Z.of_nat i * 17) (seq 0 16).
Definition block_8 : list Z := [0x01; 0x23; 0x45; 0x67; 0x89; 0xab; 0xcd; 0xef].

(** The state of an RC4 instance is a permutation of the 256 bytes and two
    byte indices. *)
Definition rc4_state (r : RC4.RC4) : Prop :=
  Permutation (RC4.s r) all_bytes /\ u8 (RC4.i r) /\ u8 (RC4.j r).

(** The output of a call on a stateful instance, and the state it leaves. *)
Definition output {A S : Type} (p : result A * S) : result A := fst p.
Definition state_after {A S : Type} (p : result A * S) : S := snd p.

(** ** Vocabulary of the statements about the modes *)

(** A slice lies within its backing array, which has been allocated. *)
Definition wf (st : Mem.store) (s : Mem.slice) : Prop :=
  (Mem.base s < Mem.next st)%nat /\
  (Mem.off s + Mem.len s <= length (Mem.mem st (Mem.base s)))%nat.

(** [st'] comes after [st]: every array that existed in [st] holds the same
    elements in [st']. *)
Definition extends (st st' : Mem.store) : Prop :=
  (Mem.next st <= Mem.next st')%nat /\
  forall a, (a < Mem.next st)%nat -> Mem.mem st' a = Mem.mem st a.

(** A slice returned by a call in [st] is new: its array was allocated by
    the call. *)
Definition fresh (st st' : Mem.store) (s : Mem.slice) : Prop :=
  (Mem.next st <= Mem.base s)%nat /\ wf st' s.

(** The outcome of a computation that returns a slice, as bytes. *)
Definition outcome (p : result Mem.slice * Mem.store) : result (list Z) :=
  match fst p with
  | Ok s => Ok (Mem.contents (snd p) s)
  | Err e => Err e
  | Panic => Panic
  end.

(** A block function returns blocks of [n] bytes when it returns. *)
Definition returns_blocks (f : list Z -> result (list Z)) (n : nat) : Prop :=
  forall b c, f b = Ok c -> length c = n.



(** What CBC computes on bytes, block by block; [prev] is the IV, then
    the last block of ciphertext. *)
Fixpoint cbc_encrypt_blocks (E : list Z -> result (list Z)) (blockSize n : nat)
    (prev P : list Z) : result (list Z) :=
  match n with
  | O => Ok []
  | S n' =>
      bind (E (Mem.xor_lists (firstn blockSize P) prev)) (fun c =>
      bind (cbc_encrypt_blocks E blockSize n' c (skipn blockSize P)) (fun rest =>
      Ok (c ++ rest)))
  end.

Fixpoint cbc_decrypt_blocks (D : list Z -> result (list Z)) (blockSize n : nat)
    (prev C : list Z) : result (list Z) :=
  match n with
  | O => Ok []
  | S n' =>
      bind (D (firstn blockSize C)) (fun d =>
      bind (cbc_decrypt_blocks D blockSize n' (firstn blockSize C)
              (skipn blockSize C)) (fun rest =>
      Ok (Mem.xor_lists d prev ++ rest)))
  end.

Definition cbc_bytes
    (blocks : nat -> nat -> list Z -> list Z -> result (list Z))
    (blockSize : nat) (IV P : list Z) : result (list Z) :=
  if (blockSize =? 0)%nat then Panic
  else if negb (length P mod blockSize =? 0)%nat then Err ErrInvalidDataSize
  else blocks blockSize (length P / blockSize)%nat IV P.

(** The adapter [c] holds the bytes [IV] in a slice of one block. *)
Definition cbc_holds (st : Mem.store) (c : CBC.CBC) (IV : list Z) : Prop :=
  wf st (CBC.iv c) /\
  Mem.len (CBC.iv c) = cipher_BlockSize (CBC.cipher c) /\
  Mem.contents st (CBC.iv c) = IV.

(** A well-behaved block cipher: a positive block size, blocks in, blocks
    out, and [Decrypt] undoes [Encrypt] on every block of bytes. *)
Definition block_cipher_ok (C : BlockCipher) : Prop :=
  (0 < cipher_BlockSize C)%nat /\
  returns_blocks (cipher_Encrypt C) (cipher_BlockSize C) /\
  returns_blocks (cipher_Decrypt C) (cipher_BlockSize C) /\
  forall b, bytes b -> length b = cipher_BlockSize C ->
    exists c, cipher_Encrypt C b = Ok c /\ bytes c /\ cipher_Decrypt C c = Ok b.

(** An RC5 instance as a [BlockCipher]: its three methods. *)
Definition RC5_cipher (r : RC5.RC5) : BlockCipher :=
  mkBlockCipher (RC5.Encrypt r) (RC5.Decrypt r) (RC5.blockSize r).

(** A store with two arrays, at addresses 0 and 1, and slices on them. *)
Definition two_arrays (a0 a1 : list Z) : Mem.store :=
  Mem.mkStore 2 (fun a => match a with 0%nat => a0 | 1%nat => a1 | _ => [] end).

Definition whole (a : nat) (l : list Z) : Mem.slice := Mem.mkSlice a 0 (length l).

(** Concrete inputs of the examples: an RC5 instance (12 rounds, the key
    00 01 ... 0f), an IV of one block and two blocks of data in a store. *)
Definition example_RC5 : RC5.RC5 :=
  match RC5.New (key_0_to 16) with
  | Ok r => r
  | _ => RC5.mkRC5 0 0 0 0 []
  end.

Definition example_iv : list Z := block_8.
Definition example_data : list Z := block_8 ++ rev block_8.
Definition example_store : Mem.store := two_arrays example_iv example_data.
Definition example_CBC : CBC.CBC :=
  CBC.mkCBC (RC5_cipher example_RC5) (whole 0 example_iv).

(** What CTR computes on bytes: the key stream is the encryption of the
    counter, which is incremented after each block; the last block may be
    short.  [n] bounds the number of blocks. *)
Fixpoint ctr_blocks (E : list Z -> result (list Z)) (blockSize n : nat)
    (ctr P : list Z) : result (list Z) :=
  match n with
  | O => Ok []
  | S n' =>
      match P with
      | [] => Ok []
      | _ =>
          bind (E ctr) (fun ks =>
          bind (ctr_blocks E blockSize n' (Mem.increment ctr) (skipn blockSize P))
               (fun rest => Ok (Mem.xor_lists (firstn blockSize P) ks ++ rest)))
      end
  end.

Definition ctr_bytes (E : list Z -> result (list Z)) (blockSize : nat)
    (ctr P : list Z) : result (list Z) :=
  ctr_blocks E blockSize (length P) ctr P.

(** The adapter [c] holds the bytes [ctr] in a slice of one block. *)
Definition ctr_holds (st : Mem.store) (c : CTR.CTR) (ctr : list Z) : Prop :=
  wf st (CTR.counter c) /\
  Mem.len (CTR.counter c) = cipher_BlockSize (CTR.cipher c) /\
  Mem.contents st (CTR.counter c) = ctr.

(** A counter read as a big-endian number. *)
Definition be_value (c : list Z) : Z := fold_left (fun acc b => acc * 256 + b) c 0.

Definition example_CTR : CTR.CTR :=
  CTR.mkCTR (RC5_cipher example_RC5) (whole 0 example_iv).

(** Data that is not a whole number of blocks. *)
Definition example_text : list Z := block_8 ++ [0x10; 0x20; 0x30].
Definition example_store' : Mem.store := two_arrays example_iv example_text.

(** What OFB computes on bytes: the key stream is the encryption of the
    register, which then takes the key stream block; the last block may
    be short.  [n] bounds the number of blocks. *)
Fixpoint ofb_blocks (E : list Z -> result (list Z)) (blockSize n : nat)
    (reg P : list Z) : result (list Z) :=
  match n with
  | O => Ok []
  | S n' =>
      match P with
      | [] => Ok []
      | _ =>
          bind (E reg) (fun ks =>
          bind (ofb_blocks E blockSize n' ks (skipn blockSize P))
               (fun rest => Ok (Mem.xor_lists (firstn blockSize P) ks ++ rest)))
      end
  end.

Definition ofb_bytes (E : list Z -> result (list Z)) (blockSize : nat)
    (iv P : list Z) : result (list Z) :=
  ofb_blocks E blockSize (length P) iv P.

Definition ofb_holds (st : Mem.store) (o : OFB.OFB) (IV : list Z) : Prop :=
  wf st (OFB.iv o) /\
  Mem.len (OFB.iv o) = cipher_BlockSize (OFB.cipher o) /\
  Mem.contents st (OFB.iv o) = IV.

Definition example_OFB : OFB.OFB :=
  OFB.mkOFB (RC5_cipher example_RC5) (whole 0 example_iv).

(** The register of CFB after the feedback of the segment [fed]. *)
Definition cfb_feedback (blockSize seg : nat) (reg fed : list Z) : list Z :=
  if (seg <? blockSize)%nat then
    Mem.patch (Mem.patch reg 0 blockSize (Mem.view reg seg (blockSize - seg)))
      (blockSize - seg) (blockSize - (blockSize - seg)) fed
  else Mem.patch reg 0 blockSize fed.

(** What CFB computes on bytes, segment by segment; the register is fed
    with the segment of ciphertext: the output of [Encrypt], the input of
    [Decrypt].  [n] bounds the number of segments. *)
Fixpoint cfb_blocks (E : list Z -> result (list Z)) (blockSize seg : nat)
    (decrypt : bool) (n : nat) (reg P : list Z) : result (list Z) :=
  match n with
  | O => Ok []
  | S n' =>
      match P with
      | [] => Ok []
      | _ =>
          bind (E reg) (fun enc =>
          let chunk := firstn seg P in
          let out := Mem.xor_lists chunk (firstn (length chunk) enc) in
          let fed := if decrypt then chunk else out in
          bind (cfb_blocks E blockSize seg decrypt n'
                  (cfb_feedback blockSize seg reg fed) (skipn seg P))
               (fun rest => Ok (out ++ rest)))
      end
  end.

Definition cfb_bytes (E : list Z -> result (list Z)) (blockSize seg : nat)
    (decrypt : bool) (iv P : list Z) : result (list Z) :=
  cfb_blocks E blockSize seg decrypt (length P) iv P.

Definition cfb_holds (st : Mem.store) (c : CFB.CFB) (IV : list Z) : Prop :=
  wf st (CFB.iv c) /\
  Mem.len (CFB.iv c) = cipher_BlockSize (CFB.cipher c) /\
  Mem.contents st (CFB.iv c) = IV /\
  (0 < CFB.segmentSize c <= cipher_BlockSize (CFB.cipher c))%nat.

(** ** Vocabulary of the statements about padding *)

(** [pad(x, B)] is [x] followed by padding bytes, a whole number of blocks
    of [B] bytes in all. *)
Definition pads_to_blocks (pad : list Z -> Z -> result (list Z))
    (x : list Z) (B : Z) : Prop :=
  exists tail, pad x B = Ok (x ++ tail) /\
               Z.of_nat (length (x ++ tail)) mod B = 0.

(** Whatever [unpad] returns is the beginning of its input. *)
Definition returns_prefix (unpad : list Z -> result (list Z)) (d : list Z) : Prop :=
  forall r, unpad d = Ok r -> exists t, d = r ++ t.

(** A random source that fills the slice it is given. *)
Definition fills (rand : nat -> result (list Z)) : Prop :=
  forall n, exists random, rand n = Ok random /\ length random = n.

(** * Properties *)

Lemma bytes_app (l1 l2 : list Z) : bytes l1 -> bytes l2 -> bytes (l1 ++ l2).
Proof. intros H1 H2. apply Forall_app. split; assumption. Qed.

Lemma bytes_repeat (b : Z) (n : nat) : 0 <= b < 256 -> bytes (repeat b n).
Proof. intros Hb. apply Forall_forall. intros y Hy. apply repeat_spec in Hy. subst. exact Hb. Qed.

Lemma bytes_nth (l : list Z) (i : nat) : bytes l -> 0 <= nth i l 0 < 256.
Proof.
  intros Hl. destruct (Nat.lt_ge_cases i (length l)) as [Hi | Hi].
  - unfold bytes in Hl. rewrite Forall_forall in Hl. apply Hl. apply nth_In. exact Hi.
  - rewrite nth_overflow by exact Hi. lia.
Qed.


Lemma Ok_inj {A : Type} (a b : A) : Ok a = Ok b -> a = b.
Proof. intros H. injection H as H. exact H. Qed.

(** ** SM3 *)

Section SM3_padding.
Import SM3.

(** [Write] adds the number of bytes written to [len], modulo 2^64. *)
Lemma Write_len (d : digest) (p : list Z) :
  len (Write d p) = Word.wrap64 (len d + Z.of_nat (length p)).
Proof.
  unfold Write.
  destruct (0 <? nx d)%nat.
  - destruct (nx d + Slice.copy_n (skipn (nx d) (x d)) p =? 64)%nat;
      match goal with
      | |- context [(64 <=? length ?q)%nat] => destruct (64 <=? length q)%nat
      end;
      match goal with
      | |- context [(0 <? length ?q)%nat] => destruct (0 <? length q)%nat
      end; reflexivity.
  - destruct (64 <=? length p)%nat;
      match goal with
      | |- context [(0 <? length ?q)%nat] => destruct (0 <? length q)%nat
      end; reflexivity.
Qed.

(** The guard [padLen <= 0] never fires: the remainder is at most 63, so
    [padLen] lies in [1, 64], and it is 64 exactly when the length is
    congruent to 55 modulo 64. *)
Lemma padLen_range (n : Z) :
  0 <= n < 2 ^ 62 -> padLen n = 64 - (n + 9) mod 64.
Proof.
  intros Hn. unfold padLen, Word.wrap_int, Word.int_of_uint64, Word.wrap64.
  assert (Hlt : (n <? 9223372036854775808) = true) by (apply Z.ltb_lt; lia).
  rewrite Hlt.
  rewrite (Z.mod_small (n + 1)) by lia.
  assert (Hlt1 : (n + 1 <? 9223372036854775808) = true) by (apply Z.ltb_lt; lia).
  rewrite Hlt1.
  rewrite (Z.mod_small (n + 1 + 8)) by lia.
  assert (Hlt2 : (n + 1 + 8 <? 9223372036854775808) = true) by (apply Z.ltb_lt; lia).
  rewrite Hlt2.
  rewrite Z.rem_mod_nonneg by lia.
  replace (n + 1 + 8) with (n + 9) by lia.
  pose proof (Z.mod_pos_bound (n + 9) 64 ltac:(lia)) as Hb.
  destruct (64 - (n + 9) mod 64 <=? 0) eqn:E.
  - apply Z.leb_le in E. lia.
  - reflexivity.
Qed.

(** Every message whose length is congruent to 55 modulo 64 makes
    [checkSum] evaluate [tmp[:65]] on a 64-byte array. *)
Lemma Sum_panics_on_55_mod_64 (data : list Z) :
  Z.of_nat (length data) < 2 ^ 62 ->
  Z.of_nat (length data) mod 64 = 55 ->
  Sum data = None.
Proof.
  intros Hlen Hmod. unfold Sum, checkSum.
  rewrite Write_len. cbn [len Reset].
  rewrite Z.add_0_l.
  assert (Hw : Word.wrap64 (Z.of_nat (length data)) = Z.of_nat (length data)).
  { unfold Word.wrap64. apply Z.mod_small. lia. }
  rewrite Hw, padLen_range by lia.
  assert (Hz : (Z.of_nat (length data) + 9) mod 64 = 0).
  { rewrite Z.add_mod by lia. rewrite Hmod. reflexivity. }
  rewrite Hz. reflexivity.
Qed.

End SM3_padding.

Lemma Sum_panics_on_55_mod_64_witness :
  Z.of_nat (length (repeat 0 119)) < 2 ^ 62 /\
  Z.of_nat (length (repeat 0 119)) mod 64 = 55 /\
  SM3.Sum (repeat 0 119) = None.
Proof.
  split; [vm_compute; reflexivity|].
  split; [vm_compute; reflexivity|].
  apply Sum_panics_on_55_mod_64; vm_compute; reflexivity.
Defined.

(** C1.  On a message of 55 bytes, [Sum] does not return a digest: the
    padding count is 64, the slice [tmp[:1+padLen]] is [tmp[:65]] on a
    64-byte array, and the Go run time panics. *)
Theorem C1_Sum_55_bytes_panics :
  SM3.padLen 55 = 64 /\ SM3.Sum (repeat 0 55) = None.
Proof. split; vm_compute; reflexivity. Qed.

(** The neighbouring lengths are hashed normally. *)
Example Sum_54_56_fine :
  (exists h54, SM3.Sum (repeat 0 54) = Some h54 /\ length h54 = 32%nat) /\
  (exists h56, SM3.Sum (repeat 0 56) = Some h56 /\ length h56 = 32%nat).
Proof.
  split.
  - destruct (SM3.Sum (repeat 0 54)) as [h54|] eqn:E; [|vm_compute in E; discriminate].
    exists h54. split; [reflexivity|].
    vm_compute in E. injection E as <-. reflexivity.
  - destruct (SM3.Sum (repeat 0 56)) as [h56|] eqn:E; [|vm_compute in E; discriminate].
    exists h56. split; [reflexivity|].
    vm_compute in E. injection E as <-. reflexivity.
Qed.

(** C8.  SM3("abc") is
    66c7f0f462eeedd9d1f2d46bdc10e4e24167c4875cf2f7a2297da02b8f4ba8e0. *)
Theorem C8_SM3_abc :
  SM3.Sum abc =
  Some [0x66; 0xc7; 0xf0; 0xf4; 0x62; 0xee; 0xed; 0xd9;
        0xd1; 0xf2; 0xd4; 0x6b; 0xdc; 0x10; 0xe4; 0xe2;
        0x41; 0x67; 0xc4; 0x87; 0x5c; 0xf2; 0xf7; 0xa2;
        0x29; 0x7d; 0xa0; 0x2b; 0x8f; 0x4b; 0xa8; 0xe0].
Proof. vm_compute. reflexivity. Qed.

(** The other two seed vectors of the test file. *)
Example SM3_empty :
  SM3.Sum [] =
  Some [0x1a; 0xb2; 0x1d; 0x83; 0x55; 0xcf; 0xa1; 0x7f;
        0x8e; 0x61; 0x19; 0x48; 0x31; 0xe8; 0x1a; 0x8f;
        0x22; 0xbe; 0xc8; 0xc7; 0x28; 0xfe; 0xfb; 0x74;
        0x7e; 0xd0; 0x35; 0xeb; 0x50; 0x82; 0xaa; 0x2b].
Proof. vm_compute. reflexivity. Qed.

Example SM3_abcd16 :
  SM3.Sum (concat (repeat [0x61; 0x62; 0x63; 0x64] 16)) =
  Some [0xde; 0xbe; 0x9f; 0xf9; 0x22; 0x75; 0xb8; 0xa1;
        0x38; 0x60; 0x48; 0x89; 0xc1; 0x8e; 0x5a; 0x4d;
        0x6f; 0xdb; 0x70; 0xe5; 0x38; 0x7e; 0x57; 0x65;
        0x29; 0x3d; 0xcb; 0xa3; 0x9c; 0x0c; 0x57; 0x32].
Proof. vm_compute. reflexivity. Qed.

(** ** Padding *)

Section Padding_facts.
Import Padding.

Lemma pad_count_pos (data : list Z) (B : Z) :
  1 <= B ->
  pad_count data B = Ok (B - Z.of_nat (length data) mod B) /\
  1 <= B - Z.of_nat (length data) mod B <= B.
Proof.
  intros HB. unfold pad_count.
  assert (E : (B <=? 0) = false) by (apply Z.leb_gt; lia).
  rewrite E. rewrite Z.rem_mod_nonneg by lia.
  pose proof (Z.mod_pos_bound (Z.of_nat (length data)) B ltac:(lia)).
  split; [reflexivity | lia].
Qed.

Lemma files_pad_count_pos (data : list Z) (B : Z) :
  1 <= B ->
  PaddingFiles.pad_count data B = Ok (B - Z.of_nat (length data) mod B).
Proof. intros HB. exact (proj1 (pad_count_pos data B HB)). Qed.

Lemma nth_app_at (x l : list Z) (j : nat) :
  nth (length x + j) (x ++ l) 0 = nth j l 0.
Proof.
  rewrite app_nth2 by lia. f_equal. lia.
Qed.

Lemma firstn_app_exact (x l : list Z) : firstn (length x) (x ++ l) = x.
Proof.
  rewrite firstn_app, Nat.sub_diag, firstn_all. simpl. apply app_nil_r.
Qed.

Lemma nth_repeat_0 (k j : nat) : nth j (repeat 0 k) 0 = 0.
Proof.
  destruct (Nat.lt_ge_cases j k) as [H | H].
  - apply nth_repeat_lt. exact H.
  - apply nth_overflow. rewrite repeat_length. exact H.
Qed.

(** The backward scan for 0x80 over [x ++ 0x80 :: 0 ... 0] stops at the
    marker. *)
Lemma marker_scan_padded (bad : error) (x : list Z) (k j : nat) :
  (j <= k)%nat ->
  marker_scan bad (x ++ 0x80 :: repeat 0 k) (length x + 1 + j) = Ok x.
Proof.
  induction j as [| j IH]; intros Hj.
  - replace (length x + 1 + 0)%nat with (S (length x)) by lia.
    cbn [marker_scan].
    replace (length x) with (length x + 0)%nat at 1 by lia.
    rewrite nth_app_at. cbn [nth]. rewrite Z.eqb_refl.
    rewrite firstn_app_exact. reflexivity.
  - replace (length x + 1 + S j)%nat with (S (length x + S j)) by lia.
    cbn [marker_scan].
    rewrite nth_app_at. cbn [nth]. rewrite nth_repeat_0. cbn.
    replace (length x + S j)%nat with (length x + 1 + j)%nat by lia.
    apply IH. lia.
Qed.

Lemma marker_roundtrip (bad : error) (x : list Z) (k : nat) :
  marker_scan bad (x ++ 0x80 :: repeat 0 k) (length (x ++ 0x80 :: repeat 0 k)) = Ok x.
Proof.
  rewrite length_app. cbn [length]. rewrite repeat_length.
  replace (length x + S k)%nat with (length x + 1 + k)%nat by lia.
  apply marker_scan_padded. lia.
Qed.

(** The backward scan of [ZeroUnPadding] over [x ++ 0 ... 0] stops at the
    last byte of [x] when that byte is not zero. *)
Lemma zero_scan_padded (x : list Z) (k j : nat) :
  last x 0 <> 0 -> (j <= k)%nat ->
  zero_scan (x ++ repeat 0 k) (length x + j) = Ok x.
Proof.
  intros Hlast. induction j as [| j IH]; intros Hj.
  - rewrite Nat.add_0_r. destruct x as [| a x'] using rev_ind.
    + cbn in Hlast. congruence.
    + clear IHx'. rewrite last_last in Hlast.
      rewrite length_app. cbn [length].
      replace (length x' + 1)%nat with (S (length x')) by lia.
      cbn [zero_scan]. rewrite <- app_assoc.
      replace (length x') with (length x' + 0)%nat at 1 by lia.
      rewrite nth_app_at. cbn [app nth].
      assert (E : (a =? 0) = false) by (apply Z.eqb_neq; exact Hlast).
      rewrite E. cbn [negb].
      replace (length x' + 1)%nat with (length (x' ++ [a])).
      2:{ rewrite length_app. reflexivity. }
      replace (x' ++ a :: repeat 0 k) with ((x' ++ [a]) ++ repeat 0 k).
      2:{ rewrite <- app_assoc. reflexivity. }
      rewrite firstn_app_exact. reflexivity.
  - replace (length x + S j)%nat with (S (length x + j)) by lia.
    cbn [zero_scan]. rewrite nth_app_at, nth_repeat_0. cbn.
    apply IH. lia.
Qed.

Lemma repeat_S_copy (n : nat) (b : Z) :
  Slice.copy (repeat 0 (S n)) [b] = b :: repeat 0 n.
Proof.
  unfold Slice.copy. cbn [repeat length firstn skipn app].
  rewrite firstn_nil. reflexivity.
Qed.

Lemma repeat_copy_last (n : nat) (b : Z) :
  Slice.copy_at (repeat 0 (S n)) n [b] = repeat 0 n ++ [b].
Proof.
  unfold Slice.copy_at, Slice.copy.
  replace (repeat 0 (S n)) with (repeat 0 n ++ [0]).
  2:{ rewrite <- repeat_cons. reflexivity. }
  assert (Hn : length (repeat 0 n) = n) by apply repeat_length.
  rewrite firstn_app, skipn_app, Hn, Nat.sub_diag.
  rewrite firstn_all2 by lia. rewrite skipn_all2 by lia.
  cbn. rewrite app_nil_r. reflexivity.
Qed.

Lemma existsb_seq_false (f : nat -> bool) (a n : nat) :
  (forall i, (a <= i < a + n)%nat -> f i = false) ->
  existsb f (seq a n) = false.
Proof.
  revert a. induction n as [| n IH]; intros a H; cbn; [reflexivity|].
  rewrite H by lia. cbn. apply IH. intros i Hi. apply H. lia.
Qed.

End Padding_facts.

Section Padding_roundtrip.
Import Padding.

Variable x : list Z.
Variable B : Z.
Hypothesis HB : 1 <= B.

Let padding := B - Z.of_nat (length x) mod B.

Lemma padding_S : exists m, Z.to_nat padding = S m.
Proof.
  destruct (pad_count_pos x B HB) as [_ Hr]. fold padding in Hr.
  exists (Z.to_nat padding - 1)%nat. lia.
Qed.

Lemma ISO7816_roundtrip : roundtrip ISO7816Padding ISO7816UnPadding x B.
Proof.
  unfold roundtrip, ISO7816Padding, with_padding.
  rewrite (proj1 (pad_count_pos x B HB)). fold padding.
  destruct padding_S as [m Hm]. rewrite Hm, repeat_S_copy. cbn [bind].
  unfold ISO7816UnPadding.
  rewrite length_app. cbn [length].
  rewrite repeat_length.
  replace (length x + S m)%nat with (length x + 1 + m)%nat by lia.
  assert (E : (length x + 1 + m =? 0)%nat = false) by (apply Nat.eqb_neq; lia).
  rewrite E. apply marker_scan_padded. lia.
Qed.

Lemma M1_roundtrip : roundtrip M1Padding M1UnPadding x B.
Proof.
  unfold roundtrip, M1Padding, with_padding.
  rewrite (proj1 (pad_count_pos x B HB)). fold padding.
  destruct padding_S as [m Hm].
  replace (Z.to_nat (padding - 1)) with m by lia.
  cbn [bind app]. unfold M1UnPadding.
  rewrite length_app. cbn [length].
  rewrite repeat_length.
  replace (length x + S m)%nat with (length x + 1 + m)%nat by lia.
  assert (E : (length x + 1 + m =? 0)%nat = false) by (apply Nat.eqb_neq; lia).
  rewrite E. apply marker_scan_padded. lia.
Qed.

Lemma last_of_padded (l : list Z) (b : Z) :
  nth (length (x ++ l ++ [b]) - 1) (x ++ l ++ [b]) 0 = b.
Proof.
  rewrite app_assoc. rewrite length_app. cbn [length].
  replace (length (x ++ l) + 1 - 1)%nat with (length (x ++ l) + 0)%nat by lia.
  rewrite nth_app_at. reflexivity.
Qed.

Lemma PKCS7_roundtrip :
  B <= 255 -> roundtrip PKCS7Padding PKCS7UnPadding x B.
Proof.
  intros H255. unfold roundtrip, PKCS7Padding, with_padding.
  destruct (pad_count_pos x B HB) as [-> Hr]. fold padding in Hr |- *.
  destruct padding_S as [m Hm]. cbn [bind].
  assert (Hw : Word.wrap8 padding = padding) by (apply Z.mod_small; lia).
  rewrite Hw, Hm.
  replace (repeat padding (S m)) with (repeat padding m ++ [padding]).
  2:{ rewrite <- repeat_cons. reflexivity. }
  unfold PKCS7UnPadding. rewrite last_of_padded.
  rewrite !length_app, repeat_length. cbn [length].
  replace (length x + (m + 1) =? 0)%nat with false
    by (symmetry; apply Nat.eqb_neq; lia).
  replace (length x + (m + 1) <? Z.to_nat padding)%nat with false
    by (symmetry; apply Nat.ltb_ge; lia).
  replace (length x + (m + 1) - Z.to_nat padding)%nat with (length x) by lia.
  rewrite firstn_app_exact. reflexivity.
Qed.

Lemma files_PKCS7_roundtrip :
  B <= 255 ->
  roundtrip PaddingFiles.PKCS7Padding PaddingFiles.PKCS7Unpadding x B.
Proof.
  intros H255. unfold roundtrip, PaddingFiles.PKCS7Padding.
  rewrite (files_pad_count_pos x B HB).
  destruct (pad_count_pos x B HB) as [_ Hr]. fold padding in Hr |- *.
  replace (padding =? 0) with false by (symmetry; apply Z.eqb_neq; lia).
  destruct padding_S as [m Hm]. cbn [bind].
  assert (Hw : Word.wrap8 padding = padding) by (apply Z.mod_small; lia).
  rewrite Hw, Hm.
  replace (repeat padding (S m)) with (repeat padding m ++ [padding]).
  2:{ rewrite <- repeat_cons. reflexivity. }
  unfold PaddingFiles.PKCS7Unpadding. rewrite last_of_padded.
  rewrite !length_app, repeat_length. cbn [length].
  replace (length x + (m + 1) =? 0)%nat with false
    by (symmetry; apply Nat.eqb_neq; lia).
  replace (length x + (m + 1) <? Z.to_nat padding)%nat with false
    by (symmetry; apply Nat.ltb_ge; lia).
  replace (length x + (m + 1) - Z.to_nat padding)%nat with (length x) by lia.
  rewrite firstn_app_exact.
  rewrite existsb_seq_false; [reflexivity|].
  intros i Hi. rewrite Z2Nat.id by lia. rewrite Hw.
  replace i with (length x + (i - length x))%nat by lia.
  rewrite nth_app_at.
  replace (repeat padding m ++ [padding]) with (repeat padding (S m)).
  2:{ rewrite <- repeat_cons. reflexivity. }
  rewrite nth_repeat_lt by lia. rewrite Z.eqb_refl. reflexivity.
Qed.

Lemma ANSIX923_roundtrip :
  B <= 255 -> roundtrip ANSIX923Padding ANSIX923UnPadding x B.
Proof.
  intros H255. unfold roundtrip, ANSIX923Padding, with_padding.
  destruct (pad_count_pos x B HB) as [-> Hr]. fold padding in Hr |- *.
  destruct padding_S as [m Hm]. cbn [bind].
  assert (Hw : Word.wrap8 padding = padding) by (apply Z.mod_small; lia).
  rewrite Hw, Hm.
  replace (Z.to_nat (padding - 1)) with m by lia.
  rewrite repeat_copy_last.
  unfold ANSIX923UnPadding. rewrite last_of_padded.
  rewrite !length_app, repeat_length. cbn [length].
  replace (length x + (m + 1) =? 0)%nat with false
    by (symmetry; apply Nat.eqb_neq; lia).
  replace (length x + (m + 1) <? Z.to_nat padding)%nat with false
    by (symmetry; apply Nat.ltb_ge; lia).
  replace (length x + (m + 1) - Z.to_nat padding)%nat with (length x) by lia.
  rewrite firstn_app_exact.
  rewrite existsb_seq_false; [reflexivity|].
  intros i Hi.
  replace i with (length x + (i - length x))%nat by lia.
  rewrite nth_app_at.
  rewrite app_nth1 by (rewrite repeat_length; lia).
  rewrite nth_repeat_0. reflexivity.
Qed.

Lemma Zero_roundtrip :
  last x 0 <> 0 -> roundtrip ZeroPadding ZeroUnPadding x B.
Proof.
  intros Hlast. unfold roundtrip, ZeroPadding, with_padding.
  destruct (pad_count_pos x B HB) as [-> Hr]. fold padding in Hr |- *.
  cbn [bind]. unfold ZeroUnPadding.
  rewrite length_app, repeat_length.
  replace (length x + Z.to_nat padding =? 0)%nat with false
    by (symmetry; apply Nat.eqb_neq; lia).
  apply zero_scan_padded; [exact Hlast | lia].
Qed.

Lemma M2_roundtrip :
  last x 0 <> 0 -> roundtrip M2Padding M2UnPadding x B.
Proof.
  intros Hlast. unfold roundtrip, M2Padding, with_padding.
  destruct (pad_count_pos x B HB) as [-> Hr]. fold padding in Hr |- *.
  cbn [bind]. unfold M2UnPadding, ZeroUnPadding.
  set (k := Z.to_nat (if padding =? B then 0 else padding)).
  rewrite length_app, repeat_length.
  assert (Hx : x <> []) by (intros ->; cbn in Hlast; congruence).
  assert (Hlen : (0 < length x)%nat) by (destruct x; [congruence | cbn; lia]).
  replace (length x + k =? 0)%nat with false
    by (symmetry; apply Nat.eqb_neq; lia).
  apply zero_scan_padded; [exact Hlast | lia].
Qed.

End Padding_roundtrip.

(** C5 (amended).  For every input [x] and block size [B >= 1]:
    ISO 7816-4 and M1 unpadding recover [x] from the padded data; PKCS#7
    (both implementations) and ANSI X.923 do so when [B <= 255], the
    largest count a byte can carry; Zero and M2 do so when [x] is not empty
    and its last byte is not zero.  Nothing is stated about TBC. *)
Theorem C5_padding_roundtrip (x : list Z) (B : Z) :
  1 <= B ->
  roundtrip Padding.ISO7816Padding Padding.ISO7816UnPadding x B /\
  roundtrip Padding.M1Padding Padding.M1UnPadding x B /\
  (B <= 255 ->
     roundtrip Padding.PKCS7Padding Padding.PKCS7UnPadding x B /\
     roundtrip PaddingFiles.PKCS7Padding PaddingFiles.PKCS7Unpadding x B /\
     roundtrip Padding.ANSIX923Padding Padding.ANSIX923UnPadding x B) /\
  (last x 0 <> 0 ->
     roundtrip Padding.ZeroPadding Padding.ZeroUnPadding x B /\
     roundtrip Padding.M2Padding Padding.M2UnPadding x B).
Proof.
  intros HB.
  split; [apply ISO7816_roundtrip; exact HB|].
  split; [apply M1_roundtrip; exact HB|].
  split.
  - intros H255.
    split; [apply PKCS7_roundtrip; assumption|].
    split; [apply files_PKCS7_roundtrip; assumption|].
    apply ANSIX923_roundtrip; assumption.
  - intros Hlast.
    split; [apply Zero_roundtrip; assumption|].
    apply M2_roundtrip; assumption.
Qed.

Lemma C5_padding_roundtrip_witness :
  1 <= 8 /\
  roundtrip Padding.ISO7816Padding Padding.ISO7816UnPadding [1; 2; 3] 8 /\
  roundtrip Padding.PKCS7Padding Padding.PKCS7UnPadding [1; 2; 3] 8 /\
  roundtrip Padding.ZeroPadding Padding.ZeroUnPadding [1; 2; 3] 8.
Proof.
  assert (H8 : 1 <= 8) by lia.
  pose proof (C5_padding_roundtrip [1; 2; 3] 8 H8) as (Hiso & _ & Hp & Hz).
  split; [exact H8|].
  split; [exact Hiso|].
  split; [apply Hp; lia|].
  apply Hz. cbn. lia.
Defined.

(** C5 as stated fails: Zero padding loses a trailing zero byte of the
    data, and TBC unpadding returns the padded data as it is. *)
Lemma C5_counterexample :
  ~ roundtrip Padding.ZeroPadding Padding.ZeroUnPadding [1; 0] 4 /\
  ~ roundtrip Padding.TBCPadding Padding.TBCUnPadding [1; 2] 4.
Proof.
  split; unfold roundtrip; vm_compute; intros H; discriminate H.
Qed.

Example Zero_loses_trailing_zero :
  bind (Padding.ZeroPadding [1; 0] 4) Padding.ZeroUnPadding = Ok [1].
Proof. reflexivity. Qed.

Example TBC_returns_padded :
  bind (Padding.TBCPadding [1; 2] 4) Padding.TBCUnPadding = Ok [1; 2; 253; 253].
Proof. reflexivity. Qed.

(** [TBCUnPadding] compares with the complement of the last byte, which the
    last byte itself never equals: the scan stops at once. *)
Lemma TBCUnPadding_identity (data : list Z) :
  data <> [] -> Padding.TBCUnPadding data = Ok data.
Proof.
  intros Hne. unfold Padding.TBCUnPadding.
  destruct (length data) as [| n] eqn:Hlen.
  - destruct data; [congruence | discriminate].
  - cbn [Nat.eqb Padding.tbc_scan].
    replace (S n - 1)%nat with n by lia.
    set (b := nth n data 0).
    assert (E : (b =? Word.not8 b) = false).
    { apply Z.eqb_neq. intros Heq.
      assert (Hbit : Z.testbit b 0 = Z.testbit (Word.not8 b) 0) by (rewrite <- Heq; reflexivity).
      unfold Word.not8 in Hbit. rewrite Z.lxor_spec in Hbit.
      change (Z.testbit 255 0) with true in Hbit.
      destruct (Z.testbit b 0); discriminate. }
    rewrite E. cbn [negb].
    replace (n + 1)%nat with (length data) by lia.
    rewrite firstn_all. reflexivity.
Qed.

Lemma TBCUnPadding_identity_witness :
  [1; 2; 253; 253] <> [] /\
  Padding.TBCUnPadding [1; 2; 253; 253] = Ok [1; 2; 253; 253].
Proof.
  assert (H : [1; 2; 253; 253] <> []) by discriminate.
  split; [exact H | apply TBCUnPadding_identity; exact H].
Defined.

(** C6 (amended).  For every [data] and [B >= 1], both [ZeroPadding]
    functions append [B - len(data) mod B] zero bytes, a count between 1 and
    [B]; when [len(data)] is a multiple of [B] they append a full block of
    [B] zero bytes. *)
Theorem C6_zero_padding_count (data : list Z) (B : Z) :
  1 <= B ->
  let k := B - Z.of_nat (length data) mod B in
  1 <= k <= B /\
  (exists padded, Padding.ZeroPadding data B = Ok padded /\
                  appends_zeros data padded k) /\
  (exists padded, PaddingFiles.ZeroPadding data B = Ok padded /\
                  appends_zeros data padded k) /\
  (Z.of_nat (length data) mod B = 0 -> k = B).
Proof.
  intros HB k.
  destruct (pad_count_pos data B HB) as [Hc Hr]. fold k in Hc, Hr.
  split; [exact Hr|]. split; [|split].
  - exists (data ++ repeat 0 (Z.to_nat k)). split; [|reflexivity].
    unfold Padding.ZeroPadding, Padding.with_padding. rewrite Hc. reflexivity.
  - exists (data ++ repeat 0 (Z.to_nat k)). split; [|reflexivity].
    unfold PaddingFiles.ZeroPadding.
    rewrite (files_pad_count_pos data B HB). fold k.
    replace (k =? 0) with false by (symmetry; apply Z.eqb_neq; lia).
    reflexivity.
  - intros H0. unfold k. rewrite H0. lia.
Qed.

Lemma C6_zero_padding_count_witness :
  1 <= 8 /\
  Padding.ZeroPadding [1; 2; 3; 4; 5; 6; 7; 8] 8 =
    Ok ([1; 2; 3; 4; 5; 6; 7; 8] ++ repeat 0 8).
Proof.
  assert (H8 : 1 <= 8) by lia.
  split; [exact H8|].
  destruct (C6_zero_padding_count [1; 2; 3; 4; 5; 6; 7; 8] 8 H8)
    as (_ & (padded & Hp & Ha) & _).
  rewrite Hp. f_equal. exact Ha.
Defined.

(** C6 as stated fails: on two bytes and block size 2 no count in
    [0, B - 1] describes what either function appends. *)
Lemma C6_counterexample :
  ~ (exists k padded, 0 <= k <= 2 - 1 /\
       Padding.ZeroPadding [1; 2] 2 = Ok padded /\
       appends_zeros [1; 2] padded k) /\
  ~ (exists k padded, 0 <= k <= 2 - 1 /\
       PaddingFiles.ZeroPadding [1; 2] 2 = Ok padded /\
       appends_zeros [1; 2] padded k).
Proof.
  split; intros (k & padded & Hk & Hp & Ha);
    vm_compute in Hp; injection Hp as <-;
    unfold appends_zeros in Ha;
    assert (Hcases : k = 0 \/ k = 1) by lia;
    destruct Hcases as [-> | ->]; discriminate Ha.
Qed.

(** [PKCS7Unpadding] of pkcs7.go rejects every input whose last byte [m]
    is at most the length and whose last [m] bytes are not all [m]. *)
Lemma PKCS7Unpadding_rejects_inconsistent (data : list Z) (i : nat) :
  bytes data ->
  let n := length data in
  let m := nth (n - 1) data 0 in
  1 <= m <= Z.of_nat n ->
  (n - Z.to_nat m <= i < n)%nat ->
  nth i data 0 <> m ->
  PaddingFiles.PKCS7Unpadding data = Err ErrInvalidPadding.
Proof.
  intros Hbytes n m Hm Hi Hneq. unfold PaddingFiles.PKCS7Unpadding.
  fold n. fold m.
  destruct (n =? 0)%nat; [reflexivity|].
  destruct (n <? Z.to_nat m)%nat; [reflexivity|].
  assert (Hw : Word.wrap8 (Z.of_nat (Z.to_nat m)) = m).
  { rewrite Z2Nat.id by lia. apply Z.mod_small.
    pose proof (bytes_nth data (n - 1) Hbytes). fold m in H. lia. }
  rewrite Hw.
  assert (Hex : existsb (fun j => negb (nth j data 0 =? m))
                        (seq (n - Z.to_nat m) (Z.to_nat m)) = true).
  { apply existsb_exists. exists i. split.
    - apply in_seq. lia.
    - apply Bool.negb_true_iff. apply Z.eqb_neq. exact Hneq. }
  rewrite Hex. reflexivity.
Qed.

Lemma PKCS7Unpadding_rejects_inconsistent_witness :
  PaddingFiles.PKCS7Unpadding [1; 2; 3; 2] = Err ErrInvalidPadding.
Proof.
  apply (PKCS7Unpadding_rejects_inconsistent [1; 2; 3; 2] 2).
  - repeat constructor; lia.
  - vm_compute. split; discriminate.
  - vm_compute. lia.
  - vm_compute. discriminate.
Defined.

(** C7.  On [1; 2; 3; 2] the last byte is 2 and the last two bytes are
    [3; 2]: [PKCS7Unpadding] of pkcs7.go returns the invalid-padding error,
    [PKCS7UnPadding] of the padding package returns the data [1; 2] and no
    error. *)
Theorem C7_PKCS7UnPadding_accepts_inconsistent_fill :
  PaddingFiles.PKCS7Unpadding [1; 2; 3; 2] = Err ErrInvalidPadding /\
  Padding.PKCS7UnPadding [1; 2; 3; 2] = Ok [1; 2].
Proof. split; reflexivity. Qed.

(** [PKCS7UnPadding] never looks at the fill bytes. *)
Lemma PKCS7UnPadding_ignores_fill (data : list Z) :
  let n := length data in
  let m := nth (n - 1) data 0 in
  1 <= m <= Z.of_nat n ->
  Padding.PKCS7UnPadding data = Ok (firstn (n - Z.to_nat m) data).
Proof.
  intros n m Hm. unfold Padding.PKCS7UnPadding. fold n. fold m.
  replace (n =? 0)%nat with false by (symmetry; apply Nat.eqb_neq; lia).
  replace (n <? Z.to_nat m)%nat with false by (symmetry; apply Nat.ltb_ge; lia).
  reflexivity.
Qed.

Lemma PKCS7UnPadding_ignores_fill_witness :
  Padding.PKCS7UnPadding [9; 9; 7; 3] = Ok [9].
Proof.
  apply (PKCS7UnPadding_ignores_fill [9; 9; 7; 3]). vm_compute. split; discriminate.
Defined.

(** ** Words: ranges, byte order, rotations *)

Section Word_facts.
Import Word.

Lemma wrap8_eq (x : Z) : wrap8 x = x mod 2 ^ 8.
Proof. reflexivity. Qed.

Lemma wrap32_eq (x : Z) : wrap32 x = x mod 2 ^ 32.
Proof. reflexivity. Qed.

Lemma wrap64_eq (x : Z) : wrap64 x = x mod 2 ^ 64.
Proof. reflexivity. Qed.

Lemma u8_wrap8 (x : Z) : u8 (wrap8 x).
Proof. unfold u8. rewrite wrap8_eq. apply Z.mod_pos_bound. lia. Qed.

Lemma u32_wrap32 (x : Z) : u32 (wrap32 x).
Proof. unfold u32. rewrite wrap32_eq. apply Z.mod_pos_bound. lia. Qed.

Lemma u64_wrap64 (x : Z) : u64 (wrap64 x).
Proof. unfold u64. rewrite wrap64_eq. apply Z.mod_pos_bound. lia. Qed.

Lemma wrap8_u8 (x : Z) : u8 x -> wrap8 x = x.
Proof. intros H. rewrite wrap8_eq. apply Z.mod_small. exact H. Qed.

Lemma wrap32_u32 (x : Z) : u32 x -> wrap32 x = x.
Proof. intros H. rewrite wrap32_eq. apply Z.mod_small. exact H. Qed.

Lemma wrap64_u64 (x : Z) : u64 x -> wrap64 x = x.
Proof. intros H. rewrite wrap64_eq. apply Z.mod_small. exact H. Qed.

(** A value is in range as soon as it is a fixed point of the wrap. *)
Lemma u8_of_eq (x : Z) : x = x mod 2 ^ 8 -> u8 x.
Proof. intros ->. apply u8_wrap8. Qed.

Lemma u32_of_eq (x : Z) : x = x mod 2 ^ 32 -> u32 x.
Proof. intros ->. apply u32_wrap32. Qed.

Lemma u64_of_eq (x : Z) : x = x mod 2 ^ 64 -> u64 x.
Proof. intros ->. apply u64_wrap64. Qed.

Lemma u8_eq (x : Z) : u8 x -> x = x mod 2 ^ 8.
Proof. intros H. symmetry. apply Z.mod_small. exact H. Qed.

Lemma u32_eq (x : Z) : u32 x -> x = x mod 2 ^ 32.
Proof. intros H. symmetry. apply Z.mod_small. exact H. Qed.

Lemma u64_eq (x : Z) : u64 x -> x = x mod 2 ^ 64.
Proof. intros H. symmetry. apply Z.mod_small. exact H. Qed.

End Word_facts.

(** [widths] replaces every variable [x] known to be below [2^n] by
    [x mod 2^n] in the goal, so that bit-level reasoning sees its width. *)
Ltac widths :=
  repeat match goal with
         | H : u8 ?x |- _ =>
             is_var x; let E := fresh in
             pose proof (u8_eq x H) as E; clear H; rewrite E; clear E
         | H : u32 ?x |- _ =>
             is_var x; let E := fresh in
             pose proof (u32_eq x H) as E; clear H; rewrite E; clear E
         | H : u64 ?x |- _ =>
             is_var x; let E := fresh in
             pose proof (u64_eq x H) as E; clear H; rewrite E; clear E
         end.

(** Equality of two integers bit by bit. *)
Ltac bits :=
  eapply Z.bits_inj'; intros ?i ?Hi;
  repeat (progress Z.rewrite_bitwise);
  Z.discover_equal_testbit_indices;
  Z.destruct_ltbs;
  try (exfalso; lia);
  repeat match goal with
         | |- context [Z.testbit ?x ?j] =>
             rewrite (Z.testbit_neg_r x j) by lia
         end;
  try btauto.

(** The same with the bit index first located among the byte boundaries,
    which decides every comparison on it. *)
Ltac decide_ltbs :=
  repeat match goal with
         | |- context [?a <? ?b] =>
             first [ replace (a <? b) with true by (symmetry; apply Z.ltb_lt; lia)
                   | replace (a <? b) with false by (symmetry; apply Z.ltb_ge; lia) ]
         end.

Ltac split_index i :=
  let H := fresh "Hcase" in
  assert (H : i < 8 \/ 8 <= i < 16 \/ 16 <= i < 24 \/ 24 <= i < 32 \/
              32 <= i < 40 \/ 40 <= i < 48 \/ 48 <= i < 56 \/ 56 <= i < 64 \/
              64 <= i) by lia;
  destruct H as [H | [H | [H | [H | [H | [H | [H | [H | H]]]]]]]].

Ltac bits8 :=
  eapply Z.bits_inj'; intros ?i ?Hi;
  repeat (progress Z.rewrite_bitwise);
  match goal with Hi : 0 <= ?i |- _ => split_index i end;
  decide_ltbs;
  cbn [andb orb negb];
  repeat match goal with
         | |- context [Z.testbit ?x ?j] =>
             rewrite (Z.testbit_neg_r x j) by lia
         end;
  rewrite ?Bool.orb_false_r, ?Bool.andb_true_r;
  try reflexivity;
  Z.discover_equal_testbit_indices;
  try btauto.

Ltac unwrap :=
  unfold Word.wrap8, Word.wrap32, Word.wrap64;
  change 256 with (2 ^ 8); change 4294967296 with (2 ^ 32);
  change 18446744073709551616 with (2 ^ 64).

Section Word_ops.
Import Word.

Lemma u32_lxor (a b : Z) : u32 a -> u32 b -> u32 (Z.lxor a b).
Proof.
  intros Ha Hb. apply u32_of_eq. widths. bits.
Qed.

Lemma u32_lor (a b : Z) : u32 a -> u32 b -> u32 (Z.lor a b).
Proof.
  intros Ha Hb. apply u32_of_eq. widths. bits.
Qed.

Lemma u32_shiftr (a n : Z) : u32 a -> 0 <= n -> u32 (Z.shiftr a n).
Proof.
  intros Ha Hn. apply u32_of_eq. widths. bits.
Qed.

Lemma u32_be_uint32 (b0 b1 b2 b3 : Z) :
  u8 b0 -> u8 b1 -> u8 b2 -> u8 b3 -> u32 (be_uint32 [b0; b1; b2; b3]).
Proof.
  intros H0 H1 H2 H3. apply u32_of_eq. unfold be_uint32. cbn [nth].
  widths. bits.
Qed.

Lemma be_uint32_put (v : Z) : u32 v -> be_uint32 (be_put_uint32 v) = v.
Proof.
  intros Hv. unfold be_uint32, be_put_uint32. cbn [nth]. unwrap.
  widths. bits.
Qed.

Lemma be_put_uint32_get (b0 b1 b2 b3 : Z) :
  u8 b0 -> u8 b1 -> u8 b2 -> u8 b3 ->
  be_put_uint32 (be_uint32 [b0; b1; b2; b3]) = [b0; b1; b2; b3].
Proof.
  intros H0 H1 H2 H3. unfold be_uint32, be_put_uint32. cbn [nth]. unwrap.
  repeat f_equal; widths; bits.
Qed.

End Word_ops.

(** ** Lists of a known length *)

Ltac list_cases b :=
  repeat (let x := fresh "b" in destruct b as [| x b]; try discriminate).

Lemma bytes_cons (a : Z) (l : list Z) : bytes (a :: l) -> u8 a /\ bytes l.
Proof. intros H. inversion H; subst. split; assumption. Qed.

Ltac bytes_split H :=
  repeat match type of H with
         | bytes (_ :: _) =>
             let Ha := fresh "Hb" in
             apply bytes_cons in H; destruct H as [Ha H]
         end.

Lemma fold_left_map_keys {A K : Type} (f : K -> A -> A) (g : nat -> K)
    (order : list nat) (a : A) :
  fold_left (fun X i => f (g i) X) order a =
  fold_left (fun X k => f k X) (map g order) a.
Proof.
  revert a. induction order as [| i order IH]; intros a; cbn; [reflexivity|].
  apply IH.
Qed.

(** A loop undone by the inverse steps in reverse order, under an
    invariant of the forward loop. *)
Lemma fold_left_inverse {A K : Type} (Inv : A -> Prop) (e d : K -> A -> A) :
  (forall k x, Inv x -> Inv (e k x)) ->
  (forall k x, Inv x -> d k (e k x) = x) ->
  forall ks x, Inv x ->
    fold_left (fun x k => d k x) (rev ks) (fold_left (fun x k => e k x) ks x) = x.
Proof.
  intros He Hd ks. induction ks as [| k ks IH]; intros x Hx; cbn; [reflexivity|].
  rewrite fold_left_app, IH by (apply He, Hx). cbn. apply Hd, Hx.
Qed.

Lemma fold_left_invariant {A K : Type} (Inv : A -> Prop) (e : K -> A -> A) :
  (forall k x, Inv x -> Inv (e k x)) ->
  forall ks x, Inv x -> Inv (fold_left (fun x k => e k x) ks x).
Proof.
  intros He ks. induction ks as [| k ks IH]; intros x Hx; cbn; [exact Hx|].
  apply IH, He, Hx.
Qed.

(** ** XOR on integers *)

Lemma lxor_cancel_r (a b : Z) : Z.lxor (Z.lxor a b) b = a.
Proof. rewrite Z.lxor_assoc, Z.lxor_nilpotent, Z.lxor_0_r. reflexivity. Qed.

Lemma lxor_cancel_l (a b : Z) : Z.lxor b (Z.lxor b a) = a.
Proof. rewrite <- Z.lxor_assoc, Z.lxor_nilpotent, Z.lxor_0_l. reflexivity. Qed.

Lemma u32_pack (a b c d : Z) :
  u8 a -> u8 b -> u8 c -> u8 d ->
  u32 (Z.lor (Z.lor (Z.lor (Z.shiftl a 24) (Z.shiftl b 16)) (Z.shiftl c 8)) d).
Proof. intros Ha Hb Hc Hd. exact (u32_be_uint32 a b c d Ha Hb Hc Hd). Qed.

(** ** SM4 *)

Section SM4_roundtrip.

Variables SBOX FK CK : Z -> Z.

Let round := SM4.round SBOX.

Lemma SM4_rotateLeft_u32 (x n : Z) :
  u32 x -> 0 <= n <= 32 -> u32 (SM4.rotateLeft x n).
Proof.
  intros Hx Hn. unfold SM4.rotateLeft.
  apply u32_lor; [apply u32_wrap32 | apply u32_shiftr; [exact Hx | lia]].
Qed.

Lemma SM4_tau_u32 (x : Z) : u32 (SM4.tau SBOX x).
Proof.
  unfold SM4.tau, byte_at. apply u32_pack; apply u8_wrap8.
Qed.

Lemma SM4_feistelFunction_u32 (x : Z) : u32 (SM4.feistelFunction SBOX x).
Proof.
  unfold SM4.feistelFunction.
  pose proof (SM4_tau_u32 x) as Ht.
  repeat apply u32_lxor; try exact Ht; apply SM4_rotateLeft_u32; try exact Ht; lia.
Qed.

Lemma SM4_round_u32 (rk : Z) (X : SM4.words) :
  words_u32 X -> words_u32 (round rk X).
Proof.
  destruct X as [[[x0 x1] x2] x3]. intros (H0 & H1 & H2 & H3).
  cbn. split; [exact H1|]. split; [exact H2|]. split; [exact H3|].
  apply u32_lxor; [exact H0 | apply SM4_feistelFunction_u32].
Qed.

Lemma SM4_rounds_u32 (ks : list Z) (X : SM4.words) :
  words_u32 X -> words_u32 (fold_left (fun X k => round k X) ks X).
Proof.
  revert X. induction ks as [| k ks IH]; intros X HX; cbn; [exact HX|].
  apply IH. apply SM4_round_u32. exact HX.
Qed.

(** A round is undone by the same round between two reversals. *)
Lemma SM4_round_inverse (rk : Z) (X : SM4.words) :
  round rk (rev4 (round rk X)) = rev4 X.
Proof.
  destruct X as [[[x0 x1] x2] x3]. cbn.
  replace (Z.lxor (Z.lxor (Z.lxor x3 x2) x1) rk)
    with (Z.lxor (Z.lxor (Z.lxor x1 x2) x3) rk).
  2:{ f_equal. rewrite (Z.lxor_comm x1 x2), (Z.lxor_comm x3 x2).
      rewrite !Z.lxor_assoc. f_equal. apply Z.lxor_comm. }
  rewrite lxor_cancel_r. reflexivity.
Qed.

Lemma SM4_rounds_inverse (ks : list Z) (X : SM4.words) :
  fold_left (fun X k => round k X) (rev ks)
    (rev4 (fold_left (fun X k => round k X) ks X)) = rev4 X.
Proof.
  revert X. induction ks as [| k ks IH]; intros X; cbn; [reflexivity|].
  rewrite fold_left_app, IH. cbn. apply SM4_round_inverse.
Qed.

Lemma SM4_load_u32 (b : list Z) :
  bytes b -> length b = 16%nat -> words_u32 (SM4.load b).
Proof.
  intros Hb Hl. list_cases b. bytes_split Hb.
  cbn. split; [|split; [|split]]; apply u32_be_uint32; assumption.
Qed.

Lemma SM4_load_store (X : SM4.words) :
  words_u32 X -> SM4.load (SM4.store X) = rev4 X.
Proof.
  destruct X as [[[x0 x1] x2] x3]. intros (H0 & H1 & H2 & H3).
  unfold SM4.load, SM4.store, rev4.
  cbn [Word.be_put_uint32 app skipn firstn].
  change (Word.be_uint32 [?a; ?b; ?c; ?d]) with (Word.be_uint32 [a; b; c; d]).
  pose proof (be_uint32_put x0 H0) as E0. pose proof (be_uint32_put x1 H1) as E1.
  pose proof (be_uint32_put x2 H2) as E2. pose proof (be_uint32_put x3 H3) as E3.
  unfold Word.be_put_uint32 in E0, E1, E2, E3.
  rewrite E0, E1, E2, E3. reflexivity.
Qed.

Lemma SM4_store_load (b : list Z) :
  bytes b -> length b = 16%nat -> SM4.store (rev4 (SM4.load b)) = b.
Proof.
  intros Hb Hl. list_cases b. bytes_split Hb.
  unfold SM4.load, SM4.store, rev4. cbn [skipn firstn].
  rewrite !be_put_uint32_get by assumption. reflexivity.
Qed.

Lemma SM4_crypt_length (s : SM4.SM4) (order : list nat) (b : list Z) :
  length (SM4.crypt SBOX s order b) = 16%nat.
Proof.
  unfold SM4.crypt.
  destruct (fold_left _ order (SM4.load b)) as [[[x0 x1] x2] x3].
  reflexivity.
Qed.

(** SM4: decryption undoes encryption, for every key of 16 bytes. *)
Theorem SM4_roundtrip (key block : list Z) :
  length key = 16%nat -> bytes block -> length block = 16%nat ->
  exists s, SM4.New SBOX FK CK key = Ok s /\
            block_roundtrip (SM4.Encrypt SBOX) (SM4.Decrypt SBOX) s block.
Proof.
  intros Hk Hb Hl. unfold SM4.New. rewrite Hk. cbn [Nat.eqb SM4.KeySize negb].
  eexists. split; [reflexivity|].
  set (s := SM4.mkSM4 _).
  unfold block_roundtrip, SM4.Encrypt. rewrite Hl. cbn [Nat.eqb SM4.BlockSize negb bind].
  unfold SM4.Decrypt. rewrite SM4_crypt_length. cbn [Nat.eqb SM4.BlockSize negb].
  f_equal. unfold SM4.crypt.
  rewrite !(fold_left_map_keys (SM4.round SBOX) (fun i => nth i (SM4.roundKeys s) 0)).
  rewrite map_rev. fold round.
  rewrite SM4_load_store by (apply SM4_rounds_u32, SM4_load_u32; assumption).
  rewrite SM4_rounds_inverse.
  apply SM4_store_load; assumption.
Qed.

End SM4_roundtrip.

(** ** Twofish *)

Section Twofish_roundtrip.
Import Twofish.

Lemma ror1_rol1 (x : Z) : u32 x -> ror1 (rol1 x) = x.
Proof. intros Hx. unfold ror1, rol1. unwrap. widths. bits. Qed.

Lemma rol1_ror1 (x : Z) : u32 x -> rol1 (ror1 x) = x.
Proof. intros Hx. unfold ror1, rol1. unwrap. widths. bits. Qed.

Lemma u32_ror1 (x : Z) : u32 x -> u32 (ror1 x).
Proof.
  intros Hx. unfold ror1.
  apply u32_lor; [apply u32_shiftr; [exact Hx | lia] | apply u32_wrap32].
Qed.

Lemma u32_rol1 (x : Z) : u32 x -> u32 (rol1 x).
Proof.
  intros Hx. unfold rol1.
  apply u32_lor; [apply u32_wrap32 | apply u32_shiftr; [exact Hx | lia]].
Qed.

Variable t : Twofish.

Lemma u32_f_sum (t0 t1 : Z) (i : nat) : u32 (f_sum t t0 t1 i).
Proof. apply u32_wrap32. Qed.

Lemma u32_f_sum2 (t0 t1 : Z) (i : nat) : u32 (f_sum2 t t0 t1 i).
Proof. apply u32_wrap32. Qed.

Lemma enc_step_u32 (kk : nat) (W : words) :
  words_u32 W -> words_u32 (enc_step t kk W).
Proof.
  destruct W as [[[w0 w1] w2] w3]. intros (H0 & H1 & H2 & H3).
  unfold enc_step, words_u32.
  split; [|split; [|split]].
  - apply u32_ror1, u32_lxor; [exact H0 | apply u32_f_sum].
  - apply u32_lxor; [apply u32_rol1; exact H1 | apply u32_f_sum2].
  - apply u32_ror1, u32_lxor; [exact H2 | apply u32_f_sum].
  - apply u32_lxor; [apply u32_rol1; exact H3 | apply u32_f_sum2].
Qed.

(** The decryption step with the same key index undoes the encryption
    step. *)
Lemma dec_enc_step (kk : nat) (W : words) :
  words_u32 W -> dec_step t kk (enc_step t kk W) = W.
Proof.
  destruct W as [[[w0 w1] w2] w3]. intros (H0 & H1 & H2 & H3).
  unfold enc_step, dec_step.
  set (a0 := g0 t w0). set (a1 := g1 t w1).
  set (w2' := ror1 (Z.lxor w2 (f_sum t a0 a1 kk))).
  set (w3' := Z.lxor (rol1 w3) (f_sum2 t a0 a1 (kk + 1))).
  set (c0 := g0 t w2'). set (c1 := g1 t w3').
  assert (E1 : ror1 (Z.lxor (Z.lxor (rol1 w1) (f_sum2 t c0 c1 (kk + 3)))
                            (f_sum2 t c0 c1 (kk + 3))) = w1).
  { rewrite lxor_cancel_r. apply ror1_rol1. exact H1. }
  assert (E0 : Z.lxor (rol1 (ror1 (Z.lxor w0 (f_sum t c0 c1 (kk + 2)))))
                      (f_sum t c0 c1 (kk + 2)) = w0).
  { rewrite rol1_ror1 by (apply u32_lxor; [exact H0 | apply u32_f_sum]).
    apply lxor_cancel_r. }
  rewrite E1, E0. fold a0. fold a1.
  assert (E3 : ror1 (Z.lxor w3' (f_sum2 t a0 a1 (kk + 1))) = w3).
  { unfold w3'. rewrite lxor_cancel_r. apply ror1_rol1. exact H3. }
  assert (E2 : Z.lxor (rol1 w2') (f_sum t a0 a1 kk) = w2).
  { unfold w2'.
    rewrite rol1_ror1 by (apply u32_lxor; [exact H2 | apply u32_f_sum]).
    apply lxor_cancel_r. }
  rewrite E3, E2. reflexivity.
Qed.

Lemma enc_steps_u32 (ks : list nat) (W : words) :
  words_u32 W -> words_u32 (fold_left (fun W kk => enc_step t kk W) ks W).
Proof.
  revert W. induction ks as [| kk ks IH]; intros W HW; cbn; [exact HW|].
  apply IH, enc_step_u32, HW.
Qed.

Lemma dec_enc_steps (ks : list nat) (W : words) :
  words_u32 W ->
  fold_left (fun W kk => dec_step t kk W) (rev ks)
    (fold_left (fun W kk => enc_step t kk W) ks W) = W.
Proof.
  revert W. induction ks as [| kk ks IH]; intros W HW; cbn; [reflexivity|].
  rewrite fold_left_app, IH by (apply enc_step_u32, HW).
  cbn. apply dec_enc_step, HW.
Qed.

Lemma Twofish_rounds_inverse (W : words) :
  words_u32 W ->
  fold_left (fun W i => dec_step t (36 - 4 * i) W) (seq 0 8)
    (fold_left (fun W i => enc_step t (8 + 4 * i) W) (seq 0 8) W) = W.
Proof.
  intros HW.
  rewrite (fold_left_map_keys (dec_step t) (fun i => 36 - 4 * i)%nat).
  rewrite (fold_left_map_keys (enc_step t) (fun i => 8 + 4 * i)%nat).
  change (map (fun i => 36 - 4 * i)%nat (seq 0 8))
    with (rev (map (fun i => 8 + 4 * i)%nat (seq 0 8))).
  apply dec_enc_steps, HW.
Qed.

Lemma Twofish_rounds_u32 (W : words) :
  words_u32 W ->
  words_u32 (fold_left (fun W i => enc_step t (8 + 4 * i) W) (seq 0 8) W).
Proof.
  intros HW.
  rewrite (fold_left_map_keys (enc_step t) (fun i => 8 + 4 * i)%nat).
  apply enc_steps_u32, HW.
Qed.

End Twofish_roundtrip.

Section Twofish_keys.
Import Twofish.

Lemma u32_nth (l : list Z) (i : nat) : Forall u32 l -> u32 (nth i l 0).
Proof.
  intros Hl. destruct (Nat.lt_ge_cases i (length l)) as [Hi | Hi].
  - rewrite Forall_forall in Hl. apply Hl, nth_In, Hi.
  - rewrite nth_overflow by exact Hi. unfold u32. lia.
Qed.

Lemma fold_lxor_u32 (f : nat -> Z) (js : list nat) (acc : Z) :
  u32 acc -> (forall j, u32 (f j)) ->
  u32 (fold_left (fun acc j => Z.lxor acc (f j)) js acc).
Proof.
  intros Hacc Hf. revert acc Hacc.
  induction js as [| j js IH]; intros acc Hacc; cbn; [exact Hacc|].
  apply IH, u32_lxor; [exact Hacc | apply Hf].
Qed.

Lemma expand_k_u32 (key : list Z) : Forall u32 (expand_k key).
Proof.
  unfold expand_k. apply Forall_forall. intros w Hw.
  apply in_map_iff in Hw. destruct Hw as (i & <- & _).
  apply (fold_lxor_u32
           (fun j => Word.wrap32 (Z.shiftl (nth j key 0) (Z.of_nat (j mod 4) * 8)))).
  - apply u32_wrap32.
  - intros j. apply u32_wrap32.
Qed.

Lemma Twofish_load_u32 (b : list Z) :
  bytes b -> length b = 16%nat -> words_u32 (load b).
Proof. exact (SM4_load_u32 b). Qed.

Lemma Twofish_load_store (a b c d : Z) :
  u32 a -> u32 b -> u32 c -> u32 d -> load (store a b c d) = (a, b, c, d).
Proof.
  intros Ha Hb Hc Hd.
  exact (SM4_load_store (d, c, b, a) (conj Hd (conj Hc (conj Hb Ha)))).
Qed.

Lemma Twofish_store_load (b : list Z) :
  bytes b -> length b = 16%nat ->
  let '(w0, w1, w2, w3) := load b in store w0 w1 w2 w3 = b.
Proof. exact (SM4_store_load b). Qed.

(** Twofish: decryption undoes encryption, for every key of 16, 24 or 32
    bytes. *)
Theorem Twofish_roundtrip (key block : list Z) :
  length key = 16%nat \/ length key = 24%nat \/ length key = 32%nat ->
  bytes block -> length block = 16%nat ->
  exists t, New key = Ok t /\ block_roundtrip Encrypt Decrypt t block.
Proof.
  intros Hk Hb Hl.
  assert (HN : New key = Ok (mkTwofish (expand_k key) (expand_s key) (length key))).
  { unfold New. destruct Hk as [-> | [-> | ->]]; reflexivity. }
  eexists. split; [exact HN|].
  set (t := mkTwofish _ _ _).
  assert (Hkey : forall i, u32 (key_at t i)).
  { intros i. apply u32_nth, expand_k_u32. }
  unfold block_roundtrip, Encrypt. rewrite Hl. cbn [Nat.eqb BlockSize negb].
  pose proof (Twofish_load_u32 block Hb Hl) as HW.
  pose proof (Twofish_store_load block Hb Hl) as HS.
  destruct (load block) as [[[w0 w1] w2] w3].
  destruct HW as (H0 & H1 & H2 & H3).
  set (W := (Z.lxor w0 (key_at t 0), Z.lxor w1 (key_at t 1),
             Z.lxor w2 (key_at t 2), Z.lxor w3 (key_at t 3))).
  assert (HW : words_u32 W).
  { unfold W, words_u32. repeat (split; [apply u32_lxor; [assumption | apply Hkey]|]).
    apply u32_lxor; [assumption | apply Hkey]. }
  pose proof (Twofish_rounds_u32 t W HW) as HR.
  pose proof (Twofish_rounds_inverse t W HW) as HI.
  destruct (fold_left (fun W i => enc_step t (8 + 4 * i) W) (seq 0 8) W)
    as [[[v0 v1] v2] v3].
  destruct HR as (R0 & R1 & R2 & R3).
  cbn [bind]. unfold Decrypt.
  assert (Hlen : forall a b c d, length (store a b c d) = 16%nat) by reflexivity.
  rewrite Hlen. cbn [Nat.eqb BlockSize negb].
  rewrite Twofish_load_store by (apply u32_lxor; [assumption | apply Hkey]).
  rewrite !lxor_cancel_r, HI. unfold W.
  rewrite !lxor_cancel_r. f_equal. exact HS.
Qed.

End Twofish_keys.

(** ** Blowfish *)

Lemma Forall_array_set {A : Type} (P : A -> Prop) (a : list A) (i : nat) (v : A) :
  Forall P a -> P v -> Forall P (array_set a i v).
Proof.
  intros Ha Hv. unfold array_set. apply Forall_app. split.
  - rewrite <- (firstn_skipn i a) in Ha. apply Forall_app in Ha. tauto.
  - constructor; [exact Hv|].
    rewrite <- (firstn_skipn (S i) a) in Ha. apply Forall_app in Ha. tauto.
Qed.

Section Blowfish_block.
Import Blowfish.

Variable b : Blowfish.

(** The encryption state seen from the decryption side. *)
Let T (j : nat) (lr : Z * Z) : Z * Z :=
  (Z.lxor (snd lr) (p_at b (j + 1)), Z.lxor (fst lr) (p_at b j)).

Lemma step_T (j : nat) (lr : Z * Z) :
  step b (j + 2) (T (j + 1) (step b j lr)) = T j lr.
Proof.
  destruct lr as [l r]. unfold T, step. cbn [fst snd].
  replace (j + 1 + 1)%nat with (j + 2)%nat by lia.
  rewrite lxor_cancel_r.
  f_equal.
  rewrite (Z.lxor_comm (Z.lxor r _) (p_at b (j + 1))).
  rewrite Z.lxor_assoc, lxor_cancel_r. apply Z.lxor_comm.
Qed.

Lemma steps_T (n j : nat) (lr : Z * Z) :
  fold_left (fun lr i => step b i lr) (rev (seq (j + 2) n))
    (T (j + n) (fold_left (fun lr i => step b i lr) (seq j n) lr)) = T j lr.
Proof.
  revert j lr. induction n as [| n IH]; intros j lr.
  - cbn. rewrite Nat.add_0_r. reflexivity.
  - cbn [seq fold_left rev]. rewrite fold_left_app. cbn [fold_left].
    replace (S (j + 2)) with (S j + 2)%nat by lia.
    replace (j + S n)%nat with (S j + n)%nat by lia.
    rewrite IH. replace (S j) with (j + 1)%nat by lia.
    apply step_T.
Qed.

Lemma decrypt_encrypt_block (lr : Z * Z) :
  decryptBlock b (encryptBlock b lr) = lr.
Proof.
  unfold decryptBlock, encryptBlock.
  set (e := fold_left (fun lr i => step b i lr) (seq 0 16) lr).
  assert (E : finish b 16 17 e = T 16 e).
  { destruct e as [l r]. reflexivity. }
  rewrite E. unfold e.
  pose proof (steps_T 16 0 lr) as HT.
  change (0 + 2)%nat with 2%nat in HT. change (0 + 16)%nat with 16%nat in HT.
  rewrite HT.
  destruct lr as [l r]. unfold T, finish. cbn [fst snd].
  rewrite !lxor_cancel_r. reflexivity.
Qed.

Hypothesis Hp : Forall u32 (p b).

Lemma u32_p_at (i : nat) : u32 (p_at b i).
Proof. apply u32_nth, Hp. Qed.

Lemma u32_feistel (x : Z) : u32 (feistel b x).
Proof. apply u32_wrap32. Qed.

Lemma step_u32 (i : nat) (lr : Z * Z) : pair_u32 lr -> pair_u32 (step b i lr).
Proof.
  destruct lr as [l r]. intros [Hl Hr]. cbn in Hl, Hr.
  unfold step, pair_u32. cbn [fst snd]. split.
  - apply u32_lxor; [exact Hr | apply u32_feistel].
  - apply u32_lxor; [exact Hl | apply u32_p_at].
Qed.

Lemma steps_u32 (order : list nat) (lr : Z * Z) :
  pair_u32 lr -> pair_u32 (fold_left (fun lr i => step b i lr) order lr).
Proof.
  revert lr. induction order as [| i order IH]; intros lr H; cbn; [exact H|].
  apply IH, step_u32, H.
Qed.

Lemma finish_u32 (ir il : nat) (lr : Z * Z) :
  pair_u32 lr -> pair_u32 (finish b ir il lr).
Proof.
  destruct lr as [l r]. intros [Hl Hr]. cbn in Hl, Hr.
  unfold finish, pair_u32. cbn [fst snd].
  split; apply u32_lxor; try assumption; apply u32_p_at.
Qed.

Lemma encryptBlock_u32 (lr : Z * Z) :
  pair_u32 lr -> pair_u32 (encryptBlock b lr).
Proof. intros H. apply finish_u32, steps_u32, H. Qed.

End Blowfish_block.

Section Blowfish_keys.
Import Blowfish.

Variables PBox SBox0 SBox1 SBox2 SBox3 : Z -> Z.

Lemma mix_p_ok (m : mix) (i : nat) : mix_ok m -> mix_ok (mix_p m i).
Proof.
  destruct m as [b lr]. intros [Hp Hlr]. cbn [fst snd] in Hp, Hlr.
  unfold mix_p.
  pose proof (encryptBlock_u32 b Hp lr Hlr) as He.
  destruct (encryptBlock b lr) as [l r]. destruct He as [Hl Hr].
  cbn [fst snd] in Hl, Hr.
  split; cbn [fst snd p].
  - apply Forall_array_set; [apply Forall_array_set|]; assumption.
  - split; assumption.
Qed.

Lemma mix_s_ok (i : nat) (m : mix) (j : nat) : mix_ok m -> mix_ok (mix_s i m j).
Proof.
  destruct m as [b lr]. intros [Hp Hlr]. cbn [fst snd] in Hp, Hlr.
  unfold mix_s.
  pose proof (encryptBlock_u32 b Hp lr Hlr) as He.
  destruct (encryptBlock b lr) as [l r].
  split; cbn [fst snd p]; assumption.
Qed.

Lemma fold_mix_ok (f : mix -> nat -> mix) (js : list nat) (m : mix) :
  (forall m j, mix_ok m -> mix_ok (f m j)) ->
  mix_ok m -> mix_ok (fold_left f js m).
Proof.
  intros Hf. revert m. induction js as [| j js IH]; intros m Hm; cbn; [exact Hm|].
  apply IH, Hf, Hm.
Qed.

Lemma u32_key_word (key : list Z) (i : nat) : bytes key -> u32 (key_word key i).
Proof.
  intros Hk. unfold key_word.
  assert (H0 : u32 0) by (unfold u32; lia).
  revert H0. generalize 0 at 1 3. generalize (seq 0 4).
  intros ks. induction ks as [| k ks IH]; intros data Hd; cbn [fold_left]; [exact Hd|].
  apply IH. apply u32_lor; [apply u32_wrap32|].
  pose proof (bytes_nth key ((4 * i + k) mod length key) Hk).
  unfold u32. lia.
Qed.

Lemma expandKey_u32 (key : list Z) (b : Blowfish) :
  bytes key -> Forall u32 (p b) -> Forall u32 (p (expandKey key b)).
Proof.
  intros Hk Hp. unfold expandKey.
  apply (fold_mix_ok (fun m i => fold_left (mix_s i) (evens 128) m)).
  - intros m j Hm. apply fold_mix_ok; [apply mix_s_ok | exact Hm].
  - apply fold_mix_ok; [apply mix_p_ok|].
    split; cbn [fst snd]; [|split; unfold u32; cbn; lia].
    unfold xor_key. cbn [p]. apply Forall_forall. intros w Hw.
    apply in_map_iff in Hw. destruct Hw as (i & <- & _).
    apply u32_lxor; [apply u32_p_at, Hp | apply u32_key_word, Hk].
Qed.

Lemma initBoxes_u32 : Forall u32 (p (initBoxes PBox SBox0 SBox1 SBox2 SBox3)).
Proof.
  cbn [initBoxes p]. apply Forall_forall. intros w Hw.
  apply in_map_iff in Hw. destruct Hw as (i & <- & _). apply u32_wrap32.
Qed.

Lemma Blowfish_load_u32 (block : list Z) :
  bytes block -> length block = 8%nat -> pair_u32 (load block).
Proof.
  intros Hb Hl. list_cases block. bytes_split Hb.
  split; cbn; apply u32_be_uint32; assumption.
Qed.

Lemma Blowfish_load_store (lr : Z * Z) : pair_u32 lr -> load (store lr) = lr.
Proof.
  destruct lr as [l r]. intros [Hl Hr]. cbn [fst snd] in Hl, Hr.
  unfold load, store. cbn [fst snd Word.be_put_uint32 app firstn skipn].
  pose proof (be_uint32_put l Hl) as El. pose proof (be_uint32_put r Hr) as Er.
  unfold Word.be_put_uint32 in El, Er. rewrite El, Er. reflexivity.
Qed.

Lemma Blowfish_store_load (block : list Z) :
  bytes block -> length block = 8%nat -> store (load block) = block.
Proof.
  intros Hb Hl. list_cases block. bytes_split Hb.
  unfold load, store. cbn [fst snd firstn skipn].
  rewrite !be_put_uint32_get by assumption. reflexivity.
Qed.

(** Blowfish: decryption undoes encryption, for every key of 4 to 56
    bytes. *)
Theorem Blowfish_roundtrip (key block : list Z) :
  bytes key -> (4 <= length key <= 56)%nat ->
  bytes block -> length block = 8%nat ->
  exists b, New PBox SBox0 SBox1 SBox2 SBox3 key = Ok b /\
            block_roundtrip Encrypt Decrypt b block.
Proof.
  intros Hkb Hk Hb Hl.
  unfold New.
  replace (length key <? MinKeySize)%nat with false
    by (symmetry; apply Nat.ltb_ge; unfold MinKeySize; lia).
  replace (MaxKeySize <? length key)%nat with false
    by (symmetry; apply Nat.ltb_ge; unfold MaxKeySize; lia).
  cbn [orb]. eexists. split; [reflexivity|].
  set (b := expandKey key _).
  assert (Hp : Forall u32 (p b)) by (apply expandKey_u32; [exact Hkb | apply initBoxes_u32]).
  unfold block_roundtrip, Encrypt. rewrite Hl. cbn [Nat.eqb BlockSize negb bind].
  unfold Decrypt.
  assert (Hlen : forall lr, length (store lr) = 8%nat) by reflexivity.
  rewrite Hlen. cbn [Nat.eqb BlockSize negb]. f_equal.
  rewrite Blowfish_load_store
    by (apply encryptBlock_u32; [exact Hp | apply Blowfish_load_u32; assumption]).
  rewrite decrypt_encrypt_block.
  apply Blowfish_store_load; assumption.
Qed.

End Blowfish_keys.

(** ** RC5 *)

Section RC5_words.
Import Word.

Lemma land_31 (k : Z) : Z.land k 31 = k mod 32.
Proof. change 31 with (Z.ones 5). rewrite Z.land_ones by lia. reflexivity. Qed.

Lemma u32_RotateLeft32 (x k : Z) : u32 x -> u32 (RotateLeft32 x k).
Proof.
  intros Hx. unfold RotateLeft32. rewrite land_31.
  pose proof (Z.mod_pos_bound k 32 ltac:(lia)).
  apply u32_lor; [apply u32_wrap32 | apply u32_shiftr; [exact Hx | lia]].
Qed.

Lemma rot_shift (y s : Z) :
  u32 y -> 0 < s < 32 ->
  Z.lor (wrap32 (Z.shiftl (Z.lor (wrap32 (Z.shiftl y s)) (Z.shiftr y (32 - s))) (32 - s)))
        (Z.shiftr (Z.lor (wrap32 (Z.shiftl y s)) (Z.shiftr y (32 - s))) (32 - (32 - s))) = y.
Proof. intros Hy Hs. unwrap. widths. bits. Qed.

Lemma rot_zero (y : Z) :
  u32 y -> Z.lor (wrap32 (Z.shiftl y 0)) (Z.shiftr y (32 - 0)) = y.
Proof. intros Hy. unwrap. widths. bits. Qed.

(** Rotating left by [k] and then by [-k] is the identity. *)
Lemma RotateLeft32_inverse (y k : Z) :
  u32 y -> 0 <= k < 32 -> RotateLeft32 (RotateLeft32 y k) (- k) = y.
Proof.
  intros Hy Hk. unfold RotateLeft32. rewrite !land_31.
  rewrite (Z.mod_small k 32) by lia.
  destruct (Z.eq_dec k 0) as [-> | Hk0].
  - change (- 0) with 0. change (0 mod 32) with 0.
    rewrite (rot_zero y Hy). apply rot_zero, Hy.
  - assert (E : (- k) mod 32 = 32 - k).
    { symmetry. apply (Z.mod_unique_pos (- k) 32 (-1)); lia. }
    rewrite E. apply rot_shift; [exact Hy | lia].
Qed.

Lemma add_sub_wrap32 (x s : Z) : u32 x -> wrap32 (wrap32 (x + s) - s) = x.
Proof.
  intros Hx. rewrite !wrap32_eq. rewrite Zminus_mod_idemp_l.
  replace (x + s - s) with x by lia. apply Z.mod_small. exact Hx.
Qed.

Lemma rem32 (x : Z) : u32 x -> Z.rem x 32 = x mod 32 /\ 0 <= x mod 32 < 32.
Proof.
  intros Hx. unfold u32 in Hx. split.
  - apply Z.rem_mod_nonneg; lia.
  - apply Z.mod_pos_bound. lia.
Qed.

Lemma u32_le_uint32 (b0 b1 b2 b3 : Z) :
  u8 b0 -> u8 b1 -> u8 b2 -> u8 b3 -> u32 (le_uint32 [b0; b1; b2; b3]).
Proof.
  intros H0 H1 H2 H3. apply u32_of_eq. unfold le_uint32. cbn [nth].
  widths. bits.
Qed.

Lemma le_uint32_put (v : Z) : u32 v -> le_uint32 (le_put_uint32 v) = v.
Proof.
  intros Hv. unfold le_uint32, le_put_uint32. cbn [nth]. unwrap.
  widths. bits.
Qed.

Lemma le_put_uint32_get (b0 b1 b2 b3 : Z) :
  u8 b0 -> u8 b1 -> u8 b2 -> u8 b3 ->
  le_put_uint32 (le_uint32 [b0; b1; b2; b3]) = [b0; b1; b2; b3].
Proof.
  intros H0 H1 H2 H3. unfold le_uint32, le_put_uint32. cbn [nth]. unwrap.
  repeat f_equal; widths; bits.
Qed.

End RC5_words.

Section RC5_roundtrip.
Import RC5.

Variable r : RC5.

Lemma enc_round_u32 (i : nat) (AB : Z * Z) : pair_u32 AB -> pair_u32 (enc_round r i AB).
Proof.
  destruct AB as [A B]. intros _. unfold enc_round, pair_u32. cbn [fst snd].
  split; apply u32_wrap32.
Qed.

Lemma dec_enc_round (i : nat) (AB : Z * Z) :
  pair_u32 AB -> dec_round r i (enc_round r i AB) = AB.
Proof.
  destruct AB as [A B]. intros [HA HB]. cbn [fst snd] in HA, HB.
  unfold enc_round, dec_round.
  destruct (rem32 B HB) as [EB RB]. rewrite EB.
  set (A' := Word.wrap32 (Word.RotateLeft32 (Z.lxor A B) (B mod 32) + key_at r (2 * i))).
  assert (HA' : u32 A') by apply u32_wrap32.
  destruct (rem32 A' HA') as [EA RA]. rewrite EA.
  rewrite add_sub_wrap32
    by (apply u32_RotateLeft32, u32_lxor; assumption).
  rewrite RotateLeft32_inverse by (try apply u32_lxor; assumption).
  rewrite lxor_cancel_r.
  unfold A'. rewrite EB.
  rewrite add_sub_wrap32
    by (apply u32_RotateLeft32, u32_lxor; assumption).
  rewrite RotateLeft32_inverse by (try apply u32_lxor; assumption).
  rewrite lxor_cancel_r. reflexivity.
Qed.

Lemma RC5_load_u32 (block : list Z) :
  bytes block -> length block = 8%nat -> pair_u32 (load block).
Proof.
  intros Hb Hl. list_cases block. bytes_split Hb.
  split; cbn; apply u32_le_uint32; assumption.
Qed.

Lemma RC5_load_store (AB : Z * Z) : pair_u32 AB -> load (store AB) = AB.
Proof.
  destruct AB as [A B]. intros [HA HB]. cbn [fst snd] in HA, HB.
  unfold load, store. cbn [fst snd Word.le_put_uint32 app firstn skipn].
  pose proof (le_uint32_put A HA) as EA. pose proof (le_uint32_put B HB) as EB.
  unfold Word.le_put_uint32 in EA, EB. rewrite EA, EB. reflexivity.
Qed.

Lemma RC5_store_load (block : list Z) :
  bytes block -> length block = 8%nat -> store (load block) = block.
Proof.
  intros Hb Hl. list_cases block. bytes_split Hb.
  unfold load, store. cbn [fst snd firstn skipn].
  rewrite !le_put_uint32_get by assumption. reflexivity.
Qed.

Hypothesis Hws : wordSize r = 32.
Hypothesis Hbs : blockSize r = 8%nat.

Lemma RC5_decrypt_encrypt (block : list Z) :
  bytes block -> length block = 8%nat ->
  block_roundtrip Encrypt Decrypt r block.
Proof.
  intros Hb Hl. unfold block_roundtrip, Encrypt.
  rewrite Hl, Hbs, Hws. cbn [Nat.eqb Z.eqb Pos.eqb negb].
  pose proof (RC5_load_u32 block Hb Hl) as HL.
  pose proof (RC5_store_load block Hb Hl) as HS.
  destruct (load block) as [A B]. destruct HL as [HA HB]. cbn [fst snd] in HA, HB.
  cbn [bind]. unfold Decrypt.
  assert (Hlen : forall AB, length (store AB) = 8%nat) by reflexivity.
  rewrite Hlen, Hbs, Hws. cbn [Nat.eqb Z.eqb Pos.eqb negb].
  set (X := (Word.wrap32 (A + key_at r 0), Word.wrap32 (B + key_at r 1))).
  assert (HX : pair_u32 X) by (split; apply u32_wrap32).
  rewrite RC5_load_store
    by (apply (fold_left_invariant pair_u32 (enc_round r)); [apply enc_round_u32 | exact HX]).
  rewrite (fold_left_inverse pair_u32 (enc_round r) (dec_round r)
             enc_round_u32 dec_enc_round _ X HX).
  unfold X. rewrite !add_sub_wrap32 by assumption.
  f_equal. exact HS.
Qed.

End RC5_roundtrip.

(** RC5: decryption undoes encryption, for every key of 1 to 255 bytes,
    every number of rounds from 1 to 255, and 32-bit words. *)
Theorem RC5_roundtrip (key block : list Z) (nrounds : Z) :
  (1 <= length key <= 255)%nat -> 1 <= nrounds <= 255 ->
  bytes block -> length block = 8%nat ->
  exists r, RC5.NewWithParams key nrounds 32 = Ok r /\
            block_roundtrip RC5.Encrypt RC5.Decrypt r block.
Proof.
  intros Hk Hr Hb Hl. unfold RC5.NewWithParams.
  replace (length key <? RC5.MinKeySize)%nat with false
    by (symmetry; apply Nat.ltb_ge; unfold RC5.MinKeySize; lia).
  replace (RC5.MaxKeySize <? length key)%nat with false
    by (symmetry; apply Nat.ltb_ge; unfold RC5.MaxKeySize; lia).
  replace (nrounds <? 1) with false by (symmetry; apply Z.ltb_ge; lia).
  replace (255 <? nrounds) with false by (symmetry; apply Z.ltb_ge; lia).
  cbn [orb Z.eqb Pos.eqb negb].
  eexists. split; [reflexivity|].
  apply RC5_decrypt_encrypt; [reflexivity | reflexivity | exact Hb | exact Hl].
Qed.

(** ** DES *)

Section DES_bits.
Import DES.

Lemma testbit_pow2 (m j : Z) : 0 <= m -> Z.testbit (Z.shiftl 1 m) j = (j =? m).
Proof.
  intros Hm. rewrite Z.shiftl_1_l. rewrite Z.pow2_bits_eqb by exact Hm.
  apply Z.eqb_sym.
Qed.

Lemma permute_fold_testbit (cond : nat -> bool) (n k a : nat) (out j : Z) :
  0 <= j -> (a + k <= n)%nat ->
  Z.testbit
    (fold_left
       (fun output i =>
          if cond i
          then Z.lor output (Z.shiftl 1 (Z.of_nat n - 1 - Z.of_nat i))
          else output)
       (seq a k) out) j =
  Z.testbit out j ||
  ((Z.of_nat a <=? Z.of_nat n - 1 - j) && (Z.of_nat n - 1 - j <? Z.of_nat (a + k))
   && cond (Z.to_nat (Z.of_nat n - 1 - j))).
Proof.
  intros Hj. revert a out. induction k as [| k IH]; intros a out Hak.
  - cbn [seq fold_left]. rewrite Nat.add_0_r.
    destruct (Z.leb_spec (Z.of_nat a) (Z.of_nat n - 1 - j));
      destruct (Z.ltb_spec (Z.of_nat n - 1 - j) (Z.of_nat a)); try lia;
      cbn; rewrite ?Bool.orb_false_r; reflexivity.
  - cbn [seq fold_left]. rewrite IH by lia.
    destruct (Z.eq_dec (Z.of_nat n - 1 - j) (Z.of_nat a)) as [E | E].
    + assert (Ea : Z.to_nat (Z.of_nat n - 1 - j) = a) by lia.
      rewrite Ea.
      replace (Z.of_nat (S a) <=? Z.of_nat n - 1 - j) with false
        by (symmetry; apply Z.leb_gt; lia).
      replace (Z.of_nat a <=? Z.of_nat n - 1 - j) with true
        by (symmetry; apply Z.leb_le; lia).
      replace (Z.of_nat n - 1 - j <? Z.of_nat (a + S k)) with true
        by (symmetry; apply Z.ltb_lt; lia).
      cbn [andb]. rewrite Bool.orb_false_r.
      destruct (cond a).
      * rewrite Z.lor_spec, testbit_pow2 by lia.
        replace (j =? Z.of_nat n - 1 - Z.of_nat a) with true
          by (symmetry; apply Z.eqb_eq; lia).
        reflexivity.
      * rewrite Bool.orb_false_r. reflexivity.
    + replace (Z.of_nat (S a + k)) with (Z.of_nat (a + S k)) by lia.
      replace (Z.of_nat (S a) <=? Z.of_nat n - 1 - j)
        with (Z.of_nat a <=? Z.of_nat n - 1 - j).
      2:{ destruct (Z.leb_spec (Z.of_nat a) (Z.of_nat n - 1 - j));
          destruct (Z.leb_spec (Z.of_nat (S a)) (Z.of_nat n - 1 - j)); try lia; reflexivity. }
      f_equal.
      destruct (cond a); [|reflexivity].
      rewrite Z.lor_spec, testbit_pow2 by lia.
      replace (j =? Z.of_nat n - 1 - Z.of_nat a) with false
        by (symmetry; apply Z.eqb_neq; lia).
      apply Bool.orb_false_r.
Qed.

Lemma permute_testbit (get : Z -> Z -> Z) (T : Z -> Z) (n : nat) (input j : Z) :
  0 <= j ->
  Z.testbit (permute get T n input) j =
  (j <? Z.of_nat n) && (get input (T (Z.of_nat n - 1 - j) - 1) =? 1).
Proof.
  intros Hj. unfold permute.
  rewrite (permute_fold_testbit
             (fun i => get input (T (Z.of_nat i) - 1) =? 1) n n 0 0 j Hj) by lia.
  rewrite Z.testbit_0_l. cbn [orb].
  destruct (Z.ltb_spec j (Z.of_nat n)) as [Hlt | Hge].
  - replace (Z.of_nat 0 <=? Z.of_nat n - 1 - j) with true
      by (symmetry; apply Z.leb_le; lia).
    replace (Z.of_nat n - 1 - j <? Z.of_nat (0 + n)) with true
      by (symmetry; apply Z.ltb_lt; lia).
    cbn [andb]. rewrite Z2Nat.id by lia. reflexivity.
  - replace (Z.of_nat 0 <=? Z.of_nat n - 1 - j) with false
      by (symmetry; apply Z.leb_gt; lia).
    reflexivity.
Qed.

End DES_bits.

Section DES_words.
Import Word DES.

Lemma getBit_testbit (n pos : Z) :
  pos <= 63 -> (getBit n pos =? 1) = Z.testbit n (63 - pos).
Proof.
  intros Hp. unfold getBit. change 1 with (Z.ones 1) at 1.
  rewrite Z.land_ones by lia. change (2 ^ 1) with 2.
  rewrite <- Z.bit0_mod. rewrite Z.shiftr_spec by lia. rewrite Z.add_0_l.
  destruct (Z.testbit n (63 - pos)); reflexivity.
Qed.

Lemma permute_range (get : Z -> Z -> Z) (T : Z -> Z) (n : nat) (input : Z) :
  0 <= permute get T n input < 2 ^ Z.of_nat n.
Proof.
  assert (E : permute get T n input = permute get T n input mod 2 ^ Z.of_nat n).
  { apply Z.bits_inj'. intros j Hj.
    rewrite Z.testbit_mod_pow2 by lia. rewrite permute_testbit by exact Hj.
    destruct (j <? Z.of_nat n); reflexivity. }
  rewrite E. apply Z.mod_pos_bound. lia.
Qed.

Lemma u64_testbit_high (x j : Z) : u64 x -> 64 <= j -> Z.testbit x j = false.
Proof.
  intros Hx Hj. rewrite (u64_eq x Hx). rewrite Z.testbit_mod_pow2 by lia.
  replace (j <? 64) with false by (symmetry; apply Z.ltb_ge; lia). reflexivity.
Qed.

(** A 64-bit permutation followed by the permutation of the inverse table
    is the identity. *)
Lemma permute_inverse (A B : Z -> Z) (x : Z) :
  positions B 64 64 -> undoes A B 64 -> u64 x ->
  permute getBit B 64 (permute getBit A 64 x) = x.
Proof.
  intros HB HAB Hx. apply Z.bits_inj'. intros j Hj.
  rewrite permute_testbit by exact Hj.
  change (Z.of_nat 64) with 64.
  destruct (Z.ltb_spec j 64) as [Hlt | Hge].
  - cbn [andb].
    pose proof (HB (64 - 1 - j) ltac:(lia)) as HBr.
    rewrite getBit_testbit by lia.
    rewrite permute_testbit by lia.
    change (Z.of_nat 64) with 64.
    replace (63 - (B (64 - 1 - j) - 1) <? 64) with true
      by (symmetry; apply Z.ltb_lt; lia).
    cbn [andb].
    replace (64 - 1 - (63 - (B (64 - 1 - j) - 1))) with (B (64 - 1 - j) - 1) by lia.
    rewrite (HAB (64 - 1 - j)) by lia.
    rewrite getBit_testbit by lia. f_equal. lia.
  - cbn [andb]. symmetry. apply u64_testbit_high; assumption.
Qed.

Lemma u32_permute32 (get : Z -> Z -> Z) (T : Z -> Z) (input : Z) :
  u32 (permute get T 32 input).
Proof. exact (permute_range get T 32 input). Qed.

Lemma u64_permute64 (get : Z -> Z -> Z) (T : Z -> Z) (input : Z) :
  u64 (permute get T 64 input).
Proof. exact (permute_range get T 64 input). Qed.

Lemma halves_pack (l r : Z) :
  u32 l -> u32 r ->
  let state := Z.lor (wrap64 (Z.shiftl r 32)) l in
  wrap32 (Z.shiftr state 32) = r /\ wrap32 state = l /\ u64 state.
Proof.
  intros Hl Hr state. unfold state. split; [|split].
  - unwrap. widths. bits8.
  - unwrap. widths. bits8.
  - apply u64_of_eq. unwrap. widths. bits8.
Qed.

Lemma halves_unpack (s : Z) :
  u64 s -> Z.lor (wrap64 (Z.shiftl (wrap32 s) 32)) (wrap32 (Z.shiftr s 32)) =
           Z.lor (Z.shiftl (wrap32 s) 32) (wrap32 (Z.shiftr s 32)).
Proof. intros Hs. unwrap. widths. bits8. Qed.

Lemma halves_join (s : Z) :
  u64 s -> Z.lor (wrap64 (Z.shiftl (wrap32 (Z.shiftr s 32)) 32)) (wrap32 s) = s.
Proof. intros Hs. unwrap. widths. bits8. Qed.

Lemma u64_be_uint64 (b0 b1 b2 b3 b4 b5 b6 b7 : Z) :
  u8 b0 -> u8 b1 -> u8 b2 -> u8 b3 -> u8 b4 -> u8 b5 -> u8 b6 -> u8 b7 ->
  u64 (be_uint64 [b0; b1; b2; b3; b4; b5; b6; b7]).
Proof.
  intros. apply u64_of_eq. unfold be_uint64. cbn [nth]. widths. bits8.
Qed.

Lemma be_uint64_put (v : Z) : u64 v -> be_uint64 (be_put_uint64 v) = v.
Proof.
  intros Hv. unfold be_uint64, be_put_uint64. cbn [nth]. unwrap. widths. bits8.
Qed.

Lemma be_put_uint64_get (b0 b1 b2 b3 b4 b5 b6 b7 : Z) :
  u8 b0 -> u8 b1 -> u8 b2 -> u8 b3 -> u8 b4 -> u8 b5 -> u8 b6 -> u8 b7 ->
  be_put_uint64 (be_uint64 [b0; b1; b2; b3; b4; b5; b6; b7]) =
  [b0; b1; b2; b3; b4; b5; b6; b7].
Proof.
  intros. unfold be_uint64, be_put_uint64. cbn [nth]. unwrap.
  repeat f_equal; widths; bits8.
Qed.

End DES_words.

Section DES_roundtrip.
Import DES.

Variables IP FP E P PC1 PC2 : Z -> Z.
Variable SBOXES : Z -> Z -> Z.

Hypothesis IP_positions : positions IP 64 64.
Hypothesis FP_positions : positions FP 64 64.
Hypothesis FP_undoes_IP : undoes IP FP 64.
Hypothesis IP_undoes_FP : undoes FP IP 64.

Variable d : DES.

Let round := DES.round E P SBOXES d.

Lemma u32_feistelFunction (r key : Z) : u32 (feistelFunction E P SBOXES r key).
Proof. unfold feistelFunction, pboxPermutation. apply u32_permute32. Qed.

Lemma DES_round_u32 (i : nat) (lr : Z * Z) : pair_u32 lr -> pair_u32 (round i lr).
Proof.
  destruct lr as [l r]. intros [Hl Hr]. cbn [fst snd] in Hl, Hr.
  split; cbn [round DES.round fst snd]; [exact Hr|].
  apply u32_lxor; [exact Hl | apply u32_feistelFunction].
Qed.

(** A round applied to the swapped result of the same round swaps the
    halves back. *)
Lemma DES_round_swap (i : nat) (lr : Z * Z) :
  round i (swap_halves (round i lr)) = swap_halves lr.
Proof.
  destruct lr as [l r]. unfold round, DES.round, swap_halves. cbn [fst snd].
  rewrite lxor_cancel_r. reflexivity.
Qed.

Lemma DES_rounds_swap (order : list nat) (lr : Z * Z) :
  fold_left (fun lr i => round i lr) (rev order)
    (swap_halves (fold_left (fun lr i => round i lr) order lr)) = swap_halves lr.
Proof.
  revert lr. induction order as [| i order IH]; intros lr;
    cbn [rev fold_left]; [reflexivity|].
  rewrite fold_left_app, IH. cbn [fold_left]. apply DES_round_swap.
Qed.

Lemma DES_rounds_u32 (order : list nat) (lr : Z * Z) :
  pair_u32 lr -> pair_u32 (fold_left (fun lr i => round i lr) order lr).
Proof. apply (fold_left_invariant pair_u32 round). apply DES_round_u32. Qed.

Lemma initial_final (x : Z) :
  u64 x -> initialPermutation IP (finalPermutation FP x) = x.
Proof. intros Hx. apply (permute_inverse FP IP); assumption. Qed.

Lemma final_initial (x : Z) :
  u64 x -> finalPermutation FP (initialPermutation IP x) = x.
Proof. intros Hx. apply (permute_inverse IP FP); assumption. Qed.

Lemma DES_crypt_length (order : list nat) (block : list Z) :
  length (crypt IP FP E P SBOXES d order block) = 8%nat.
Proof.
  unfold crypt.
  destruct (fold_left _ order _) as [l r]. reflexivity.
Qed.

Lemma DES_decrypt_encrypt (block : list Z) :
  bytes block -> length block = 8%nat ->
  block_roundtrip (Encrypt IP FP E P SBOXES) (Decrypt IP FP E P SBOXES) d block.
Proof.
  intros Hb Hl. unfold block_roundtrip, Encrypt.
  rewrite Hl. cbn [Nat.eqb BlockSize negb bind].
  unfold Decrypt. rewrite DES_crypt_length. cbn [Nat.eqb BlockSize negb].
  f_equal. unfold crypt at 1. unfold crypt. fold round.
  set (input := Word.be_uint64 block).
  assert (Hin : u64 input).
  { unfold input. list_cases block. bytes_split Hb. apply u64_be_uint64; assumption. }
  set (state := initialPermutation IP input).
  assert (Hst : u64 state) by apply u64_permute64.
  set (lr0 := (Word.wrap32 (Z.shiftr state 32), Word.wrap32 state)).
  assert (H0 : pair_u32 lr0) by (split; apply u32_wrap32).
  pose proof (DES_rounds_u32 (seq 0 16) lr0 H0) as He.
  pose proof (DES_rounds_swap (seq 0 16) lr0) as Hswap.
  destruct (fold_left (fun lr i => round i lr) (seq 0 16) lr0) as [l r].
  destruct He as [Hl16 Hr16]. cbn [fst snd] in Hl16, Hr16.
  destruct (halves_pack l r Hl16 Hr16) as (Ehi & Elo & Hu).
  rewrite be_uint64_put by apply u64_permute64.
  rewrite !initial_final by exact Hu.
  rewrite Ehi, Elo.
  unfold swap_halves in Hswap. cbn [fst snd] in Hswap. rewrite Hswap.
  unfold lr0. cbn [fst snd].
  rewrite halves_join by exact Hst.
  unfold state. rewrite final_initial by exact Hin.
  unfold input. list_cases block. bytes_split Hb.
  apply be_put_uint64_get; assumption.
Qed.

End DES_roundtrip.

(** DES: decryption undoes encryption, for every key of 8 bytes, when [IP]
    and [FP] are inverse tables of positions. *)
Theorem DES_roundtrip (IP FP E P PC1 PC2 : Z -> Z) (SBOXES : Z -> Z -> Z)
    (key block : list Z) :
  positions IP 64 64 -> positions FP 64 64 ->
  undoes IP FP 64 -> undoes FP IP 64 ->
  length key = 8%nat -> bytes block -> length block = 8%nat ->
  exists d, DES.New PC1 PC2 key = Ok d /\
            block_roundtrip (DES.Encrypt IP FP E P SBOXES)
                            (DES.Decrypt IP FP E P SBOXES) d block.
Proof.
  intros H1 H2 H3 H4 Hk Hb Hl. unfold DES.New. rewrite Hk.
  cbn [Nat.eqb DES.KeySize negb]. eexists. split; [reflexivity|].
  apply DES_decrypt_encrypt; assumption.
Qed.

(** ** AES *)

Section Enumeration.

(** A check that holds on the 256 bytes holds on every byte. *)
Lemma forall_bytes (f : Z -> bool) :
  forallb f all_bytes = true -> forall b, u8 b -> f b = true.
Proof.
  intros H b Hb. rewrite forallb_forall in H. apply H.
  unfold all_bytes. apply in_map_iff. exists (Z.to_nat b).
  unfold u8 in Hb. split; [lia|]. apply in_seq. lia.
Qed.

Lemma forall_bytes2 (f : Z -> Z -> bool) :
  forallb (fun x => forallb (f x) all_bytes) all_bytes = true ->
  forall x y, u8 x -> u8 y -> f x y = true.
Proof.
  intros H x y Hx Hy.
  apply (forall_bytes (f x)); [|exact Hy].
  apply (forall_bytes (fun x => forallb (f x) all_bytes)); assumption.
Qed.

Lemma list_eqb_eq (l1 l2 : list Z) : list_eqb l1 l2 = true -> l1 = l2.
Proof.
  unfold list_eqb. revert l2.
  induction l1 as [| a l1 IH]; intros [| b l2] H; cbn in H; try discriminate;
    [reflexivity|].
  apply andb_prop in H. destruct H as [Hlen H].
  apply andb_prop in H. destruct H as [Hab H].
  apply Z.eqb_eq in Hab. subst b. f_equal. apply IH.
  rewrite Hlen, H. reflexivity.
Qed.

End Enumeration.

Section GF256.
Import AES.

Lemma u8_lxor (a b : Z) : u8 a -> u8 b -> u8 (Z.lxor a b).
Proof. intros Ha Hb. apply u8_of_eq. widths. bits. Qed.

Lemma u8_0 : u8 0.
Proof. unfold u8. lia. Qed.

Lemma xtime_u8 (b : Z) : u8 b -> u8 (xtime b).
Proof.
  intros Hb.
  assert (H : (0 <=? xtime b) && (xtime b <? 256) = true).
  { revert b Hb. apply forall_bytes. vm_compute. reflexivity. }
  apply andb_prop in H. destruct H as [H1 H2].
  apply Z.leb_le in H1. apply Z.ltb_lt in H2. unfold u8. lia.
Qed.

Lemma xtime_lxor (x y : Z) :
  u8 x -> u8 y -> xtime (Z.lxor x y) = Z.lxor (xtime x) (xtime y).
Proof.
  intros Hx Hy. apply Z.eqb_eq. revert x y Hx Hy.
  apply (forall_bytes2 (fun x y => xtime (Z.lxor x y) =? Z.lxor (xtime x) (xtime y))).
  vm_compute. reflexivity.
Qed.

Lemma gmul_loop_u8 (n : nat) (a b acc : Z) :
  u8 b -> u8 acc -> u8 (gmul_loop n a b acc).
Proof.
  revert a b acc. induction n as [| n IH]; intros a b acc Hb Hacc; cbn [gmul_loop];
    [exact Hacc|].
  apply IH; [apply xtime_u8, Hb|].
  destruct (Z.testbit a 0); [apply u8_lxor|]; assumption.
Qed.

Lemma gmul_loop_lxor (n : nat) (a b b' acc acc' : Z) :
  u8 b -> u8 b' ->
  gmul_loop n a (Z.lxor b b') (Z.lxor acc acc') =
  Z.lxor (gmul_loop n a b acc) (gmul_loop n a b' acc').
Proof.
  revert a b b' acc acc'. induction n as [| n IH]; intros a b b' acc acc' Hb Hb';
    cbn [gmul_loop]; [reflexivity|].
  rewrite xtime_lxor by assumption.
  destruct (Z.testbit a 0).
  - rewrite <- IH by (apply xtime_u8; assumption). f_equal.
    rewrite !Z.lxor_assoc. f_equal.
    rewrite <- !Z.lxor_assoc. f_equal. apply Z.lxor_comm.
  - apply IH; apply xtime_u8; assumption.
Qed.

Lemma gmul_u8 (c b : Z) : u8 b -> u8 (gmul c b).
Proof. intros Hb. apply gmul_loop_u8; [exact Hb | exact u8_0]. Qed.

(** Multiplication by a constant is linear. *)
Lemma gmul_lxor (c x y : Z) :
  u8 x -> u8 y -> gmul c (Z.lxor x y) = Z.lxor (gmul c x) (gmul c y).
Proof.
  intros Hx Hy. unfold gmul.
  rewrite <- gmul_loop_lxor by assumption. reflexivity.
Qed.

(** The inverse MDS matrix times the MDS matrix is the identity. *)
Lemma mds_inverse (a : Z) : u8 a -> mds_products a = mds_identity a.
Proof.
  intros Ha. apply list_eqb_eq. revert a Ha.
  apply forall_bytes. vm_compute. reflexivity.
Qed.

End GF256.
Lemma lxor4_combine (s0 s1 s2 s3 v0 v1 v2 v3 : Z) :
  s0 = v0 -> s1 = v1 -> s2 = v2 -> s3 = v3 ->
  Z.lxor (Z.lxor (Z.lxor s0 s1) s2) s3 = Z.lxor (Z.lxor (Z.lxor v0 v1) v2) v3.
Proof. intros -> -> -> ->. reflexivity. Qed.

Ltac u8_solve :=
  repeat first [ assumption | apply gmul_u8 | apply u8_wrap8 | apply u8_lxor ].

Ltac xor_ac :=
  apply Z.bits_inj'; intros ?i ?Hi; rewrite !Z.lxor_spec; btauto.

Section AES_columns.
Import AES.

Variables MUL_2 MUL_3 MUL_9 MUL_11 MUL_13 MUL_14 : Z -> Z.
Hypothesis H2 : gf_table MUL_2 2.
Hypothesis H3 : gf_table MUL_3 3.
Hypothesis H9 : gf_table MUL_9 9.
Hypothesis H11 : gf_table MUL_11 11.
Hypothesis H13 : gf_table MUL_13 13.
Hypothesis H14 : gf_table MUL_14 14.

Lemma mixColumn_u8 (a0 a1 a2 a3 : Z) :
  u8 a0 -> u8 a1 -> u8 a2 -> u8 a3 ->
  Forall u8 (mixColumn MUL_2 MUL_3 a0 a1 a2 a3).
Proof.
  intros. unfold mixColumn, byte_at.
  repeat (apply Forall_cons; [u8_solve|]); apply Forall_nil.
Qed.

Lemma invMixColumn_u8 (a0 a1 a2 a3 : Z) :
  Forall u8 (invMixColumn MUL_9 MUL_11 MUL_13 MUL_14 a0 a1 a2 a3).
Proof.
  unfold invMixColumn, byte_at.
  repeat (apply Forall_cons; [u8_solve|]); apply Forall_nil.
Qed.

Lemma invMixColumn_mixColumn (a0 a1 a2 a3 : Z) :
  u8 a0 -> u8 a1 -> u8 a2 -> u8 a3 ->
  let c := mixColumn MUL_2 MUL_3 a0 a1 a2 a3 in
  invMixColumn MUL_9 MUL_11 MUL_13 MUL_14
    (nth 0 c 0) (nth 1 c 0) (nth 2 c 0) (nth 3 c 0) = [a0; a1; a2; a3].
Proof.
  intros U0 U1 U2 U3 c. unfold c, mixColumn, invMixColumn. cbn [nth].
  rewrite !H2, !H3 by assumption.
  rewrite !H9, !H11, !H13, !H14 by u8_solve.
  rewrite !gmul_lxor by u8_solve.
  pose proof (mds_inverse a0 U0) as E0. pose proof (mds_inverse a1 U1) as E1.
  pose proof (mds_inverse a2 U2) as E2. pose proof (mds_inverse a3 U3) as E3.
  unfold mds_products, mds_identity in E0, E1, E2, E3.
  injection E0 as A00 A01 A02 A03 A10 A11 A12 A13 A20 A21 A22 A23 A30 A31 A32 A33.
  injection E1 as B00 B01 B02 B03 B10 B11 B12 B13 B20 B21 B22 B23 B30 B31 B32 B33.
  injection E2 as C00 C01 C02 C03 C10 C11 C12 C13 C20 C21 C22 C23 C30 C31 C32 C33.
  injection E3 as D00 D01 D02 D03 D10 D11 D12 D13 D20 D21 D22 D23 D30 D31 D32 D33.
  f_equal; [|f_equal; [|f_equal; [|f_equal]]].
  - transitivity (Z.lxor (Z.lxor (Z.lxor a0 0) 0) 0); [|rewrite !Z.lxor_0_r; reflexivity].
    refine (eq_trans _ (lxor4_combine _ _ _ _ _ _ _ _ A00 B01 C02 D03)). xor_ac.
  - transitivity (Z.lxor (Z.lxor (Z.lxor 0 a1) 0) 0);
      [|rewrite !Z.lxor_0_r, Z.lxor_0_l; reflexivity].
    refine (eq_trans _ (lxor4_combine _ _ _ _ _ _ _ _ A10 B11 C12 D13)). xor_ac.
  - transitivity (Z.lxor (Z.lxor (Z.lxor 0 0) a2) 0);
      [|rewrite !Z.lxor_0_r, Z.lxor_0_l; reflexivity].
    refine (eq_trans _ (lxor4_combine _ _ _ _ _ _ _ _ A20 B21 C22 D23)). xor_ac.
  - transitivity (Z.lxor (Z.lxor (Z.lxor 0 0) 0) a3);
      [|rewrite !Z.lxor_0_l; reflexivity].
    refine (eq_trans _ (lxor4_combine _ _ _ _ _ _ _ _ A30 B31 C32 D33)). xor_ac.
Qed.

End AES_columns.

Lemma bytes_of_u8 (l : list Z) : Forall u8 l -> bytes l.
Proof. intros H. exact H. Qed.

Ltac state_cases s Hs :=
  let Hb := fresh "Hb" in
  let Hl := fresh "Hl" in
  destruct Hs as [Hb Hl]; list_cases s; bytes_split Hb; clear Hb Hl.

Ltac state_solve :=
  split;
  [ apply bytes_of_u8; repeat (apply Forall_cons; [u8_solve|]); apply Forall_nil
  | reflexivity ].

Section AES_roundtrip.
Import AES.

Variables SBOX InvSBOX : Z -> Z.
Variables MUL_2 MUL_3 MUL_9 MUL_11 MUL_13 MUL_14 : Z -> Z.
Variable RCON : Z -> Z.
Hypothesis Hsbox : inverse_tables SBOX InvSBOX.
Hypothesis H2 : gf_table MUL_2 2.
Hypothesis H3 : gf_table MUL_3 3.
Hypothesis H9 : gf_table MUL_9 9.
Hypothesis H11 : gf_table MUL_11 11.
Hypothesis H13 : gf_table MUL_13 13.
Hypothesis H14 : gf_table MUL_14 14.

Variable a : AES.

Lemma subBytes_state (s : list Z) : aes_state s -> aes_state (subBytes SBOX s).
Proof.
  intros Hs. state_cases s Hs. unfold subBytes, byte_at. cbn [map]. state_solve.
Qed.

Lemma invSubBytes_subBytes (s : list Z) :
  aes_state s -> invSubBytes InvSBOX (subBytes SBOX s) = s.
Proof.
  intros Hs. state_cases s Hs. unfold subBytes, invSubBytes. cbn [map].
  rewrite !Hsbox by assumption. reflexivity.
Qed.

Lemma shiftRows_state (s : list Z) : aes_state s -> aes_state (shiftRows s).
Proof.
  intros Hs. state_cases s Hs. unfold shiftRows, gather. cbn [map nth]. state_solve.
Qed.

Lemma invShiftRows_shiftRows (s : list Z) :
  aes_state s -> invShiftRows (shiftRows s) = s.
Proof.
  intros Hs. state_cases s Hs. reflexivity.
Qed.

Lemma mixColumns_state (s : list Z) :
  aes_state s -> aes_state (mixColumns MUL_2 MUL_3 s).
Proof.
  intros Hs. state_cases s Hs.
  unfold mixColumns, columns, mixColumn, byte_at.
  cbn [flat_map seq nth app Nat.mul Nat.add]. state_solve.
Qed.

Lemma invMixColumns_mixColumns (s : list Z) :
  aes_state s ->
  invMixColumns MUL_9 MUL_11 MUL_13 MUL_14 (mixColumns MUL_2 MUL_3 s) = s.
Proof.
  intros Hs. state_cases s Hs.
  pose proof (invMixColumn_mixColumn MUL_2 MUL_3 MUL_9 MUL_11 MUL_13 MUL_14
                H2 H3 H9 H11 H13 H14) as HC. cbv zeta in HC.
  unfold mixColumn in HC. cbn [nth] in HC.
  unfold invMixColumns, mixColumns, columns, mixColumn.
  cbn [flat_map seq nth app Nat.mul Nat.add].
  rewrite !HC by assumption. reflexivity.
Qed.

Lemma addRoundKey_state (s : list Z) (round : nat) :
  aes_state s -> aes_state (addRoundKey a s round).
Proof.
  intros Hs. state_cases s Hs.
  unfold addRoundKey. cbn [flat_map seq nth app Nat.mul Nat.add]. state_solve.
Qed.

Lemma addRoundKey_involution (s : list Z) (round : nat) :
  aes_state s -> addRoundKey a (addRoundKey a s round) round = s.
Proof.
  intros Hs. state_cases s Hs.
  unfold addRoundKey. cbn [flat_map seq nth app Nat.mul Nat.add].
  rewrite !lxor_cancel_r. reflexivity.
Qed.


Let T (s : list Z) : list Z := invSubBytes InvSBOX (invShiftRows s).
Let enc := enc_round SBOX MUL_2 MUL_3 a.
Let dec := dec_round InvSBOX MUL_9 MUL_11 MUL_13 MUL_14 a.
Let undo (round : nat) (s : list Z) : list Z :=
  T (invMixColumns MUL_9 MUL_11 MUL_13 MUL_14 (addRoundKey a s round)).

Lemma T_shift_sub (s : list Z) :
  aes_state s -> T (shiftRows (subBytes SBOX s)) = s.
Proof.
  intros Hs. unfold T.
  rewrite invShiftRows_shiftRows by (apply subBytes_state, Hs).
  apply invSubBytes_subBytes, Hs.
Qed.

Lemma enc_round_state (round : nat) (s : list Z) :
  aes_state s -> aes_state (enc round s).
Proof.
  intros Hs. unfold enc, enc_round.
  apply addRoundKey_state, mixColumns_state, shiftRows_state, subBytes_state, Hs.
Qed.

Lemma undo_enc_round (round : nat) (s : list Z) :
  aes_state s -> undo round (enc round s) = s.
Proof.
  intros Hs. unfold undo, enc, enc_round.
  rewrite addRoundKey_involution
    by (apply mixColumns_state, shiftRows_state, subBytes_state, Hs).
  rewrite invMixColumns_mixColumns by (apply shiftRows_state, subBytes_state, Hs).
  apply T_shift_sub, Hs.
Qed.

(** The decryption loop followed by the last inverse substitution is the
    loop of the inverse rounds. *)
Lemma dec_regroup (order : list nat) (s : list Z) :
  T (fold_left (fun st round => dec round st) order s) =
  fold_left (fun st round => undo round st) order (T s).
Proof.
  revert s. induction order as [| r order IH]; intros s; cbn [fold_left];
    [reflexivity|].
  rewrite IH. reflexivity.
Qed.

Lemma AES_decrypt_encrypt (block : list Z) :
  bytes block -> length block = 16%nat ->
  block_roundtrip (Encrypt SBOX MUL_2 MUL_3)
                  (Decrypt InvSBOX MUL_9 MUL_11 MUL_13 MUL_14) a block.
Proof.
  intros Hb Hl. assert (Hs : aes_state block) by (split; assumption).
  unfold block_roundtrip, Encrypt. rewrite Hl. cbn [Nat.eqb negb bind].
  fold enc.
  set (x0 := addRoundKey a block 0).
  assert (H0 : aes_state x0) by (apply addRoundKey_state, Hs).
  set (st := fold_left (fun st round => enc round st) (seq 1 (rounds a - 1)) x0).
  assert (Hst : aes_state st).
  { apply (fold_left_invariant aes_state enc); [apply enc_round_state | exact H0]. }
  assert (Hlast : aes_state (shiftRows (subBytes SBOX st)))
    by (apply shiftRows_state, subBytes_state, Hst).
  unfold Decrypt.
  rewrite (proj2 (addRoundKey_state _ (rounds a) Hlast)). cbn [Nat.eqb negb].
  rewrite addRoundKey_involution by exact Hlast.
  fold dec. fold (T (fold_left (fun st round => dec round st)
                                (rev (seq 1 (rounds a - 1)))
                                (shiftRows (subBytes SBOX st)))).
  rewrite dec_regroup, T_shift_sub by exact Hst.
  unfold st.
  rewrite (fold_left_inverse aes_state enc undo enc_round_state undo_enc_round
             _ x0 H0).
  unfold x0. f_equal. apply addRoundKey_involution, Hs.
Qed.

End AES_roundtrip.

(** AES: decryption undoes encryption, for every key of 16, 24 or 32
    bytes, when [InvSBOX] undoes [SBOX] and the [MUL] tables hold the
    products in GF(2^8). *)
Theorem AES_roundtrip
    (SBOX InvSBOX MUL_2 MUL_3 MUL_9 MUL_11 MUL_13 MUL_14 RCON : Z -> Z)
    (key block : list Z) :
  inverse_tables SBOX InvSBOX ->
  gf_table MUL_2 2 -> gf_table MUL_3 3 -> gf_table MUL_9 9 ->
  gf_table MUL_11 11 -> gf_table MUL_13 13 -> gf_table MUL_14 14 ->
  length key = 16%nat \/ length key = 24%nat \/ length key = 32%nat ->
  bytes block -> length block = 16%nat ->
  exists a, AES.New SBOX RCON key = Ok a /\
            block_roundtrip (AES.Encrypt SBOX MUL_2 MUL_3)
                            (AES.Decrypt InvSBOX MUL_9 MUL_11 MUL_13 MUL_14)
                            a block.
Proof.
  intros Hs H2 H3 H9 H11 H13 H14 Hk Hb Hl.
  assert (HN : exists a, AES.New SBOX RCON key = Ok a).
  { unfold AES.New. destruct Hk as [-> | [-> | ->]]; cbn [Nat.eqb AES.KeySize128
      AES.KeySize192 AES.KeySize256]; eexists; reflexivity. }
  destruct HN as [a Ha]. exists a. split; [exact Ha|].
  apply AES_decrypt_encrypt; assumption.
Qed.

(** ** The standard tables satisfy the assumptions on the parameters *)

Section Standard_tables.
Import Tables.

Lemma all_below_spec (n : nat) (f : Z -> bool) :
  all_below n f = true -> forall i, 0 <= i < Z.of_nat n -> f i = true.
Proof.
  intros H i Hi. unfold all_below in H. rewrite forallb_forall in H. apply H.
  apply in_map_iff. exists (Z.to_nat i). split; [lia|]. apply in_seq. lia.
Qed.

Lemma AES_tables_inverse : inverse_tables AES_SBOX AES_InvSBOX.
Proof.
  intros b Hb. apply Z.eqb_eq. revert b Hb.
  apply forall_bytes. vm_compute. reflexivity.
Qed.

Lemma AES_MUL_gf (c : Z) : gf_table (AES_MUL c) c.
Proof.
  intros b Hb. unfold byte_at, AES_MUL. apply wrap8_u8, gmul_u8, Hb.
Qed.

Lemma positions_check (T : Z -> Z) (n : nat) (w : Z) :
  all_below n (fun i => (1 <=? T i) && (T i <=? w)) = true ->
  positions T (Z.of_nat n) w.
Proof.
  intros H i Hi. pose proof (all_below_spec n _ H i Hi) as Hc.
  apply andb_prop in Hc. destruct Hc as [H1 H2].
  apply Z.leb_le in H1. apply Z.leb_le in H2. lia.
Qed.

Lemma undoes_check (A B : Z -> Z) (n : nat) :
  all_below n (fun i => A (B i - 1) =? i + 1) = true ->
  undoes A B (Z.of_nat n).
Proof.
  intros H i Hi. apply Z.eqb_eq. exact (all_below_spec n _ H i Hi).
Qed.

Lemma DES_IP_positions : positions DES_IP 64 64.
Proof. apply (positions_check DES_IP 64 64). vm_compute. reflexivity. Qed.

Lemma DES_FP_positions : positions DES_FP 64 64.
Proof. apply (positions_check DES_FP 64 64). vm_compute. reflexivity. Qed.

Lemma DES_FP_undoes_IP : undoes DES_IP DES_FP 64.
Proof. apply (undoes_check DES_IP DES_FP 64). vm_compute. reflexivity. Qed.

Lemma DES_IP_undoes_FP : undoes DES_FP DES_IP 64.
Proof. apply (undoes_check DES_FP DES_IP 64). vm_compute. reflexivity. Qed.

Lemma first_positions_ok (n w : Z) : 0 < w -> positions (first_positions w) n w.
Proof.
  intros Hw i Hi. unfold first_positions.
  pose proof (Z.mod_pos_bound i w Hw). lia.
Qed.

End Standard_tables.

(** ** C2: the six block ciphers *)

(** C2.  For AES, DES, SM4, Blowfish, Twofish and RC5, built from any key
    of a valid length (RC5: any number of rounds from 1 to 255, 32-bit
    words), [Decrypt(Encrypt(block))] is [block] for every block of the
    cipher's block size.  The constant tables are parameters: the AES
    inverse S-box undoes the S-box and the [MUL] tables hold the products in
    GF(2^8); the DES tables hold 1-based positions inside their word and [FP]
    is the inverse of [IP]; the other tables are arbitrary. *)
Theorem C2_block_cipher_roundtrip
    (SBOX InvSBOX MUL_2 MUL_3 MUL_9 MUL_11 MUL_13 MUL_14 RCON : Z -> Z)
    (IP FP E P PC1 PC2 : Z -> Z) (SBOXES : Z -> Z -> Z)
    (SM4_SBOX FK CK : Z -> Z)
    (PBox SBox0 SBox1 SBox2 SBox3 : Z -> Z) :
  inverse_tables SBOX InvSBOX ->
  gf_table MUL_2 2 -> gf_table MUL_3 3 -> gf_table MUL_9 9 ->
  gf_table MUL_11 11 -> gf_table MUL_13 13 -> gf_table MUL_14 14 ->
  positions IP 64 64 -> positions FP 64 64 ->
  undoes IP FP 64 -> undoes FP IP 64 ->
  positions E 48 32 -> positions P 32 32 ->
  positions PC1 56 64 -> positions PC2 48 64 ->
  (forall key block,
     length key = 16%nat \/ length key = 24%nat \/ length key = 32%nat ->
     bytes block -> length block = 16%nat ->
     exists a, AES.New SBOX RCON key = Ok a /\
       block_roundtrip (AES.Encrypt SBOX MUL_2 MUL_3)
                       (AES.Decrypt InvSBOX MUL_9 MUL_11 MUL_13 MUL_14) a block) /\
  (forall key block,
     length key = 8%nat -> bytes block -> length block = 8%nat ->
     exists d, DES.New PC1 PC2 key = Ok d /\
       block_roundtrip (DES.Encrypt IP FP E P SBOXES)
                       (DES.Decrypt IP FP E P SBOXES) d block) /\
  (forall key block,
     length key = 16%nat -> bytes block -> length block = 16%nat ->
     exists s, SM4.New SM4_SBOX FK CK key = Ok s /\
       block_roundtrip (SM4.Encrypt SM4_SBOX) (SM4.Decrypt SM4_SBOX) s block) /\
  (forall key block,
     bytes key -> (4 <= length key <= 56)%nat ->
     bytes block -> length block = 8%nat ->
     exists b, Blowfish.New PBox SBox0 SBox1 SBox2 SBox3 key = Ok b /\
       block_roundtrip Blowfish.Encrypt Blowfish.Decrypt b block) /\
  (forall key block,
     length key = 16%nat \/ length key = 24%nat \/ length key = 32%nat ->
     bytes block -> length block = 16%nat ->
     exists t, Twofish.New key = Ok t /\
       block_roundtrip Twofish.Encrypt Twofish.Decrypt t block) /\
  (forall key block nrounds,
     (1 <= length key <= 255)%nat -> 1 <= nrounds <= 255 ->
     bytes block -> length block = 8%nat ->
     exists r, RC5.NewWithParams key nrounds 32 = Ok r /\
       block_roundtrip RC5.Encrypt RC5.Decrypt r block).
Proof.
  intros Hs H2 H3 H9 H11 H13 H14 HIP HFP HIF HFI _ _ _ _.
  split; [|split; [|split; [|split; [|split]]]].
  - intros key block. apply AES_roundtrip; assumption.
  - intros key block. apply DES_roundtrip; assumption.
  - intros key block. apply SM4_roundtrip.
  - intros key block. apply Blowfish_roundtrip.
  - intros key block. apply Twofish_roundtrip.
  - intros key block nrounds. apply RC5_roundtrip.
Qed.

Lemma bytes_check (l : list Z) :
  forallb (fun b => (0 <=? b) && (b <? 256)) l = true -> bytes l.
Proof.
  intros H. apply Forall_forall. intros b Hb.
  rewrite forallb_forall in H. specialize (H b Hb).
  apply andb_prop in H. destruct H as [H1 H2].
  apply Z.leb_le in H1. apply Z.ltb_lt in H2. lia.
Qed.

Lemma C2_block_cipher_roundtrip_witness :
  (exists a, AES.New Tables.AES_SBOX Tables.AES_RCON (key_0_to 16) = Ok a /\
     block_roundtrip
       (AES.Encrypt Tables.AES_SBOX (Tables.AES_MUL 2) (Tables.AES_MUL 3))
       (AES.Decrypt Tables.AES_InvSBOX (Tables.AES_MUL 9) (Tables.AES_MUL 11)
                    (Tables.AES_MUL 13) (Tables.AES_MUL 14))
       a block_00_to_ff) /\
  (exists r, RC5.NewWithParams (key_0_to 16) 12 32 = Ok r /\
     block_roundtrip RC5.Encrypt RC5.Decrypt r block_8).
Proof.
  pose proof (C2_block_cipher_roundtrip
    Tables.AES_SBOX Tables.AES_InvSBOX
    (Tables.AES_MUL 2) (Tables.AES_MUL 3) (Tables.AES_MUL 9)
    (Tables.AES_MUL 11) (Tables.AES_MUL 13) (Tables.AES_MUL 14) Tables.AES_RCON
    Tables.DES_IP Tables.DES_FP
    (Tables.first_positions 32) (Tables.first_positions 32)
    (Tables.first_positions 64) (Tables.first_positions 64)
    Tables.zero_boxes
    Tables.zero_table Tables.zero_table Tables.zero_table
    Tables.zero_table Tables.zero_table Tables.zero_table
    Tables.zero_table Tables.zero_table
    AES_tables_inverse
    (AES_MUL_gf 2) (AES_MUL_gf 3) (AES_MUL_gf 9)
    (AES_MUL_gf 11) (AES_MUL_gf 13) (AES_MUL_gf 14)
    DES_IP_positions DES_FP_positions DES_FP_undoes_IP DES_IP_undoes_FP
    (first_positions_ok 48 32 ltac:(lia)) (first_positions_ok 32 32 ltac:(lia))
    (first_positions_ok 56 64 ltac:(lia)) (first_positions_ok 48 64 ltac:(lia)))
    as (HAES & _ & _ & _ & _ & HRC5).
  split.
  - apply HAES.
    + left. reflexivity.
    + apply bytes_check. vm_compute. reflexivity.
    + reflexivity.
  - apply HRC5.
    + vm_compute. lia.
    + lia.
    + apply bytes_check. vm_compute. reflexivity.
    + reflexivity.
Defined.

(** ** Slices and stores *)

Section Mem_lemmas.
Import Mem.

Lemma view_length (buf : list Z) (o n : nat) :
  (o + n <= length buf)%nat -> length (view buf o n) = n.
Proof.
  intros H. unfold view. rewrite length_firstn, length_skipn. lia.
Qed.

Lemma contents_length (st : store) (s : slice) :
  wf st s -> length (contents st s) = len s.
Proof. intros [_ H]. apply view_length. exact H. Qed.

(** The window [i, i + m) of a window. *)
Lemma view_sub (buf : list Z) (o n i m : nat) :
  (i + m <= n)%nat ->
  view buf (o + i) m = firstn m (skipn i (view buf o n)).
Proof.
  intros H. unfold view.
  rewrite skipn_firstn_comm, firstn_firstn, skipn_skipn.
  replace (Nat.min m (n - i)) with m by lia.
  replace (i + o)%nat with (o + i)%nat by lia. reflexivity.
Qed.

(** Writing [data] over a zone followed by as many elements. *)
Lemma patch_at (done data rest : list Z) (old : list Z) :
  length old = length data ->
  patch (done ++ old ++ rest) (length done) (length data) data
  = done ++ data ++ rest.
Proof.
  intros H. unfold patch. rewrite Nat.min_id.
  rewrite firstn_app, firstn_all, Nat.sub_diag, firstn_O, app_nil_r.
  rewrite firstn_all. f_equal. f_equal.
  rewrite skipn_app.
  rewrite (skipn_all2 done) by lia. cbn [app].
  replace (length done + length data - length done)%nat with (length old) by lia.
  rewrite skipn_app, skipn_all, Nat.sub_diag. reflexivity.
Qed.

Lemma view_all (buf : list Z) : view buf 0 (length buf) = buf.
Proof. unfold view. cbn [skipn]. apply firstn_all. Qed.

Lemma upd_same (m : nat -> list Z) (a : nat) (buf : list Z) : upd m a buf a = buf.
Proof. unfold upd. rewrite Nat.eqb_refl. reflexivity. Qed.

Lemma upd_other (m : nat -> list Z) (a b : nat) (buf : list Z) :
  b <> a -> upd m a buf b = m b.
Proof. intros H. unfold upd. apply Nat.eqb_neq in H. rewrite H. reflexivity. Qed.

Lemma extends_refl (st : store) : extends st st.
Proof. split; [lia | reflexivity]. Qed.

Lemma extends_trans (st1 st2 st3 : store) :
  extends st1 st2 -> extends st2 st3 -> extends st1 st3.
Proof.
  intros [H1 H1'] [H2 H2']. split; [lia|].
  intros a Ha. rewrite H2' by lia. apply H1'. exact Ha.
Qed.

(** An old slice shows the same bytes later. *)
Lemma extends_contents (st st' : store) (s : slice) :
  extends st st' -> (base s < next st)%nat -> contents st' s = contents st s.
Proof. intros [_ H] Hs. unfold contents. rewrite H by exact Hs. reflexivity. Qed.

Lemma extends_wf (st st' : store) (s : slice) :
  extends st st' -> wf st s -> wf st' s.
Proof.
  intros [Hn H] [Hb Hl]. split; [lia|]. rewrite H by exact Hb. exact Hl.
Qed.

End Mem_lemmas.

(** The rule of the counted loops: an invariant [Inv] kept by the body,
    a bound that the index approaches, and enough fuel. *)
Lemma for_loop_rule (Inv : nat -> Mem.store -> Prop)
    (Post : result nat -> Mem.store -> Prop)
    (bound : nat) (cond : nat -> bool) (next : nat -> nat)
    (body : nat -> Mem.M unit) :
  (forall i, cond i = true -> (i < next i)%nat /\ (i < bound)%nat) ->
  (forall i st, Inv i st -> cond i = true ->
     match fst (body i st) with
     | Ok _ => Inv (next i) (snd (body i st))
     | Err e => Post (Err e) (snd (body i st))
     | Panic => Post Panic (snd (body i st))
     end) ->
  (forall i st, Inv i st -> cond i = false -> Post (Ok i) st) ->
  forall fuel i st, (bound - i < fuel)%nat -> Inv i st ->
    Post (fst (for_loop fuel cond next body i st))
         (snd (for_loop fuel cond next body i st)).
Proof.
  intros Hprog Hbody Hexit.
  induction fuel as [| fuel IH]; intros i st Hfuel Hinv.
  - lia.
  - cbn [for_loop]. destruct (cond i) eqn:Hc.
    + specialize (Hbody i st Hinv Hc). unfold Mem.mbind.
      destruct (body i st) as [[u | e |] st']; cbn [fst snd] in *.
      * destruct (Hprog i Hc). apply (IH (next i) st'); [lia | exact Hbody].
      * exact Hbody.
      * exact Hbody.
    + apply (Hexit i st); assumption.
Qed.

(** ** RC4 *)

Section RC4_properties.
Import RC4.

Lemma crypt_inverse (r : RC4) (data : list Z) :
  crypt r (fst (crypt r data)) = (data, snd (crypt r data)).
Proof.
  revert r. induction data as [| b rest IH]; intros r; [reflexivity|].
  cbn [crypt]. destruct (next_byte r) as [r1 k] eqn:Hn.
  specialize (IH r1). destruct (crypt r1 rest) as [out r2] eqn:Hc.
  cbn [fst snd crypt] in *. rewrite Hn, IH.
  rewrite Z.lxor_assoc, Z.lxor_nilpotent, Z.lxor_0_r. reflexivity.
Qed.

Lemma crypt_app (r : RC4) (a b : list Z) :
  crypt r (a ++ b) =
  (fst (crypt r a) ++ fst (crypt (snd (crypt r a)) b),
   snd (crypt (snd (crypt r a)) b)).
Proof.
  revert r. induction a as [| x a IH]; intros r.
  - cbn. destruct (crypt r b); reflexivity.
  - cbn [crypt app]. destruct (next_byte r) as [r1 k].
    rewrite IH. destruct (crypt r1 a) as [oa ra]. cbn [fst snd].
    destruct (crypt ra b) as [ob rb]. reflexivity.
Qed.

Lemma array_set_at {A : Type} (l1 l2 : list A) (x v : A) :
  array_set (l1 ++ x :: l2) (length l1) v = l1 ++ v :: l2.
Proof.
  unfold array_set.
  rewrite firstn_app, firstn_all, Nat.sub_diag, firstn_O, app_nil_r.
  replace (S (length l1)) with (length l1 + 1)%nat by lia.
  rewrite skipn_app, skipn_all2 by lia.
  replace (length l1 + 1 - length l1)%nat with 1%nat by lia. reflexivity.
Qed.

Lemma nth_at {A : Type} (l1 l2 : list A) (x d : A) :
  nth (length l1) (l1 ++ x :: l2) d = x.
Proof. rewrite app_nth2, Nat.sub_diag by lia. reflexivity. Qed.

Lemma split_at (l : list Z) (a : nat) :
  (a < length l)%nat ->
  exists l1 l2, l = l1 ++ nth a l 0 :: l2 /\ length l1 = a.
Proof.
  intros Ha. exists (firstn a l), (skipn (S a) l). split.
  - rewrite <- (firstn_skipn a l) at 1. f_equal.
    clear - Ha. revert a Ha. induction l as [| y l IH]; intros a Ha; [cbn in Ha; lia|].
    destruct a; [reflexivity|]. cbn [skipn nth]. cbn in Ha.
    rewrite <- IH by lia. reflexivity.
  - apply firstn_length_le. lia.
Qed.

Lemma perm_ends (x y : Z) (l2 l3 : list Z) :
  Permutation (y :: l2 ++ x :: l3) (x :: l2 ++ y :: l3).
Proof.
  transitivity (y :: x :: l2 ++ l3).
  - apply perm_skip. symmetry. apply Permutation_middle.
  - transitivity (x :: y :: l2 ++ l3); [apply perm_swap|].
    apply perm_skip. apply Permutation_middle.
Qed.

Lemma swap_lt (st : list Z) (a b : nat) :
  (a < b)%nat -> (b < length st)%nat ->
  Permutation
    (array_set (array_set st a (nth b st 0)) b (nth a st 0)) st.
Proof.
  intros Hab Hb.
  destruct (split_at st b Hb) as (m & l3 & Est & Hm).
  assert (Ha : (a < length m)%nat) by lia.
  destruct (split_at m a Ha) as (l1 & l2 & Em & Hl1).
  set (y := nth b st 0) in *.
  assert (Ex : nth a st 0 = nth a m 0).
  { rewrite Est. apply app_nth1. exact Ha. }
  rewrite Ex. set (x := nth a m 0) in *.
  rewrite Est at 1. rewrite Em at 1.
  rewrite <- app_assoc. cbn [app]. rewrite <- Hl1 at 1.
  rewrite array_set_at.
  assert (Hb' : b = length (l1 ++ y :: l2)).
  { rewrite length_app. cbn [length]. rewrite <- Hm, Em, length_app. cbn [length]. lia. }
  replace (l1 ++ y :: l2 ++ y :: l3) with ((l1 ++ y :: l2) ++ y :: l3)
    by (rewrite <- app_assoc; reflexivity).
  rewrite Hb' at 1. rewrite array_set_at.
  rewrite Est, Em. rewrite <- !app_assoc. cbn [app].
  apply Permutation_app_head.
  apply perm_ends.
Qed.

Lemma swap_same (st : list Z) (a : nat) :
  (a < length st)%nat ->
  array_set (array_set st a (nth a st 0)) a (nth a st 0) = st.
Proof.
  intros Ha. destruct (split_at st a Ha) as (l1 & l2 & E & Hl).
  set (x := nth a st 0) in *. rewrite E. rewrite <- Hl.
  rewrite !array_set_at. reflexivity.
Qed.

Lemma swap_perm (st : list Z) (a b : Z) :
  length st = 256%nat -> u8 a -> u8 b -> Permutation (swap st a b) st.
Proof.
  intros Hlen Ha Hb. unfold swap, s_at, u8 in *.
  assert (Ha' : (Z.to_nat a < length st)%nat) by lia.
  assert (Hb' : (Z.to_nat b < length st)%nat) by lia.
  destruct (Nat.lt_trichotomy (Z.to_nat a) (Z.to_nat b)) as [H | [H | H]].
  - apply swap_lt; assumption.
  - rewrite H. rewrite swap_same by exact Hb'. reflexivity.
  - (* b < a: the second assignment comes first in index order *)
    destruct (split_at st (Z.to_nat a) Ha') as (m & l3 & Est & Hm).
    assert (Hbm : (Z.to_nat b < length m)%nat) by lia.
    destruct (split_at m (Z.to_nat b) Hbm) as (l1 & l2 & Em & Hl1).
    set (x := nth (Z.to_nat a) st 0) in *.
    assert (Ey : nth (Z.to_nat b) st 0 = nth (Z.to_nat b) m 0).
    { rewrite Est. apply app_nth1. exact Hbm. }
    rewrite Ey. set (y := nth (Z.to_nat b) m 0) in *.
    rewrite Est at 1. rewrite <- Hm at 1. rewrite array_set_at.
    rewrite Em at 1. rewrite <- app_assoc. cbn [app].
    rewrite <- Hl1 at 1. rewrite array_set_at.
    rewrite Est, Em. rewrite <- !app_assoc. cbn [app].
    apply Permutation_app_head.
    apply perm_ends.
Qed.

Lemma all_bytes_length : length all_bytes = 256%nat.
Proof. reflexivity. Qed.

Lemma perm_length_256 (st : list Z) :
  Permutation st all_bytes -> length st = 256%nat.
Proof. intros H. rewrite (Permutation_length H). reflexivity. Qed.

Lemma init_fold_perm (key : list Z) (ks : list nat) (st : list Z) (j0 : Z) :
  Forall (fun k => (k < 256)%nat) ks ->
  Permutation st all_bytes ->
  Permutation (fst (fold_left (init_step key) ks (st, j0))) all_bytes.
Proof.
  revert st j0. induction ks as [| k ks IH]; intros st j0 Hks Hst; [exact Hst|].
  cbn [fold_left]. unfold init_step at 2.
  inversion Hks as [| ? ? Hk Hks']; subst.
  apply IH; [exact Hks'|].
  rewrite swap_perm; [exact Hst | apply perm_length_256; exact Hst | |].
  - unfold u8. lia.
  - unfold u8, Word.wrap8. apply Z.mod_pos_bound. lia.
Qed.

Lemma initState_state (key : list Z) : rc4_state (initState key).
Proof.
  unfold initState.
  pose proof (init_fold_perm key (seq 0 StateSize) (map Z.of_nat (seq 0 StateSize)) 0) as H.
  destruct (fold_left (init_step key) (seq 0 StateSize) (map Z.of_nat (seq 0 StateSize), 0))
    as [st jf].
  split; [|split; unfold u8; cbn; lia].
  cbn [s]. apply H; [|reflexivity].
  apply Forall_forall. intros k Hk. apply in_seq in Hk. unfold StateSize in Hk. lia.
Qed.

Lemma next_byte_state (r : RC4) : rc4_state r -> rc4_state (fst (next_byte r)).
Proof.
  intros (Hs & Hi & Hj). unfold next_byte. cbn [fst].
  assert (Hw : forall x, u8 (Word.wrap8 x)).
  { intros x. unfold u8, Word.wrap8. apply Z.mod_pos_bound. lia. }
  split; [|split; cbn [i j]; apply Hw].
  cbn [s]. rewrite swap_perm; [exact Hs | apply perm_length_256; exact Hs | apply Hw | apply Hw].
Qed.

Lemma crypt_state (r : RC4) (data : list Z) :
  rc4_state r -> rc4_state (snd (crypt r data)).
Proof.
  revert r. induction data as [| b rest IH]; intros r Hr; [exact Hr|].
  cbn [crypt]. pose proof (next_byte_state r Hr) as Hn.
  destruct (next_byte r) as [r1 k]. cbn [fst] in Hn.
  specialize (IH r1 Hn). destruct (crypt r1 rest) as [out r2]. exact IH.
Qed.

End RC4_properties.

Lemma RC4_crypt_length (r : RC4.RC4) (data : list Z) :
  length (fst (RC4.crypt r data)) = length data.
Proof.
  revert r. induction data as [| b rest IH]; intros r; [reflexivity|].
  cbn [RC4.crypt]. destruct (RC4.next_byte r) as [r1 k].
  specialize (IH r1). destruct (RC4.crypt r1 rest) as [out r2].
  cbn [fst length] in *. rewrite IH. reflexivity.
Qed.

Lemma RC4_New_initState (key : list Z) (r : RC4.RC4) :
  RC4.New key = Ok r -> r = RC4.initState key /\ RC4.Reset r key = (Ok tt, r)
  /\ forall r0, RC4.Reset r0 key = (Ok tt, r).
Proof.
  unfold RC4.New, RC4.Reset.
  destruct ((length key <? RC4.MinKeySize) || (RC4.MaxKeySize <? length key))%nat;
    [discriminate|].
  intros H. apply Ok_inj in H. subst r. repeat split; reflexivity.
Qed.

(** RC4, two instances: what an instance made by [New(key)] encrypts, a
    second instance made by [New(key)] decrypts, whatever the key and the
    data; the ciphertext is as long as the data and both instances end in
    the same state. *)
Theorem RC4_second_instance_decrypts (key data : list Z) (r : RC4.RC4) :
  RC4.New key = Ok r ->
  exists ct r1,
    RC4.Encrypt r data = (Ok ct, r1) /\
    length ct = length data /\
    RC4.Decrypt r ct = (Ok data, r1).
Proof.
  intros _.
  pose proof (crypt_inverse r data) as Hinv.
  pose proof (RC4_crypt_length r data) as Hlen.
  destruct (RC4.crypt r data) as [ct r1] eqn:Hc. cbn [fst snd] in *.
  exists ct, r1. unfold RC4.Encrypt, RC4.Decrypt. rewrite Hc, Hinv.
  split; [reflexivity|]. split; [exact Hlen | reflexivity].
Qed.

Lemma RC4_second_instance_decrypts_witness :
  exists ct r1,
    RC4.Encrypt (RC4.initState [0x4b; 0x65; 0x79]) [0x50; 0x6c; 0x61] = (Ok ct, r1) /\
    length ct = length [0x50; 0x6c; 0x61] /\
    RC4.Decrypt (RC4.initState [0x4b; 0x65; 0x79]) ct = (Ok [0x50; 0x6c; 0x61], r1).
Proof.
  apply (RC4_second_instance_decrypts [0x4b; 0x65; 0x79]).
  reflexivity.
Defined.

(** RC4 is a stream: encrypting [a] and then [b] with one instance gives
    the ciphertext of [a ++ b] in one call, and the same final state. *)
Theorem RC4_encrypt_in_pieces (r : RC4.RC4) (a b : list Z) :
  exists ca r1 cb r2,
    RC4.Encrypt r a = (Ok ca, r1) /\
    RC4.Encrypt r1 b = (Ok cb, r2) /\
    RC4.Encrypt r (a ++ b) = (Ok (ca ++ cb), r2).
Proof.
  destruct (RC4.crypt r a) as [ca r1] eqn:Ha.
  destruct (RC4.crypt r1 b) as [cb r2] eqn:Hb.
  exists ca, r1, cb, r2. unfold RC4.Encrypt.
  rewrite crypt_app, Ha. cbn [fst snd]. rewrite Hb.
  split; [reflexivity|]. split; reflexivity.
Qed.

(** The state array of an RC4 instance made by [New] is a permutation of
    the 256 byte values, and stays one through every [Encrypt] and
    [Decrypt]; the two indices stay bytes. *)
Theorem RC4_state_stays_permutation (key data : list Z) (r : RC4.RC4) :
  RC4.New key = Ok r ->
  rc4_state r /\
  rc4_state (state_after (RC4.Encrypt r data)) /\
  rc4_state (state_after (RC4.Decrypt r data)).
Proof.
  intros Hnew. apply RC4_New_initState in Hnew. destruct Hnew as (-> & _).
  pose proof (initState_state key) as H0.
  pose proof (crypt_state (RC4.initState key) data H0) as H1.
  unfold state_after, RC4.Encrypt, RC4.Decrypt.
  destruct (RC4.crypt (RC4.initState key) data) as [out r1].
  cbn [snd] in *. auto.
Qed.

Lemma RC4_state_stays_permutation_witness :
  rc4_state (RC4.initState [1; 2; 3]) /\
  rc4_state (state_after (RC4.Encrypt (RC4.initState [1; 2; 3]) [7; 8])) /\
  rc4_state (state_after (RC4.Decrypt (RC4.initState [1; 2; 3]) [7; 8])).
Proof.
  apply (RC4_state_stays_permutation [1; 2; 3]).
  reflexivity.
Defined.

(** One instance: after [Encrypt] the key stream has moved on, and
    [Reset(key)] with the key of [New] brings the instance back to the
    state in which [Decrypt] recovers the data.  [Reset] with a key of an
    invalid length returns the error and leaves the instance as it is. *)
Theorem RC4_Reset_then_Decrypt (key data ct : list Z) (r r1 : RC4.RC4) :
  RC4.New key = Ok r ->
  RC4.Encrypt r data = (Ok ct, r1) ->
  RC4.Reset r1 key = (Ok tt, r) /\
  output (RC4.Decrypt r ct) = Ok data /\
  (forall bad, (length bad = 0 \/ 256 < length bad)%nat ->
     RC4.Reset r1 bad = (Err ErrInvalidKeySize, r1)).
Proof.
  intros Hnew Henc.
  pose proof (RC4_New_initState key r Hnew) as (_ & _ & Hreset).
  split; [apply Hreset|]. split.
  - unfold RC4.Encrypt in Henc. unfold RC4.Decrypt, output.
    pose proof (crypt_inverse r data) as Hinv.
    destruct (RC4.crypt r data) as [c r']. injection Henc as <- <-.
    cbn [fst snd] in Hinv. rewrite Hinv. reflexivity.
  - intros bad Hbad. unfold RC4.Reset, RC4.MinKeySize, RC4.MaxKeySize.
    assert (E : ((length bad <? 1) || (256 <? length bad))%nat = true).
    { apply Bool.orb_true_iff. destruct Hbad as [H | H].
      - left. apply Nat.ltb_lt. lia.
      - right. apply Nat.ltb_lt. exact H. }
    rewrite E. reflexivity.
Qed.

Lemma RC4_Reset_then_Decrypt_witness :
  RC4.Reset (state_after (RC4.Encrypt (RC4.initState [9]) [1; 2])) [9]
    = (Ok tt, RC4.initState [9]) /\
  output (RC4.Decrypt (RC4.initState [9])
            (fst (RC4.crypt (RC4.initState [9]) [1; 2]))) = Ok [1; 2] /\
  (forall bad, (length bad = 0 \/ 256 < length bad)%nat ->
     RC4.Reset (state_after (RC4.Encrypt (RC4.initState [9]) [1; 2])) bad
     = (Err ErrInvalidKeySize, state_after (RC4.Encrypt (RC4.initState [9]) [1; 2]))).
Proof.
  apply (RC4_Reset_then_Decrypt [9] [1; 2]).
  - reflexivity.
  - vm_compute. reflexivity.
Defined.

(** ** Running the primitives *)

Section Run.
Import Mem.
Context {B : Type}.

Lemma run_sub (s : slice) (i j : nat) (k : slice -> M B) (st : store) :
  (i <= j)%nat -> (j <= len s)%nat ->
  mbind (lift (sub s i j)) k st = k (mkSlice (base s) (off s + i) (j - i)) st.
Proof.
  intros Hi Hj. unfold mbind, lift, sub.
  apply Nat.leb_le in Hi, Hj. rewrite Hi, Hj. reflexivity.
Qed.

Lemma run_call (f : list Z -> result (list Z)) (arg : slice)
    (k : slice -> M B) (st : store) :
  mbind (call f arg) k st =
  match f (contents st arg) with
  | Ok out => k (mkSlice (next st) 0 (length out))
                (mkStore (S (next st)) (upd (mem st) (next st) out))
  | Err e => (Err e, st)
  | Panic => (Panic, st)
  end.
Proof.
  unfold call, read, alloc, fail, panic, mbind. cbv beta iota.
  destruct (f (contents st arg)); reflexivity.
Qed.

Lemma run_make (n : nat) (k : slice -> M B) (st : store) :
  mbind (make n) k st =
  k (mkSlice (next st) 0 n)
    (mkStore (S (next st)) (upd (mem st) (next st) (repeat 0 n))).
Proof. reflexivity. Qed.

Lemma run_copy (dst src : slice) (k : unit -> M B) (st : store) :
  mbind (copy dst src) k st =
  k tt (mkStore (next st)
          (upd (mem st) (base dst)
             (patch (mem st (base dst)) (off dst) (len dst) (contents st src)))).
Proof. reflexivity. Qed.

Lemma run_XORBytes (dst a b : slice) (k : unit -> M B) (st : store) :
  (Nat.min (len a) (len b) <= len dst)%nat ->
  mbind (XORBytes dst a b) k st =
  k tt (mkStore (next st)
          (upd (mem st) (base dst)
             (patch (mem st (base dst)) (off dst) (len dst)
                (xor_lists (contents st a) (contents st b))))).
Proof.
  intros H. unfold mbind, XORBytes, read.
  assert (E : (len dst <? Nat.min (len a) (len b))%nat = false)
    by (apply Nat.ltb_ge; exact H).
  rewrite E. reflexivity.
Qed.

Lemma run_ret (a : slice) (st : store) : ret a st = (Ok a, st).
Proof. reflexivity. Qed.

End Run.

Lemma repeat_add {A : Type} (x : A) (n m : nat) :
  repeat x (n + m) = repeat x n ++ repeat x m.
Proof. apply repeat_app. Qed.

(** ** ECB *)

Section ECB_refinement.
Import Mem.

Variable f : list Z -> result (list Z).
Variable blockSize : nat.
Hypothesis f_blocks : returns_blocks f blockSize.

Variable input : slice.
Variable st0 : store.
Hypothesis input_wf : wf st0 input.

Let P : list Z := contents st0 input.
Let L : nat := len input.
Let out_addr : nat := next st0.






End ECB_refinement.

(** ** CBC *)

Lemma xor_lists_length (a b : list Z) :
  length (Mem.xor_lists a b) = Nat.min (length a) (length b).
Proof. unfold Mem.xor_lists. rewrite length_map, length_combine. reflexivity. Qed.

Lemma patch_all (old data : list Z) :
  length old = length data -> Mem.patch old 0 (length data) data = data.
Proof.
  intros H. pose proof (patch_at [] data [] old H) as E.
  cbn [app length] in E. rewrite !app_nil_r in E. exact E.
Qed.

Lemma view_full (l : list Z) (n : nat) : length l = n -> Mem.view l 0 n = l.
Proof. intros <-. apply view_all. Qed.

Lemma patch_full (old data : list Z) (n : nat) :
  length old = n -> length data = n -> Mem.patch old 0 n data = data.
Proof. intros H1 <-. apply patch_all. exact H1. Qed.

(** Looking up an address in a store built by successive updates. *)
Lemma upd_eq (m : nat -> list Z) (a b : nat) (buf : list Z) :
  b = a -> Mem.upd m a buf b = buf.
Proof. intros ->. apply upd_same. Qed.

Ltac upd_simpl solver :=
  repeat match goal with
  | |- context [Mem.upd ?m ?a ?buf ?b] =>
      first [ rewrite (upd_eq m a b buf) by solver
            | rewrite (upd_other m a b buf) by solver ]
  end.

Section CBC_refinement.
Import Mem.

Variable c : CBC.CBC.
Variable input : slice.
Variable st0 : store.
Variable IV : list Z.

Let blockSize : nat := cipher_BlockSize (CBC.cipher c).
Let E := cipher_Encrypt (CBC.cipher c).
Let D := cipher_Decrypt (CBC.cipher c).

Hypothesis c_holds : cbc_holds st0 c IV.
Hypothesis input_wf : wf st0 input.

Let P : list Z := contents st0 input.
Let L : nat := len input.
Let prev_addr : nat := next st0.
Let out_addr : nat := S (next st0).
Let prev : slice := mkSlice prev_addr 0 blockSize.
Let output : slice := mkSlice out_addr 0 L.

Let cbc_inv (blocks : nat -> list Z -> list Z -> result (list Z))
    (R : result (list Z)) (i : nat) (st : store) : Prop :=
  extends st0 st /\ (out_addr < next st)%nat /\
  exists done m prevv,
    i = length done /\ (i + m * blockSize = L)%nat /\
    mem st out_addr = done ++ repeat 0 (m * blockSize) /\
    mem st prev_addr = prevv /\ length prevv = blockSize /\
    R = bind (blocks m prevv (skipn i P)) (fun rest => Ok (done ++ rest)).

Let cbc_post (R : result (list Z)) (r : result nat) (st : store) : Prop :=
  extends st0 st /\ (out_addr < next st)%nat /\
  match r with
  | Ok _ => R = Ok (mem st out_addr) /\ length (mem st out_addr) = L
  | Err e => R = Err e
  | Panic => R = Panic
  end.

Lemma cbc_encrypt_step (R : result (list Z)) (i : nat) (st : store) :
  returns_blocks E blockSize ->
  (0 < blockSize)%nat ->
  cbc_inv (cbc_encrypt_blocks E blockSize) R i st -> (i <? L)%nat = true ->
  match fst (CBC.encrypt_body c blockSize input prev output i st) with
  | Ok _ => cbc_inv (cbc_encrypt_blocks E blockSize) R (i + blockSize)
              (snd (CBC.encrypt_body c blockSize input prev output i st))
  | Err e => cbc_post R (Err e)
              (snd (CBC.encrypt_body c blockSize input prev output i st))
  | Panic => cbc_post R Panic
              (snd (CBC.encrypt_body c blockSize input prev output i st))
  end.
Proof.
  intros HE Hbs (Hext & Hnext & done & m & prevv & Hi & Hm & Hmem & Hprev & Hplen & HR) Hlt.
  apply Nat.ltb_lt in Hlt.
  destruct m as [| m]; [cbn in Hm; lia|].
  cbn [Nat.mul] in Hm.
  unfold CBC.encrypt_body.
  assert (Hsrc : forall mm, (forall a, (a < next st0)%nat -> mm a = mem st0 a) ->
            view (mm (base input)) (off input + i) (i + blockSize - i)
            = firstn blockSize (skipn i P)).
  { intros mm Hmm. destruct input_wf as [Hb _]. rewrite Hmm by exact Hb.
    replace (i + blockSize - i)%nat with blockSize by lia.
    apply view_sub. fold L. lia. }
  assert (Hold : forall a, (a < next st0)%nat -> mem st a = mem st0 a)
    by (destruct Hext; assumption).
  assert (Hn0 : (next st0 <= next st)%nat) by (destruct Hext; assumption).
  set (X := xor_lists (firstn blockSize (skipn i P)) prevv).
  assert (HX : length X = blockSize).
  { unfold X. rewrite xor_lists_length, length_firstn, length_skipn.
    pose proof (contents_length st0 input input_wf) as HP. fold P in HP. fold L in HP. lia. }
  rewrite run_make.
  rewrite run_sub by (fold L; lia).
  rewrite run_XORBytes by (cbn [len]; lia).
  rewrite run_call.
  cbn [base off len next mem]. unfold contents. cbn [base off len next mem].
  rewrite !upd_same.
  rewrite Hsrc by (intros a Ha; rewrite upd_other by lia; apply Hold; exact Ha).
  unfold prev, output. cbn [base off len].
  rewrite (upd_other _ _ prev_addr) by (unfold prev_addr, out_addr in *; lia).
  rewrite Hprev, (view_full prevv) by exact Hplen. fold X.
  rewrite (patch_full _ X) by (rewrite ?repeat_length; auto).
  rewrite (view_full X) by exact HX.
  cbn [cbc_encrypt_blocks] in HR. fold X in HR.
  destruct (E X) as [ct | e |] eqn:HEX; fold E; rewrite HEX;
    cbn [bind] in HR; cbn [fst snd].
  2: { split; [|split; [cbn [next]; lia | exact HR]].
       split; [cbn [next]; lia|]. intros a Ha. cbn [mem].
       rewrite !upd_other by lia. apply Hold. exact Ha. }
  2: { split; [|split; [cbn [next]; lia | exact HR]].
       split; [cbn [next]; lia|]. intros a Ha. cbn [mem].
       rewrite !upd_other by lia. apply Hold. exact Ha. }
  pose proof (HE _ _ HEX) as Hct.
  rewrite run_sub by (cbn [len]; lia).
  unfold copy, mbind, read, write, contents. cbn [fst snd base off len next mem].
  upd_simpl ltac:(unfold prev_addr, out_addr in *; lia).
  rewrite view_all, Hprev, Hmem.
  rewrite (patch_full prevv ct) by lia.
  split; [|split].
  - split; [cbn [next]; lia|]. intros a Ha. cbn [mem].
    rewrite !upd_other by (unfold prev_addr, out_addr in *; lia).
    apply Hold. exact Ha.
  - cbn [next]. lia.
  - exists (done ++ ct), m, ct. cbn [mem].
    upd_simpl ltac:(unfold prev_addr, out_addr in *; lia).
    split; [rewrite length_app; lia|]. split; [lia|]. split; [|split; [|split]].
    + cbn [Nat.mul]. rewrite repeat_add.
      replace (i + blockSize - i)%nat with (length ct) by lia.
      rewrite Hi. cbn [Nat.add].
      rewrite patch_at by (rewrite repeat_length; lia).
      rewrite <- app_assoc. reflexivity.
    + reflexivity.
    + exact Hct.
    + rewrite HR. rewrite skipn_skipn.
      replace (blockSize + i)%nat with (i + blockSize)%nat by lia.
      destruct (cbc_encrypt_blocks E blockSize m ct (skipn (i + blockSize) P))
        as [rest | e |]; cbn [bind]; [rewrite <- app_assoc|..]; reflexivity.
Qed.

Lemma cbc_decrypt_step (R : result (list Z)) (i : nat) (st : store) :
  returns_blocks D blockSize ->
  (0 < blockSize)%nat ->
  cbc_inv (cbc_decrypt_blocks D blockSize) R i st -> (i <? L)%nat = true ->
  match fst (CBC.decrypt_body c blockSize input prev output i st) with
  | Ok _ => cbc_inv (cbc_decrypt_blocks D blockSize) R (i + blockSize)
              (snd (CBC.decrypt_body c blockSize input prev output i st))
  | Err e => cbc_post R (Err e)
              (snd (CBC.decrypt_body c blockSize input prev output i st))
  | Panic => cbc_post R Panic
              (snd (CBC.decrypt_body c blockSize input prev output i st))
  end.
Proof.
  intros HD Hbs (Hext & Hnext & done & m & prevv & Hi & Hm & Hmem & Hprev & Hplen & HR) Hlt.
  apply Nat.ltb_lt in Hlt.
  destruct m as [| m]; [cbn in Hm; lia|].
  cbn [Nat.mul] in Hm.
  unfold CBC.decrypt_body.
  assert (Hsrc : forall mm, (forall a, (a < next st0)%nat -> mm a = mem st0 a) ->
            view (mm (base input)) (off input + i) (i + blockSize - i)
            = firstn blockSize (skipn i P)).
  { intros mm Hmm. destruct input_wf as [Hb _]. rewrite Hmm by exact Hb.
    replace (i + blockSize - i)%nat with blockSize by lia.
    apply view_sub. fold L. lia. }
  assert (Hold : forall a, (a < next st0)%nat -> mem st a = mem st0 a)
    by (destruct Hext; assumption).
  assert (Hn0 : (next st0 <= next st)%nat) by (destruct Hext; assumption).
  set (Cb := firstn blockSize (skipn i P)).
  assert (HCb : length Cb = blockSize).
  { unfold Cb. rewrite length_firstn, length_skipn.
    pose proof (contents_length st0 input input_wf) as HP. fold P in HP. fold L in HP. lia. }
  rewrite run_sub by (fold L; lia).
  rewrite run_call.
  unfold contents. cbn [base off len].
  rewrite Hsrc by exact Hold. fold Cb.
  cbn [cbc_decrypt_blocks] in HR. fold Cb in HR.
  destruct (D Cb) as [d | e |] eqn:HDC; fold D; rewrite HDC;
    cbn [bind] in HR; cbn [fst snd].
  2: { split; [exact Hext | split; [exact Hnext | exact HR]]. }
  2: { split; [exact Hext | split; [exact Hnext | exact HR]]. }
  pose proof (HD _ _ HDC) as Hd.
  unfold prev, output.
  rewrite run_sub by (cbn [len]; lia).
  rewrite run_XORBytes by (cbn [len]; lia).
  rewrite run_sub by (fold L; lia).
  unfold copy, mbind, read, write, contents. cbn [fst snd base off len next mem].
  upd_simpl ltac:(unfold prev_addr, out_addr in *; lia).
  rewrite view_all, Hprev, Hmem, (view_full prevv) by exact Hplen.
  rewrite Hsrc by (intros a Ha; upd_simpl ltac:(unfold prev_addr, out_addr in *; lia);
                   apply Hold; exact Ha).
  fold Cb. rewrite (patch_full prevv Cb) by lia.
  assert (Hx : length (xor_lists d prevv) = blockSize)
    by (rewrite xor_lists_length; lia).
  split; [|split].
  - split; [cbn [next]; lia|]. intros a Ha. cbn [mem].
    upd_simpl ltac:(unfold prev_addr, out_addr in *; lia).
    apply Hold. exact Ha.
  - cbn [next]. lia.
  - exists (done ++ xor_lists d prevv), m, Cb. cbn [mem].
    upd_simpl ltac:(unfold prev_addr, out_addr in *; lia).
    split; [rewrite length_app; lia|]. split; [lia|]. split; [|split; [|split]].
    + cbn [Nat.mul]. rewrite repeat_add.
      replace (i + blockSize - i)%nat with (length (xor_lists d prevv)) by lia.
      rewrite Hi. cbn [Nat.add].
      rewrite patch_at by (rewrite repeat_length; lia).
      rewrite <- app_assoc. reflexivity.
    + reflexivity.
    + exact HCb.
    + rewrite HR. rewrite skipn_skipn.
      replace (blockSize + i)%nat with (i + blockSize)%nat by lia.
      destruct (cbc_decrypt_blocks D blockSize m Cb (skipn (i + blockSize) P))
        as [rest | e |]; cbn [bind]; [rewrite <- app_assoc|..]; reflexivity.
Qed.

Lemma IV_length : length IV = blockSize.
Proof.
  destruct c_holds as (Hwf & Hlen & Hc). rewrite <- Hc.
  unfold blockSize. rewrite <- Hlen.
  apply contents_length. exact Hwf.
Qed.

(** The frame of [Encrypt] and [Decrypt] around a loop body that keeps
    the invariant. *)
Lemma cbc_blocks_loop_refines
    (body : nat -> slice -> slice -> slice -> nat -> M unit)
    (blocks : nat -> list Z -> list Z -> result (list Z)) :
  (forall prevv X, blocks 0%nat prevv X = Ok []) ->
  (forall R i st, (0 < blockSize)%nat ->
     cbc_inv blocks R i st -> (i <? L)%nat = true ->
     match fst (body blockSize input prev output i st) with
     | Ok _ => cbc_inv blocks R (i + blockSize) (snd (body blockSize input prev output i st))
     | Err e => cbc_post R (Err e) (snd (body blockSize input prev output i st))
     | Panic => cbc_post R Panic (snd (body blockSize input prev output i st))
     end) ->
  extends st0 (snd (CBC.blocks_loop c body input st0)) /\
  outcome (CBC.blocks_loop c body input st0)
  = cbc_bytes (fun _ => blocks) blockSize IV P /\
  (forall out, fst (CBC.blocks_loop c body input st0) = Ok out ->
     fresh st0 (snd (CBC.blocks_loop c body input st0)) out /\ len out = L).
Proof.
  intros Hnil Hstep.
  pose proof (contents_length st0 input input_wf) as HP. fold P in HP. fold L in HP.
  pose proof IV_length as HIV.
  unfold CBC.blocks_loop, cbc_bytes. cbv zeta. rewrite HP.
  change (cipher_BlockSize (CBC.cipher c)) with blockSize. fold L.
  destruct (blockSize =? 0)%nat eqn:Hz.
  { split; [apply extends_refl|]. split; [reflexivity|]. intros out H. discriminate. }
  apply Nat.eqb_neq in Hz.
  destruct (L mod blockSize =? 0)%nat eqn:Hmod; cbn [negb].
  2: { split; [apply extends_refl|]. split; [reflexivity|]. intros out H. discriminate. }
  apply Nat.eqb_eq in Hmod.
  rewrite run_make. rewrite run_copy. rewrite run_make.
  cbn [base off len next mem].
  change (S (next st0)) with out_addr. fold prev_addr.
  assert (Hivc : forall nn,
            contents {| next := nn;
                        mem := upd (mem st0) prev_addr (repeat 0 blockSize) |}
              (CBC.iv c) = IV).
  { intros nn. destruct c_holds as ((Hb & _) & _ & Hc). rewrite <- Hc. unfold contents.
    cbn [mem]. rewrite upd_other by (unfold prev_addr; lia). reflexivity. }
  rewrite Hivc. rewrite upd_same.
  rewrite (patch_full _ IV) by (rewrite ?repeat_length; auto).
  fold prev. fold output.
  match goal with
  | |- context [mbind (for_loop _ _ _ _ _) _ ?s] => set (st1 := s)
  end.
  set (R := blocks (L / blockSize)%nat IV P).
  pose proof (for_loop_rule (cbc_inv blocks R) (cbc_post R) L
                (fun i => (i <? L)%nat) (fun i => (i + blockSize)%nat)
                (body blockSize input prev output)) as Hloop.
  assert (Hdiv : (L / blockSize * blockSize = L)%nat).
  { pose proof (Nat.div_mod_eq L blockSize). nia. }
  specialize (Hloop ltac:(intros i Hc; cbv beta in *; apply Nat.ltb_lt in Hc; lia)).
  specialize (Hloop ltac:(intros i st Hinv Hc; apply Hstep; [lia | assumption | assumption])).
  specialize (Hloop ltac:(
    intros i st (Hext & Hnext & done & m & prevv & Hi & Hm & Hmem & _ & _ & HR) Hc;
    cbv beta in Hc; apply Nat.ltb_ge in Hc;
    assert (m = 0)%nat by nia; subst m;
    split; [exact Hext | split; [exact Hnext|]];
    cbn [Nat.mul repeat] in Hmem; rewrite app_nil_r in Hmem;
    rewrite Hmem; rewrite Hnil in HR; cbn [bind] in HR; rewrite app_nil_r in HR;
    split; [exact HR | cbn in Hm; lia])).
  specialize (Hloop (S L) 0%nat st1 ltac:(lia)).
  assert (Hinv0 : cbc_inv blocks R 0 st1).
  { split; [|split].
    - split; [cbn; unfold out_addr, prev_addr; lia|]. intros a Ha. unfold st1. cbn [mem].
      upd_simpl ltac:(unfold prev_addr, out_addr in *; lia). reflexivity.
    - cbn. lia.
    - exists [], (L / blockSize)%nat, IV. cbn [length app skipn].
      split; [reflexivity|]. split; [lia|]. unfold st1. cbn [mem].
      upd_simpl ltac:(unfold prev_addr, out_addr in *; lia).
      split; [rewrite Hdiv; reflexivity|]. split; [reflexivity|]. split; [exact HIV|].
      unfold R. destruct (blocks (L / blockSize)%nat IV P); reflexivity. }
  specialize (Hloop Hinv0).
  unfold mbind, ret.
  destruct (for_loop (S L) (fun i => (i <? L)%nat) (fun i => (i + blockSize)%nat)
              (body blockSize input prev output) 0 st1)
    as [[u | e |] st2]; cbn [fst snd] in Hloop;
    destruct Hloop as (Hext & Hnext & Hres); cbn [fst snd];
    (split; [exact Hext|]).
  - destruct Hres as [HR Hlen]. split.
    + unfold outcome. cbn [fst snd]. unfold contents, output. cbn [base off len].
      pose proof (view_all (mem st2 out_addr)) as Hv. rewrite Hlen in Hv.
      rewrite Hv. symmetry. exact HR.
    + intros out Hout. apply Ok_inj in Hout. subst out. split; [|reflexivity].
      split; [unfold output, out_addr; cbn [base]; lia|].
      split; unfold output; cbn [base off len]; [exact Hnext | lia].
  - split; [symmetry; exact Hres|]. intros out H. discriminate.
  - split; [symmetry; exact Hres|]. intros out H. discriminate.
Qed.

Lemma CBC_Encrypt_refines :
  returns_blocks E blockSize ->
  extends st0 (snd (CBC.Encrypt c input st0)) /\
  outcome (CBC.Encrypt c input st0)
  = cbc_bytes (cbc_encrypt_blocks E) blockSize IV P /\
  (forall out, fst (CBC.Encrypt c input st0) = Ok out ->
     fresh st0 (snd (CBC.Encrypt c input st0)) out /\ len out = L).
Proof.
  intros HE. unfold CBC.Encrypt.
  apply (cbc_blocks_loop_refines (CBC.encrypt_body c) (cbc_encrypt_blocks E blockSize)).
  - reflexivity.
  - intros R i st Hbs Hinv Hc. apply cbc_encrypt_step; assumption.
Qed.

Lemma CBC_Decrypt_refines :
  returns_blocks D blockSize ->
  extends st0 (snd (CBC.Decrypt c input st0)) /\
  outcome (CBC.Decrypt c input st0)
  = cbc_bytes (cbc_decrypt_blocks D) blockSize IV P /\
  (forall out, fst (CBC.Decrypt c input st0) = Ok out ->
     fresh st0 (snd (CBC.Decrypt c input st0)) out /\ len out = L).
Proof.
  intros HD. unfold CBC.Decrypt.
  apply (cbc_blocks_loop_refines (CBC.decrypt_body c) (cbc_decrypt_blocks D blockSize)).
  - reflexivity.
  - intros R i st Hbs Hinv Hc. apply cbc_decrypt_step; assumption.
Qed.

End CBC_refinement.

(** ** Block ciphers under the modes *)

Lemma xor_lists_cancel (a b : list Z) :
  length a = length b -> Mem.xor_lists (Mem.xor_lists a b) b = a.
Proof.
  revert b. induction a as [| x a IH]; intros [| y b] H; try discriminate; [reflexivity|].
  unfold Mem.xor_lists in *. cbn [combine map fst snd].
  rewrite IH by (cbn in H; lia).
  rewrite Z.lxor_assoc, Z.lxor_nilpotent, Z.lxor_0_r. reflexivity.
Qed.

Lemma xor_lists_bytes (a b : list Z) :
  bytes a -> bytes b -> bytes (Mem.xor_lists a b).
Proof.
  revert b. induction a as [| x a IH]; intros [| y b] Ha Hb; try constructor.
  - inversion Ha; inversion Hb; subst.
    assert (H : u8 (Z.lxor x y)) by (apply u8_lxor; unfold u8; lia).
    unfold u8 in H. cbn [fst snd]. lia.
  - inversion Ha; inversion Hb; subst. apply IH; assumption.
Qed.

Lemma bytes_firstn (l : list Z) (n : nat) : bytes l -> bytes (firstn n l).
Proof.
  intros H. unfold bytes in *. rewrite <- (firstn_skipn n l) in H.
  apply Forall_app in H. tauto.
Qed.

Lemma bytes_skipn (l : list Z) (n : nat) : bytes l -> bytes (skipn n l).
Proof.
  intros H. unfold bytes in *. rewrite <- (firstn_skipn n l) in H.
  apply Forall_app in H. tauto.
Qed.

Lemma RC5_store_bytes (AB : Z * Z) : bytes (RC5.store AB).
Proof.
  unfold RC5.store, Word.le_put_uint32, Word.wrap8.
  repeat constructor; apply Z.mod_pos_bound; lia.
Qed.

Lemma RC5_cipher_ok (key : list Z) (nrounds : Z) (r : RC5.RC5) :
  RC5.NewWithParams key nrounds 32 = Ok r -> block_cipher_ok (RC5_cipher r).
Proof.
  unfold RC5.NewWithParams.
  destruct ((length key <? RC5.MinKeySize)%nat || (RC5.MaxKeySize <? length key)%nat);
    [discriminate|].
  destruct ((nrounds <? 1) || (255 <? nrounds)); [discriminate|].
  cbn [Z.eqb Pos.eqb negb]. intros H. apply Ok_inj in H. subst r.
  set (r := RC5.mkRC5 _ _ _ _ _).
  assert (Hws : RC5.wordSize r = 32) by reflexivity.
  assert (Hbs : RC5.blockSize r = 8%nat) by reflexivity.
  unfold block_cipher_ok, RC5_cipher. cbn [cipher_BlockSize cipher_Encrypt cipher_Decrypt].
  rewrite Hbs. split; [lia|]. split; [|split].
  - intros b c. unfold RC5.Encrypt.
    destruct (negb (length b =? RC5.blockSize r)%nat); [discriminate|].
    destruct (negb (RC5.wordSize r =? 32)); [discriminate|].
    destruct (RC5.load b) as [A B]. intros H. apply Ok_inj in H. subst c. reflexivity.
  - intros b c. unfold RC5.Decrypt.
    destruct (negb (length b =? RC5.blockSize r)%nat); [discriminate|].
    destruct (negb (RC5.wordSize r =? 32)); [discriminate|].
    match goal with |- context [let '(A, B) := ?t in _] => destruct t as [A B] end.
    intros H. apply Ok_inj in H. subst c. reflexivity.
  - intros b Hb Hl.
    pose proof (RC5_decrypt_encrypt r Hws Hbs b Hb Hl) as Hrt.
    unfold block_roundtrip in Hrt.
    assert (Hc : exists AB, RC5.Encrypt r b = Ok (RC5.store AB)).
    { unfold RC5.Encrypt.
      destruct (negb (length b =? RC5.blockSize r)%nat) eqn:E1.
      { rewrite Hbs, Hl in E1. discriminate. }
      destruct (negb (RC5.wordSize r =? 32)) eqn:E2; [discriminate|].
      destruct (RC5.load b) as [A B]. eexists. reflexivity. }
    destruct Hc as [AB Hc]. rewrite Hc in Hrt. cbn [bind] in Hrt.
    exists (RC5.store AB). split; [exact Hc|]. split; [apply RC5_store_bytes | exact Hrt].
Qed.

Lemma outcome_Ok (p : result Mem.slice * Mem.store) (v : list Z) :
  outcome p = Ok v ->
  exists s, p = (Ok s, snd p) /\ Mem.contents (snd p) s = v.
Proof.
  unfold outcome. destruct p as [[s | e |] st]; cbn [fst snd]; intros H;
    try discriminate.
  apply Ok_inj in H. exists s. split; [reflexivity | exact H].
Qed.

Lemma div_exact (L b : nat) : (b <> 0 -> L mod b = 0 -> L = L / b * b)%nat.
Proof. intros Hb Hm. pose proof (Nat.div_mod_eq L b). nia. Qed.

Lemma firstn_exact (a b : list Z) (n : nat) :
  length a = n -> firstn n (a ++ b) = a.
Proof.
  intros <-. rewrite firstn_app, firstn_all, Nat.sub_diag, firstn_O, app_nil_r.
  reflexivity.
Qed.

Lemma skipn_exact (a b : list Z) (n : nat) :
  length a = n -> skipn n (a ++ b) = b.
Proof.
  intros <-. rewrite skipn_app, skipn_all, Nat.sub_diag. reflexivity.
Qed.

(** ** ECB and CBC on bytes *)

Section Blocks_inverse.

Variable C : BlockCipher.
Hypothesis C_ok : block_cipher_ok C.

Let bs := cipher_BlockSize C.
Let E := cipher_Encrypt C.
Let D := cipher_Decrypt C.


Lemma cbc_blocks_inverse (n : nat) (prev P : list Z) :
  bytes prev -> length prev = bs ->
  bytes P -> length P = (n * bs)%nat ->
  exists Ct, cbc_encrypt_blocks E bs n prev P = Ok Ct /\ bytes Ct /\
             length Ct = (n * bs)%nat /\ cbc_decrypt_blocks D bs n prev Ct = Ok P.
Proof.
  destruct C_ok as (Hbs & HE & HD & Hinv). fold bs E D in Hbs, HE, HD, Hinv.
  revert prev P. induction n as [| n IH]; intros prev P Hpb Hpl HP HL.
  - destruct P; [|discriminate]. exists []. repeat split. constructor.
  - cbn [Nat.mul] in HL.
    assert (Hfl : length (firstn bs P) = bs) by (rewrite length_firstn; lia).
    destruct (Hinv (Mem.xor_lists (firstn bs P) prev)) as (c & Hc & Hcb & Hdc).
    { apply xor_lists_bytes; [apply bytes_firstn|]; assumption. }
    { rewrite xor_lists_length. lia. }
    pose proof (HE _ _ Hc) as Hcl.
    destruct (IH c (skipn bs P)) as (Ct & HCt & HCb & HCl & HDt); try assumption.
    { apply bytes_skipn. exact HP. }
    { rewrite length_skipn. lia. }
    exists (c ++ Ct). cbn [cbc_encrypt_blocks]. rewrite Hc. cbn [bind].
    rewrite HCt. cbn [bind].
    split; [reflexivity|]. split; [apply bytes_app; assumption|].
    split; [rewrite length_app; cbn [Nat.mul]; lia|].
    cbn [cbc_decrypt_blocks].
    rewrite (firstn_exact c Ct bs Hcl), (skipn_exact c Ct bs Hcl).
    rewrite Hdc. cbn [bind]. rewrite HDt. cbn [bind].
    rewrite xor_lists_cancel by lia.
    rewrite firstn_skipn. reflexivity.
Qed.

End Blocks_inverse.


Lemma cbc_bytes_blocks
    (blocks : nat -> nat -> list Z -> list Z -> result (list Z))
    (bs n : nat) (IV P : list Z) :
  (0 < bs)%nat -> length P = (n * bs)%nat ->
  cbc_bytes blocks bs IV P = blocks bs n IV P.
Proof.
  intros Hbs HL. unfold cbc_bytes.
  assert (E1 : (bs =? 0)%nat = false) by (apply Nat.eqb_neq; lia).
  assert (E2 : (length P mod bs =? 0)%nat = true).
  { apply Nat.eqb_eq. rewrite HL. apply Nat.Div0.mod_mul. }
  rewrite E1, E2. cbn [negb]. rewrite HL, Nat.div_mul by lia. reflexivity.
Qed.

Lemma len_blocks (L bs : nat) :
  (0 < bs)%nat -> (L mod bs = 0)%nat -> exists n, L = (n * bs)%nat.
Proof.
  intros Hbs Hm. exists (L / bs)%nat. apply div_exact; [lia | exact Hm].
Qed.


(** ** CBC *)

Lemma NewCBC_holds (C : BlockCipher) (st : Mem.store) (iv0 : Mem.slice) :
  wf st iv0 -> Mem.len iv0 = cipher_BlockSize C ->
  exists c st1,
    CBC.NewCBC C iv0 st = (Ok c, st1) /\
    CBC.cipher c = C /\
    cbc_holds st1 c (Mem.contents st iv0) /\
    extends st st1 /\
    (Mem.next st <= Mem.base (CBC.iv c))%nat.
Proof.
  intros Hwf Hlen. unfold CBC.NewCBC.
  assert (E : (Mem.len iv0 =? cipher_BlockSize C)%nat = true)
    by (apply Nat.eqb_eq; exact Hlen).
  rewrite E. cbn [negb].
  rewrite run_make, run_copy. unfold Mem.ret.
  eexists. eexists. split; [reflexivity|]. split; [reflexivity|].
  cbn [CBC.iv CBC.cipher Mem.base Mem.off Mem.len Mem.next Mem.mem].
  pose proof (contents_length st iv0 Hwf) as HL.
  destruct Hwf as [Hb Ho].
  assert (Hc : Mem.contents
                 {| Mem.next := S (Mem.next st);
                    Mem.mem := Mem.upd (Mem.mem st) (Mem.next st)
                                 (repeat 0 (Mem.len iv0)) |} iv0
               = Mem.contents st iv0).
  { unfold Mem.contents. cbn [Mem.mem]. rewrite upd_other by lia. reflexivity. }
  rewrite Hc, !upd_same.
  rewrite (patch_full _ (Mem.contents st iv0)) by (rewrite ?repeat_length; auto).
  unfold cbc_holds, wf.
  cbn [CBC.iv CBC.cipher Mem.base Mem.off Mem.len Mem.next Mem.mem].
  split; [|split].
  - split; [|split].
    + split; cbn [Mem.base Mem.off Mem.len Mem.next Mem.mem]; [lia|].
      rewrite upd_same. lia.
    + cbn [Mem.len]. exact Hlen.
    + unfold Mem.contents at 1. cbn [Mem.base Mem.off Mem.len Mem.mem].
      rewrite upd_same. apply view_full. exact HL.
  - split; cbn [Mem.next Mem.mem]; [lia|]. intros a Ha.
    rewrite !upd_other by lia. reflexivity.
  - lia.
Qed.

Lemma cbc_holds_frame (st st' : Mem.store) (c : CBC.CBC) (IV : list Z) :
  cbc_holds st c IV -> extends st st' -> cbc_holds st' c IV.
Proof.
  intros (Hwf & Hlen & Hc) Hext. split; [|split].
  - apply (extends_wf st); assumption.
  - exact Hlen.
  - rewrite <- Hc. apply extends_contents; [exact Hext | apply Hwf].
Qed.

(** CBC: [NewCBC] with an IV of one block succeeds, and for a well-behaved
    cipher [Decrypt] returns the bytes of the plaintext that [Encrypt] was
    given, for every plaintext of whole blocks. *)
Theorem CBC_round_trip (C : BlockCipher) (st : Mem.store) (iv0 p : Mem.slice) :
  block_cipher_ok C ->
  wf st iv0 -> wf st p ->
  Mem.len iv0 = cipher_BlockSize C ->
  bytes (Mem.contents st iv0) -> bytes (Mem.contents st p) ->
  (Mem.len p mod cipher_BlockSize C = 0)%nat ->
  exists c st1 ct st2 pt st3,
    CBC.NewCBC C iv0 st = (Ok c, st1) /\
    CBC.Encrypt c p st1 = (Ok ct, st2) /\
    CBC.Decrypt c ct st2 = (Ok pt, st3) /\
    Mem.contents st3 pt = Mem.contents st p.
Proof.
  intros HC Hwiv Hwp Hlen Hbiv Hbp Hmod.
  pose proof HC as (Hbs & HE & HD & _).
  destruct (NewCBC_holds C st iv0 Hwiv Hlen) as (c & st1 & Hnew & Hcc & Hholds & Hext0 & _).
  destruct (len_blocks _ _ Hbs Hmod) as [n Hn].
  pose proof (contents_length st p Hwp) as HL. rewrite Hn in HL.
  pose proof (contents_length st iv0 Hwiv) as HLiv. rewrite Hlen in HLiv.
  destruct (cbc_blocks_inverse C HC n _ _ Hbiv HLiv Hbp HL)
    as (Ct & HCt & HCb & HCl & HDt).
  assert (Hwp1 : wf st1 p) by (apply (extends_wf st); assumption).
  assert (Hp1 : Mem.contents st1 p = Mem.contents st p)
    by (apply extends_contents; [assumption | apply Hwp]).
  destruct (CBC_Encrypt_refines c p st1 _ Hholds Hwp1) as (Hext1 & Hout1 & Hfresh1).
  { rewrite Hcc. exact HE. }
  rewrite Hcc, Hp1 in Hout1.
  rewrite (cbc_bytes_blocks _ _ n) in Hout1 by assumption.
  rewrite HCt in Hout1. apply outcome_Ok in Hout1.
  destruct Hout1 as (ct & Hrun1 & Hct).
  set (st2 := snd (CBC.Encrypt c p st1)) in *.
  rewrite Hrun1 in Hfresh1. cbn [fst] in Hfresh1.
  destruct (Hfresh1 ct eq_refl) as ((_ & Hwf2) & Hlen2).
  pose proof (cbc_holds_frame _ _ _ _ Hholds Hext1) as Hholds2.
  destruct (CBC_Decrypt_refines c ct st2 _ Hholds2 Hwf2) as (Hext2 & Hout2 & _).
  { rewrite Hcc. exact HD. }
  rewrite Hcc, Hct in Hout2.
  rewrite (cbc_bytes_blocks _ _ n) in Hout2 by assumption.
  rewrite HDt in Hout2. apply outcome_Ok in Hout2.
  destruct Hout2 as (pt & Hrun2 & Hpt).
  exists c, st1, ct, st2, pt, (snd (CBC.Decrypt c ct st2)).
  split; [exact Hnew|]. split; [exact Hrun1|]. split; [exact Hrun2 | exact Hpt].
Qed.

(** CBC keeps its IV: a call of [Encrypt] or [Decrypt], whatever its
    outcome, leaves the stored IV and every array that existed before the
    call unchanged, and a second call on the same input returns the same
    bytes (or the same error) as the first. *)
Theorem CBC_calls_keep_iv (c : CBC.CBC) (st : Mem.store) (IV : list Z)
    (p : Mem.slice) :
  cbc_holds st c IV -> wf st p ->
  returns_blocks (cipher_Encrypt (CBC.cipher c)) (cipher_BlockSize (CBC.cipher c)) ->
  returns_blocks (cipher_Decrypt (CBC.cipher c)) (cipher_BlockSize (CBC.cipher c)) ->
  (cbc_holds (snd (CBC.Encrypt c p st)) c IV /\
   extends st (snd (CBC.Encrypt c p st)) /\
   outcome (CBC.Encrypt c p (snd (CBC.Encrypt c p st)))
   = outcome (CBC.Encrypt c p st)) /\
  (cbc_holds (snd (CBC.Decrypt c p st)) c IV /\
   extends st (snd (CBC.Decrypt c p st)) /\
   outcome (CBC.Decrypt c p (snd (CBC.Decrypt c p st)))
   = outcome (CBC.Decrypt c p st)).
Proof.
  intros Hholds Hwp HE HD. split.
  - destruct (CBC_Encrypt_refines c p st IV Hholds Hwp HE) as (Hext & Hout & _).
    pose proof (cbc_holds_frame _ _ _ _ Hholds Hext) as Hholds'.
    split; [exact Hholds'|]. split; [exact Hext|].
    destruct (CBC_Encrypt_refines c p _ IV Hholds' (extends_wf _ _ _ Hext Hwp) HE)
      as (_ & Hout' & _).
    rewrite Hout', Hout.
    rewrite (extends_contents st) by (try exact Hext; apply Hwp). reflexivity.
  - destruct (CBC_Decrypt_refines c p st IV Hholds Hwp HD) as (Hext & Hout & _).
    pose proof (cbc_holds_frame _ _ _ _ Hholds Hext) as Hholds'.
    split; [exact Hholds'|]. split; [exact Hext|].
    destruct (CBC_Decrypt_refines c p _ IV Hholds' (extends_wf _ _ _ Hext Hwp) HD)
      as (_ & Hout' & _).
    rewrite Hout', Hout.
    rewrite (extends_contents st) by (try exact Hext; apply Hwp). reflexivity.
Qed.

(** [NewCBC] keeps a copy of the IV: with an IV of another length than the
    block size it returns [ErrInvalidIV] and changes nothing; otherwise the
    adapter holds the bytes of [iv], and bytes written through the
    caller's slice afterwards do not reach it. *)
Theorem CBC_New_copies_iv (C : BlockCipher) (st : Mem.store) (iv0 : Mem.slice)
    (data : list Z) :
  wf st iv0 ->
  (Mem.len iv0 <> cipher_BlockSize C ->
     CBC.NewCBC C iv0 st = (Err ErrInvalidIV, st)) /\
  (Mem.len iv0 = cipher_BlockSize C ->
     exists c st1,
       CBC.NewCBC C iv0 st = (Ok c, st1) /\
       cbc_holds st1 c (Mem.contents st iv0) /\
       cbc_holds (snd (Mem.write iv0 data st1)) c (Mem.contents st iv0)).
Proof.
  intros Hwf. split.
  - intros Hne. unfold CBC.NewCBC. apply Nat.eqb_neq in Hne. rewrite Hne. reflexivity.
  - intros Hlen.
    destruct (NewCBC_holds C st iv0 Hwf Hlen) as (c & st1 & Hnew & _ & Hholds & Hext & Hbase).
    exists c, st1. split; [exact Hnew|]. split; [exact Hholds|].
    destruct Hholds as ((Hb & Ho) & Hl & Hc). destruct Hwf as [Hb0 _].
    assert (Hne : Mem.base (CBC.iv c) <> Mem.base iv0) by lia.
    unfold Mem.write. cbn [snd]. split; [|split].
    + split; cbn [Mem.next Mem.mem]; [exact Hb|]. rewrite upd_other by exact Hne. exact Ho.
    + exact Hl.
    + rewrite <- Hc. unfold Mem.contents. cbn [Mem.mem].
      rewrite upd_other by exact Hne. reflexivity.
Qed.

Lemma example_RC5_ok : block_cipher_ok (RC5_cipher example_RC5).
Proof.
  apply (RC5_cipher_ok (key_0_to 16) 12). vm_compute. reflexivity.
Qed.

Lemma example_store_wf :
  wf example_store (whole 0 example_iv) /\ wf example_store (whole 1 example_data).
Proof. split; split; vm_compute; lia. Qed.


Lemma CBC_round_trip_witness :
  exists c st1 ct st2 pt st3,
    CBC.NewCBC (RC5_cipher example_RC5) (whole 0 example_iv) example_store
    = (Ok c, st1) /\
    CBC.Encrypt c (whole 1 example_data) st1 = (Ok ct, st2) /\
    CBC.Decrypt c ct st2 = (Ok pt, st3) /\
    Mem.contents st3 pt = Mem.contents example_store (whole 1 example_data).
Proof.
  apply CBC_round_trip.
  - exact example_RC5_ok.
  - apply example_store_wf.
  - apply example_store_wf.
  - vm_compute. reflexivity.
  - apply bytes_check. vm_compute. reflexivity.
  - apply bytes_check. vm_compute. reflexivity.
  - vm_compute. reflexivity.
Defined.

Lemma example_CBC_holds : cbc_holds example_store example_CBC example_iv.
Proof.
  split; [apply example_store_wf|]. split; vm_compute; reflexivity.
Qed.

Lemma CBC_calls_keep_iv_witness :
  (cbc_holds (snd (CBC.Encrypt example_CBC (whole 1 example_data) example_store))
     example_CBC example_iv /\
   extends example_store
     (snd (CBC.Encrypt example_CBC (whole 1 example_data) example_store)) /\
   outcome (CBC.Encrypt example_CBC (whole 1 example_data)
              (snd (CBC.Encrypt example_CBC (whole 1 example_data) example_store)))
   = outcome (CBC.Encrypt example_CBC (whole 1 example_data) example_store)) /\
  (cbc_holds (snd (CBC.Decrypt example_CBC (whole 1 example_data) example_store))
     example_CBC example_iv /\
   extends example_store
     (snd (CBC.Decrypt example_CBC (whole 1 example_data) example_store)) /\
   outcome (CBC.Decrypt example_CBC (whole 1 example_data)
              (snd (CBC.Decrypt example_CBC (whole 1 example_data) example_store)))
   = outcome (CBC.Decrypt example_CBC (whole 1 example_data) example_store)).
Proof.
  apply CBC_calls_keep_iv.
  - exact example_CBC_holds.
  - apply example_store_wf.
  - apply example_RC5_ok.
  - apply example_RC5_ok.
Defined.

Lemma CBC_New_copies_iv_witness :
  (Mem.len (whole 0 example_iv) <> cipher_BlockSize (RC5_cipher example_RC5) ->
     CBC.NewCBC (RC5_cipher example_RC5) (whole 0 example_iv) example_store
     = (Err ErrInvalidIV, example_store)) /\
  (Mem.len (whole 0 example_iv) = cipher_BlockSize (RC5_cipher example_RC5) ->
     exists c st1,
       CBC.NewCBC (RC5_cipher example_RC5) (whole 0 example_iv) example_store
       = (Ok c, st1) /\
       cbc_holds st1 c (Mem.contents example_store (whole 0 example_iv)) /\
       cbc_holds (snd (Mem.write (whole 0 example_iv) [255; 255] st1)) c
         (Mem.contents example_store (whole 0 example_iv))).
Proof.
  apply CBC_New_copies_iv. apply example_store_wf.
Defined.

(** ** CTR *)

Lemma increment_rev_length (r : list Z) : length (Mem.increment_rev r) = length r.
Proof.
  induction r as [| b r IH]; [reflexivity|]. cbn [Mem.increment_rev].
  destruct (Word.wrap8 (b + 1) =? 0); cbn [length]; [rewrite IH|]; reflexivity.
Qed.

Lemma increment_length (c : list Z) : length (Mem.increment c) = length c.
Proof.
  unfold Mem.increment. rewrite length_rev, increment_rev_length, length_rev.
  reflexivity.
Qed.

Lemma ctr_blocks_fuel (E : list Z -> result (list Z)) (bs : nat) :
  (0 < bs)%nat ->
  forall n m ctr P, (length P <= n)%nat -> (length P <= m)%nat ->
    ctr_blocks E bs n ctr P = ctr_blocks E bs m ctr P.
Proof.
  intros Hbs. induction n as [| n IH]; intros m ctr P Hn Hm.
  - destruct P; [|cbn in Hn; lia]. destruct m; reflexivity.
  - destruct m as [| m].
    + destruct P; [reflexivity | cbn in Hm; lia].
    + cbn [ctr_blocks]. destruct P as [| x P]; [reflexivity|].
      rewrite (IH m); [reflexivity | |];
        rewrite length_skipn; cbn [length] in *; lia.
Qed.

Lemma mbind_assoc {A B C : Type} (m : Mem.M A) (k1 : A -> Mem.M B)
    (k2 : B -> Mem.M C) (st : Mem.store) :
  Mem.mbind (Mem.mbind m k1) k2 st
  = Mem.mbind m (fun x => Mem.mbind (k1 x) k2) st.
Proof.
  unfold Mem.mbind. destruct (m st) as [[a | e |] st']; reflexivity.
Qed.

Section CTR_refinement.
Import Mem.

Variable c : CTR.CTR.
Variable input : slice.
Variable st0 : store.
Variable ctr0 : list Z.

Let blockSize : nat := cipher_BlockSize (CTR.cipher c).
Let E := cipher_Encrypt (CTR.cipher c).

Hypothesis c_holds : ctr_holds st0 c ctr0.
Hypothesis input_wf : wf st0 input.
Hypothesis E_blocks : returns_blocks E blockSize.
Hypothesis blockSize_pos : (0 < blockSize)%nat.

Let P : list Z := contents st0 input.
Let L : nat := len input.
Let out_addr : nat := next st0.
Let ctr_addr : nat := S (next st0).
Let counter : slice := mkSlice ctr_addr 0 blockSize.
Let output : slice := mkSlice out_addr 0 L.

Let ctr_inv (R : result (list Z)) (i : nat) (st : store) : Prop :=
  extends st0 st /\ (ctr_addr < next st)%nat /\
  exists done ctrv,
    i = length done /\ (i <= L)%nat /\
    mem st out_addr = done ++ repeat 0 (L - i) /\
    mem st ctr_addr = ctrv /\ length ctrv = blockSize /\
    R = bind (ctr_blocks E blockSize (L - i) ctrv (skipn i P))
             (fun rest => Ok (done ++ rest)).

Let ctr_post (R : result (list Z)) (r : result nat) (st : store) : Prop :=
  extends st0 st /\ (ctr_addr < next st)%nat /\
  match r with
  | Ok _ => R = Ok (mem st out_addr) /\ length (mem st out_addr) = L
  | Err e => R = Err e
  | Panic => R = Panic
  end.

Lemma P_length : length P = L.
Proof. apply contents_length. exact input_wf. Qed.

Lemma ctr_encrypt_step (R : result (list Z)) (i : nat) (st : store) :
  ctr_inv R i st -> (i <? L)%nat = true ->
  match fst (CTR.encrypt_body c blockSize input counter output i st) with
  | Ok _ => ctr_inv R (i + CTR.chunk blockSize L i)
              (snd (CTR.encrypt_body c blockSize input counter output i st))
  | Err e => ctr_post R (Err e)
              (snd (CTR.encrypt_body c blockSize input counter output i st))
  | Panic => ctr_post R Panic
              (snd (CTR.encrypt_body c blockSize input counter output i st))
  end.
Proof.
  intros (Hext & Hnext & done & ctrv & Hi & HiL & Hmem & Hctr & Hclen & HR) Hlt.
  apply Nat.ltb_lt in Hlt.
  pose proof P_length as HP.
  assert (Hold : forall a, (a < next st0)%nat -> mem st a = mem st0 a)
    by (destruct Hext; assumption).
  assert (Hn0 : (next st0 <= next st)%nat) by (destruct Hext; assumption).
  set (n := CTR.chunk blockSize L i).
  assert (Hn : n = Nat.min blockSize (L - i)).
  { unfold n, CTR.chunk. destruct (L <? i + blockSize)%nat eqn:Hc;
      [apply Nat.ltb_lt in Hc | apply Nat.ltb_ge in Hc]; lia. }
  assert (Hsrc : forall mm, (forall a, (a < next st0)%nat -> mm a = mem st0 a) ->
            view (mm (base input)) (off input + i) (i + n - i)
            = firstn n (skipn i P)).
  { intros mm Hmm. destruct input_wf as [Hb _]. rewrite Hmm by exact Hb.
    replace (i + n - i)%nat with n by lia.
    apply view_sub. fold L. lia. }
  unfold CTR.encrypt_body. fold L. fold n.
  rewrite run_call.
  assert (Hcv : contents st counter = ctrv).
  { unfold contents, counter. cbn [base off len]. rewrite Hctr.
    apply view_full. exact Hclen. }
  rewrite Hcv.
  destruct (L - i)%nat as [| k] eqn:Hk; [lia|].
  cbn [ctr_blocks] in HR.
  destruct (skipn i P) as [| x rest] eqn:Hskip.
  { apply (f_equal (@length Z)) in Hskip. rewrite length_skipn in Hskip.
    cbn in Hskip. lia. }
  rewrite <- Hskip in *. clear x rest Hskip.
  fold E.
  destruct (E ctrv) as [ks | e |] eqn:HE; cbn [bind] in HR; cbn [fst snd].
  2: { split; [exact Hext | split; [exact Hnext | exact HR]]. }
  2: { split; [exact Hext | split; [exact Hnext | exact HR]]. }
  pose proof (E_blocks _ _ HE) as Hks.
  unfold CTR.xor_at, output.
  rewrite mbind_assoc.
  rewrite run_sub by (cbn [len]; lia).
  cbv beta. rewrite mbind_assoc.
  rewrite run_sub by (fold L; lia).
  unfold Increment, mbind, read, write, contents, ret.
  cbn [fst snd base off len next mem].
  assert (Elen : (length ks <? n)%nat = false) by (apply Nat.ltb_ge; lia).
  rewrite Elen. cbn [fst snd base off len next mem].
  unfold counter. cbn [base off len].
  upd_simpl ltac:(unfold ctr_addr, out_addr in *; lia).
  rewrite Hsrc by (intros a Ha; upd_simpl ltac:(unfold ctr_addr, out_addr in *; lia);
                   apply Hold; exact Ha).
  rewrite view_all, Hctr, Hmem, (view_full ctrv) by exact Hclen.
  rewrite (patch_full ctrv (increment ctrv)) by (rewrite ?increment_length; lia).
  set (X := xor_lists (firstn n (skipn i P)) ks).
  assert (HX : length X = n).
  { unfold X. rewrite xor_lists_length, length_firstn, length_skipn. lia. }
  split; [|split].
  - split; [cbn [next]; lia|]. intros a Ha. cbn [mem].
    upd_simpl ltac:(unfold ctr_addr, out_addr in *; lia).
    apply Hold. exact Ha.
  - cbn [next]. lia.
  - exists (done ++ X), (increment ctrv). cbn [mem].
    upd_simpl ltac:(unfold ctr_addr, out_addr in *; lia).
    split; [rewrite length_app; lia|]. split; [lia|]. split; [|split; [|split]].
    + replace (S k) with (n + (L - (i + n)))%nat by lia.
      rewrite repeat_add.
      replace (i + n - i)%nat with (length X) by lia.
      rewrite Hi. cbn [Nat.add].
      rewrite patch_at by (rewrite repeat_length; lia).
      rewrite <- app_assoc. reflexivity.
    + reflexivity.
    + rewrite increment_length. exact Hclen.
    + rewrite HR.
      assert (F : firstn blockSize (skipn i P) = firstn n (skipn i P)).
      { rewrite Hn. destruct (Nat.le_ge_cases blockSize (L - i)).
        - rewrite Nat.min_l by lia. reflexivity.
        - rewrite Nat.min_r by lia.
          rewrite !firstn_all2 by (rewrite length_skipn; lia). reflexivity. }
      assert (S' : skipn blockSize (skipn i P) = skipn n (skipn i P)).
      { rewrite Hn. destruct (Nat.le_ge_cases blockSize (L - i)).
        - rewrite Nat.min_l by lia. reflexivity.
        - rewrite Nat.min_r by lia.
          rewrite !skipn_all2 by (rewrite length_skipn; lia). reflexivity. }
      rewrite F, S', skipn_skipn. fold X.
      replace (n + i)%nat with (i + n)%nat by lia.
      rewrite (ctr_blocks_fuel E blockSize blockSize_pos k (L - (i + n)))
        by (rewrite length_skipn; lia).
      destruct (ctr_blocks E blockSize (L - (i + n)) (increment ctrv) (skipn (i + n) P))
        as [rest | e |]; cbn [bind]; [rewrite <- app_assoc|..]; reflexivity.
Qed.

Lemma ctr0_length : length ctr0 = blockSize.
Proof.
  destruct c_holds as (Hwf & Hlen & Hc). rewrite <- Hc.
  unfold blockSize. rewrite <- Hlen.
  apply contents_length. exact Hwf.
Qed.

(** [Encrypt] computes [ctr_bytes] of the stored counter and the input
    into a new array and writes to no array that existed before. *)
Lemma CTR_Encrypt_refines :
  extends st0 (snd (CTR.Encrypt c input st0)) /\
  outcome (CTR.Encrypt c input st0) = ctr_bytes E blockSize ctr0 P /\
  (forall out, fst (CTR.Encrypt c input st0) = Ok out ->
     fresh st0 (snd (CTR.Encrypt c input st0)) out /\ len out = L).
Proof.
  pose proof P_length as HP. pose proof ctr0_length as Hc0.
  unfold CTR.Encrypt, ctr_bytes. cbv zeta. rewrite HP.
  change (cipher_BlockSize (CTR.cipher c)) with blockSize. fold L.
  rewrite run_make. rewrite run_make. rewrite run_copy.
  cbn [base off len next mem].
  change (S (next st0)) with ctr_addr. fold out_addr.
  assert (Hcc : forall nn mm,
            (forall a, (a < next st0)%nat -> mm a = mem st0 a) ->
            contents {| next := nn; mem := mm |} (CTR.counter c) = ctr0).
  { intros nn mm Hmm. destruct c_holds as ((Hb & _) & _ & Hc). rewrite <- Hc.
    unfold contents. cbn [mem]. rewrite Hmm by exact Hb. reflexivity. }
  rewrite Hcc by (intros a Ha; upd_simpl ltac:(unfold ctr_addr, out_addr in *; lia);
                  reflexivity).
  upd_simpl ltac:(unfold ctr_addr, out_addr in *; lia).
  rewrite (patch_full _ ctr0) by (rewrite ?repeat_length; auto).
  fold counter. fold output.
  match goal with
  | |- context [mbind (for_loop _ _ _ _ _) _ ?s] => set (st1 := s)
  end.
  set (R := ctr_blocks E blockSize L ctr0 P).
  pose proof (for_loop_rule (ctr_inv R) (ctr_post R) L
                (fun i => (i <? L)%nat)
                (fun i => (i + CTR.chunk blockSize L i)%nat)
                (CTR.encrypt_body c blockSize input counter output)) as Hloop.
  assert (Hchunk : forall i, (i < L)%nat -> (0 < CTR.chunk blockSize L i)%nat).
  { intros i Hi. unfold CTR.chunk. destruct (L <? i + blockSize)%nat; lia. }
  specialize (Hloop ltac:(intros i Hc; cbv beta in *; apply Nat.ltb_lt in Hc;
                          specialize (Hchunk i Hc); lia)).
  specialize (Hloop ltac:(intros i st Hinv Hc; apply ctr_encrypt_step; assumption)).
  specialize (Hloop ltac:(
    intros i st (Hext & Hnext & done & ctrv & Hi & HiL & Hmem & _ & _ & HR) Hc;
    cbv beta in Hc; apply Nat.ltb_ge in Hc;
    assert (Hz : (L - i = 0)%nat) by lia; rewrite Hz in Hmem, HR;
    split; [exact Hext | split; [exact Hnext|]];
    cbn [repeat] in Hmem; rewrite app_nil_r in Hmem;
    rewrite Hmem; cbn [ctr_blocks bind] in HR; rewrite app_nil_r in HR;
    split; [exact HR | lia])).
  specialize (Hloop (S L) 0%nat st1 ltac:(lia)).
  assert (Hinv0 : ctr_inv R 0 st1).
  { split; [|split].
    - split; [cbn; unfold out_addr, ctr_addr; lia|]. intros a Ha. unfold st1. cbn [mem].
      upd_simpl ltac:(unfold ctr_addr, out_addr in *; lia). reflexivity.
    - cbn. unfold ctr_addr. lia.
    - exists [], ctr0. cbn [length app skipn].
      split; [reflexivity|]. split; [lia|]. unfold st1. cbn [mem].
      upd_simpl ltac:(unfold ctr_addr, out_addr in *; lia).
      rewrite Nat.sub_0_r.
      split; [reflexivity|]. split; [reflexivity|]. split; [exact Hc0|].
      unfold R. destruct (ctr_blocks E blockSize L ctr0 P); reflexivity. }
  specialize (Hloop Hinv0).
  unfold mbind, ret.
  destruct (for_loop (S L) (fun i => (i <? L)%nat)
              (fun i => (i + CTR.chunk blockSize L i)%nat)
              (CTR.encrypt_body c blockSize input counter output) 0 st1)
    as [[u | e |] st2]; cbn [fst snd] in Hloop;
    destruct Hloop as (Hext & Hnext & Hres); cbn [fst snd];
    (split; [exact Hext|]).
  - destruct Hres as [HR Hlen]. split.
    + unfold outcome. cbn [fst snd]. unfold contents, output. cbn [base off len].
      pose proof (view_all (mem st2 out_addr)) as Hv. rewrite Hlen in Hv.
      rewrite Hv. symmetry. exact HR.
    + intros out Hout. apply Ok_inj in Hout. subst out. split; [|reflexivity].
      split; [unfold output, out_addr; cbn [base]; lia|].
      split; unfold output; cbn [base off len]; [unfold ctr_addr, out_addr in *; lia | lia].
  - split; [symmetry; exact Hres|]. intros out H. discriminate.
  - split; [symmetry; exact Hres|]. intros out H. discriminate.
Qed.

End CTR_refinement.

Lemma xor_lists_cancel_le (a b : list Z) :
  (length a <= length b)%nat -> Mem.xor_lists (Mem.xor_lists a b) b = a.
Proof.
  revert b. induction a as [| x a IH]; intros [| y b] H; try reflexivity.
  - cbn in H. lia.
  - unfold Mem.xor_lists in *. cbn [combine map fst snd].
    rewrite IH by (cbn in H; lia).
    rewrite Z.lxor_assoc, Z.lxor_nilpotent, Z.lxor_0_r. reflexivity.
Qed.

Lemma ctr_blocks_nil (E : list Z -> result (list Z)) (bs n : nat) (ctr : list Z) :
  ctr_blocks E bs n ctr [] = Ok [].
Proof. destruct n; reflexivity. Qed.

Lemma ctr_blocks_involution (E : list Z -> result (list Z)) (bs : nat) :
  (0 < bs)%nat -> returns_blocks E bs ->
  (forall b, length b = bs -> exists k, E b = Ok k) ->
  forall n ctr P, length ctr = bs -> (length P <= n)%nat ->
    exists Ct, ctr_blocks E bs n ctr P = Ok Ct /\ length Ct = length P /\
               ctr_blocks E bs n ctr Ct = Ok P.
Proof.
  intros Hbs HE Htot. induction n as [| n IH]; intros ctr P Hc HP.
  - destruct P; [|cbn in HP; lia]. exists []. repeat split.
  - destruct P as [| x P]; [exists []; repeat split|].
    set (Q := x :: P) in *.
    destruct (Htot ctr Hc) as [ks Hks]. pose proof (HE _ _ Hks) as Hkl.
    destruct (IH (Mem.increment ctr) (skipn bs Q)) as (Ct & HCt & HCl & HCi).
    { rewrite increment_length. exact Hc. }
    { rewrite length_skipn. unfold Q in *. cbn [length] in *. lia. }
    set (X := Mem.xor_lists (firstn bs Q) ks).
    assert (HX : length X = Nat.min bs (length Q)).
    { unfold X. rewrite xor_lists_length, length_firstn. lia. }
    exists (X ++ Ct).
    assert (Henc : ctr_blocks E bs (S n) ctr Q = Ok (X ++ Ct)).
    { unfold Q. cbn [ctr_blocks]. fold Q. rewrite Hks. cbn [bind].
      rewrite HCt. reflexivity. }
    split; [exact Henc|]. split.
    { rewrite length_app, HX, HCl, length_skipn. lia. }
    assert (Hne : exists y Y, X ++ Ct = y :: Y).
    { destruct X as [| y X']; [cbn in HX; unfold Q in HX; cbn [length] in HX; lia|].
      exists y, (X' ++ Ct). reflexivity. }
    destruct Hne as (y & Y & Hy).
    assert (Hf : firstn bs (X ++ Ct) = X /\ skipn bs (X ++ Ct) = Ct).
    { destruct (Nat.le_ge_cases bs (length Q)) as [Hle | Hge].
      - rewrite Nat.min_l in HX by exact Hle.
        split; [apply firstn_exact | apply skipn_exact]; exact HX.
      - rewrite Nat.min_r in HX by exact Hge.
        rewrite length_skipn in HCl.
        assert (Ct = []) by (apply length_zero_iff_nil; lia).
        subst Ct. rewrite app_nil_r.
        split; [apply firstn_all2 | apply skipn_all2]; lia. }
    destruct Hf as [Hf1 Hf2].
    cbn [ctr_blocks]. rewrite Hy. rewrite <- Hy. rewrite Hks. cbn [bind].
    rewrite Hf1, Hf2, HCi. cbn [bind].
    unfold X. rewrite xor_lists_cancel_le by (rewrite length_firstn; lia).
    rewrite firstn_skipn. reflexivity.
Qed.

Lemma NewCTR_holds (C : BlockCipher) (st : Mem.store) (ctr : Mem.slice) :
  wf st ctr -> Mem.len ctr = cipher_BlockSize C ->
  exists c st1,
    CTR.NewCTR C ctr st = (Ok c, st1) /\
    CTR.cipher c = C /\
    ctr_holds st1 c (Mem.contents st ctr) /\
    extends st st1.
Proof.
  intros Hwf Hlen. unfold CTR.NewCTR.
  assert (E : (Mem.len ctr =? cipher_BlockSize C)%nat = true)
    by (apply Nat.eqb_eq; exact Hlen).
  rewrite E. cbn [negb].
  rewrite run_make, run_copy. unfold Mem.ret.
  eexists. eexists. split; [reflexivity|]. split; [reflexivity|].
  pose proof (contents_length st ctr Hwf) as HL.
  destruct Hwf as [Hb Ho].
  assert (Hc : Mem.contents
                 {| Mem.next := S (Mem.next st);
                    Mem.mem := Mem.upd (Mem.mem st) (Mem.next st)
                                 (repeat 0 (Mem.len ctr)) |} ctr
               = Mem.contents st ctr).
  { unfold Mem.contents. cbn [Mem.mem]. rewrite upd_other by lia. reflexivity. }
  rewrite Hc. cbn [Mem.base Mem.off Mem.len Mem.next Mem.mem]. rewrite !upd_same.
  rewrite (patch_full _ (Mem.contents st ctr)) by (rewrite ?repeat_length; auto).
  unfold ctr_holds, wf.
  cbn [CTR.counter CTR.cipher Mem.base Mem.off Mem.len Mem.next Mem.mem].
  split.
  - split; [|split].
    + split; [lia|]. rewrite upd_same. lia.
    + exact Hlen.
    + unfold Mem.contents at 1. cbn [Mem.base Mem.off Mem.len Mem.mem].
      rewrite upd_same. apply view_full. exact HL.
  - split; cbn [Mem.next Mem.mem]; [lia|]. intros a Ha.
    rewrite !upd_other by lia. reflexivity.
Qed.

Lemma ctr_holds_frame (st st' : Mem.store) (c : CTR.CTR) (ctr : list Z) :
  ctr_holds st c ctr -> extends st st' -> ctr_holds st' c ctr.
Proof.
  intros (Hwf & Hlen & Hc) Hext. split; [|split].
  - apply (extends_wf st); assumption.
  - exact Hlen.
  - rewrite <- Hc. apply extends_contents; [exact Hext | apply Hwf].
Qed.

(** CTR: [NewCTR] with a counter of one block succeeds and, for a cipher
    that encrypts every block into a block, [Decrypt] returns the bytes
    that [Encrypt] was given, for a plaintext of every length; the
    ciphertext is as long as the plaintext. *)
Theorem CTR_round_trip (C : BlockCipher) (st : Mem.store) (ctr p : Mem.slice) :
  (0 < cipher_BlockSize C)%nat ->
  returns_blocks (cipher_Encrypt C) (cipher_BlockSize C) ->
  (forall b, length b = cipher_BlockSize C -> exists k, cipher_Encrypt C b = Ok k) ->
  wf st ctr -> wf st p ->
  Mem.len ctr = cipher_BlockSize C ->
  exists c st1 ct st2 pt st3,
    CTR.NewCTR C ctr st = (Ok c, st1) /\
    CTR.Encrypt c p st1 = (Ok ct, st2) /\
    CTR.Decrypt c ct st2 = (Ok pt, st3) /\
    Mem.len ct = Mem.len p /\
    Mem.contents st3 pt = Mem.contents st p.
Proof.
  intros Hbs HE Htot Hwc Hwp Hlen.
  destruct (NewCTR_holds C st ctr Hwc Hlen) as (c & st1 & Hnew & Hcc & Hholds & Hext0).
  pose proof (contents_length st ctr Hwc) as HLc. rewrite Hlen in HLc.
  destruct (ctr_blocks_involution _ _ Hbs HE Htot (length (Mem.contents st p))
              (Mem.contents st ctr) (Mem.contents st p) HLc (Nat.le_refl _))
    as (Ct & HCt & HCl & HCi).
  assert (Hwp1 : wf st1 p) by (apply (extends_wf st); assumption).
  assert (Hp1 : Mem.contents st1 p = Mem.contents st p)
    by (apply extends_contents; [assumption | apply Hwp]).
  destruct (CTR_Encrypt_refines c p st1 _ Hholds Hwp1) as (Hext1 & Hout1 & Hfresh1).
  { rewrite Hcc. exact HE. }
  { rewrite Hcc. exact Hbs. }
  rewrite Hcc, Hp1 in Hout1. unfold ctr_bytes in Hout1.
  rewrite HCt in Hout1. apply outcome_Ok in Hout1.
  destruct Hout1 as (ct & Hrun1 & Hct).
  set (st2 := snd (CTR.Encrypt c p st1)) in *.
  rewrite Hrun1 in Hfresh1. cbn [fst] in Hfresh1.
  destruct (Hfresh1 ct eq_refl) as ((_ & Hwf2) & Hlen2).
  pose proof (ctr_holds_frame _ _ _ _ Hholds Hext1) as Hholds2.
  unfold CTR.Decrypt.
  destruct (CTR_Encrypt_refines c ct st2 _ Hholds2 Hwf2) as (Hext2 & Hout2 & _).
  { rewrite Hcc. exact HE. }
  { rewrite Hcc. exact Hbs. }
  rewrite Hcc, Hct in Hout2. unfold ctr_bytes in Hout2.
  rewrite HCl, HCi in Hout2. apply outcome_Ok in Hout2.
  destruct Hout2 as (pt & Hrun2 & Hpt).
  exists c, st1, ct, st2, pt, (snd (CTR.Encrypt c ct st2)).
  split; [exact Hnew|]. split; [exact Hrun1|]. split; [exact Hrun2|].
  split; [exact Hlen2 | exact Hpt].
Qed.

(** CTR restarts from its counter at every call: [Encrypt] increments a
    copy, so the stored counter and every array that existed before the
    call are unchanged, and a second call with the same input returns the
    same bytes (or the same error). *)
Theorem CTR_calls_keep_counter (c : CTR.CTR) (st : Mem.store) (ctr : list Z)
    (p : Mem.slice) :
  ctr_holds st c ctr -> wf st p ->
  (0 < cipher_BlockSize (CTR.cipher c))%nat ->
  returns_blocks (cipher_Encrypt (CTR.cipher c)) (cipher_BlockSize (CTR.cipher c)) ->
  ctr_holds (snd (CTR.Encrypt c p st)) c ctr /\
  extends st (snd (CTR.Encrypt c p st)) /\
  outcome (CTR.Encrypt c p (snd (CTR.Encrypt c p st)))
  = outcome (CTR.Encrypt c p st).
Proof.
  intros Hholds Hwp Hbs HE.
  destruct (CTR_Encrypt_refines c p st ctr Hholds Hwp HE Hbs) as (Hext & Hout & _).
  pose proof (ctr_holds_frame _ _ _ _ Hholds Hext) as Hholds'.
  split; [exact Hholds'|]. split; [exact Hext|].
  destruct (CTR_Encrypt_refines c p _ ctr Hholds' (extends_wf _ _ _ Hext Hwp) HE Hbs)
    as (_ & Hout' & _).
  rewrite Hout', Hout.
  rewrite (extends_contents st) by (try exact Hext; apply Hwp). reflexivity.
Qed.

Lemma example_RC5_total (b : list Z) :
  length b = cipher_BlockSize (RC5_cipher example_RC5) ->
  exists k, cipher_Encrypt (RC5_cipher example_RC5) b = Ok k.
Proof.
  intros Hl. cbn [RC5_cipher cipher_Encrypt cipher_BlockSize] in *.
  unfold RC5.Encrypt. rewrite Hl, Nat.eqb_refl. cbn [negb].
  assert (Hw : RC5.wordSize example_RC5 = 32) by (vm_compute; reflexivity).
  rewrite Hw. cbn [Z.eqb Pos.eqb negb].
  destruct (RC5.load b) as [A B]. eexists. reflexivity.
Qed.

Lemma example_store'_wf :
  wf example_store' (whole 0 example_iv) /\ wf example_store' (whole 1 example_text).
Proof. split; split; vm_compute; lia. Qed.

Lemma CTR_round_trip_witness :
  exists c st1 ct st2 pt st3,
    CTR.NewCTR (RC5_cipher example_RC5) (whole 0 example_iv) example_store'
    = (Ok c, st1) /\
    CTR.Encrypt c (whole 1 example_text) st1 = (Ok ct, st2) /\
    CTR.Decrypt c ct st2 = (Ok pt, st3) /\
    Mem.len ct = Mem.len (whole 1 example_text) /\
    Mem.contents st3 pt = Mem.contents example_store' (whole 1 example_text).
Proof.
  apply CTR_round_trip.
  - vm_compute. lia.
  - apply example_RC5_ok.
  - exact example_RC5_total.
  - apply example_store'_wf.
  - apply example_store'_wf.
  - vm_compute. reflexivity.
Defined.

Lemma example_CTR_holds : ctr_holds example_store' example_CTR example_iv.
Proof.
  split; [apply example_store'_wf|]. split; vm_compute; reflexivity.
Qed.

Lemma CTR_calls_keep_counter_witness :
  ctr_holds (snd (CTR.Encrypt example_CTR (whole 1 example_text) example_store'))
    example_CTR example_iv /\
  extends example_store'
    (snd (CTR.Encrypt example_CTR (whole 1 example_text) example_store')) /\
  outcome (CTR.Encrypt example_CTR (whole 1 example_text)
             (snd (CTR.Encrypt example_CTR (whole 1 example_text) example_store')))
  = outcome (CTR.Encrypt example_CTR (whole 1 example_text) example_store').
Proof.
  apply CTR_calls_keep_counter.
  - exact example_CTR_holds.
  - apply example_store'_wf.
  - vm_compute. lia.
  - apply example_RC5_ok.
Defined.

(** ** The counter *)

Lemma be_value_snoc (l : list Z) (b : Z) : be_value (l ++ [b]) = be_value l * 256 + b.
Proof. unfold be_value. rewrite fold_left_app. reflexivity. Qed.

Lemma be_value_rev_range (r : list Z) :
  bytes r -> 0 <= be_value (rev r) < 256 ^ Z.of_nat (length r).
Proof.
  induction r as [| b r IH]; intros Hb.
  - cbn. lia.
  - inversion Hb as [| ? ? Hb0 Hr]; subst. specialize (IH Hr).
    cbn [rev]. rewrite be_value_snoc, length_cons, Nat2Z.inj_succ, Z.pow_succ_r by lia.
    nia.
Qed.

Lemma increment_rev_value (r : list Z) :
  bytes r ->
  be_value (rev (Mem.increment_rev r))
  = (be_value (rev r) + 1) mod 256 ^ Z.of_nat (length r).
Proof.
  induction r as [| b r IH]; intros Hb; [reflexivity|].
  inversion Hb as [| ? ? Hb0 Hr]; subst. specialize (IH Hr).
  pose proof (be_value_rev_range r Hr) as HV.
  cbn [Mem.increment_rev rev]. rewrite length_cons, Nat2Z.inj_succ, Z.pow_succ_r by lia.
  rewrite be_value_snoc. unfold Word.wrap8.
  destruct (Z.eq_dec b 255) as [-> | Hne].
  - change ((255 + 1) mod 256) with 0. cbn [Z.eqb rev].
    rewrite be_value_snoc, IH.
    replace (be_value (rev r) * 256 + 255 + 1) with ((be_value (rev r) + 1) * 256) by lia.
    rewrite (Z.mul_comm 256), Z.mul_mod_distr_r by lia. lia.
  - rewrite (Z.mod_small (b + 1)) by lia.
    assert (E : (b + 1 =? 0) = false) by (apply Z.eqb_neq; lia).
    rewrite E. cbn [rev]. rewrite be_value_snoc.
    rewrite Z.mod_small by nia. lia.
Qed.

Lemma increment_rev_bytes (r : list Z) : bytes r -> bytes (Mem.increment_rev r).
Proof.
  induction r as [| b r IH]; intros Hb; [constructor|].
  inversion Hb as [| ? ? Hb0 Hr]; subst. cbn [Mem.increment_rev].
  assert (Hw : 0 <= Word.wrap8 (b + 1) < 256)
    by (unfold Word.wrap8; apply Z.mod_pos_bound; lia).
  destruct (Word.wrap8 (b + 1) =? 0);
    (apply Forall_cons; [exact Hw | first [apply IH; exact Hr | exact Hr]]).
Qed.

Lemma view_patch_app (A B C0 data : list Z) (o n : nat) :
  length A = o -> length B = n -> length data = n ->
  Mem.view (Mem.patch (A ++ B ++ C0) o n data) o n = data.
Proof.
  intros HA HB Hd. subst o n. rewrite <- Hd.
  rewrite patch_at by (symmetry; exact Hd).
  unfold Mem.view. rewrite skipn_exact by reflexivity.
  apply firstn_exact. reflexivity.
Qed.

Lemma view_patch (buf data : list Z) (o n : nat) :
  (o + n <= length buf)%nat -> length data = n ->
  Mem.view (Mem.patch buf o n data) o n = data.
Proof.
  intros Ho Hd.
  assert (E : buf = firstn o buf ++ firstn n (skipn o buf) ++ skipn (o + n) buf).
  { rewrite <- (firstn_skipn o buf) at 1. f_equal.
    rewrite <- (firstn_skipn n (skipn o buf)) at 1. f_equal.
    rewrite skipn_skipn. f_equal. lia. }
  rewrite E. apply view_patch_app.
  - rewrite length_firstn. lia.
  - rewrite length_firstn, length_skipn. lia.
  - exact Hd.
Qed.

(** [Increment] adds one to the counter read as a big-endian number,
    modulo [256^len]: the counter of all [0xff] wraps to all zero.  The
    length is kept and the bytes stay bytes. *)
Theorem Increment_adds_one (st : Mem.store) (counter : Mem.slice) :
  wf st counter -> bytes (Mem.contents st counter) ->
  exists st',
    Mem.Increment counter st = (Ok tt, st') /\
    be_value (Mem.contents st' counter)
    = (be_value (Mem.contents st counter) + 1) mod 256 ^ Z.of_nat (Mem.len counter) /\
    bytes (Mem.contents st' counter) /\
    (forall a, a <> Mem.base counter -> Mem.mem st' a = Mem.mem st a).
Proof.
  intros Hwf Hb. pose proof (contents_length st counter Hwf) as HL.
  unfold Mem.Increment, Mem.mbind, Mem.read, Mem.write.
  eexists. split; [reflexivity|].
  set (cv := Mem.contents st counter) in *.
  assert (Hnew : Mem.contents
            {| Mem.next := Mem.next st;
               Mem.mem := Mem.upd (Mem.mem st) (Mem.base counter)
                 (Mem.patch (Mem.mem st (Mem.base counter)) (Mem.off counter)
                    (Mem.len counter) (Mem.increment cv)) |} counter
          = Mem.increment cv).
  { unfold Mem.contents. cbn [Mem.mem]. rewrite upd_same.
    apply view_patch; [apply Hwf|]. rewrite increment_length. exact HL. }
  rewrite Hnew. split; [|split].
  - unfold Mem.increment.
    rewrite increment_rev_value by (apply Forall_rev; exact Hb).
    rewrite rev_involutive, length_rev, HL. reflexivity.
  - unfold Mem.increment. apply Forall_rev. apply increment_rev_bytes.
    apply Forall_rev. exact Hb.
  - intros a Ha. cbn [Mem.mem]. apply upd_other. exact Ha.
Qed.

Lemma Increment_adds_one_witness :
  exists st',
    Mem.Increment (whole 0 [0; 255; 255]) (two_arrays [0; 255; 255] [])
    = (Ok tt, st') /\
    be_value (Mem.contents st' (whole 0 [0; 255; 255]))
    = (be_value (Mem.contents (two_arrays [0; 255; 255] []) (whole 0 [0; 255; 255])) + 1)
      mod 256 ^ Z.of_nat (Mem.len (whole 0 [0; 255; 255])) /\
    bytes (Mem.contents st' (whole 0 [0; 255; 255])) /\
    (forall a, a <> Mem.base (whole 0 [0; 255; 255]) ->
       Mem.mem st' a = Mem.mem (two_arrays [0; 255; 255] []) a).
Proof.
  apply Increment_adds_one.
  - split; vm_compute; lia.
  - apply bytes_check. vm_compute. reflexivity.
Defined.

(** ** OFB *)

Lemma ofb_blocks_fuel (E : list Z -> result (list Z)) (bs : nat) :
  (0 < bs)%nat ->
  forall n m reg P, (length P <= n)%nat -> (length P <= m)%nat ->
    ofb_blocks E bs n reg P = ofb_blocks E bs m reg P.
Proof.
  intros Hbs. induction n as [| n IH]; intros m reg P Hn Hm.
  - destruct P; [|cbn in Hn; lia]. destruct m; reflexivity.
  - destruct m as [| m].
    + destruct P; [reflexivity | cbn in Hm; lia].
    + cbn [ofb_blocks]. destruct P as [| x P]; [reflexivity|].
      destruct (E reg) as [ks | e |]; cbn [bind]; try reflexivity.
      rewrite (IH m); [reflexivity | |];
        rewrite length_skipn; cbn [length] in *; lia.
Qed.

Lemma patch_at_eq (done old rest data : list Z) (o n : nat) :
  o = length done -> n = length data -> length old = n ->
  Mem.patch (done ++ old ++ rest) o n data = done ++ data ++ rest.
Proof. intros -> -> H. apply patch_at. exact H. Qed.

Section OFB_refinement.
Import Mem.

Variable o : OFB.OFB.
Variable input : slice.
Variable st0 : store.
Variable IV : list Z.

Let blockSize : nat := cipher_BlockSize (OFB.cipher o).
Let E := cipher_Encrypt (OFB.cipher o).

Hypothesis o_holds : ofb_holds st0 o IV.
Hypothesis input_wf : wf st0 input.
Hypothesis E_blocks : returns_blocks E blockSize.
Hypothesis blockSize_pos : (0 < blockSize)%nat.

Let P : list Z := contents st0 input.
Let L : nat := len input.
Let out_addr : nat := next st0.
Let reg_addr : nat := S (next st0).
Let register : slice := mkSlice reg_addr 0 blockSize.
Let output : slice := mkSlice out_addr 0 L.

Let ofb_inv (R : result (list Z)) (i : nat) (st : store) : Prop :=
  extends st0 st /\ (reg_addr < next st)%nat /\
  exists done regv,
    i = length done /\ (i <= L)%nat /\
    mem st out_addr = done ++ repeat 0 (L - i) /\
    mem st reg_addr = regv /\ length regv = blockSize /\
    R = bind (ofb_blocks E blockSize (L - i) regv (skipn i P))
             (fun rest => Ok (done ++ rest)).

(** After the loop over the whole blocks less than a block is left. *)
Let ofb_mid (R : result (list Z)) (r : result nat) (st : store) : Prop :=
  match r with
  | Ok i => ofb_inv R i st /\ (L < i + blockSize)%nat
  | Err e => extends st0 st /\ (reg_addr < next st)%nat /\ R = Err e
  | Panic => extends st0 st /\ (reg_addr < next st)%nat /\ R = Panic
  end.

Let ofb_post (R : result (list Z)) (r : result unit) (st : store) : Prop :=
  extends st0 st /\ (reg_addr < next st)%nat /\
  match r with
  | Ok _ => R = Ok (mem st out_addr) /\ length (mem st out_addr) = L
  | Err e => R = Err e
  | Panic => R = Panic
  end.

Lemma ofb_P_length : length P = L.
Proof. apply contents_length. exact input_wf. Qed.

Lemma ofb_input_view (mm : nat -> list Z) (i n : nat) :
  (forall a, (a < next st0)%nat -> mm a = mem st0 a) ->
  (i + n <= L)%nat ->
  view (mm (base input)) (off input + i) n = firstn n (skipn i P).
Proof.
  intros Hmm Hn. destruct input_wf as [Hb _]. rewrite Hmm by exact Hb.
  apply view_sub. fold L. lia.
Qed.

Lemma ofb_encrypt_step (R : result (list Z)) (i : nat) (st : store) :
  ofb_inv R i st -> (i + blockSize <=? L)%nat = true ->
  match fst (OFB.encrypt_body o blockSize input register output i st) with
  | Ok _ => ofb_inv R (i + blockSize)
              (snd (OFB.encrypt_body o blockSize input register output i st))
  | Err e => ofb_mid R (Err e)
              (snd (OFB.encrypt_body o blockSize input register output i st))
  | Panic => ofb_mid R Panic
              (snd (OFB.encrypt_body o blockSize input register output i st))
  end.
Proof.
  intros (Hext & Hnext & done & regv & Hi & HiL & Hmem & Hreg & Hrlen & HR) Hle.
  apply Nat.leb_le in Hle.
  pose proof ofb_P_length as HP.
  assert (Hold : forall a, (a < next st0)%nat -> mem st a = mem st0 a)
    by (destruct Hext; assumption).
  assert (Hn0 : (next st0 <= next st)%nat) by (destruct Hext; assumption).
  unfold OFB.encrypt_body.
  rewrite run_call.
  assert (Hcv : contents st register = regv).
  { unfold contents, register. cbn [base off len]. rewrite Hreg.
    apply view_full. exact Hrlen. }
  rewrite Hcv.
  destruct (L - i)%nat as [| k] eqn:Hk; [lia|].
  cbn [ofb_blocks] in HR.
  destruct (skipn i P) as [| x rest] eqn:Hskip.
  { apply (f_equal (@length Z)) in Hskip. rewrite length_skipn in Hskip.
    cbn in Hskip. lia. }
  rewrite <- Hskip in *. clear x rest Hskip.
  fold E.
  destruct (E regv) as [ks | e |] eqn:HE; cbn [bind] in HR; cbn [fst snd ofb_mid].
  2: { split; [exact Hext | split; [exact Hnext | exact HR]]. }
  2: { split; [exact Hext | split; [exact Hnext | exact HR]]. }
  pose proof (E_blocks _ _ HE) as Hks.
  unfold output.
  rewrite run_sub by (cbn [len]; lia).
  rewrite run_sub by (fold L; lia).
  rewrite run_XORBytes by (cbn [len]; lia).
  unfold copy, mbind, read, write, contents.
  cbn [fst snd base off len next mem].
  unfold register. cbn [base off len].
  upd_simpl ltac:(unfold reg_addr, out_addr in *; lia).
  replace (i + blockSize - i)%nat with blockSize by lia.
  rewrite (ofb_input_view _ i blockSize)
    by (try lia; intros a Ha; upd_simpl ltac:(unfold reg_addr, out_addr in *; lia);
        apply Hold; exact Ha).
  rewrite view_all, Hreg, Hmem.
  rewrite (patch_full regv ks) by lia.
  set (X := xor_lists (firstn blockSize (skipn i P)) ks).
  assert (HX : length X = blockSize).
  { unfold X. rewrite xor_lists_length, length_firstn, length_skipn. lia. }
  split; [|split].
  - split; [cbn [next]; lia|]. intros a Ha. cbn [mem].
    upd_simpl ltac:(unfold reg_addr, out_addr in *; lia).
    apply Hold. exact Ha.
  - cbn [next]. lia.
  - exists (done ++ X), ks. cbn [mem].
    upd_simpl ltac:(unfold reg_addr, out_addr in *; lia).
    split; [rewrite length_app; lia|]. split; [lia|]. split; [|split; [|split]].
    + replace (S k) with (blockSize + (L - (i + blockSize)))%nat by lia.
      rewrite repeat_add.
      rewrite (patch_at_eq done (repeat 0 blockSize) _ X)
        by (rewrite ?repeat_length; lia).
      rewrite <- app_assoc. reflexivity.
    + reflexivity.
    + exact Hks.
    + rewrite HR. rewrite skipn_skipn. fold X.
      replace (blockSize + i)%nat with (i + blockSize)%nat by lia.
      rewrite (ofb_blocks_fuel E blockSize blockSize_pos k (L - (i + blockSize)))
        by (rewrite length_skipn; lia).
      destruct (ofb_blocks E blockSize (L - (i + blockSize)) ks (skipn (i + blockSize) P))
        as [rest | e |]; cbn [bind]; [rewrite <- app_assoc|..]; reflexivity.
Qed.

Lemma ofb_blocks_nil (n : nat) (reg : list Z) :
  ofb_blocks E blockSize n reg [] = Ok [].
Proof. destruct n; reflexivity. Qed.

Lemma ofb_encrypt_tail (R : result (list Z)) (i : nat) (st : store) :
  ofb_inv R i st -> (L < i + blockSize)%nat ->
  ofb_post R (fst (OFB.encrypt_tail o input register output i st))
             (snd (OFB.encrypt_tail o input register output i st)).
Proof.
  intros (Hext & Hnext & done & regv & Hi & HiL & Hmem & Hreg & Hrlen & HR) Hlt.
  pose proof ofb_P_length as HP.
  assert (Hold : forall a, (a < next st0)%nat -> mem st a = mem st0 a)
    by (destruct Hext; assumption).
  assert (Hn0 : (next st0 <= next st)%nat) by (destruct Hext; assumption).
  unfold OFB.encrypt_tail. fold L.
  destruct (i <? L)%nat eqn:HiL'.
  2: { apply Nat.ltb_ge in HiL'. assert (Hz : (L - i = 0)%nat) by lia.
       rewrite Hz in Hmem, HR. cbn [repeat ofb_blocks bind] in Hmem, HR.
       rewrite app_nil_r in Hmem, HR. unfold ret. cbn [fst snd].
       split; [exact Hext | split; [exact Hnext|]]. rewrite Hmem.
       split; [exact HR | lia]. }
  apply Nat.ltb_lt in HiL'.
  rewrite run_call.
  assert (Hcv : contents st register = regv).
  { unfold contents, register. cbn [base off len]. rewrite Hreg.
    apply view_full. exact Hrlen. }
  rewrite Hcv.
  destruct (L - i)%nat as [| k] eqn:Hk; [lia|].
  cbn [ofb_blocks] in HR.
  destruct (skipn i P) as [| x rest] eqn:Hskip.
  { apply (f_equal (@length Z)) in Hskip. rewrite length_skipn in Hskip.
    cbn in Hskip. lia. }
  rewrite <- Hskip in *. clear x rest Hskip.
  fold E.
  destruct (E regv) as [ks | e |] eqn:HE; cbn [bind] in HR; cbn [fst snd].
  2: { split; [exact Hext | split; [exact Hnext | exact HR]]. }
  2: { split; [exact Hext | split; [exact Hnext | exact HR]]. }
  pose proof (E_blocks _ _ HE) as Hks.
  unfold output. cbn [len].
  rewrite run_sub by (cbn [len]; lia).
  rewrite run_sub by (fold L; lia).
  unfold XORBytes, mbind, read, write, contents, ret. fold L.
  cbn [fst snd base off len next mem].
  assert (Elen : (L - i <? Nat.min (L - i) (length ks))%nat = false)
    by (apply Nat.ltb_ge; lia).
  rewrite Elen. cbn [fst snd next mem].
  upd_simpl ltac:(unfold reg_addr, out_addr in *; lia).
  rewrite (ofb_input_view _ i (L - i))
    by (try lia; intros a Ha; upd_simpl ltac:(unfold reg_addr, out_addr in *; lia);
        apply Hold; exact Ha).
  rewrite view_all, Hmem.
  assert (Hwhole : firstn (L - i) (skipn i P) = skipn i P)
    by (apply firstn_all2; rewrite length_skipn; lia).
  assert (Hfirst : firstn blockSize (skipn i P) = skipn i P)
    by (apply firstn_all2; rewrite length_skipn; lia).
  assert (Hnone : skipn blockSize (skipn i P) = [])
    by (apply skipn_all2; rewrite length_skipn; lia).
  rewrite Hwhole. rewrite Hfirst, Hnone, ofb_blocks_nil in HR. cbn [bind] in HR.
  rewrite app_nil_r in HR.
  set (X := xor_lists (skipn i P) ks) in *.
  assert (HX : length X = (L - i)%nat).
  { unfold X. rewrite xor_lists_length, length_skipn. lia. }
  split; [|split].
  - split; [cbn [next]; lia|]. intros a Ha. cbn [mem].
    upd_simpl ltac:(unfold reg_addr, out_addr in *; lia).
    apply Hold. exact Ha.
  - cbn [next]. lia.
  - cbn [mem]. upd_simpl ltac:(unfold reg_addr, out_addr in *; lia).
    replace (done ++ repeat 0 (S k)) with (done ++ repeat 0 (S k) ++ [])
      by (rewrite app_nil_r; reflexivity).
    rewrite (patch_at_eq done (repeat 0 (S k)) [] X)
      by (rewrite ?repeat_length; lia).
    rewrite app_nil_r. split; [exact HR|].
    rewrite length_app. lia.
Qed.

Lemma ofb_IV_length : length IV = blockSize.
Proof.
  destruct o_holds as (Hwf & Hlen & Hc). rewrite <- Hc.
  unfold blockSize. rewrite <- Hlen.
  apply contents_length. exact Hwf.
Qed.

(** [Encrypt] computes [ofb_bytes] of the stored IV and the input into a
    new array and writes to no array that existed before. *)
Lemma OFB_Encrypt_refines :
  extends st0 (snd (OFB.Encrypt o input st0)) /\
  outcome (OFB.Encrypt o input st0) = ofb_bytes E blockSize IV P /\
  (forall out, fst (OFB.Encrypt o input st0) = Ok out ->
     fresh st0 (snd (OFB.Encrypt o input st0)) out /\ len out = L).
Proof.
  pose proof ofb_P_length as HP. pose proof ofb_IV_length as Hc0.
  unfold OFB.Encrypt, ofb_bytes. cbv zeta. rewrite HP.
  change (cipher_BlockSize (OFB.cipher o)) with blockSize. fold L.
  rewrite run_make. rewrite run_make. rewrite run_copy.
  cbn [base off len next mem].
  change (S (next st0)) with reg_addr. fold out_addr.
  assert (Hcc : forall nn mm,
            (forall a, (a < next st0)%nat -> mm a = mem st0 a) ->
            contents {| next := nn; mem := mm |} (OFB.iv o) = IV).
  { intros nn mm Hmm. destruct o_holds as ((Hb & _) & _ & Hc). rewrite <- Hc.
    unfold contents. cbn [mem]. rewrite Hmm by exact Hb. reflexivity. }
  rewrite Hcc by (intros a Ha; upd_simpl ltac:(unfold reg_addr, out_addr in *; lia);
                  reflexivity).
  upd_simpl ltac:(unfold reg_addr, out_addr in *; lia).
  rewrite (patch_full _ IV) by (rewrite ?repeat_length; auto).
  fold register. fold output.
  match goal with
  | |- context [mbind (for_loop _ _ _ _ _) _ ?s] => set (st1 := s)
  end.
  set (R := ofb_blocks E blockSize L IV P).
  pose proof (for_loop_rule (ofb_inv R) (ofb_mid R) L
                (fun i => (i + blockSize <=? L)%nat)
                (fun i => (i + blockSize)%nat)
                (OFB.encrypt_body o blockSize input register output)) as Hloop.
  specialize (Hloop ltac:(intros i Hc; cbv beta in *; apply Nat.leb_le in Hc; lia)).
  specialize (Hloop ltac:(intros i st Hinv Hc; apply ofb_encrypt_step; assumption)).
  specialize (Hloop ltac:(
    intros i st Hinv Hc; cbv beta in Hc; apply Nat.leb_gt in Hc;
    split; [exact Hinv | lia])).
  specialize (Hloop (S L) 0%nat st1 ltac:(lia)).
  assert (Hinv0 : ofb_inv R 0 st1).
  { split; [|split].
    - split; [cbn; unfold out_addr, reg_addr; lia|]. intros a Ha. unfold st1. cbn [mem].
      upd_simpl ltac:(unfold reg_addr, out_addr in *; lia). reflexivity.
    - cbn. unfold reg_addr. lia.
    - exists [], IV. cbn [length app skipn].
      split; [reflexivity|]. split; [lia|]. unfold st1. cbn [mem].
      upd_simpl ltac:(unfold reg_addr, out_addr in *; lia).
      rewrite Nat.sub_0_r.
      split; [reflexivity|]. split; [reflexivity|]. split; [exact Hc0|].
      unfold R. destruct (ofb_blocks E blockSize L IV P); reflexivity. }
  specialize (Hloop Hinv0).
  unfold mbind.
  destruct (for_loop (S L) (fun i => (i + blockSize <=? L)%nat)
              (fun i => (i + blockSize)%nat)
              (OFB.encrypt_body o blockSize input register output) 0 st1)
    as [[i | e |] st2]; cbn [fst snd ofb_mid] in Hloop.
  2: { destruct Hloop as (Hext & Hnext & HR). cbn [fst snd].
       split; [exact Hext|]. split; [symmetry; exact HR|]. intros out H. discriminate. }
  2: { destruct Hloop as (Hext & Hnext & HR). cbn [fst snd].
       split; [exact Hext|]. split; [symmetry; exact HR|]. intros out H. discriminate. }
  destruct Hloop as [Hinv Hlt].
  pose proof (ofb_encrypt_tail R i st2 Hinv Hlt) as Htail.
  unfold mbind, ret.
  destruct (OFB.encrypt_tail o input register output i st2) as [[u | e |] st3];
    cbn [fst snd] in Htail; destruct Htail as (Hext & Hnext & Hres); cbn [fst snd];
    (split; [exact Hext|]).
  - destruct Hres as [HR Hlen]. split.
    + unfold outcome. cbn [fst snd]. unfold contents, output. cbn [base off len].
      pose proof (view_all (mem st3 out_addr)) as Hv. rewrite Hlen in Hv.
      rewrite Hv. symmetry. exact HR.
    + intros out Hout. apply Ok_inj in Hout. subst out. split; [|reflexivity].
      split; [unfold output, out_addr; cbn [base]; lia|].
      split; unfold output; cbn [base off len]; [unfold reg_addr, out_addr in *; lia | lia].
  - split; [symmetry; exact Hres|]. intros out H. discriminate.
  - split; [symmetry; exact Hres|]. intros out H. discriminate.
Qed.

End OFB_refinement.

Lemma ofb_blocks_involution (E : list Z -> result (list Z)) (bs : nat) :
  (0 < bs)%nat -> returns_blocks E bs ->
  (forall b, length b = bs -> exists k, E b = Ok k) ->
  forall n reg P, length reg = bs -> (length P <= n)%nat ->
    exists Ct, ofb_blocks E bs n reg P = Ok Ct /\ length Ct = length P /\
               ofb_blocks E bs n reg Ct = Ok P.
Proof.
  intros Hbs HE Htot. induction n as [| n IH]; intros reg P Hc HP.
  - destruct P; [|cbn in HP; lia]. exists []. repeat split.
  - destruct P as [| x P]; [exists []; repeat split|].
    set (Q := x :: P) in *.
    destruct (Htot reg Hc) as [ks Hks]. pose proof (HE _ _ Hks) as Hkl.
    destruct (IH ks (skipn bs Q)) as (Ct & HCt & HCl & HCi).
    { exact Hkl. }
    { rewrite length_skipn. unfold Q in *. cbn [length] in *. lia. }
    set (X := Mem.xor_lists (firstn bs Q) ks).
    assert (HX : length X = Nat.min bs (length Q)).
    { unfold X. rewrite xor_lists_length, length_firstn. lia. }
    exists (X ++ Ct).
    assert (Henc : ofb_blocks E bs (S n) reg Q = Ok (X ++ Ct)).
    { unfold Q. cbn [ofb_blocks]. fold Q. rewrite Hks. cbn [bind].
      rewrite HCt. reflexivity. }
    split; [exact Henc|]. split.
    { rewrite length_app, HX, HCl, length_skipn. lia. }
    assert (Hne : exists y Y, X ++ Ct = y :: Y).
    { destruct X as [| y X']; [cbn in HX; unfold Q in HX; cbn [length] in HX; lia|].
      exists y, (X' ++ Ct). reflexivity. }
    destruct Hne as (y & Y & Hy).
    assert (Hf : firstn bs (X ++ Ct) = X /\ skipn bs (X ++ Ct) = Ct).
    { destruct (Nat.le_ge_cases bs (length Q)) as [Hle | Hge].
      - rewrite Nat.min_l in HX by exact Hle.
        split; [apply firstn_exact | apply skipn_exact]; exact HX.
      - rewrite Nat.min_r in HX by exact Hge.
        rewrite length_skipn in HCl.
        assert (Ct = []) by (apply length_zero_iff_nil; lia).
        subst Ct. rewrite app_nil_r.
        split; [apply firstn_all2 | apply skipn_all2]; lia. }
    destruct Hf as [Hf1 Hf2].
    cbn [ofb_blocks]. rewrite Hy. rewrite <- Hy. rewrite Hks. cbn [bind].
    rewrite Hf1, Hf2, HCi. cbn [bind].
    unfold X. rewrite xor_lists_cancel_le by (rewrite length_firstn; lia).
    rewrite firstn_skipn. reflexivity.
Qed.

Lemma NewOFB_holds (C : BlockCipher) (st : Mem.store) (iv0 : Mem.slice) :
  wf st iv0 -> Mem.len iv0 = cipher_BlockSize C ->
  exists o st1,
    OFB.NewOFB C iv0 st = (Ok o, st1) /\
    OFB.cipher o = C /\
    ofb_holds st1 o (Mem.contents st iv0) /\
    extends st st1.
Proof.
  intros Hwf Hlen. unfold OFB.NewOFB.
  assert (E : (Mem.len iv0 =? cipher_BlockSize C)%nat = true)
    by (apply Nat.eqb_eq; exact Hlen).
  rewrite E. cbn [negb].
  rewrite run_make, run_copy. unfold Mem.ret.
  eexists. eexists. split; [reflexivity|]. split; [reflexivity|].
  pose proof (contents_length st iv0 Hwf) as HL.
  destruct Hwf as [Hb Ho].
  assert (Hc : Mem.contents
                 {| Mem.next := S (Mem.next st);
                    Mem.mem := Mem.upd (Mem.mem st) (Mem.next st)
                                 (repeat 0 (Mem.len iv0)) |} iv0
               = Mem.contents st iv0).
  { unfold Mem.contents. cbn [Mem.mem]. rewrite upd_other by lia. reflexivity. }
  rewrite Hc. cbn [Mem.base Mem.off Mem.len Mem.next Mem.mem]. rewrite !upd_same.
  rewrite (patch_full _ (Mem.contents st iv0)) by (rewrite ?repeat_length; auto).
  unfold ofb_holds, wf.
  cbn [OFB.iv OFB.cipher Mem.base Mem.off Mem.len Mem.next Mem.mem].
  split.
  - split; [|split].
    + split; [lia|]. rewrite upd_same. lia.
    + exact Hlen.
    + unfold Mem.contents at 1. cbn [Mem.base Mem.off Mem.len Mem.mem].
      rewrite upd_same. apply view_full. exact HL.
  - split; cbn [Mem.next Mem.mem]; [lia|]. intros a Ha.
    rewrite !upd_other by lia. reflexivity.
Qed.

Lemma ofb_holds_frame (st st' : Mem.store) (o : OFB.OFB) (IV : list Z) :
  ofb_holds st o IV -> extends st st' -> ofb_holds st' o IV.
Proof.
  intros (Hwf & Hlen & Hc) Hext. split; [|split].
  - apply (extends_wf st); assumption.
  - exact Hlen.
  - rewrite <- Hc. apply extends_contents; [exact Hext | apply Hwf].
Qed.

(** OFB: [NewOFB] with an IV of one block succeeds and, for a cipher that
    encrypts every block into a block, [Decrypt] returns the bytes that
    [Encrypt] was given, for a plaintext of every length; the stored IV is
    unchanged by the calls, and the ciphertext is as long as the
    plaintext. *)
Theorem OFB_round_trip (C : BlockCipher) (st : Mem.store) (iv0 p : Mem.slice) :
  (0 < cipher_BlockSize C)%nat ->
  returns_blocks (cipher_Encrypt C) (cipher_BlockSize C) ->
  (forall b, length b = cipher_BlockSize C -> exists k, cipher_Encrypt C b = Ok k) ->
  wf st iv0 -> wf st p ->
  Mem.len iv0 = cipher_BlockSize C ->
  exists o st1 ct st2 pt st3,
    OFB.NewOFB C iv0 st = (Ok o, st1) /\
    OFB.Encrypt o p st1 = (Ok ct, st2) /\
    OFB.Decrypt o ct st2 = (Ok pt, st3) /\
    Mem.len ct = Mem.len p /\
    Mem.contents st3 pt = Mem.contents st p /\
    ofb_holds st3 o (Mem.contents st iv0).
Proof.
  intros Hbs HE Htot Hwc Hwp Hlen.
  destruct (NewOFB_holds C st iv0 Hwc Hlen) as (o & st1 & Hnew & Hcc & Hholds & Hext0).
  pose proof (contents_length st iv0 Hwc) as HLc. rewrite Hlen in HLc.
  destruct (ofb_blocks_involution _ _ Hbs HE Htot (length (Mem.contents st p))
              (Mem.contents st iv0) (Mem.contents st p) HLc (Nat.le_refl _))
    as (Ct & HCt & HCl & HCi).
  assert (Hwp1 : wf st1 p) by (apply (extends_wf st); assumption).
  assert (Hp1 : Mem.contents st1 p = Mem.contents st p)
    by (apply extends_contents; [assumption | apply Hwp]).
  destruct (OFB_Encrypt_refines o p st1 _ Hholds Hwp1) as (Hext1 & Hout1 & Hfresh1).
  { rewrite Hcc. exact HE. }
  { rewrite Hcc. exact Hbs. }
  rewrite Hcc, Hp1 in Hout1. unfold ofb_bytes in Hout1.
  rewrite HCt in Hout1. apply outcome_Ok in Hout1.
  destruct Hout1 as (ct & Hrun1 & Hct).
  set (st2 := snd (OFB.Encrypt o p st1)) in *.
  rewrite Hrun1 in Hfresh1. cbn [fst] in Hfresh1.
  destruct (Hfresh1 ct eq_refl) as ((_ & Hwf2) & Hlen2).
  pose proof (ofb_holds_frame _ _ _ _ Hholds Hext1) as Hholds2.
  unfold OFB.Decrypt.
  destruct (OFB_Encrypt_refines o ct st2 _ Hholds2 Hwf2) as (Hext2 & Hout2 & _).
  { rewrite Hcc. exact HE. }
  { rewrite Hcc. exact Hbs. }
  rewrite Hcc, Hct in Hout2. unfold ofb_bytes in Hout2.
  rewrite HCl, HCi in Hout2. apply outcome_Ok in Hout2.
  destruct Hout2 as (pt & Hrun2 & Hpt).
  exists o, st1, ct, st2, pt, (snd (OFB.Encrypt o ct st2)).
  split; [exact Hnew|]. split; [exact Hrun1|]. split; [exact Hrun2|].
  split; [exact Hlen2|]. split; [exact Hpt|].
  apply (ofb_holds_frame st2); assumption.
Qed.

Lemma OFB_round_trip_witness :
  exists o st1 ct st2 pt st3,
    OFB.NewOFB (RC5_cipher example_RC5) (whole 0 example_iv) example_store'
    = (Ok o, st1) /\
    OFB.Encrypt o (whole 1 example_text) st1 = (Ok ct, st2) /\
    OFB.Decrypt o ct st2 = (Ok pt, st3) /\
    Mem.len ct = Mem.len (whole 1 example_text) /\
    Mem.contents st3 pt = Mem.contents example_store' (whole 1 example_text) /\
    ofb_holds st3 o (Mem.contents example_store' (whole 0 example_iv)).
Proof.
  apply OFB_round_trip.
  - vm_compute. lia.
  - apply example_RC5_ok.
  - exact example_RC5_total.
  - apply example_store'_wf.
  - apply example_store'_wf.
  - vm_compute. reflexivity.
Defined.

(** ** CFB *)

Lemma patch_length (buf data : list Z) (o n : nat) :
  (o + Nat.min n (length data) <= length buf)%nat ->
  length (Mem.patch buf o n data) = length buf.
Proof.
  intros H. unfold Mem.patch. cbv zeta.
  rewrite !length_app, !length_firstn, length_skipn. lia.
Qed.

Lemma cfb_feedback_length (bs seg : nat) (reg fed : list Z) :
  length reg = bs -> (seg <= bs)%nat -> (length fed <= seg)%nat ->
  length (cfb_feedback bs seg reg fed) = bs.
Proof.
  intros Hr Hs Hf. unfold cfb_feedback.
  destruct (seg <? bs)%nat eqn:E.
  - apply Nat.ltb_lt in E.
    rewrite patch_length; rewrite patch_length; unfold Mem.view;
      rewrite ?length_firstn, ?length_skipn; lia.
  - apply Nat.ltb_ge in E. rewrite patch_length; lia.
Qed.

Lemma cfb_blocks_fuel (E : list Z -> result (list Z)) (bs seg : nat) (d : bool) :
  (0 < seg)%nat ->
  forall n m reg P, (length P <= n)%nat -> (length P <= m)%nat ->
    cfb_blocks E bs seg d n reg P = cfb_blocks E bs seg d m reg P.
Proof.
  intros Hbs. induction n as [| n IH]; intros m reg P Hn Hm.
  - destruct P; [|cbn in Hn; lia]. destruct m; reflexivity.
  - destruct m as [| m].
    + destruct P; [reflexivity | cbn in Hm; lia].
    + cbn [cfb_blocks]. destruct P as [| x P]; [reflexivity|].
      destruct (E reg) as [ks | e |]; cbn [bind]; try reflexivity.
      cbv zeta.
      rewrite (IH m); [reflexivity | |];
        rewrite length_skipn; cbn [length] in *; lia.
Qed.

Section CFB_refinement.
Import Mem.

Variable c : CFB.CFB.
Variable decrypt : bool.
Variable input : slice.
Variable st0 : store.
Variable IV : list Z.

Let blockSize : nat := cipher_BlockSize (CFB.cipher c).
Let seg : nat := CFB.segmentSize c.
Let E := cipher_Encrypt (CFB.cipher c).

Hypothesis c_holds : cfb_holds st0 c IV.
Hypothesis input_wf : wf st0 input.
Hypothesis E_blocks : returns_blocks E blockSize.

Let P : list Z := contents st0 input.
Let L : nat := len input.
Let out_addr : nat := next st0.
Let reg_addr : nat := S (next st0).
Let register : slice := mkSlice reg_addr 0 blockSize.
Let output : slice := mkSlice out_addr 0 L.

Let cfb_inv (R : result (list Z)) (i : nat) (st : store) : Prop :=
  extends st0 st /\ (reg_addr < next st)%nat /\
  exists done regv,
    length done = Nat.min i L /\
    mem st out_addr = done ++ repeat 0 (L - i) /\
    mem st reg_addr = regv /\ length regv = blockSize /\
    R = bind (cfb_blocks E blockSize seg decrypt (L - i) regv (skipn i P))
             (fun rest => Ok (done ++ rest)).

Let cfb_post (R : result (list Z)) (r : result nat) (st : store) : Prop :=
  extends st0 st /\ (reg_addr < next st)%nat /\
  match r with
  | Ok _ => R = Ok (mem st out_addr) /\ length (mem st out_addr) = L
  | Err e => R = Err e
  | Panic => R = Panic
  end.

Lemma cfb_P_length : length P = L.
Proof. apply contents_length. exact input_wf. Qed.

Lemma cfb_seg : (0 < seg <= blockSize)%nat.
Proof. destruct c_holds as (_ & _ & _ & H). exact H. Qed.

Lemma cfb_input_view (mm : nat -> list Z) (i n : nat) :
  (forall a, (a < next st0)%nat -> mm a = mem st0 a) ->
  (i + n <= L)%nat ->
  view (mm (base input)) (off input + i) n = firstn n (skipn i P).
Proof.
  intros Hmm Hn. destruct input_wf as [Hb _]. rewrite Hmm by exact Hb.
  apply view_sub. fold L. lia.
Qed.

Lemma cfb_step (R : result (list Z)) (i : nat) (st : store) :
  cfb_inv R i st -> (i <? L)%nat = true ->
  match fst (CFB.body c decrypt blockSize input register output i st) with
  | Ok _ => cfb_inv R (i + seg)
              (snd (CFB.body c decrypt blockSize input register output i st))
  | Err e => cfb_post R (Err e)
              (snd (CFB.body c decrypt blockSize input register output i st))
  | Panic => cfb_post R Panic
              (snd (CFB.body c decrypt blockSize input register output i st))
  end.
Proof.
  intros (Hext & Hnext & done & regv & Hi & Hmem & Hreg & Hrlen & HR) Hlt.
  apply Nat.ltb_lt in Hlt. rewrite Nat.min_l in Hi by lia.
  pose proof cfb_P_length as HP. pose proof cfb_seg as Hseg.
  assert (Hold : forall a, (a < next st0)%nat -> mem st a = mem st0 a)
    by (destruct Hext; assumption).
  assert (Hn0 : (next st0 <= next st)%nat) by (destruct Hext; assumption).
  set (n := CTR.chunk seg L i).
  assert (Hn : n = Nat.min seg (L - i)).
  { unfold n, CTR.chunk. destruct (L <? i + seg)%nat eqn:Hc;
      [apply Nat.ltb_lt in Hc | apply Nat.ltb_ge in Hc]; lia. }
  unfold CFB.body. fold L. fold seg. fold n.
  rewrite run_call.
  assert (Hcv : contents st register = regv).
  { unfold contents, register. cbn [base off len]. rewrite Hreg.
    apply view_full. exact Hrlen. }
  rewrite Hcv.
  destruct (L - i)%nat as [| k] eqn:Hk; [lia|].
  cbn [cfb_blocks] in HR.
  destruct (skipn i P) as [| x rest] eqn:Hskip.
  { apply (f_equal (@length Z)) in Hskip. rewrite length_skipn in Hskip.
    cbn in Hskip. lia. }
  rewrite <- Hskip in *. clear x rest Hskip.
  fold E.
  destruct (E regv) as [enc | e |] eqn:HE; cbn [bind] in HR; cbn [fst snd].
  2: { split; [exact Hext | split; [exact Hnext | exact HR]]. }
  2: { split; [exact Hext | split; [exact Hnext | exact HR]]. }
  pose proof (E_blocks _ _ HE) as Henc.
  cbv zeta in HR.
  assert (Hchunk : firstn seg (skipn i P) = firstn n (skipn i P)).
  { rewrite Hn. destruct (Nat.le_ge_cases seg (S k)).
    - rewrite Nat.min_l by lia. reflexivity.
    - rewrite Nat.min_r by lia.
      rewrite !firstn_all2 by (rewrite length_skipn; lia). reflexivity. }
  rewrite Hchunk in HR.
  set (chunk := firstn n (skipn i P)) in *.
  assert (Hcl : length chunk = n).
  { unfold chunk. rewrite length_firstn, length_skipn. lia. }
  rewrite Hcl in HR.
  set (out := xor_lists chunk (firstn n enc)) in *.
  assert (Hol : length out = n).
  { unfold out. rewrite xor_lists_length, length_firstn. lia. }
  unfold output.
  rewrite run_sub by (cbn [len]; lia).
  rewrite run_sub by (fold L; lia).
  rewrite run_sub by (cbn [len]; lia).
  rewrite run_XORBytes by (cbn [len]; lia).
  unfold contents. cbn [base off len next mem Nat.add].
  upd_simpl ltac:(unfold reg_addr, out_addr in *; lia).
  replace (i + n - i)%nat with n by lia. rewrite Nat.sub_0_r.
  rewrite (cfb_input_view _ i n)
    by (try lia; intros a Ha; upd_simpl ltac:(unfold reg_addr, out_addr in *; lia);
        apply Hold; exact Ha).
  fold chunk.
  assert (Hv : view enc 0 n = firstn n enc) by reflexivity.
  rewrite Hv. fold out. rewrite Hmem.
  replace (S k) with (n + (S k - n))%nat by lia. rewrite repeat_add.
  rewrite (patch_at_eq done (repeat 0 n) _ out) by (rewrite ?repeat_length; lia).
  set (zeros := repeat 0 (S k - n)).
  set (st2 := {| next := S (next st);
                 mem := upd (upd (mem st) (next st) enc) out_addr
                          (done ++ out ++ zeros) |}).
  assert (Hext2 : extends st0 st2).
  { split; [cbn [next st2]; lia|]. intros a Ha. unfold st2. cbn [mem].
    upd_simpl ltac:(unfold reg_addr, out_addr in *; lia). apply Hold. exact Ha. }
  set (segslice := {| base := base (if decrypt then input
                                     else {| base := out_addr; off := 0; len := L |});
                      off := off (if decrypt then input
                                  else {| base := out_addr; off := 0; len := L |}) + i;
                      len := n |}).
  assert (Hfed : forall st', (forall a, a <> reg_addr -> mem st' a = mem st2 a) ->
            contents st' segslice = if decrypt then chunk else out).
  { intros st' Hst'. unfold contents, segslice. cbn [base off len].
    destruct decrypt; cbn [base off len].
    - apply cfb_input_view; [|lia]. intros a Ha.
      rewrite Hst' by (unfold reg_addr; lia). destruct Hext2 as [_ H]. apply H. exact Ha.
    - rewrite Hst' by (unfold reg_addr, out_addr; lia).
      unfold st2. cbn [mem Nat.add]. rewrite upd_same.
      rewrite <- Hi, <- Hol. unfold view.
      rewrite skipn_exact by reflexivity. apply firstn_exact. reflexivity. }
  set (fed := if decrypt then chunk else out) in *.
  assert (Hfl : length fed = n) by (unfold fed; destruct decrypt; assumption).
  rewrite run_sub by (destruct decrypt; cbn [len]; fold L; lia).
  replace (i + n - i)%nat with n by lia. fold segslice.
  unfold CFB.feedback. fold seg.
  assert (Hinv' : forall st3,
            next st3 = S (next st) ->
            (forall a, a <> reg_addr -> mem st3 a = mem st2 a) ->
            mem st3 reg_addr = cfb_feedback blockSize seg regv fed ->
            cfb_inv R (i + seg) st3).
  { intros st3 Hnx Hoth Hrg. split; [|split].
    - split; [rewrite Hnx; lia|]. intros a Ha.
      rewrite Hoth by (unfold reg_addr; lia). destruct Hext2 as [_ H]. apply H. exact Ha.
    - rewrite Hnx. lia.
    - exists (done ++ out), (cfb_feedback blockSize seg regv fed).
      rewrite Hoth by (unfold reg_addr, out_addr; lia).
      unfold st2. cbn [mem]. rewrite upd_same.
      split; [rewrite length_app; lia|]. split.
      { unfold zeros. rewrite <- app_assoc. do 3 f_equal. lia. }
      split; [exact Hrg|]. split; [apply cfb_feedback_length; lia|].
      rewrite HR. rewrite skipn_skipn.
      replace (seg + i)%nat with (i + seg)%nat by lia.
      rewrite (cfb_blocks_fuel E blockSize seg decrypt ltac:(lia) k (L - (i + seg)))
        by (rewrite length_skipn; lia).
      destruct (cfb_blocks E blockSize seg decrypt (L - (i + seg))
                  (cfb_feedback blockSize seg regv fed) (skipn (i + seg) P))
        as [rest | e |]; cbn [bind]; [rewrite <- app_assoc|..]; reflexivity. }
  assert (Hreg2 : mem st2 reg_addr = regv).
  { unfold st2. cbn [mem]. upd_simpl ltac:(unfold reg_addr, out_addr in *; lia).
    exact Hreg. }
  destruct (seg <? blockSize)%nat eqn:Hsb.
  - apply Nat.ltb_lt in Hsb. unfold register.
    rewrite run_sub by (cbn [len]; lia).
    rewrite run_copy.
    rewrite run_sub by (cbn [len]; lia).
    unfold copy, mbind, read, write. cbn [fst snd base off len next mem Nat.add].
    fold st2.
    apply Hinv'.
    + reflexivity.
    + intros a Ha. cbn [mem]. rewrite !upd_other by exact Ha. reflexivity.
    + cbn [mem]. rewrite !upd_same. rewrite Hreg2.
      rewrite Hfed by (intros a Ha; cbn [mem]; rewrite upd_other by exact Ha; reflexivity).
      unfold cfb_feedback.
      assert (E1 : (seg <? blockSize)%nat = true) by (apply Nat.ltb_lt; exact Hsb).
      rewrite E1. unfold contents. cbn [base off len mem]. rewrite Hreg2. reflexivity.
  - apply Nat.ltb_ge in Hsb.
    unfold copy, mbind, read, write, register. cbn [fst snd base off len next mem].
    fold st2.
    apply Hinv'.
    + reflexivity.
    + intros a Ha. cbn [mem]. rewrite !upd_other by exact Ha. reflexivity.
    + cbn [mem]. rewrite !upd_same. rewrite Hreg2.
      rewrite Hfed by (intros a Ha; reflexivity).
      unfold cfb_feedback.
      assert (E1 : (seg <? blockSize)%nat = false) by (apply Nat.ltb_ge; exact Hsb).
      rewrite E1. reflexivity.
Qed.

Lemma cfb_IV_length : length IV = blockSize.
Proof.
  destruct c_holds as (Hwf & Hlen & Hc & _). rewrite <- Hc.
  unfold blockSize. rewrite <- Hlen.
  apply contents_length. exact Hwf.
Qed.

(** [Encrypt] and [Decrypt] compute [cfb_bytes] of the stored IV and the
    input into a new array and write to no array that existed before. *)
Lemma CFB_crypt_refines :
  extends st0 (snd (CFB.crypt c decrypt input st0)) /\
  outcome (CFB.crypt c decrypt input st0)
  = cfb_bytes E blockSize seg decrypt IV P /\
  (forall out, fst (CFB.crypt c decrypt input st0) = Ok out ->
     fresh st0 (snd (CFB.crypt c decrypt input st0)) out /\ len out = L).
Proof.
  pose proof cfb_P_length as HP. pose proof cfb_IV_length as Hc0.
  pose proof cfb_seg as Hseg.
  unfold CFB.crypt, cfb_bytes. cbv zeta. rewrite HP.
  change (cipher_BlockSize (CFB.cipher c)) with blockSize. fold L. fold seg.
  rewrite run_make. rewrite run_make. rewrite run_copy.
  cbn [base off len next mem].
  change (S (next st0)) with reg_addr. fold out_addr.
  assert (Hcc : forall nn mm,
            (forall a, (a < next st0)%nat -> mm a = mem st0 a) ->
            contents {| next := nn; mem := mm |} (CFB.iv c) = IV).
  { intros nn mm Hmm. destruct c_holds as ((Hb & _) & _ & Hc & _). rewrite <- Hc.
    unfold contents. cbn [mem]. rewrite Hmm by exact Hb. reflexivity. }
  rewrite Hcc by (intros a Ha; upd_simpl ltac:(unfold reg_addr, out_addr in *; lia);
                  reflexivity).
  upd_simpl ltac:(unfold reg_addr, out_addr in *; lia).
  rewrite (patch_full _ IV) by (rewrite ?repeat_length; auto).
  fold register. fold output.
  match goal with
  | |- context [mbind (for_loop _ _ _ _ _) _ ?s] => set (st1 := s)
  end.
  set (R := cfb_blocks E blockSize seg decrypt L IV P).
  pose proof (for_loop_rule (cfb_inv R) (cfb_post R) L
                (fun i => (i <? L)%nat)
                (fun i => (i + seg)%nat)
                (CFB.body c decrypt blockSize input register output)) as Hloop.
  specialize (Hloop ltac:(intros i Hc; cbv beta in *; apply Nat.ltb_lt in Hc; lia)).
  specialize (Hloop ltac:(intros i st Hinv Hc; apply cfb_step; assumption)).
  specialize (Hloop ltac:(
    intros i st (Hext & Hnext & done & regv & Hi & Hmem & _ & _ & HR) Hc;
    cbv beta in Hc; apply Nat.ltb_ge in Hc;
    assert (Hz : (L - i = 0)%nat) by lia; rewrite Hz in Hmem, HR;
    split; [exact Hext | split; [exact Hnext|]];
    cbn [repeat] in Hmem; rewrite app_nil_r in Hmem;
    rewrite Hmem; cbn [cfb_blocks bind] in HR; rewrite app_nil_r in HR;
    split; [exact HR | lia])).
  specialize (Hloop (S L) 0%nat st1 ltac:(lia)).
  assert (Hinv0 : cfb_inv R 0 st1).
  { split; [|split].
    - split; [cbn; unfold out_addr, reg_addr; lia|]. intros a Ha. unfold st1. cbn [mem].
      upd_simpl ltac:(unfold reg_addr, out_addr in *; lia). reflexivity.
    - cbn. unfold reg_addr. lia.
    - exists [], IV. cbn [length app skipn].
      split; [reflexivity|]. unfold st1. cbn [mem].
      upd_simpl ltac:(unfold reg_addr, out_addr in *; lia).
      rewrite Nat.sub_0_r.
      split; [reflexivity|]. split; [reflexivity|]. split; [exact Hc0|].
      unfold R. destruct (cfb_blocks E blockSize seg decrypt L IV P); reflexivity. }
  specialize (Hloop Hinv0).
  unfold mbind, ret.
  destruct (for_loop (S L) (fun i => (i <? L)%nat) (fun i => (i + seg)%nat)
              (CFB.body c decrypt blockSize input register output) 0 st1)
    as [[u | e |] st2]; cbn [fst snd] in Hloop;
    destruct Hloop as (Hext & Hnext & Hres); cbn [fst snd];
    (split; [exact Hext|]).
  - destruct Hres as [HR Hlen]. split.
    + unfold outcome. cbn [fst snd]. unfold contents, output. cbn [base off len].
      pose proof (view_all (mem st2 out_addr)) as Hv. rewrite Hlen in Hv.
      rewrite Hv. symmetry. exact HR.
    + intros out Hout. apply Ok_inj in Hout. subst out. split; [|reflexivity].
      split; [unfold output, out_addr; cbn [base]; lia|].
      split; unfold output; cbn [base off len]; [unfold reg_addr, out_addr in *; lia | lia].
  - split; [symmetry; exact Hres|]. intros out H. discriminate.
  - split; [symmetry; exact Hres|]. intros out H. discriminate.
Qed.

End CFB_refinement.

Lemma cfb_blocks_inverse (E : list Z -> result (list Z)) (bs seg : nat) :
  (0 < seg <= bs)%nat -> returns_blocks E bs ->
  (forall b, length b = bs -> exists k, E b = Ok k) ->
  forall n reg P, length reg = bs -> (length P <= n)%nat ->
    exists Ct, cfb_blocks E bs seg false n reg P = Ok Ct /\ length Ct = length P /\
               cfb_blocks E bs seg true n reg Ct = Ok P.
Proof.
  intros Hseg HE Htot. induction n as [| n IH]; intros reg P Hc HP.
  - destruct P; [|cbn in HP; lia]. exists []. repeat split.
  - destruct P as [| x P]; [exists []; repeat split|].
    set (Q := x :: P) in *.
    destruct (Htot reg Hc) as [enc Henc]. pose proof (HE _ _ Henc) as Hel.
    set (chunk := firstn seg Q).
    assert (Hcl : length chunk = Nat.min seg (length Q))
      by (unfold chunk; apply length_firstn).
    set (X := Mem.xor_lists chunk (firstn (length chunk) enc)).
    assert (HX : length X = Nat.min seg (length Q)).
    { unfold X. rewrite xor_lists_length, length_firstn. lia. }
    destruct (IH (cfb_feedback bs seg reg X) (skipn seg Q)) as (Ct & HCt & HCl & HCi).
    { apply cfb_feedback_length; lia. }
    { rewrite length_skipn. unfold Q in *. cbn [length] in *. lia. }
    exists (X ++ Ct).
    assert (Hrun : cfb_blocks E bs seg false (S n) reg Q = Ok (X ++ Ct)).
    { unfold Q. cbn [cfb_blocks]. fold Q. rewrite Henc. cbn [bind]. cbv zeta.
      fold chunk. fold X. rewrite HCt. reflexivity. }
    split; [exact Hrun|]. split.
    { rewrite length_app, HX, HCl, length_skipn. lia. }
    assert (Hne : exists y Y, X ++ Ct = y :: Y).
    { destruct X as [| y X']; [cbn in HX; unfold Q in HX; cbn [length] in HX; lia|].
      exists y, (X' ++ Ct). reflexivity. }
    destruct Hne as (y & Y & Hy).
    assert (Hf : firstn seg (X ++ Ct) = X /\ skipn seg (X ++ Ct) = Ct).
    { destruct (Nat.le_ge_cases seg (length Q)) as [Hle | Hge].
      - rewrite Nat.min_l in HX by exact Hle.
        split; [apply firstn_exact | apply skipn_exact]; exact HX.
      - rewrite Nat.min_r in HX by exact Hge.
        rewrite length_skipn in HCl.
        assert (Ct = []) by (apply length_zero_iff_nil; lia).
        subst Ct. rewrite app_nil_r.
        split; [apply firstn_all2 | apply skipn_all2]; lia. }
    destruct Hf as [Hf1 Hf2].
    cbn [cfb_blocks]. rewrite Hy. rewrite <- Hy. rewrite Henc. cbn [bind]. cbv zeta.
    rewrite Hf1, Hf2, HX, <- Hcl, HCi. cbn [bind].
    unfold X. rewrite xor_lists_cancel_le by (rewrite length_firstn; lia).
    unfold chunk. rewrite firstn_skipn. reflexivity.
Qed.

Lemma NewCFB_holds (C : BlockCipher) (st : Mem.store) (iv0 : Mem.slice) :
  wf st iv0 -> Mem.len iv0 = cipher_BlockSize C -> (0 < cipher_BlockSize C)%nat ->
  exists c st1,
    CFB.NewCFB C iv0 st = (Ok c, st1) /\
    CFB.cipher c = C /\
    CFB.segmentSize c = cipher_BlockSize C /\
    cfb_holds st1 c (Mem.contents st iv0) /\
    extends st st1.
Proof.
  intros Hwf Hlen Hpos. unfold CFB.NewCFB.
  assert (E : (Mem.len iv0 =? cipher_BlockSize C)%nat = true)
    by (apply Nat.eqb_eq; exact Hlen).
  rewrite E. cbn [negb].
  rewrite run_make, run_copy. unfold Mem.ret.
  eexists. eexists. split; [reflexivity|]. split; [reflexivity|].
  split; [reflexivity|].
  pose proof (contents_length st iv0 Hwf) as HL.
  destruct Hwf as [Hb Ho].
  assert (Hc : Mem.contents
                 {| Mem.next := S (Mem.next st);
                    Mem.mem := Mem.upd (Mem.mem st) (Mem.next st)
                                 (repeat 0 (Mem.len iv0)) |} iv0
               = Mem.contents st iv0).
  { unfold Mem.contents. cbn [Mem.mem]. rewrite upd_other by lia. reflexivity. }
  rewrite Hc. cbn [Mem.base Mem.off Mem.len Mem.next Mem.mem]. rewrite !upd_same.
  rewrite (patch_full _ (Mem.contents st iv0)) by (rewrite ?repeat_length; auto).
  unfold cfb_holds, wf.
  cbn [CFB.iv CFB.cipher CFB.segmentSize Mem.base Mem.off Mem.len Mem.next Mem.mem].
  split.
  - split; [|split; [|split]].
    + split; [lia|]. rewrite upd_same. lia.
    + exact Hlen.
    + unfold Mem.contents at 1. cbn [Mem.base Mem.off Mem.len Mem.mem].
      rewrite upd_same. apply view_full. exact HL.
    + lia.
  - split; cbn [Mem.next Mem.mem]; [lia|]. intros a Ha.
    rewrite !upd_other by lia. reflexivity.
Qed.

Lemma cfb_holds_frame (st st' : Mem.store) (c : CFB.CFB) (IV : list Z) :
  cfb_holds st c IV -> extends st st' -> cfb_holds st' c IV.
Proof.
  intros (Hwf & Hlen & Hc & Hs) Hext. split; [|split; [|split]].
  - apply (extends_wf st); assumption.
  - exact Hlen.
  - rewrite <- Hc. apply extends_contents; [exact Hext | apply Hwf].
  - exact Hs.
Qed.

(** CFB with any valid segment size: [NewCFB] with an IV of one block and
    [WithSegmentSize(s)] with [1 <= s <= blockSize] succeed and, for a
    cipher that encrypts every block into a block, [Decrypt] returns the
    bytes that [Encrypt] was given, for a plaintext of every length; the
    stored IV is unchanged by the calls.  A segment size below 1 or above
    the block size is refused with [ErrInvalidBlockSize]. *)
Theorem CFB_round_trip (C : BlockCipher) (st : Mem.store) (iv0 p : Mem.slice)
    (s : Z) :
  (0 < cipher_BlockSize C)%nat ->
  returns_blocks (cipher_Encrypt C) (cipher_BlockSize C) ->
  (forall b, length b = cipher_BlockSize C -> exists k, cipher_Encrypt C b = Ok k) ->
  wf st iv0 -> wf st p ->
  Mem.len iv0 = cipher_BlockSize C ->
  exists c0 st1,
    CFB.NewCFB C iv0 st = (Ok c0, st1) /\
    ((s <= 0 \/ Z.of_nat (cipher_BlockSize C) < s) ->
       CFB.WithSegmentSize c0 s = Err ErrInvalidBlockSize) /\
    (0 < s <= Z.of_nat (cipher_BlockSize C) ->
       exists c ct st2 pt st3,
         CFB.WithSegmentSize c0 s = Ok c /\
         CFB.Encrypt c p st1 = (Ok ct, st2) /\
         CFB.Decrypt c ct st2 = (Ok pt, st3) /\
         Mem.len ct = Mem.len p /\
         Mem.contents st3 pt = Mem.contents st p /\
         cfb_holds st3 c (Mem.contents st iv0)).
Proof.
  intros Hbs HE Htot Hwc Hwp Hlen.
  destruct (NewCFB_holds C st iv0 Hwc Hlen Hbs)
    as (c0 & st1 & Hnew & Hcc & Hsg & Hholds0 & Hext0).
  exists c0, st1. split; [exact Hnew|]. split.
  { intros Hbad. unfold CFB.WithSegmentSize. rewrite Hcc.
    assert (E : ((s <=? 0) || (Z.of_nat (cipher_BlockSize C) <? s)) = true).
    { apply Bool.orb_true_iff. destruct Hbad; [left; apply Z.leb_le | right; apply Z.ltb_lt];
        assumption. }
    rewrite E. reflexivity. }
  intros Hs.
  set (c := CFB.mkCFB (CFB.cipher c0) (CFB.iv c0) (Z.to_nat s)).
  assert (Hws : CFB.WithSegmentSize c0 s = Ok c).
  { unfold CFB.WithSegmentSize. rewrite Hcc.
    assert (E : ((s <=? 0) || (Z.of_nat (cipher_BlockSize C) <? s)) = false).
    { apply Bool.orb_false_iff. split; [apply Z.leb_gt | apply Z.ltb_ge]; lia. }
    rewrite E. unfold c. rewrite Hcc. reflexivity. }
  assert (Hcc' : CFB.cipher c = C) by exact Hcc.
  assert (Hholds : cfb_holds st1 c (Mem.contents st iv0)).
  { destruct Hholds0 as (H1 & H2 & H3 & _). unfold c.
    split; [exact H1|]. split; [exact H2|]. split; [exact H3|].
    cbn [CFB.segmentSize CFB.cipher]. rewrite Hcc. lia. }
  assert (Hseg : (0 < CFB.segmentSize c <= cipher_BlockSize C)%nat).
  { cbn [CFB.segmentSize c]. lia. }
  pose proof (contents_length st iv0 Hwc) as HLc. rewrite Hlen in HLc.
  destruct (cfb_blocks_inverse _ _ _ Hseg HE Htot (length (Mem.contents st p))
              (Mem.contents st iv0) (Mem.contents st p) HLc (Nat.le_refl _))
    as (Ct & HCt & HCl & HCi).
  assert (Hwp1 : wf st1 p) by (apply (extends_wf st); assumption).
  assert (Hp1 : Mem.contents st1 p = Mem.contents st p)
    by (apply extends_contents; [assumption | apply Hwp]).
  unfold CFB.Encrypt, CFB.Decrypt.
  destruct (CFB_crypt_refines c false p st1 _ Hholds Hwp1) as (Hext1 & Hout1 & Hfresh1).
  { rewrite Hcc'. exact HE. }
  rewrite Hcc', Hp1 in Hout1. unfold cfb_bytes in Hout1.
  rewrite HCt in Hout1. apply outcome_Ok in Hout1.
  destruct Hout1 as (ct & Hrun1 & Hct).
  set (st2 := snd (CFB.crypt c false p st1)) in *.
  rewrite Hrun1 in Hfresh1. cbn [fst] in Hfresh1.
  destruct (Hfresh1 ct eq_refl) as ((_ & Hwf2) & Hlen2).
  pose proof (cfb_holds_frame _ _ _ _ Hholds Hext1) as Hholds2.
  destruct (CFB_crypt_refines c true ct st2 _ Hholds2 Hwf2) as (Hext2 & Hout2 & _).
  { rewrite Hcc'. exact HE. }
  rewrite Hcc', Hct in Hout2. unfold cfb_bytes in Hout2.
  rewrite HCl, HCi in Hout2. apply outcome_Ok in Hout2.
  destruct Hout2 as (pt & Hrun2 & Hpt).
  exists c, ct, st2, pt, (snd (CFB.crypt c true ct st2)).
  split; [exact Hws|]. split; [exact Hrun1|]. split; [exact Hrun2|].
  split; [exact Hlen2|]. split; [exact Hpt|].
  apply (cfb_holds_frame st2); assumption.
Qed.

Lemma CFB_round_trip_witness :
  exists c0 st1,
    CFB.NewCFB (RC5_cipher example_RC5) (whole 0 example_iv) example_store'
    = (Ok c0, st1) /\
    ((3 <= 0 \/ Z.of_nat (cipher_BlockSize (RC5_cipher example_RC5)) < 3) ->
       CFB.WithSegmentSize c0 3 = Err ErrInvalidBlockSize) /\
    (0 < 3 <= Z.of_nat (cipher_BlockSize (RC5_cipher example_RC5)) ->
       exists c ct st2 pt st3,
         CFB.WithSegmentSize c0 3 = Ok c /\
         CFB.Encrypt c (whole 1 example_text) st1 = (Ok ct, st2) /\
         CFB.Decrypt c ct st2 = (Ok pt, st3) /\
         Mem.len ct = Mem.len (whole 1 example_text) /\
         Mem.contents st3 pt = Mem.contents example_store' (whole 1 example_text) /\
         cfb_holds st3 c (Mem.contents example_store' (whole 0 example_iv))).
Proof.
  apply CFB_round_trip.
  - vm_compute. lia.
  - apply example_RC5_ok.
  - exact example_RC5_total.
  - apply example_store'_wf.
  - apply example_store'_wf.
  - vm_compute. reflexivity.
Defined.

(** ** SM3: the lengths that are hashed *)

Section SM3_total.
Import SM3.

Lemma copy_at_length (xs : list Z) (off : nat) (src : list Z) :
  length (Slice.copy_at xs off src) = length xs.
Proof.
  unfold Slice.copy_at, Slice.copy.
  rewrite !length_app, !length_firstn, !length_skipn. lia.
Qed.

Lemma copy_length (xs src : list Z) : length (Slice.copy xs src) = length xs.
Proof.
  unfold Slice.copy. rewrite length_app, length_firstn, length_skipn. lia.
Qed.

Lemma block_length (hs p : list Z) : length (block hs p) = 8%nat.
Proof.
  unfold block, list_of_regs.
  destruct (block_loop _ _ _) as [[[[[[[a b] c0] d0] e] f] g] hh]. reflexivity.
Qed.

(** A digest between calls: the buffer has 64 bytes, fewer than 64 of them
    are in use, the state has eight words. *)
Let ready (d : digest) : Prop :=
  (nx d < 64)%nat /\ length (x d) = 64%nat /\ length (h d) = 8%nat.

Lemma Write_ready (d : digest) (p : list Z) :
  ready d ->
  ready (Write d p) /\ nx (Write d p) = ((nx d + length p) mod 64)%nat.
Proof.
  intros (Hnx & Hx & Hh). unfold Write.
  destruct (0 <? nx d)%nat eqn:E0.
  - apply Nat.ltb_lt in E0.
    set (n := Slice.copy_n (skipn (nx d) (x d)) p).
    assert (Hn : n = Nat.min (64 - nx d) (length p)).
    { unfold n, Slice.copy_n. rewrite length_skipn, Hx. reflexivity. }
    pose proof (copy_at_length (x d) (nx d) p) as Hxb.
    destruct (nx d + n =? 64)%nat eqn:E1.
    + apply Nat.eqb_eq in E1.
      assert (Hp1 : length (skipn n p) = (length p - n)%nat) by apply length_skipn.
      destruct (64 <=? length (skipn n p))%nat eqn:E2.
      * assert (Hp2 : length (skipn (length (skipn n p) / 64 * 64) (skipn n p))
                      = (length (skipn n p) mod 64)%nat).
        { rewrite length_skipn. pose proof (Nat.div_mod_eq (length (skipn n p)) 64). lia. }
        destruct (0 <? length (skipn (length (skipn n p) / 64 * 64) (skipn n p)))%nat eqn:E3;
          cbn [nx x h]; unfold ready; cbn [nx x h].
        -- unfold Slice.copy_n. rewrite copy_length, Hxb, Hx, Hp2, block_length.
           pose proof (Nat.mod_upper_bound (length (skipn n p)) 64 ltac:(lia)).
           rewrite Hp1 in *. repeat split; try lia.
           rewrite Nat.min_r by lia.
           replace (nx d + length p)%nat with (length p - n + 1 * 64)%nat by lia.
           rewrite Nat.Div0.mod_add. reflexivity.
        -- apply Nat.ltb_ge in E3. rewrite Hxb, Hx, block_length.
           repeat split; try lia. rewrite Hp2, Hp1 in E3.
           replace (nx d + length p)%nat with (length p - n + 1 * 64)%nat by lia.
           rewrite Nat.Div0.mod_add. lia.
      * apply Nat.leb_gt in E2.
        destruct (0 <? length (skipn n p))%nat eqn:E3;
          cbn [nx x h]; unfold ready; cbn [nx x h].
        -- unfold Slice.copy_n. rewrite copy_length, Hxb, Hx, block_length.
           repeat split; try lia. rewrite Nat.min_r by lia. rewrite Hp1.
           replace (nx d + length p)%nat with (length p - n + 1 * 64)%nat by lia.
           rewrite Nat.Div0.mod_add. rewrite Nat.mod_small by lia. reflexivity.
        -- apply Nat.ltb_ge in E3. rewrite Hxb, Hx, block_length.
           repeat split; try lia.
           replace (nx d + length p)%nat with (0 + 1 * 64)%nat by lia.
           rewrite Nat.Div0.mod_add. reflexivity.
    + apply Nat.eqb_neq in E1.
      assert (Hnp : n = length p) by lia.
      assert (Hp1 : skipn n p = []) by (apply skipn_all2; lia).
      rewrite Hp1. cbn [length Nat.leb Nat.ltb nx x h]. unfold ready. cbn [nx x h].
      rewrite Hxb, Hx. repeat split; try lia.
      rewrite Nat.mod_small by lia. lia.
  - apply Nat.ltb_ge in E0. assert (Hz : nx d = 0%nat) by lia.
    destruct (64 <=? length p)%nat eqn:E2.
    + assert (Hp2 : length (skipn (length p / 64 * 64) p) = (length p mod 64)%nat).
      { rewrite length_skipn. pose proof (Nat.div_mod_eq (length p) 64). lia. }
      pose proof (Nat.mod_upper_bound (length p) 64 ltac:(lia)).
      destruct (0 <? length (skipn (length p / 64 * 64) p))%nat eqn:E3;
        cbn [nx x h]; unfold ready; cbn [nx x h].
      * unfold Slice.copy_n. rewrite copy_length, Hx, Hp2, block_length, Hz.
        repeat split; try lia. rewrite Nat.min_r by lia. reflexivity.
      * apply Nat.ltb_ge in E3. rewrite Hx, block_length, Hz.
        rewrite Hp2 in E3. cbn [Nat.add]. repeat split; try lia.
    + apply Nat.leb_gt in E2.
      destruct (0 <? length p)%nat eqn:E3;
        cbn [nx x h]; unfold ready; cbn [nx x h].
      * unfold Slice.copy_n. rewrite copy_length, Hx, Hz.
        repeat split; try lia. rewrite Nat.min_r by lia.
        rewrite Nat.mod_small by lia. reflexivity.
      * apply Nat.ltb_ge in E3. rewrite Hx, Hz. cbn [Nat.add].
        repeat split; try lia. rewrite Nat.mod_small by lia. lia.
Qed.

Lemma digest_bytes (hs : list Z) :
  bytes (flat_map Word.be_put_uint32 hs) /\
  length (flat_map Word.be_put_uint32 hs) = (4 * length hs)%nat.
Proof.
  induction hs as [| v hs [IHb IHl]]; [split; [constructor | reflexivity]|].
  cbn [flat_map]. split.
  - apply bytes_app; [|exact IHb].
    unfold Word.be_put_uint32, Word.wrap8.
    repeat constructor; apply Z.mod_pos_bound; lia.
  - rewrite length_app, IHl. cbn [length Word.be_put_uint32]. lia.
Qed.

Lemma checkSum_returns (d : digest) :
  ready d -> 0 <= len d < 2 ^ 61 ->
  Z.of_nat (nx d) = len d mod 64 -> len d mod 64 <> 55 ->
  exists hash, checkSum d = Some hash /\ length hash = 32%nat /\ bytes hash.
Proof.
  intros Hr Hlen Hnx Hne. unfold checkSum.
  rewrite padLen_range by lia.
  pose proof (Z.mod_pos_bound (len d + 9) 64 ltac:(lia)) as Hb.
  assert (Hr9 : (len d + 9) mod 64 <> 0).
  { intros H0. apply Hne.
    pose proof (Z.div_mod (len d + 9) 64 ltac:(lia)) as D1.
    pose proof (Z.div_mod (len d) 64 ltac:(lia)) as D2.
    pose proof (Z.mod_pos_bound (len d) 64 ltac:(lia)). lia. }
  set (pl := 64 - (len d + 9) mod 64) in *.
  assert (E : ((1 + pl <? 0) || (64 <? 1 + pl)) = false).
  { apply Bool.orb_false_iff. split; [apply Z.ltb_ge | apply Z.ltb_ge]; lia. }
  rewrite E.
  set (pad := firstn (Z.to_nat (1 + pl)) (128 :: repeat 0 63)).
  assert (Hpad : length pad = Z.to_nat (1 + pl)).
  { unfold pad. rewrite length_firstn. cbn [length]. rewrite repeat_length. lia. }
  destruct (Write_ready d pad Hr) as [Hr1 Hnx1].
  set (d1 := Write d pad) in *.
  set (tail := firstn 8 _).
  assert (Htail : length tail = 8%nat).
  { unfold tail. rewrite length_firstn, copy_length. cbn [length].
    rewrite repeat_length. reflexivity. }
  destruct (Write_ready d1 tail Hr1) as [Hr2 Hnx2].
  set (d2 := Write d1 tail) in *.
  assert (Hz : nx d2 = 0%nat).
  { rewrite Hnx2, Hnx1, Hpad, Htail.
    rewrite Nat.Div0.add_mod_idemp_l.
    apply Nat2Z.inj. rewrite Nat2Z.inj_mod.
    rewrite !Nat2Z.inj_add, Hnx, Z2Nat.id by lia.
    change (Z.of_nat 8) with 8. change (Z.of_nat 64) with 64. change (Z.of_nat 0) with 0.
    unfold pl.
    pose proof (Z.div_mod (len d + 9) 64 ltac:(lia)) as D1.
    pose proof (Z.div_mod (len d) 64 ltac:(lia)) as D2.
    replace (len d mod 64 + (1 + (64 - (len d + 9) mod 64)) + 8)
      with (64 * ((len d + 9) / 64 - len d / 64 + 1)) by lia.
    rewrite Z.mul_comm. apply Z.mod_mul. lia. }
  rewrite Hz. cbn [Nat.eqb negb].
  destruct Hr2 as (_ & _ & Hh2).
  destruct (digest_bytes (h d2)) as [Hbytes Hl].
  eexists. split; [reflexivity|]. split; [rewrite Hl, Hh2; reflexivity | exact Hbytes].
Qed.

End SM3_total.

(** [Sum] returns a digest of 32 bytes for every message whose length is
    not congruent to 55 modulo 64, and panics on the others: the lengths
    on which [checkSum] fails are exactly those. *)
Theorem SM3_Sum_digest_or_panic (data : list Z) :
  Z.of_nat (length data) < 2 ^ 61 ->
  (Z.of_nat (length data) mod 64 <> 55 ->
     exists hash, SM3.Sum data = Some hash /\ length hash = 32%nat /\ bytes hash) /\
  (Z.of_nat (length data) mod 64 = 55 -> SM3.Sum data = None).
Proof.
  intros Hlen. split.
  - intros Hne. unfold SM3.Sum.
    assert (Hr0 : (SM3.nx (SM3.Reset SM3.zero_digest) < 64)%nat /\
                  length (SM3.x (SM3.Reset SM3.zero_digest)) = 64%nat /\
                  length (SM3.h (SM3.Reset SM3.zero_digest)) = 8%nat).
    { cbn. repeat split; lia. }
    destruct (Write_ready _ data Hr0) as [Hr Hnx].
    pose proof (Write_len (SM3.Reset SM3.zero_digest) data) as Hl.
    cbn [SM3.len SM3.nx SM3.Reset Nat.add] in Hl, Hnx. rewrite Z.add_0_l in Hl.
    unfold Word.wrap64 in Hl. rewrite Z.mod_small in Hl by lia.
    apply checkSum_returns.
    + exact Hr.
    + rewrite Hl. lia.
    + rewrite Hl, Hnx. rewrite Nat2Z.inj_mod. reflexivity.
    + rewrite Hl. exact Hne.
  - intros He. apply Sum_panics_on_55_mod_64; [lia | exact He].
Qed.

Lemma SM3_Sum_digest_or_panic_witness :
  (Z.of_nat (length (repeat 7 200)) mod 64 <> 55 ->
     exists hash, SM3.Sum (repeat 7 200) = Some hash /\ length hash = 32%nat /\
                  bytes hash) /\
  (Z.of_nat (length (repeat 7 200)) mod 64 = 55 -> SM3.Sum (repeat 7 200) = None).
Proof.
  apply SM3_Sum_digest_or_panic. vm_compute. reflexivity.
Defined.

(** ** Padding: whole blocks, and nothing but a prefix back *)

Section Padding_blocks.

Variable x : list Z.
Variable B : Z.
Hypothesis HB : 1 <= B.

Lemma with_padding_blocks (padtext : Z -> list Z) :
  (forall k, 1 <= k <= B -> length (padtext k) = Z.to_nat k) ->
  pads_to_blocks (fun d b => Padding.with_padding d b padtext) x B.
Proof.
  intros Hlen. unfold pads_to_blocks, Padding.with_padding.
  destruct (pad_count_pos x B HB) as [Hc Hr]. rewrite Hc.
  eexists. split; [reflexivity|].
  rewrite length_app, Hlen by exact Hr.
  rewrite Nat2Z.inj_add, Z2Nat.id by lia.
  replace (Z.of_nat (length x) + (B - Z.of_nat (length x) mod B))
    with (1 * B + (Z.of_nat (length x) - Z.of_nat (length x) mod B)) by lia.
  rewrite Z.add_comm, Z.mod_add by lia.
  rewrite Zminus_mod_idemp_r, Z.sub_diag. apply Z.mod_0_l. lia.
Qed.

Lemma M2_blocks : pads_to_blocks Padding.M2Padding x B.
Proof.
  unfold pads_to_blocks, Padding.M2Padding, Padding.with_padding.
  destruct (pad_count_pos x B HB) as [Hc Hr]. rewrite Hc.
  eexists. split; [reflexivity|].
  rewrite length_app, repeat_length.
  pose proof (Z.mod_pos_bound (Z.of_nat (length x)) B ltac:(lia)) as Hm.
  destruct (B - Z.of_nat (length x) mod B =? B) eqn:E.
  - apply Z.eqb_eq in E. cbn. rewrite Nat.add_0_r. lia.
  - apply Z.eqb_neq in E.
    rewrite Nat2Z.inj_add, Z2Nat.id by lia.
    replace (Z.of_nat (length x) + (B - Z.of_nat (length x) mod B))
      with (1 * B + (Z.of_nat (length x) - Z.of_nat (length x) mod B)) by lia.
    rewrite Z.add_comm, Z.mod_add by lia.
    rewrite Zminus_mod_idemp_r, Z.sub_diag. apply Z.mod_0_l. lia.
Qed.

Lemma files_blocks (b : Z) :
  pads_to_blocks
    (fun d bs =>
       match PaddingFiles.pad_count d bs with
       | Ok padding0 =>
           let padding := if padding0 =? 0 then bs else padding0 in
           Ok (d ++ repeat b (Z.to_nat padding))
       | Err e => Err e
       | Panic => Panic
       end) x B.
Proof.
  unfold pads_to_blocks. rewrite (files_pad_count_pos x B HB).
  destruct (pad_count_pos x B HB) as [_ Hr].
  assert (E : (B - Z.of_nat (length x) mod B =? 0) = false) by (apply Z.eqb_neq; lia).
  cbv zeta. rewrite E.
  eexists. split; [reflexivity|].
  rewrite length_app, repeat_length.
  rewrite Nat2Z.inj_add, Z2Nat.id by lia.
  replace (Z.of_nat (length x) + (B - Z.of_nat (length x) mod B))
    with (1 * B + (Z.of_nat (length x) - Z.of_nat (length x) mod B)) by lia.
  rewrite Z.add_comm, Z.mod_add by lia.
  rewrite Zminus_mod_idemp_r, Z.sub_diag. apply Z.mod_0_l. lia.
Qed.

End Padding_blocks.

(** Every padding function but [NoPadding] returns its input followed by
    padding bytes, a whole number of blocks in all, for every input and
    every block size [B >= 1]. *)
Theorem padding_fills_blocks (x : list Z) (B : Z) :
  1 <= B ->
  pads_to_blocks Padding.PKCS7Padding x B /\
  pads_to_blocks Padding.M1Padding x B /\
  pads_to_blocks Padding.M2Padding x B /\
  pads_to_blocks Padding.ISO7816Padding x B /\
  pads_to_blocks Padding.ANSIX923Padding x B /\
  pads_to_blocks Padding.ZeroPadding x B /\
  pads_to_blocks Padding.TBCPadding x B /\
  pads_to_blocks PaddingFiles.PKCS7Padding x B /\
  pads_to_blocks PaddingFiles.ZeroPadding x B.
Proof.
  intros HB.
  assert (Hcopy : forall n src, length (Slice.copy (repeat 0 n) src) = n).
  { intros n src. unfold Slice.copy.
    rewrite length_app, length_firstn, length_skipn, repeat_length. lia. }
  assert (Hcopy_at : forall n off src,
            length (Slice.copy_at (repeat 0 n) off src) = n).
  { intros n off src. unfold Slice.copy_at, Slice.copy.
    rewrite !length_app, !length_firstn, !length_skipn, repeat_length. lia. }
  repeat split.
  - apply (with_padding_blocks x B HB). intros k Hk. apply repeat_length.
  - apply (with_padding_blocks x B HB). intros k Hk.
    rewrite length_app, repeat_length. cbn [length]. lia.
  - apply M2_blocks. exact HB.
  - apply (with_padding_blocks x B HB). intros k Hk. apply Hcopy.
  - apply (with_padding_blocks x B HB). intros k Hk. apply Hcopy_at.
  - apply (with_padding_blocks x B HB). intros k Hk. apply repeat_length.
  - apply (with_padding_blocks x B HB). intros k Hk. apply repeat_length.
  - unfold PaddingFiles.PKCS7Padding.
    destruct (pad_count_pos x B HB) as [_ Hr].
    pose proof (files_pad_count_pos x B HB) as Hc.
    unfold pads_to_blocks. rewrite Hc.
    assert (E : (B - Z.of_nat (length x) mod B =? 0) = false) by (apply Z.eqb_neq; lia).
    cbv zeta. rewrite E. eexists. split; [reflexivity|].
    destruct (files_blocks x B HB 0) as (tail & Ht & Hm).
    rewrite Hc in Ht. cbv zeta in Ht. rewrite E in Ht.
    apply Ok_inj in Ht. apply app_inv_head in Ht. subst tail.
    rewrite length_app, repeat_length in *. exact Hm.
  - exact (files_blocks x B HB 0).
Qed.

Lemma padding_fills_blocks_witness :
  pads_to_blocks Padding.PKCS7Padding [1; 2; 3] 8 /\
  pads_to_blocks Padding.M1Padding [1; 2; 3] 8 /\
  pads_to_blocks Padding.M2Padding [1; 2; 3] 8 /\
  pads_to_blocks Padding.ISO7816Padding [1; 2; 3] 8 /\
  pads_to_blocks Padding.ANSIX923Padding [1; 2; 3] 8 /\
  pads_to_blocks Padding.ZeroPadding [1; 2; 3] 8 /\
  pads_to_blocks Padding.TBCPadding [1; 2; 3] 8 /\
  pads_to_blocks PaddingFiles.PKCS7Padding [1; 2; 3] 8 /\
  pads_to_blocks PaddingFiles.ZeroPadding [1; 2; 3] 8.
Proof. apply padding_fills_blocks. lia. Defined.

Lemma firstn_prefix (k : nat) (d r : list Z) :
  r = firstn k d -> exists t, d = r ++ t.
Proof. intros ->. exists (skipn k d). symmetry. apply firstn_skipn. Qed.

Lemma marker_scan_prefix (bad : error) (d : list Z) (n : nat) (r : list Z) :
  Padding.marker_scan bad d n = Ok r -> exists t, d = r ++ t.
Proof.
  induction n as [| i IH]; cbn [Padding.marker_scan]; [discriminate|].
  destruct (nth i d 0 =? 128).
  - intros H. apply Ok_inj in H. apply (firstn_prefix i). symmetry. exact H.
  - destruct (negb (nth i d 0 =? 0)); [discriminate | exact IH].
Qed.

Lemma zero_scan_prefix (d : list Z) (n : nat) (r : list Z) :
  Padding.zero_scan d n = Ok r -> exists t, d = r ++ t.
Proof.
  induction n as [| i IH]; cbn [Padding.zero_scan]; [discriminate|].
  destruct (negb (nth i d 0 =? 0)).
  - intros H. apply Ok_inj in H. apply (firstn_prefix (i + 1)). symmetry. exact H.
  - exact IH.
Qed.

Lemma tbc_scan_prefix (cpl : Z) (d : list Z) (n : nat) (r : list Z) :
  Padding.tbc_scan cpl d n = Ok r -> exists t, d = r ++ t.
Proof.
  induction n as [| i IH]; cbn [Padding.tbc_scan]; [discriminate|].
  destruct (negb (nth i d 0 =? cpl)).
  - intros H. apply Ok_inj in H. apply (firstn_prefix (i + 1)). symmetry. exact H.
  - exact IH.
Qed.

Lemma files_zero_scan_prefix (d : list Z) (n : nat) :
  exists t, d = PaddingFiles.zero_scan d n ++ t.
Proof.
  induction n as [| i IH]; cbn [PaddingFiles.zero_scan]; [exists d; reflexivity|].
  destruct (negb (nth i d 0 =? 0)); [|exact IH].
  apply (firstn_prefix (i + 1)). reflexivity.
Qed.

(** No unpadding function invents or alters data: what it returns is the
    beginning of its input, for every input, valid padding or not. *)
Theorem unpadding_returns_prefix (d : list Z) :
  returns_prefix Padding.PKCS7UnPadding d /\
  returns_prefix Padding.PKCS5UnPadding d /\
  returns_prefix Padding.ISO7816UnPadding d /\
  returns_prefix Padding.ANSIX923UnPadding d /\
  returns_prefix Padding.ZeroUnPadding d /\
  returns_prefix Padding.M1UnPadding d /\
  returns_prefix Padding.M2UnPadding d /\
  returns_prefix Padding.TBCUnPadding d /\
  returns_prefix PaddingFiles.PKCS7Unpadding d /\
  (exists t, d = PaddingFiles.ZeroUnpadding d ++ t).
Proof.
  assert (H7 : returns_prefix Padding.PKCS7UnPadding d).
  { intros r. unfold Padding.PKCS7UnPadding.
    destruct (length d =? 0)%nat; [discriminate|].
    destruct (length d <? _)%nat; [discriminate|].
    intros H. apply Ok_inj in H. eapply firstn_prefix. symmetry. exact H. }
  assert (HZ : returns_prefix Padding.ZeroUnPadding d).
  { intros r. unfold Padding.ZeroUnPadding.
    destruct (length d =? 0)%nat; [discriminate|]. apply zero_scan_prefix. }
  repeat split; try assumption.
  - intros r. unfold Padding.ISO7816UnPadding.
    destruct (length d =? 0)%nat; [discriminate|]. apply marker_scan_prefix.
  - intros r. unfold Padding.ANSIX923UnPadding.
    destruct (length d =? 0)%nat; [discriminate|].
    destruct (length d <? _)%nat; [discriminate|].
    destruct (existsb _ _); [discriminate|].
    intros H. apply Ok_inj in H. eapply firstn_prefix. symmetry. exact H.
  - intros r. unfold Padding.M1UnPadding.
    destruct (length d =? 0)%nat; [discriminate|]. apply marker_scan_prefix.
  - intros r. unfold Padding.TBCUnPadding.
    destruct (length d =? 0)%nat; [discriminate|]. apply tbc_scan_prefix.
  - intros r. unfold PaddingFiles.PKCS7Unpadding.
    destruct (length d =? 0)%nat; [discriminate|].
    destruct (length d <? _)%nat; [discriminate|].
    destruct (existsb _ _); [discriminate|].
    intros H. apply Ok_inj in H. eapply firstn_prefix. symmetry. exact H.
  - apply files_zero_scan_prefix.
Qed.

Lemma unpadding_returns_prefix_witness :
  returns_prefix Padding.PKCS7UnPadding [1; 2; 3; 2] /\
  returns_prefix Padding.PKCS5UnPadding [1; 2; 3; 2] /\
  returns_prefix Padding.ISO7816UnPadding [1; 2; 3; 2] /\
  returns_prefix Padding.ANSIX923UnPadding [1; 2; 3; 2] /\
  returns_prefix Padding.ZeroUnPadding [1; 2; 3; 2] /\
  returns_prefix Padding.M1UnPadding [1; 2; 3; 2] /\
  returns_prefix Padding.M2UnPadding [1; 2; 3; 2] /\
  returns_prefix Padding.TBCUnPadding [1; 2; 3; 2] /\
  returns_prefix PaddingFiles.PKCS7Unpadding [1; 2; 3; 2] /\
  (exists t, [1; 2; 3; 2] = PaddingFiles.ZeroUnpadding [1; 2; 3; 2] ++ t).
Proof. apply unpadding_returns_prefix. Defined.

(** ** Padding: M1(+0) and ISO 10126 *)

(** [M1PlusZeroPadding] appends 0x80 and between 0 and [B - 1] zero bytes,
    up to a whole number of blocks, and both scans for the 0x80 marker,
    [M1UnPadding] and [ISO7816UnPadding], recover the data. *)
Theorem M1PlusZero_round_trip (x : list Z) (B : Z) :
  1 <= B ->
  exists k,
    0 <= k < B /\
    PaddingRest.M1PlusZeroPadding x B = Ok (x ++ 0x80 :: repeat 0 (Z.to_nat k)) /\
    (Z.of_nat (length x) + 1 + k) mod B = 0 /\
    Padding.M1UnPadding (x ++ 0x80 :: repeat 0 (Z.to_nat k)) = Ok x /\
    Padding.ISO7816UnPadding (x ++ 0x80 :: repeat 0 (Z.to_nat k)) = Ok x.
Proof.
  intros HB.
  set (r := (Z.of_nat (length x) + 1) mod B).
  pose proof (Z.mod_pos_bound (Z.of_nat (length x) + 1) B ltac:(lia)) as Hr. fold r in Hr.
  exists ((B - r) mod B).
  pose proof (Z.mod_pos_bound (B - r) B ltac:(lia)) as Hk.
  split; [exact Hk|].
  assert (Hun : forall k', 0 <= k' ->
            Padding.M1UnPadding (x ++ 128 :: repeat 0 (Z.to_nat k')) = Ok x /\
            Padding.ISO7816UnPadding (x ++ 128 :: repeat 0 (Z.to_nat k')) = Ok x).
  { intros k' Hk'. unfold Padding.M1UnPadding, Padding.ISO7816UnPadding.
    rewrite length_app. cbn [length]. rewrite repeat_length.
    replace (length x + S (Z.to_nat k') =? 0)%nat with false
      by (symmetry; apply Nat.eqb_neq; lia).
    replace (length x + S (Z.to_nat k'))%nat
      with (length x + 1 + Z.to_nat k')%nat by lia.
    split; apply marker_scan_padded; lia. }
  assert (Hpad : PaddingRest.M1PlusZeroPadding x B
                 = Ok (x ++ 128 :: repeat 0 (Z.to_nat ((B - r) mod B)))).
  { unfold PaddingRest.M1PlusZeroPadding.
    replace (B =? 0) with false by (symmetry; apply Z.eqb_neq; lia).
    rewrite length_app. cbn [length]. rewrite Nat2Z.inj_add.
    change (Z.of_nat 1) with 1.
    rewrite Z.rem_mod_nonneg by lia. fold r.
    destruct (B - r =? B) eqn:E.
    - apply Z.eqb_eq in E. assert (Hz : r = 0) by lia. rewrite Hz.
      rewrite Z.sub_0_r, Z.mod_same by lia. reflexivity.
    - apply Z.eqb_neq in E.
      replace (B - r <? 0) with false by (symmetry; apply Z.ltb_ge; lia).
      rewrite Z.mod_small by lia. rewrite <- app_assoc. reflexivity. }
  split; [exact Hpad|]. split.
  - rewrite <- Z.add_mod_idemp_l by lia. fold r.
    rewrite Z.add_mod_idemp_r by lia.
    replace (r + (B - r)) with (1 * B) by lia. apply Z.mod_mul. lia.
  - apply Hun. lia.
Qed.

Lemma M1PlusZero_round_trip_witness :
  exists k,
    0 <= k < 8 /\
    PaddingRest.M1PlusZeroPadding [1; 2; 3] 8
    = Ok ([1; 2; 3] ++ 0x80 :: repeat 0 (Z.to_nat k)) /\
    (Z.of_nat (length [1; 2; 3]) + 1 + k) mod 8 = 0 /\
    Padding.M1UnPadding ([1; 2; 3] ++ 0x80 :: repeat 0 (Z.to_nat k)) = Ok [1; 2; 3] /\
    Padding.ISO7816UnPadding ([1; 2; 3] ++ 0x80 :: repeat 0 (Z.to_nat k)) = Ok [1; 2; 3].
Proof. apply M1PlusZero_round_trip. lia. Defined.

(** ISO 10126: the padding is random bytes and a last byte that counts
    them all; [PKCS7UnPadding], which looks at the last byte only, recovers
    the data whatever the random bytes are, for block sizes up to 255. *)
Theorem ISO10126_round_trip (rand : nat -> result (list Z)) (x : list Z) (B : Z) :
  fills rand -> 1 <= B <= 255 ->
  exists padded,
    PaddingRest.ISO10126Padding rand x B = Ok padded /\
    Z.of_nat (length padded) mod B = 0 /\
    Padding.PKCS7UnPadding padded = Ok x.
Proof.
  intros Hrand HB. unfold PaddingRest.ISO10126Padding.
  destruct (pad_count_pos x B ltac:(lia)) as [Hc Hr]. rewrite Hc.
  set (padding := B - Z.of_nat (length x) mod B) in *.
  destruct (Hrand (Z.to_nat (padding - 1))) as (random & Hrnd & Hlen).
  rewrite Hrnd. eexists. split; [reflexivity|].
  set (padtext := Slice.copy_at _ _ _).
  assert (Hpl : length padtext = Z.to_nat padding).
  { unfold padtext, Slice.copy_at, Slice.copy.
    rewrite !length_app, !length_firstn, !length_skipn, !length_app,
      !length_firstn, !length_skipn, repeat_length. cbn [length]. lia. }
  assert (Hlast : nth (Z.to_nat padding - 1) padtext 0 = padding).
  { unfold padtext, Slice.copy_at.
    set (buf := Slice.copy (repeat 0 (Z.to_nat padding)) random).
    assert (Hbl : length buf = Z.to_nat padding).
    { unfold buf, Slice.copy.
      rewrite length_app, length_firstn, length_skipn, repeat_length. lia. }
    rewrite app_nth2 by (rewrite length_firstn; lia).
    rewrite length_firstn, Hbl.
    replace (Z.to_nat padding - 1 - Nat.min (Z.to_nat (padding - 1)) (Z.to_nat padding))%nat
      with 0%nat by lia.
    unfold Slice.copy. rewrite length_skipn, Hbl.
    replace (Z.to_nat padding - Z.to_nat (padding - 1))%nat with 1%nat by lia.
    cbn [firstn app nth]. unfold Word.wrap8. apply Z.mod_small. lia. }
  split.
  - rewrite length_app, Hpl, Nat2Z.inj_add, Z2Nat.id by lia. unfold padding.
    replace (Z.of_nat (length x) + (B - Z.of_nat (length x) mod B))
      with (1 * B + (Z.of_nat (length x) - Z.of_nat (length x) mod B)) by lia.
    rewrite Z.add_comm, Z.mod_add by lia.
    rewrite Zminus_mod_idemp_r, Z.sub_diag. apply Z.mod_0_l. lia.
  - unfold Padding.PKCS7UnPadding. rewrite length_app, Hpl.
    replace (length x + Z.to_nat padding =? 0)%nat with false
      by (symmetry; apply Nat.eqb_neq; lia).
    replace (length x + Z.to_nat padding - 1)%nat
      with (length x + (Z.to_nat padding - 1))%nat by lia.
    rewrite nth_app_at, Hlast.
    replace (length x + Z.to_nat padding <? Z.to_nat padding)%nat with false
      by (symmetry; apply Nat.ltb_ge; lia).
    replace (length x + Z.to_nat padding - Z.to_nat padding)%nat with (length x) by lia.
    rewrite firstn_app_exact. reflexivity.
Qed.

Lemma ISO10126_round_trip_witness :
  exists padded,
    PaddingRest.ISO10126Padding (fun n => Ok (repeat 0xab n)) [1; 2; 3] 8 = Ok padded /\
    Z.of_nat (length padded) mod 8 = 0 /\
    Padding.PKCS7UnPadding padded = Ok [1; 2; 3].
Proof.
  apply ISO10126_round_trip.
  - intros n. exists (repeat 0xab n). split; [reflexivity | apply repeat_length].
  - lia.
Defined.
